(** * AVL tree (SCG82/avl): a heap-level embedding of [src/index.ts] and
    [src/utils.ts], and the verification of its specification.

    Nodes are JavaScript objects that point at each other ([parent], [left],
    [right]); the embedding keeps them in a store indexed by references and
    threads the store, the tree's [_root] and [_size] through a small
    state-and-exception monad.  Loops take their iteration bound from the
    number of objects in the store: a walk along distinct objects cannot be
    longer, so running out of the bound stands for a loop that does not end. *)

From Stdlib Require Import ZArith Lia.
From stdpp Require Import gmap list strings sorting.

Open Scope Z_scope.
Set Default Proof Using "Type".
Set Warnings "-clear-no-such-hyp".

Abbreviation ptr := positive.

(** ** Objects, the tree and the monad *)

Section Embedding.

Context {K V : Type}.

(** [type Node<K, V>] of [types.ts]; an absent [value] is [None]. *)
Record Node : Type := mkNode {
  parent : option ptr;
  left : option ptr;
  right : option ptr;
  balanceFactor : Z;
  key : K;
  value : option V
}.

(** The object store together with the private fields of [class AVLTree]. *)
Record AVLTree : Type := mkTree {
  heap : gmap ptr Node;
  _root : option ptr;
  _size : Z
}.

Inductive result (A : Type) : Type :=
| Done (a : A) (st : AVLTree)
| Thrown (msg : string) (st : AVLTree)
| Stuck.

Definition M (A : Type) : Type := AVLTree → result A.

Definition ret {A} (a : A) : M A := λ st, Done A a st.

Definition bind {A B} (m : M A) (f : A → M B) : M B :=
  λ st, match m st with
        | Done _ a st' => f a st'
        | Thrown _ msg st' => Thrown B msg st'
        | Stuck _ => Stuck B
        end.

Definition throw {A} (msg : string) : M A := λ st, Thrown A msg st.
Definition stuck {A} : M A := λ _, Stuck A.

End Embedding.

Arguments Node : clear implicits.
Arguments AVLTree : clear implicits.
Arguments result : clear implicits.
Arguments M : clear implicits.
Arguments Done {K V A} a st.
Arguments Thrown {K V A} msg st.
Arguments Stuck {K V A}.

Declare Scope avl_scope.
Notation "x ← y ; z" := (bind y (λ x, z))
  (at level 20, y at level 100, z at level 200, only parsing) : avl_scope.
Notation "' x ← y ; z" := (bind y (λ x, z))
  (at level 20, x pattern, y at level 100, z at level 200, only parsing) : avl_scope.
Notation "x ;; z" := (bind x (λ _, z))
  (at level 100, z at level 200, only parsing, right associativity) : avl_scope.

Section Primitives.

Context {K V : Type}.
#[local] Abbreviation Node := (Node K V).
#[local] Abbreviation AVLTree := (AVLTree K V).
#[local] Abbreviation M := (M K V).

(** Reading a field of the object behind a reference. *)
Definition fld {A} (f : Node → A) (p : ptr) : M A :=
  λ st, match heap st !! p with
        | Some n => Done (f n) st
        | None => Stuck
        end.

Definition modify (p : ptr) (f : Node → Node) : M unit :=
  λ st, match heap st !! p with
        | Some n => Done tt (mkTree (<[p := f n]> (heap st)) (_root st) (_size st))
        | None => Stuck
        end.

Definition with_parent (x : option ptr) (n : Node) : Node :=
  mkNode x (left n) (right n) (balanceFactor n) (key n) (value n).
Definition with_left (x : option ptr) (n : Node) : Node :=
  mkNode (parent n) x (right n) (balanceFactor n) (key n) (value n).
Definition with_right (x : option ptr) (n : Node) : Node :=
  mkNode (parent n) (left n) x (balanceFactor n) (key n) (value n).
Definition with_bf (x : Z) (n : Node) : Node :=
  mkNode (parent n) (left n) (right n) x (key n) (value n).
Definition with_key (x : K) (n : Node) : Node :=
  mkNode (parent n) (left n) (right n) (balanceFactor n) x (value n).
Definition with_value (x : option V) (n : Node) : Node :=
  mkNode (parent n) (left n) (right n) (balanceFactor n) (key n) x.

Definition setParent (p : ptr) (x : option ptr) : M unit := modify p (with_parent x).
Definition setLeft (p : ptr) (x : option ptr) : M unit := modify p (with_left x).
Definition setRight (p : ptr) (x : option ptr) : M unit := modify p (with_right x).
Definition setBF (p : ptr) (x : Z) : M unit := modify p (with_bf x).
Definition setKey (p : ptr) (x : K) : M unit := modify p (with_key x).
Definition setValue (p : ptr) (x : option V) : M unit := modify p (with_value x).

(** An object literal: a reference that the store does not hold yet. *)
Definition alloc (n : Node) : M ptr :=
  λ st, let p := fresh (dom (heap st)) in
        Done p (mkTree (<[p := n]> (heap st)) (_root st) (_size st)).

Definition getRoot : M (option ptr) := λ st, Done (_root st) st.
Definition setRoot (r : option ptr) : M unit :=
  λ st, Done tt (mkTree (heap st) r (_size st)).
Definition getSize : M Z := λ st, Done (_size st) st.
Definition setSize (n : Z) : M unit :=
  λ st, Done tt (mkTree (heap st) (_root st) n).

(** The iteration bound of the loops: one more than the number of objects. *)
Definition getFuel : M nat := λ st, Done (S (size (heap st))) st.

Definition when (b : bool) (m : M unit) : M unit := if b then m else ret tt.

Definition whenSome {A} (o : option A) (f : A → M unit) : M unit :=
  match o with Some a => f a | None => ret tt end.

Definition same (a b : option ptr) : bool := bool_decide (a = b).

End Primitives.

(** ** [utils.ts] *)

Section Utils.

Context {K V : Type}.
#[local] Open Scope avl_scope.
#[local] Abbreviation Node := (Node K V).
#[local] Abbreviation AVLTree := (AVLTree K V).
#[local] Abbreviation M := (M K V).

(** [rotateLeft(node)] *)
Definition rotateLeft (node : ptr) : M (option ptr) :=
  r ← fld right node;
  match r with
  | None => ret None
  | Some rightNode =>
    rl ← fld left rightNode;
    setRight node rl ;;
    rl ← fld left rightNode;
    whenSome rl (λ x, setParent x (Some node)) ;;
    np ← fld parent node;
    setParent rightNode np ;;
    rp ← fld parent rightNode;
    whenSome rp (λ rp,
      rpl ← fld left rp;
      if same rpl (Some node) then setLeft rp (Some rightNode)
      else setRight rp (Some rightNode)) ;;
    setParent node (Some rightNode) ;;
    setLeft rightNode (Some node) ;;
    nb ← fld balanceFactor node;
    setBF node (nb + 1) ;;
    rb ← fld balanceFactor rightNode;
    when (rb <? 0) (nb ← fld balanceFactor node; setBF node (nb - rb)) ;;
    rb ← fld balanceFactor rightNode;
    setBF rightNode (rb + 1) ;;
    nb ← fld balanceFactor node;
    when (0 <? nb) (rb ← fld balanceFactor rightNode; setBF rightNode (rb + nb)) ;;
    ret (Some rightNode)
  end.

(** [rotateRight(node)] *)
Definition rotateRight (node : ptr) : M (option ptr) :=
  l ← fld left node;
  match l with
  | None => ret None
  | Some leftNode =>
    lr ← fld right leftNode;
    setLeft node lr ;;
    nl ← fld left node;
    whenSome nl (λ x, setParent x (Some node)) ;;
    np ← fld parent node;
    setParent leftNode np ;;
    lp ← fld parent leftNode;
    whenSome lp (λ lp,
      lpl ← fld left lp;
      if same lpl (Some node) then setLeft lp (Some leftNode)
      else setRight lp (Some leftNode)) ;;
    setParent node (Some leftNode) ;;
    setRight leftNode (Some node) ;;
    nb ← fld balanceFactor node;
    setBF node (nb - 1) ;;
    lb ← fld balanceFactor leftNode;
    when (0 <? lb) (nb ← fld balanceFactor node; setBF node (nb - lb)) ;;
    lb ← fld balanceFactor leftNode;
    setBF leftNode (lb - 1) ;;
    nb ← fld balanceFactor node;
    when (nb <? 0) (lb ← fld balanceFactor leftNode; setBF leftNode (lb + nb)) ;;
    ret (Some leftNode)
  end.

(** [height(node)] *)
Fixpoint height (fuel : nat) (node : option ptr) : M Z :=
  match node with
  | None => ret 0
  | Some n =>
    match fuel with
    | O => stuck
    | S fuel =>
      l ← fld left n;
      hl ← height fuel l;
      r ← fld right n;
      hr ← height fuel r;
      ret (1 + Z.max hl hr)
    end
  end.

(** [isBalanced(root)], with the short-circuit of [&&]. *)
Fixpoint isBalanced_rec (fuel : nat) (root : option ptr) : M bool :=
  match root with
  | None => ret true
  | Some n =>
    match fuel with
    | O => stuck
    | S fuel =>
      l ← fld left n;
      lh ← height fuel l;
      r ← fld right n;
      rh ← height fuel r;
      if Z.abs (lh - rh) <=? 1 then
        l ← fld left n;
        bl ← isBalanced_rec fuel l;
        if bl then r ← fld right n; isBalanced_rec fuel r else ret false
      else ret false
    end
  end.

(** [keys[i]]: [None] is JavaScript's [undefined]. *)
Definition index {A} (l : list A) (i : Z) : option A :=
  if i <? 0 then None else l !! Z.to_nat i.

(** [loadRecursive(parent, keys, values, start, end)].  An [undefined] key
    is outside the key type: the model stops there. *)
Fixpoint loadRecursive (fuel : nat) (parent : option ptr) (keys : list K)
    (values : list V) (start end_ : Z) : M (option ptr) :=
  let size := end_ - start in
  if 0 <? size then
    match fuel with
    | O => stuck
    | S fuel =>
      let middle := start + size / 2 in
      match index keys middle with
      | None => stuck
      | Some key =>
        let value := index values middle in
        node ← alloc (mkNode parent None None 0 key value);
        l ← loadRecursive fuel (Some node) keys values start middle;
        setLeft node l ;;
        r ← loadRecursive fuel (Some node) keys values (middle + 1) end_;
        setRight node r ;;
        ret (Some node)
      end
    end
  else ret None.

(** [markBalance(node)] *)
Fixpoint markBalance (fuel : nat) (node : option ptr) : M Z :=
  match node with
  | None => ret 0
  | Some n =>
    match fuel with
    | O => stuck
    | S fuel =>
      l ← fld left n;
      lh ← markBalance fuel l;
      r ← fld right n;
      rh ← markBalance fuel r;
      setBF n (lh - rh) ;;
      ret (Z.max lh rh + 1)
    end
  end.

End Utils.

(** [sort(keys, values, left, right, compare)] works on the caller's
    arrays, not on the tree, and writes to them in place; [None] is a run
    that does not end or that reads past an array. *)
Section Sort.

Context {K V : Type} (compare : K → K → Z).

(** The arrays that a caller hands to [load] and [sort] as [keys] and
    [values]: two arrays, or one array handed over for both.  In the second
    case a write to [values] is a write to [keys]; [view] reads an element
    of the one array at the type of the values. *)
Inductive arrays : Type :=
| Apart (keys : list K) (values : list V)
| Same (both : list K) (view : K → V).

(** The contents of [keys] and of [values]. *)
Definition keysOf (a : arrays) : list K :=
  match a with Apart keys _ => keys | Same both _ => both end.

Definition valuesOf (a : arrays) : list V :=
  match a with Apart _ values => values | Same both view => view <$> both end.

(** [do i++ while (compare(keys[i], pivot) < 0)] *)
Fixpoint scan_up (fuel : nat) (keys : list K) (pivot : K) (i : Z) : option Z :=
  match fuel with
  | O => None
  | S fuel =>
    let i := i + 1 in
    k ← index keys i;
    if compare k pivot <? 0 then scan_up fuel keys pivot i else Some i
  end.

(** [do j-- while (compare(keys[j], pivot) > 0)] *)
Fixpoint scan_down (fuel : nat) (keys : list K) (pivot : K) (j : Z) : option Z :=
  match fuel with
  | O => None
  | S fuel =>
    let j := j - 1 in
    k ← index keys j;
    if 0 <? compare k pivot then scan_down fuel keys pivot j else Some j
  end.

(** [tmp = a[i]; a[i] = a[j]; a[j] = tmp] on one array. *)
Definition swap {A} (l : list A) (i j : Z) : option (list A) :=
  x ← index l i;
  y ← index l j;
  Some (<[Z.to_nat j := x]> (<[Z.to_nat i := y]> l)).

(** [tmpK = keys[i]; keys[i] = keys[j]; keys[j] = tmpK] *)
Definition swapKeys (a : arrays) (i j : Z) : option arrays :=
  match a with
  | Apart keys values => keys ← swap keys i j; Some (Apart keys values)
  | Same both view => both ← swap both i j; Some (Same both view)
  end.

(** [tmpV = values[i]; values[i] = values[j]; values[j] = tmpV]: on the
    one array again, when it is handed over for both. *)
Definition swapValues (a : arrays) (i j : Z) : option arrays :=
  match a with
  | Apart keys values => values ← swap values i j; Some (Apart keys values)
  | Same both view => both ← swap both i j; Some (Same both view)
  end.

(** The [while (true)] loop of [sort]; it returns the arrays and [j]. *)
Fixpoint partition (fuel inner : nat) (a : arrays) (pivot : K) (i j : Z)
    : option (arrays * Z) :=
  match fuel with
  | O => None
  | S fuel =>
    i ← scan_up inner (keysOf a) pivot i;
    j ← scan_down inner (keysOf a) pivot j;
    if j <=? i then Some (a, j)
    else
      a ← swapKeys a i j;
      a ← swapValues a i j;
      partition fuel inner a pivot i j
  end.

Fixpoint sort (fuel : nat) (a : arrays) (left right : Z) : option arrays :=
  if right <=? left then Some a
  else
    match fuel with
    | O => None
    | S fuel =>
      pivot ← index (keysOf a) (Z.shiftr (left + right) 1);
      let inner := S (S (length (keysOf a))) in
      '(a, j) ← partition inner inner a pivot (left - 1) (right + 1);
      a ← sort fuel a left j;
      sort fuel a (j + 1) right
    end.

End Sort.

Arguments arrays : clear implicits.
Arguments Apart {K V} keys values.
Arguments Same {K V} both view.

(** ** [class AVLTree] of [index.ts] *)

Section Methods.

Context {K V : Type}.
#[local] Open Scope avl_scope.
#[local] Abbreviation Node := (Node K V).
#[local] Abbreviation AVLTree := (AVLTree K V).
#[local] Abbreviation M := (M K V).

(** [this._comparator] and [this._noDuplicates], fixed by the constructor;
    [falsy key] is JavaScript's [!key]. *)
Variable compare : K → K → Z.
Variable falsy : K → bool.
Variable noDuplicates : bool.

(** [new AVLTree(comparator, noDuplicates)] *)
Definition empty : AVLTree := mkTree ∅ None 0.

(** [clear()] *)
Definition clear : M unit := setRoot None ;; setSize 0.

(** [destroy()] *)
Definition destroy : M unit := clear.

(** The [while (node)] loop of [has]. *)
Fixpoint has_loop (fuel : nat) (k : K) (node : option ptr) : M bool :=
  match node with
  | None => ret false
  | Some n =>
    match fuel with
    | O => stuck
    | S fuel =>
      nk ← fld key n;
      let cmp := compare k nk in
      if cmp =? 0 then ret true
      else if cmp <? 0 then l ← fld left n; has_loop fuel k l
      else r ← fld right n; has_loop fuel k r
    end
  end.

(** [has(key)] *)
Definition has (k : K) : M bool :=
  root ← getRoot;
  match root with
  | Some _ => fuel ← getFuel; has_loop fuel k root
  | None => ret false
  end.

(** The [while (!done)] loop of [forEach]; [acc] is what the callback's
    closure holds. *)
Fixpoint forEach_loop {A} (fuel : nat) (callback : ptr → Z → A → M (bool * A))
    (node : option ptr) (s : list ptr) (i : Z) (acc : A) : M A :=
  match fuel with
  | O => stuck
  | S fuel =>
    match node with
    | Some n => l ← fld left n; forEach_loop fuel callback l (n :: s) i acc
    | None =>
      match s with
      | n :: s =>
        '(done, acc) ← callback n i acc;
        r ← fld right n;
        if done : bool then ret acc
        else forEach_loop fuel callback r s (i + 1) acc
      | [] => ret acc
      end
    end
  end.

(** A traversal pushes and pops every object once. *)
Definition getFuel2 : M nat := fuel ← getFuel; ret (2 * fuel)%nat.

(** [forEach(callback)] *)
Definition forEach {A} (callback : ptr → Z → A → M (bool * A)) (acc : A) : M A :=
  root ← getRoot;
  fuel ← getFuel2;
  forEach_loop fuel callback root [] 0 acc.



(** The loop shared by the generators [keys], [values] and [entries], run
    until the generator is exhausted; [yield] is what each step yields. *)
Fixpoint generate {A} (fuel : nat) (yield : Node → A) (node : option ptr)
    (s : list ptr) : M (list A) :=
  match fuel with
  | O => stuck
  | S fuel =>
    match node with
    | Some n => l ← fld left n; generate fuel yield l (n :: s)
    | None =>
      match s with
      | n :: s =>
        y ← fld yield n;
        r ← fld right n;
        rest ← generate fuel yield r s;
        ret (y :: rest)
      | [] => ret []
      end
    end
  end.

(** [keys()] *)
Definition keys : M (list K) :=
  root ← getRoot; fuel ← getFuel2; generate fuel key root [].

(** [values()] *)
Definition values : M (list (option V)) :=
  root ← getRoot; fuel ← getFuel2; generate fuel value root [].

(** [entries()] *)
Definition entries : M (list (K * option V)) :=
  root ← getRoot; fuel ← getFuel2; generate fuel (λ n, (key n, value n)) root [].

(** [at(index)] *)
Definition at_ (index : Z) : M (option ptr) :=
  forEach (λ node i r, if i =? index then ret (true, Some node) else ret (false, r)) None.

(** [while (node.left) node = node.left] *)
Fixpoint leftmost (fuel : nat) (node : ptr) : M ptr :=
  l ← fld left node;
  match l with
  | None => ret node
  | Some l => match fuel with O => stuck | S fuel => leftmost fuel l end
  end.

(** [while (node.right) node = node.right] *)
Fixpoint rightmost (fuel : nat) (node : ptr) : M ptr :=
  r ← fld right node;
  match r with
  | None => ret node
  | Some r => match fuel with O => stuck | S fuel => rightmost fuel r end
  end.

(** [minNode()] *)
Definition minNode : M (option ptr) :=
  root ← getRoot;
  match root with
  | None => ret None
  | Some node => fuel ← getFuel; m ← leftmost fuel node; ret (Some m)
  end.

(** [maxNode()] *)
Definition maxNode : M (option ptr) :=
  root ← getRoot;
  match root with
  | None => ret None
  | Some node => fuel ← getFuel; m ← rightmost fuel node; ret (Some m)
  end.

(** [min()] *)
Definition min : M (option K) :=
  node ← minNode;
  match node with
  | None => ret None
  | Some n => k ← fld key n; ret (Some k)
  end.

(** [max()] *)
Definition max : M (option K) :=
  node ← maxNode;
  match node with
  | None => ret None
  | Some n => k ← fld key n; ret (Some k)
  end.

(** [isEmpty()] *)
Definition isEmpty : M bool :=
  root ← getRoot; ret (bool_decide (root = None)).

(** The loop of [get]. *)
Fixpoint get_loop (fuel : nat) (k : K) (node : option ptr) : M (option V) :=
  match node with
  | None => ret None
  | Some n =>
    match fuel with
    | O => stuck
    | S fuel =>
      nk ← fld key n;
      let cmp := compare k nk in
      if cmp =? 0 then fld value n
      else if cmp <? 0 then l ← fld left n; get_loop fuel k l
      else r ← fld right n; get_loop fuel k r
    end
  end.

(** [get(key)] *)
Definition get (k : K) : M (option V) :=
  root ← getRoot; fuel ← getFuel; get_loop fuel k root.

(** The descent of [set] when [_noDuplicates] is on: [inl tt] is the
    [return this] after the update in place, [inr (parent, cmp)] the state
    of the two variables when the loop ends. *)
Fixpoint set_descend_unique (fuel : nat) (k : K) (v : option V)
    (node parent0 : option ptr) (cmp : Z) : M (unit + option ptr * Z) :=
  match node with
  | None => ret (inr (parent0, cmp))
  | Some n =>
    match fuel with
    | O => stuck
    | S fuel =>
      nk ← fld key n;
      let cmp := compare k nk in
      if cmp =? 0 then setValue n v ;; ret (inl tt)
      else if cmp <? 0 then
        l ← fld left n; set_descend_unique fuel k v l (Some n) cmp
      else
        r ← fld right n; set_descend_unique fuel k v r (Some n) cmp
    end
  end.

(** The descent of [set] when duplicates are allowed. *)
Fixpoint set_descend (fuel : nat) (k : K) (node parent0 : option ptr) (cmp : Z)
    : M (unit + option ptr * Z) :=
  match node with
  | None => ret (inr (parent0, cmp))
  | Some n =>
    match fuel with
    | O => stuck
    | S fuel =>
      nk ← fld key n;
      let cmp := compare k nk in
      if cmp <=? 0 then l ← fld left n; set_descend fuel k l (Some n) cmp
      else r ← fld right n; set_descend fuel k r (Some n) cmp
    end
  end.

(** [o?.balanceFactor === x] *)
Definition bfIs (o : option ptr) (x : Z) : M bool :=
  match o with
  | Some q => b ← fld balanceFactor q; ret (b =? x)
  | None => ret false
  end.

(** The two rebalancing branches shared by [set] and [delete]; each returns
    [newRoot]. *)
Definition fixRightHeavy (p : ptr) : M (option ptr) :=
  pr ← fld right p;
  c ← bfIs pr 1;
  when c (pr ← fld right p; whenSome pr (λ q, rotateRight q ;; ret tt)) ;;
  newRoot ← rotateLeft p;
  root ← getRoot;
  when (same (Some p) root) (setRoot newRoot) ;;
  ret newRoot.

Definition fixLeftHeavy (p : ptr) : M (option ptr) :=
  pl ← fld left p;
  c ← bfIs pl (-1);
  when c (pl ← fld left p; whenSome pl (λ q, rotateLeft q ;; ret tt)) ;;
  newRoot ← rotateRight p;
  root ← getRoot;
  when (same (Some p) root) (setRoot newRoot) ;;
  ret newRoot.

(** The [while (parent)] loop of [set]. *)
Fixpoint set_rebalance (fuel : nat) (k : K) (parent0 : option ptr) : M unit :=
  match parent0 with
  | None => ret tt
  | Some p =>
    match fuel with
    | O => stuck
    | S fuel =>
      pk ← fld key p;
      let cmp := compare pk k in
      b ← fld balanceFactor p;
      (if cmp <? 0 then setBF p (b - 1) else setBF p (b + 1)) ;;
      b ← fld balanceFactor p;
      if b =? 0 then ret tt
      else if b <? -1 then fixRightHeavy p ;; ret tt
      else if 1 <? b then fixLeftHeavy p ;; ret tt
      else pp ← fld parent p; set_rebalance fuel k pp
    end
  end.

(** [set(key, value)] *)
Definition set (k : K) (v : option V) : M unit :=
  root ← getRoot;
  match root with
  | None =>
    r ← alloc (mkNode None None None 0 k v);
    setRoot (Some r) ;;
    n ← getSize; setSize (n + 1)
  | Some _ =>
    fuel ← getFuel;
    d ← (if noDuplicates then set_descend_unique fuel k v root None 0
         else set_descend fuel k root None 0);
    match d with
    | inl _ => ret tt
    | inr (None, _) => throw "failed to find parent node for insert"%string
    | inr (Some p, cmp) =>
      newNode ← alloc (mkNode (Some p) None None 0 k v);
      (if cmp <=? 0 then setLeft p (Some newNode)
       else setRight p (Some newNode)) ;;
      fuel ← getFuel;
      set_rebalance fuel k (Some p) ;;
      n ← getSize; setSize (n + 1)
    end
  end.

(** [insert(key, value)] *)
Definition insert (k : K) (v : option V) : M unit := set k v.

(** The search loop of [delete]. *)
Fixpoint delete_find (fuel : nat) (k : K) (node : option ptr) : M (option ptr) :=
  match node with
  | None => ret None
  | Some n =>
    match fuel with
    | O => stuck
    | S fuel =>
      nk ← fld key n;
      let cmp := compare k nk in
      if cmp =? 0 then ret (Some n)
      else if cmp <? 0 then l ← fld left n; delete_find fuel k l
      else r ← fld right n; delete_find fuel k r
    end
  end.

(** [node.key = m.key; node.value = m.value] *)
Definition copyEntry (node m : ptr) : M unit :=
  mk ← fld key m; setKey node mk ;;
  mv ← fld value m; setValue node mv.

(** [while (max.left || max.right) { ... }] of [delete]; it returns the
    pair of [node] and [max]. *)
Fixpoint delete_shift_max (fuel inner : nat) (node max : ptr) : M (ptr * ptr) :=
  ml ← fld left max;
  mr ← fld right max;
  if bool_decide (ml = None) && bool_decide (mr = None) then ret (node, max)
  else
    match fuel with
    | O => stuck
    | S fuel =>
      max ← rightmost inner max;
      copyEntry node max ;;
      ml ← fld left max;
      match ml with
      | Some ml => delete_shift_max fuel inner max ml
      | None => delete_shift_max fuel inner node max
      end
    end.

(** [while (min.left || min.right) { ... }] of [delete]. *)
Fixpoint delete_shift_min (fuel inner : nat) (node min : ptr) : M (ptr * ptr) :=
  ml ← fld left min;
  mr ← fld right min;
  if bool_decide (ml = None) && bool_decide (mr = None) then ret (node, min)
  else
    match fuel with
    | O => stuck
    | S fuel =>
      min ← leftmost inner min;
      copyEntry node min ;;
      mr ← fld right min;
      match mr with
      | Some mr => delete_shift_min fuel inner min mr
      | None => delete_shift_min fuel inner node min
      end
    end.

(** The [while (parent)] loop of [delete]. *)
Fixpoint delete_rebalance (fuel : nat) (parent0 pp : option ptr) : M unit :=
  match parent0 with
  | None => ret tt
  | Some p =>
    match fuel with
    | O => stuck
    | S fuel =>
      pl ← fld left p;
      b ← fld balanceFactor p;
      (if same pl pp then setBF p (b - 1) else setBF p (b + 1)) ;;
      b ← fld balanceFactor p;
      parent1 ← (if b <? -1 then fixRightHeavy p
                else if 1 <? b then fixLeftHeavy p
                else ret (Some p));
      c1 ← bfIs parent1 (-1);
      c2 ← bfIs parent1 1;
      if c1 || c2 then ret tt
      else
        next ← match parent1 with
               | Some q => fld parent q
               | None => ret None
               end;
        delete_rebalance fuel next parent1
    end
  end.

(** [delete(key)] *)
Definition delete (k : K) : M bool :=
  root ← getRoot;
  if bool_decide (root = None) || falsy k then ret false
  else
    fuel ← getFuel;
    found ← delete_find fuel k root;
    match found with
    | None => ret false
    | Some node =>
      nl ← fld left node;
      node ← match nl with
             | Some max =>
               r ← delete_shift_max fuel fuel node max;
               copyEntry r.1 r.2 ;;
               ret r.2
             | None => ret node
             end;
      nr ← fld right node;
      node ← match nr with
             | Some min =>
               r ← delete_shift_min fuel fuel node min;
               copyEntry r.1 r.2 ;;
               ret r.2
             | None => ret node
             end;
      np ← fld parent node;
      delete_rebalance fuel np (Some node) ;;
      np ← fld parent node;
      whenSome np (λ np,
        npl ← fld left np;
        if same npl (Some node) then setLeft np None else setRight np None) ;;
      root ← getRoot;
      when (same (Some node) root) (setRoot None) ;;
      n ← getSize; setSize (n - 1) ;;
      ret true
    end.

(** [shift()] *)
Definition shift : M (option (K * option V)) :=
  root ← getRoot;
  match root with
  | None => ret None
  | Some node =>
    fuel ← getFuel;
    node ← leftmost fuel node;
    nk ← fld key node;
    nv ← fld value node;
    nk' ← fld key node;
    delete nk' ;;
    ret (Some (nk, nv))
  end.

(** [pop()] *)
Definition pop : M (option (K * option V)) :=
  root ← getRoot;
  match root with
  | None => ret None
  | Some node =>
    fuel ← getFuel;
    node ← rightmost fuel node;
    nk ← fld key node;
    nv ← fld value node;
    nk' ← fld key node;
    delete nk' ;;
    ret (Some (nk, nv))
  end.

Definition liftOption {A} (o : option A) : M A :=
  match o with Some a => ret a | None => stuck end.

(** [load(keys, values, presort)] on the arrays [a]. *)
Definition load_arrays (a : arrays K V) (presort : bool) : M unit :=
  n ← getSize;
  if negb (n =? 0) then throw "bulk-load: tree is not empty"%string
  else
    let size := Z.of_nat (length (keysOf a)) in
    let fuel := S (length (keysOf a)) in
    a ← (if presort then liftOption (sort compare fuel a 0 (size - 1)) else ret a);
    r ← loadRecursive fuel None (keysOf a) (valuesOf a) 0 size;
    setRoot r ;;
    root ← getRoot;
    fuel ← getFuel;
    markBalance fuel root ;;
    setSize size.

(** [load(keys, values, presort)] with two arrays. *)
Definition load (ks : list K) (vs : list V) (presort : bool) : M unit :=
  load_arrays (Apart ks vs) presort.

(** [isBalanced()] *)
Definition isBalanced : M bool :=
  root ← getRoot; fuel ← getFuel; isBalanced_rec fuel root.

(** The loop [while (successor && successor.right === node)] of [next]. *)
Fixpoint next_climb (fuel : nat) (node : ptr) (successor : option ptr) : M (option ptr) :=
  match successor with
  | None => ret None
  | Some s =>
    r ← fld right s;
    if same r (Some node) then
      match fuel with
      | O => stuck
      | S fuel => p ← fld parent s; next_climb fuel s p
      end
    else ret (Some s)
  end.

(** [AVLTree.next(node)] *)
Definition next (node : option ptr) : M (option ptr) :=
  match node with
  | None => ret None
  | Some n =>
    r ← fld right n;
    match r with
    | Some r => fuel ← getFuel; m ← leftmost fuel r; ret (Some m)
    | None => p ← fld parent n; fuel ← getFuel; next_climb fuel n p
    end
  end.

(** The loop [while (predecessor && predecessor.left === node)] of [prev]. *)
Fixpoint prev_climb (fuel : nat) (node : ptr) (predecessor : option ptr) : M (option ptr) :=
  match predecessor with
  | None => ret None
  | Some s =>
    l ← fld left s;
    if same l (Some node) then
      match fuel with
      | O => stuck
      | S fuel => p ← fld parent s; prev_climb fuel s p
      end
    else ret (Some s)
  end.

(** [AVLTree.prev(node)] *)
Definition prev (node : option ptr) : M (option ptr) :=
  match node with
  | None => ret None
  | Some n =>
    l ← fld left n;
    match l with
    | Some l => fuel ← getFuel; m ← rightmost fuel l; ret (Some m)
    | None => p ← fld parent n; fuel ← getFuel; prev_climb fuel n p
    end
  end.

End Methods.

(** [DEFAULT_COMPARE] on integer keys, and [!key] for them. *)
Definition DEFAULT_COMPARE (a b : Z) : Z :=
  if b <? a then 1 else if a <? b then -1 else 0.

Definition falsyZ (k : Z) : bool := k =? 0.

(** ** The tree that a store holds

    [ptree] is the shape that the references of a store draw: every node
    with the reference of its object.  [PG] is a leaf whose entry [delete]
    has already moved away and that it has not unlinked yet: it still has its
    object and its place under its parent, and counts for nothing else. *)

Section Trees.

Context {K V : Type}.
#[local] Abbreviation Node := (Node K V).
#[local] Abbreviation AVLTree := (AVLTree K V).

Inductive ptree : Type :=
| PE
| PN (p : ptr) (l : ptree) (k : K) (v : option V) (b : Z) (r : ptree)
| PG (p : ptr) (k : K) (v : option V) (b : Z).

Definition root_ptr (t : ptree) : option ptr :=
  match t with
  | PE => None
  | PN p _ _ _ _ _ => Some p
  | PG p _ _ _ => Some p
  end.

Fixpoint ptrs (t : ptree) : list ptr :=
  match t with
  | PE => []
  | PN p l _ _ _ r => p :: ptrs l ++ ptrs r
  | PG p _ _ _ => [p]
  end.

(** No leaf is waiting to be unlinked. *)
Fixpoint clean (t : ptree) : Prop :=
  match t with
  | PE => True
  | PN _ l _ _ _ r => clean l ∧ clean r
  | PG _ _ _ _ => False
  end.

(** The objects of [h] are linked as [t] says, below the parent [par]. *)
Fixpoint wf (h : gmap ptr Node) (par : option ptr) (t : ptree) : Prop :=
  match t with
  | PE => True
  | PN p l k v b r =>
    h !! p = Some (mkNode par (root_ptr l) (root_ptr r) b k v)
    ∧ wf h (Some p) l ∧ wf h (Some p) r
  | PG p k v b => h !! p = Some (mkNode par None None b k v)
  end.

(** Reading the tree off the store, from the reference [p] down. *)
Fixpoint reify (fuel : nat) (h : gmap ptr Node) (par p : option ptr) : option ptree :=
  match p with
  | None => Some PE
  | Some p =>
    match fuel with
    | O => None
    | S fuel =>
      n ← h !! p;
      if bool_decide (parent n = par) then
        l ← reify fuel h (Some p) (left n);
        r ← reify fuel h (Some p) (right n);
        Some (PN p l (key n) (value n) (balanceFactor n) r)
      else None
    end
  end.

(** The tree below [_root]; [None] when the links do not form a tree with
    correct parent links. *)
Definition shape (st : AVLTree) : option ptree :=
  t ← reify (S (size (heap st))) (heap st) None (_root st);
  if bool_decide (NoDup (ptrs t)) then Some t else None.

(** [height(node)] of [utils.ts], on the shape. *)
Fixpoint theight (t : ptree) : Z :=
  match t with
  | PE => 0
  | PN _ l _ _ _ r => 1 + Z.max (theight l) (theight r)
  | PG _ _ _ _ => 0
  end.

(** The number of nodes. *)
Fixpoint count (t : ptree) : Z :=
  match t with
  | PE => 0
  | PN _ l _ _ _ r => 1 + count l + count r
  | PG _ _ _ _ => 0
  end.

(** The entries in order: left subtree, node, right subtree. *)
Fixpoint inorder (t : ptree) : list (K * option V) :=
  match t with
  | PE => []
  | PN _ l k v _ r => inorder l ++ (k, v) :: inorder r
  | PG _ _ _ _ => []
  end.

(** The nodes in order. *)
Fixpoint nodes (t : ptree) : list ptr :=
  match t with
  | PE => []
  | PN p l _ _ _ r => nodes l ++ p :: nodes r
  | PG _ _ _ _ => []
  end.

(** Every [balanceFactor] is the height of the left subtree minus the
    height of the right one, and lies in [[-1, 1]]. *)
Fixpoint avl (t : ptree) : Prop :=
  match t with
  | PE => True
  | PN _ l _ _ b r =>
    b = theight l - theight r ∧ -1 ≤ b ≤ 1 ∧ avl l ∧ avl r
  | PG _ _ _ _ => True
  end.

Section Order.

Variable compare : K → K → Z.

(** The order of the data model: the keys of a left subtree compare
    less-than-or-equal to the node's key, strictly less when [strict] (the
    mode that rejects duplicates), the keys of a right subtree greater. *)
Fixpoint bst (strict : bool) (t : ptree) : Prop :=
  match t with
  | PE => True
  | PN _ l k _ _ r =>
    Forall (λ e, if strict then compare e.1 k < 0 else compare e.1 k ≤ 0) (inorder l)
    ∧ Forall (λ e, 0 < compare e.1 k) (inorder r)
    ∧ bst strict l ∧ bst strict r
  | PG _ _ _ _ => True
  end.

(** The order that the code keeps when it allows duplicates: equal keys may
    sit on both sides. *)
Fixpoint bst_weak (t : ptree) : Prop :=
  match t with
  | PE => True
  | PN _ l k _ _ r =>
    Forall (λ e, compare e.1 k ≤ 0) (inorder l)
    ∧ Forall (λ e, 0 ≤ compare e.1 k) (inorder r)
    ∧ bst_weak l ∧ bst_weak r
  | PG _ _ _ _ => True
  end.

End Order.

End Trees.

Arguments ptree : clear implicits.

(** ** Running the monad *)

Section Run.

Context {K V : Type}.
#[local] Abbreviation Node := (Node K V).
#[local] Abbreviation AVLTree := (AVLTree K V).
#[local] Abbreviation M := (M K V).

Lemma run_ret {A B} (a : A) (k : A → M B) (st : AVLTree) : bind (ret a) k st = k a st.
Proof. reflexivity. Qed.

Lemma run_assoc {A B C} (m : M A) (f : A → M B) (g : B → M C) (st : AVLTree) :
  bind (bind m f) g st = bind m (λ x, bind (f x) g) st.
Proof. unfold bind. destruct (m st); reflexivity. Qed.

Lemma run_fld {A B} (f : Node → A) p (k : A → M B) (h : gmap ptr Node) R S n :
  h !! p = Some n →
  bind (fld f p) k (mkTree h R S) = k (f n) (mkTree h R S).
Proof. intros H. unfold bind, fld. simpl. rewrite H. reflexivity. Qed.

Lemma run_modify {B} g p (k : unit → M B) (h : gmap ptr Node) R S n :
  h !! p = Some n →
  bind (modify p g) k (mkTree h R S) = k tt (mkTree (<[p := g n]> h) R S).
Proof. intros H. unfold bind, modify. simpl. rewrite H. reflexivity. Qed.

Lemma run_fld_end {A} (f : Node → A) p (h : gmap ptr Node) R S n :
  h !! p = Some n → fld f p (mkTree h R S) = Done (f n) (mkTree h R S).
Proof. intros H. unfold fld. simpl. rewrite H. reflexivity. Qed.

Lemma run_modify_end g p (h : gmap ptr Node) R S n :
  h !! p = Some n →
  modify p g (mkTree h R S) = Done tt (mkTree (<[p := g n]> h) R S).
Proof. intros H. unfold modify. simpl. rewrite H. reflexivity. Qed.

Lemma run_getRoot {B} (k : option ptr → M B) (h : gmap ptr Node) R S :
  bind getRoot k (mkTree h R S) = k R (mkTree h R S).
Proof. reflexivity. Qed.

Lemma run_setRoot {B} r (k : unit → M B) (h : gmap ptr Node) R S :
  bind (setRoot r) k (mkTree h R S) = k tt (mkTree h r S).
Proof. reflexivity. Qed.

Lemma run_getSize {B} (k : Z → M B) (h : gmap ptr Node) R S :
  bind getSize k (mkTree h R S) = k S (mkTree h R S).
Proof. reflexivity. Qed.

Lemma run_setSize {B} n (k : unit → M B) (h : gmap ptr Node) R S :
  bind (setSize n) k (mkTree h R S) = k tt (mkTree h R n).
Proof. reflexivity. Qed.

Lemma run_getFuel {B} (k : nat → M B) (h : gmap ptr Node) R S :
  bind getFuel k (mkTree h R S) = k (Datatypes.S (size h)) (mkTree h R S).
Proof. reflexivity. Qed.

Lemma run_alloc {B} n (k : ptr → M B) (h : gmap ptr Node) R S :
  bind (alloc n) k (mkTree h R S)
  = k (fresh (dom h)) (mkTree (<[fresh (dom h) := n]> h) R S).
Proof. reflexivity. Qed.

(** The result of a computation that is known to return. *)
Lemma run_bind {A B} (m : M A) (k : A → M B) (st : AVLTree) a st' :
  m st = Done a st' → bind m k st = k a st'.
Proof. intros H. unfold bind. rewrite H. reflexivity. Qed.

End Run.

(** Looking up a store that is a stack of updates. *)
Ltac heap_simpl :=
  repeat first
    [ rewrite lookup_insert_eq
    | rewrite lookup_insert_ne by congruence
    | match goal with H : ?h !! ?p = Some _ |- context [?h !! ?p] => rewrite H end ].

Ltac heap_lookup := heap_simpl; reflexivity.

Ltac mstep :=
  first
    [ rewrite run_ret
    | rewrite run_assoc
    | rewrite run_getRoot
    | rewrite run_setRoot
    | rewrite run_getSize
    | rewrite run_setSize
    | rewrite run_getFuel
    | rewrite run_alloc
    | erewrite run_fld by heap_lookup
    | erewrite run_modify by heap_lookup
    | erewrite run_fld_end by heap_lookup
    | erewrite run_modify_end by heap_lookup ];
  cbn [parent left right balanceFactor key value
       with_parent with_left with_right with_bf with_key with_value
       when whenSome].

Ltac mrun :=
  unfold setParent, setLeft, setRight, setBF, setKey, setValue;
  cbn [when whenSome];
  repeat mstep.

(** ** The rotations on the store *)

Section Rotations.

Context {K V : Type}.
#[local] Abbreviation Node := (Node K V).
#[local] Abbreviation AVLTree := (AVLTree K V).
#[local] Abbreviation M := (M K V).

(** The child link of the parent that pointed at [p] now points at [q]. *)
Definition relink (p q : ptr) (n : Node) : Node :=
  if same (left n) (Some p) then with_left (Some q) n else with_right (Some q) n.

(** [node] after [rotateLeft(node)], from [node] and its right child before. *)
Definition rotL_node (n rn : Node) (q : ptr) : Node :=
  let nb := balanceFactor n + 1 in
  let nb := if balanceFactor rn <? 0 then nb - balanceFactor rn else nb in
  mkNode (Some q) (left n) (left rn) nb (key n) (value n).

(** The promoted node after [rotateLeft(node)]. *)
Definition rotL_promoted (n rn : Node) (p q : ptr) : Node :=
  let nb := balanceFactor (rotL_node n rn q) in
  let rb := balanceFactor rn + 1 in
  let rb := if 0 <? nb then rb + nb else rb in
  mkNode (parent n) (Some p) (right rn) rb (key rn) (value rn).

(** [node] after [rotateRight(node)]. *)
Definition rotR_node (n ln : Node) (q : ptr) : Node :=
  let nb := balanceFactor n - 1 in
  let nb := if 0 <? balanceFactor ln then nb - balanceFactor ln else nb in
  mkNode (Some q) (right ln) (right n) nb (key n) (value n).

(** The promoted node after [rotateRight(node)]. *)
Definition rotR_promoted (n ln : Node) (p q : ptr) : Node :=
  let nb := balanceFactor (rotR_node n ln q) in
  let lb := balanceFactor ln - 1 in
  let lb := if nb <? 0 then lb + nb else lb in
  mkNode (parent n) (left ln) (Some p) lb (key ln) (value ln).

(** What a rotation of [p] that promotes [q] leaves in the store [h']:
    [inner] is the subtree that changes sides. *)
Definition rotated (h h' : gmap ptr Node) (p q : ptr) (n' q' : Node)
    (inner par : option ptr) : Prop :=
  h' !! p = Some n'
  ∧ h' !! q = Some q'
  ∧ (∀ x, inner = Some x → h' !! x = with_parent (Some p) <$> h !! x)
  ∧ (∀ g, par = Some g → h' !! g = relink p q <$> h !! g)
  ∧ (∀ r, r ≠ p → r ≠ q → inner ≠ Some r → par ≠ Some r → h' !! r = h !! r).

(** The references that a rotation touches are different objects. *)
Definition separate (h : gmap ptr Node) (p q : ptr) (inner par : option ptr) : Prop :=
  p ≠ q
  ∧ (∀ x, inner = Some x → x ≠ p ∧ x ≠ q ∧ is_Some (h !! x))
  ∧ (∀ g, par = Some g → g ≠ p ∧ g ≠ q ∧ inner ≠ Some g ∧ is_Some (h !! g)).

Lemma rotateLeft_store (h : gmap ptr Node) R S p q n rn :
  h !! p = Some n → right n = Some q → h !! q = Some rn →
  separate h p q (left rn) (parent n) →
  ∃ h', rotateLeft p (mkTree h R S) = Done (Some q) (mkTree h' R S)
    ∧ rotated h h' p q (rotL_node n rn q) (rotL_promoted n rn p q) (left rn) (parent n).
Proof.
  intros Hp Hr Hq (Hpq & Hx & Hg).
  destruct n as [pp pl pr nb nk nv], rn as [qp ql qr qb qk qv]; simpl in *. subst pr.
  unfold rotateLeft, rotated, rotL_node, rotL_promoted, relink. simpl.
  mrun.
  destruct ql as [x|]; [destruct (Hx x eq_refl) as (Hxp & Hxq & [nx Hnx])|];
    (destruct pp as [g|]; [destruct (Hg g eq_refl) as (Hgp & Hgq & Hgx & [ng Hng])|]);
    mrun; try (destruct (same (left ng) (Some p)) eqn:Hs); mrun;
    destruct (qb <? 0) eqn:E1; mrun;
    match goal with |- context [0 <? ?e] => destruct (0 <? e) eqn:E2 end; mrun;
    (eexists; split; [reflexivity|]);
    repeat split; intros; simplify_eq; heap_simpl; simpl; rewrite ?Hs; try done.
Qed.

Lemma rotateRight_store (h : gmap ptr Node) R S p q n ln :
  h !! p = Some n → left n = Some q → h !! q = Some ln →
  separate h p q (right ln) (parent n) →
  ∃ h', rotateRight p (mkTree h R S) = Done (Some q) (mkTree h' R S)
    ∧ rotated h h' p q (rotR_node n ln q) (rotR_promoted n ln p q) (right ln) (parent n).
Proof.
  intros Hp Hr Hq (Hpq & Hx & Hg).
  destruct n as [pp pl pr nb nk nv], ln as [qp ql qr qb qk qv]; simpl in *. subst pl.
  unfold rotateRight, rotated, rotR_node, rotR_promoted, relink. simpl.
  mrun.
  destruct qr as [x|]; [destruct (Hx x eq_refl) as (Hxp & Hxq & [nx Hnx])|];
    (destruct pp as [g|]; [destruct (Hg g eq_refl) as (Hgp & Hgq & Hgx & [ng Hng])|]);
    mrun; try (destruct (same (left ng) (Some p)) eqn:Hs); mrun;
    destruct (0 <? qb) eqn:E1; mrun;
    match goal with |- context [?e <? 0] => destruct (e <? 0) eqn:E2 end; mrun;
    (eexists; split; [reflexivity|]);
    repeat split; intros; simplify_eq; heap_simpl; simpl; rewrite ?Hs; try done.
Qed.

End Rotations.

(** ** Paths into a tree

    A loop that climbs the [parent] links from a node sees the tree as the
    subtree below the node and the frames above it, innermost first. *)

Section Zipper.

Context {K V : Type}.
#[local] Abbreviation Node := (Node K V).
#[local] Abbreviation AVLTree := (AVLTree K V).
#[local] Abbreviation M := (M K V).
#[local] Abbreviation ptree := (ptree K V).

Inductive frame : Type :=
| FL (p : ptr) (k : K) (v : option V) (b : Z) (r : ptree)
| FR (p : ptr) (l : ptree) (k : K) (v : option V) (b : Z).

Definition plug1 (f : frame) (t : ptree) : ptree :=
  match f with
  | FL p k v b r => PN p t k v b r
  | FR p l k v b => PN p l k v b t
  end.

Fixpoint plug (ctx : list frame) (t : ptree) : ptree :=
  match ctx with
  | [] => t
  | f :: ctx => plug ctx (plug1 f t)
  end.

Definition frame_ptr (f : frame) : ptr :=
  match f with FL p _ _ _ _ => p | FR p _ _ _ _ => p end.

Definition frame_sib (f : frame) : ptree :=
  match f with FL _ _ _ _ r => r | FR _ l _ _ _ => l end.

Definition ctx_top (ctx : list frame) : option ptr :=
  match ctx with [] => None | f :: _ => Some (frame_ptr f) end.

Fixpoint ctx_ptrs (ctx : list frame) : list ptr :=
  match ctx with
  | [] => []
  | f :: ctx => frame_ptr f :: ptrs (frame_sib f) ++ ctx_ptrs ctx
  end.

(** The frames of [ctx] are linked in [h], around a child [c]. *)
Fixpoint wf_ctx (h : gmap ptr Node) (ctx : list frame) (c : option ptr) : Prop :=
  match ctx with
  | [] => True
  | FL p k v b r :: ctx =>
    h !! p = Some (mkNode (ctx_top ctx) c (root_ptr r) b k v)
    ∧ wf h (Some p) r ∧ wf_ctx h ctx (Some p)
  | FR p l k v b :: ctx =>
    h !! p = Some (mkNode (ctx_top ctx) (root_ptr l) c b k v)
    ∧ wf h (Some p) l ∧ wf_ctx h ctx (Some p)
  end.

(** The store [st] holds exactly the tree [t] below its root. *)
Definition Rep (st : AVLTree) (t : ptree) : Prop :=
  wf (heap st) None t ∧ NoDup (ptrs t) ∧ _root st = root_ptr t.

Lemma plug_app c1 c2 t : plug (c1 ++ c2) t = plug c2 (plug c1 t).
Proof. revert t. induction c1 as [|f c1 IH]; intros t; simpl; auto. Qed.

Lemma ptrs_plug1 f t : ptrs (plug1 f t) ≡ₚ ptrs t ++ frame_ptr f :: ptrs (frame_sib f).
Proof.
  destruct f; simpl.
  - rewrite Permutation_middle. reflexivity.
  - rewrite (Permutation_app_comm (ptrs t)). simpl. reflexivity.
Qed.

Lemma ptrs_plug ctx t : ptrs (plug ctx t) ≡ₚ ptrs t ++ ctx_ptrs ctx.
Proof.
  revert t. induction ctx as [|f ctx IH]; intros t; simpl.
  - by rewrite app_nil_r.
  - rewrite IH, ptrs_plug1, <- app_assoc. simpl. reflexivity.
Qed.

Lemma root_ptr_in (t : ptree) x : root_ptr t = Some x → x ∈ ptrs t.
Proof. destruct t; simpl; intros; simplify_eq; set_solver. Qed.

Lemma root_ptr_plug (ctx : list frame) t t' :
  ctx ≠ [] → root_ptr (plug ctx t) = root_ptr (plug ctx t').
Proof.
  revert t t'. induction ctx as [|f ctx IH]; intros t t' H; [done|].
  simpl. destruct ctx as [|g ctx].
  - destruct f; reflexivity.
  - apply IH. done.
Qed.

Lemma root_ptr_plug_top (ctx : list frame) t :
  ctx_top ctx = None → root_ptr (plug ctx t) = root_ptr t.
Proof. destruct ctx; simpl; [done|discriminate]. Qed.

Lemma wf_plug h ctx t :
  wf h None (plug ctx t) ↔ wf_ctx h ctx (root_ptr t) ∧ wf h (ctx_top ctx) t.
Proof.
  revert t. induction ctx as [|f ctx IH]; intros t; simpl.
  - tauto.
  - rewrite IH. destruct f; simpl; tauto.
Qed.

(** Well-formedness only looks at the objects of the tree. *)
Lemma wf_agree h h' par (t : ptree) :
  (∀ x, x ∈ ptrs t → h' !! x = h !! x) → wf h par t → wf h' par t.
Proof.
  revert par. induction t as [|p l IHl k v b r IHr|p k v b]; intros par Hag; simpl; auto.
  - intros (Hp & Hl & Hr). split; [|split].
    + rewrite Hag; [done|]. simpl. set_solver.
    + apply IHl; [|done]. intros x Hx. apply Hag. simpl. set_solver.
    + apply IHr; [|done]. intros x Hx. apply Hag. simpl. set_solver.
  - intros Hp. rewrite Hag; [done|]. simpl. set_solver.
Qed.

Lemma wf_ctx_agree h h' ctx c :
  (∀ x, x ∈ ctx_ptrs ctx → h' !! x = h !! x) → wf_ctx h ctx c → wf_ctx h' ctx c.
Proof.
  revert c. induction ctx as [|f ctx IH]; intros c Hag; simpl; auto.
  destruct f; simpl in *; intros (Hp & Hs & Hc); (split; [|split]).
  - rewrite Hag; [done|]. set_solver.
  - eapply wf_agree; [|done]. intros x Hx. apply Hag. set_solver.
  - apply IH; [|done]. intros x Hx. apply Hag. set_solver.
  - rewrite Hag; [done|]. set_solver.
  - eapply wf_agree; [|done]. intros x Hx. apply Hag. set_solver.
  - apply IH; [|done]. intros x Hx. apply Hag. set_solver.
Qed.

(** Every node of a well-formed tree has its object. *)
Lemma wf_lookup h par (t : ptree) x : wf h par t → x ∈ ptrs t → is_Some (h !! x).
Proof.
  revert par. induction t as [|p l IHl k v b r IHr|p k v b]; intros par; simpl.
  - set_solver.
  - intros (Hp & Hl & Hr) Hx.
    apply elem_of_cons in Hx as [->|Hx]; [eauto|].
    apply elem_of_app in Hx as [Hx|Hx]; eauto.
  - intros Hp Hx. apply list_elem_of_singleton in Hx as ->. eauto.
Qed.

Lemma wf_ctx_lookup h ctx c x : wf_ctx h ctx c → x ∈ ctx_ptrs ctx → is_Some (h !! x).
Proof.
  revert c. induction ctx as [|f ctx IH]; intros c; simpl; [set_solver|].
  destruct f; simpl; intros (Hp & Hs & Hc) Hx;
    (apply elem_of_cons in Hx as [->|Hx]; [eauto|]);
    (apply elem_of_app in Hx as [Hx|Hx]; [eapply wf_lookup; eauto | eauto]).
Qed.

(** The root object of a subtree may change its parent. *)
Lemma wf_reparent h h' par par' (t : ptree) :
  wf h par t →
  (∀ x, root_ptr t = Some x → h' !! x = with_parent par' <$> h !! x) →
  (∀ x, x ∈ ptrs t → root_ptr t ≠ Some x → h' !! x = h !! x) →
  NoDup (ptrs t) →
  wf h' par' t.
Proof.
  destruct t as [|p l k v b r|p k v b]; simpl; auto.
  - intros (Hp & Hl & Hr) Hroot Hag Hnd.
    apply NoDup_cons in Hnd as [Hnp Hnd].
    split; [|split].
    + rewrite (Hroot p eq_refl), Hp. reflexivity.
    + eapply wf_agree; [|done]. intros x Hx. apply Hag; [set_solver|].
      intros [= ->]. set_solver.
    + eapply wf_agree; [|done]. intros x Hx. apply Hag; [set_solver|].
      intros [= ->]. set_solver.
  - intros Hp Hroot _ _. rewrite (Hroot p eq_refl), Hp. reflexivity.
Qed.

(** The frame above a subtree may point at another root of it. *)
Lemma wf_ctx_relink h h' ctx p q :
  wf_ctx h ctx (Some p) →
  (∀ g, ctx_top ctx = Some g → h' !! g = relink p q <$> h !! g) →
  (∀ x, x ∈ ctx_ptrs ctx → ctx_top ctx ≠ Some x → h' !! x = h !! x) →
  NoDup (ctx_ptrs ctx) → p ∉ ctx_ptrs ctx →
  wf_ctx h' ctx (Some q).
Proof.
  destruct ctx as [|f ctx]; simpl; auto.
  intros Hwf Htop Hag Hnd Hp.
  apply NoDup_cons in Hnd as [Hnf Hnd].
  apply NoDup_app in Hnd as (Hns & Hdisj & Hnc).
  assert (Hsib : wf h (Some (frame_ptr f)) (frame_sib f) →
                 wf h' (Some (frame_ptr f)) (frame_sib f)).
  { apply wf_agree. intros x Hx. apply Hag; [set_solver|].
    intros [= <-]. set_solver. }
  assert (Hrest : ∀ c, wf_ctx h ctx c → wf_ctx h' ctx c).
  { intros c. apply wf_ctx_agree. intros x Hx. apply Hag; [set_solver|].
    intros [= <-]. set_solver. }
  destruct f as [g k v b r|g l k v b]; simpl in *;
    destruct Hwf as (Hg & Hs & Hc); (split; [|split]); auto.
  - rewrite (Htop g eq_refl), Hg. unfold relink, same. simpl.
    rewrite bool_decide_eq_true_2 by done. reflexivity.
  - rewrite (Htop g eq_refl), Hg. unfold relink, same. simpl.
    rewrite bool_decide_eq_false_2; [reflexivity|].
    intros Hl. apply root_ptr_in in Hl. set_solver.
Qed.

End Zipper.

(** ** The rotations on the tree *)

(** Splitting a [NoDup] of a concatenation into its elementary facts. *)
Ltac nodup_split :=
  repeat match goal with
  | H : NoDup (_ :: _) |- _ => apply NoDup_cons in H as [? ?]
  | H : NoDup (_ ++ _) |- _ => apply NoDup_app in H as (? & ? & ?)
  | H : NoDup [] |- _ => clear H
  end.

Section TreeRotations.

Context {K V : Type}.
#[local] Abbreviation Node := (Node K V).
#[local] Abbreviation AVLTree := (AVLTree K V).
#[local] Abbreviation M := (M K V).
#[local] Abbreviation ptree := (ptree K V).
#[local] Abbreviation frame := (@frame K V).

(** [rotateLeft] on the shape: [None] where the right child is missing. *)
Definition rotL (t : ptree) : option ptree :=
  match t with
  | PN p l k v b (PN q ql qk qv qb qr) =>
    let nb := b + 1 in
    let nb := if qb <? 0 then nb - qb else nb in
    let rb := qb + 1 in
    let rb := if 0 <? nb then rb + nb else rb in
    Some (PN q (PN p l k v nb ql) qk qv rb qr)
  | _ => None
  end.

(** [rotateRight] on the shape. *)
Definition rotR (t : ptree) : option ptree :=
  match t with
  | PN p (PN q ql qk qv qb qr) k v b r =>
    let nb := b - 1 in
    let nb := if 0 <? qb then nb - qb else nb in
    let lb := qb - 1 in
    let lb := if nb <? 0 then lb + nb else lb in
    Some (PN q ql qk qv lb (PN p qr k v nb r))
  | _ => None
  end.

Lemma rotL_ptrs t t' : rotL t = Some t' → ptrs t' ≡ₚ ptrs t.
Proof.
  destruct t as [|p l k v b [|q ql qk qv qb qr|]|]; simpl; intros; simplify_eq.
  simpl. rewrite <- !app_assoc. simpl.
  etrans; [apply perm_swap|]. constructor. apply Permutation_middle.
Qed.

Lemma rotR_ptrs t t' : rotR t = Some t' → ptrs t' ≡ₚ ptrs t.
Proof.
  destruct t as [|p [|q ql qk qv qb qr|] k v b r|]; simpl; intros; simplify_eq.
  simpl. rewrite <- !app_assoc. simpl.
  symmetry. etrans; [apply perm_swap|]. constructor. apply Permutation_middle.
Qed.

Lemma NoDup_plug (ctx : list frame) (t t' : ptree) :
  ptrs t' ≡ₚ ptrs t → NoDup (ptrs (plug ctx t)) → NoDup (ptrs (plug ctx t')).
Proof. rewrite !ptrs_plug. intros ->. done. Qed.

Lemma rotateLeft_tree (h : gmap ptr Node) R S ctx t t' p :
  wf h None (plug ctx t) → NoDup (ptrs (plug ctx t)) →
  rotL t = Some t' → root_ptr t = Some p →
  ∃ h', rotateLeft p (mkTree h R S) = Done (root_ptr t') (mkTree h' R S)
    ∧ wf h' None (plug ctx t') ∧ NoDup (ptrs (plug ctx t')).
Proof.
  intros Hwf Hnd Hrot Hroot.
  assert (Hnd' := NoDup_plug ctx _ _ (rotL_ptrs _ _ Hrot) Hnd).
  destruct t as [|p' l k v b [|q ql qk qv qb qr|]|]; simpl in Hrot; simplify_eq.
  simpl in Hroot. simplify_eq.
  apply wf_plug in Hwf as (Hctx & Hp & Hl & Hq & Hql & Hqr).
  rewrite ptrs_plug in Hnd. simpl in *.
  nodup_split.
  edestruct (rotateLeft_store h R S p q) as (h' & Hrun & Hp' & Hq' & Hin & Hpar & Hrest);
    [exact Hp|reflexivity|exact Hq| |].
  { split; [set_solver|]. simpl. split.
    - intros x Hx. apply root_ptr_in in Hx as Hx'.
      split; [set_solver|]. split; [set_solver|]. eapply (wf_lookup _ _ ql); eauto.
    - intros g Hg. assert (g ∈ ctx_ptrs ctx) by (destruct ctx; simpl in *; simplify_eq; set_solver).
      split; [set_solver|]. split; [set_solver|]. split.
      + intros Hx%root_ptr_in. set_solver.
      + eapply wf_ctx_lookup; eauto. }
  exists h'. split; [exact Hrun|]. split; [|done].
  simpl in *.
  apply wf_plug. simpl. split; [|split; [|split; [split; [|split] |]]].
  - eapply wf_ctx_relink; eauto.
    + intros x Hx Hne. apply Hrest; [set_solver..| |done].
      intros Hr%root_ptr_in. set_solver.
    + set_solver.
  - rewrite Hq'. reflexivity.
  - rewrite Hp'. reflexivity.
  - eapply wf_agree; [|done]. intros x Hx. apply Hrest; [set_solver..| |].
    + intros Hr%root_ptr_in. set_solver.
    + intros Hg. assert (x ∈ ctx_ptrs ctx) by (destruct ctx; simpl in *; simplify_eq; set_solver).
      set_solver.
  - eapply wf_reparent; [exact Hql| | |done].
    + intros x Hx. auto.
    + intros x Hx Hne. apply Hrest; [set_solver..|done|].
      intros Hg. assert (x ∈ ctx_ptrs ctx) by (destruct ctx; simpl in *; simplify_eq; set_solver).
      set_solver.
  - eapply wf_agree; [|done]. intros x Hx. apply Hrest; [set_solver..| |].
    + intros Hr%root_ptr_in. set_solver.
    + intros Hg. assert (x ∈ ctx_ptrs ctx) by (destruct ctx; simpl in *; simplify_eq; set_solver).
      set_solver.
Qed.

Lemma rotateRight_tree (h : gmap ptr Node) R S ctx t t' p :
  wf h None (plug ctx t) → NoDup (ptrs (plug ctx t)) →
  rotR t = Some t' → root_ptr t = Some p →
  ∃ h', rotateRight p (mkTree h R S) = Done (root_ptr t') (mkTree h' R S)
    ∧ wf h' None (plug ctx t') ∧ NoDup (ptrs (plug ctx t')).
Proof.
  intros Hwf Hnd Hrot Hroot.
  assert (Hnd' := NoDup_plug ctx _ _ (rotR_ptrs _ _ Hrot) Hnd).
  destruct t as [|p' [|q ql qk qv qb qr|] k v b r|]; simpl in Hrot; simplify_eq.
  simpl in Hroot. simplify_eq.
  apply wf_plug in Hwf as (Hctx & Hp & (Hq & Hql & Hqr) & Hr).
  rewrite ptrs_plug in Hnd. simpl in *.
  nodup_split.
  edestruct (rotateRight_store h R S p q) as (h' & Hrun & Hp' & Hq' & Hin & Hpar & Hrest);
    [exact Hp|reflexivity|exact Hq| |].
  { split; [set_solver|]. simpl. split.
    - intros x Hx. apply root_ptr_in in Hx as Hx'.
      split; [set_solver|]. split; [set_solver|]. eapply (wf_lookup _ _ qr); eauto.
    - intros g Hg. assert (g ∈ ctx_ptrs ctx) by (destruct ctx; simpl in *; simplify_eq; set_solver).
      split; [set_solver|]. split; [set_solver|]. split.
      + intros Hx%root_ptr_in. set_solver.
      + eapply wf_ctx_lookup; eauto. }
  exists h'. split; [exact Hrun|]. split; [|done].
  simpl in *.
  apply wf_plug. simpl. split; [|split; [|split; [|split; [|split]]]].
  - eapply wf_ctx_relink; eauto.
    + intros x Hx Hne. apply Hrest; [set_solver..| |done].
      intros Hr'%root_ptr_in. set_solver.
    + set_solver.
  - rewrite Hq'. reflexivity.
  - eapply wf_agree; [|done]. intros x Hx. apply Hrest; [set_solver..| |].
    + intros Hr'%root_ptr_in. set_solver.
    + intros Hg. assert (x ∈ ctx_ptrs ctx) by (destruct ctx; simpl in *; simplify_eq; set_solver).
      set_solver.
  - rewrite Hp'. reflexivity.
  - eapply wf_reparent; [exact Hqr| | |done].
    + intros x Hx. auto.
    + intros x Hx Hne. apply Hrest; [set_solver..|done|].
      intros Hg. assert (x ∈ ctx_ptrs ctx) by (destruct ctx; simpl in *; simplify_eq; set_solver).
      set_solver.
  - eapply wf_agree; [|done]. intros x Hx. apply Hrest; [set_solver..| |].
    + intros Hr'%root_ptr_in. set_solver.
    + intros Hg. assert (x ∈ ctx_ptrs ctx) by (destruct ctx; simpl in *; simplify_eq; set_solver).
      set_solver.
Qed.

(** [balanceFactor] of the root of a shape. *)
Definition bf_root (t : ptree) : option Z :=
  match t with
  | PE => None
  | PN _ _ _ _ b _ => Some b
  | PG _ _ _ b => Some b
  end.

(** The branch [parent.balanceFactor < -1] on the shape. *)
Definition fixR (t : ptree) : option ptree :=
  match t with
  | PN p l k v b r =>
    if bool_decide (bf_root r = Some 1) then
      r' ← rotR r; rotL (PN p l k v b r')
    else rotL t
  | _ => None
  end.

(** The branch [parent.balanceFactor > 1] on the shape. *)
Definition fixL (t : ptree) : option ptree :=
  match t with
  | PN p l k v b r =>
    if bool_decide (bf_root l = Some (-1)) then
      l' ← rotL l; rotR (PN p l' k v b r)
    else rotR t
  | _ => None
  end.

Lemma root_ptr_plug_in (ctx : list frame) t :
  ctx ≠ [] → ∃ g, root_ptr (plug ctx t) = Some g ∧ g ∈ ctx_ptrs ctx.
Proof.
  revert t. induction ctx as [|f ctx IH]; intros t H; [done|].
  simpl. destruct ctx as [|f' ctx].
  - exists (frame_ptr f). split; [destruct f; reflexivity|]. set_solver.
  - destruct (IH (plug1 f t)) as (g & Hg & Hin); [done|].
    exists g. split; [done|]. set_solver.
Qed.

(** After a rotation at the root of the focused subtree, [_root] follows. *)
Lemma root_follow (ctx : list frame) (t t' : ptree) p R :
  NoDup (ptrs (plug ctx t)) → root_ptr t = Some p → R = root_ptr (plug ctx t) →
  (if same (Some p) R then root_ptr t' else R) = root_ptr (plug ctx t').
Proof.
  intros Hnd Hp ->. destruct ctx as [|f ctx].
  - simpl. rewrite Hp. unfold same. by rewrite bool_decide_eq_true_2.
  - destruct (root_ptr_plug_in (f :: ctx) t) as (g & Hg & Hin); [done|].
    rewrite Hg. unfold same. rewrite bool_decide_eq_false_2.
    + rewrite <- Hg. by apply root_ptr_plug.
    + intros [= <-]. rewrite ptrs_plug in Hnd. apply NoDup_app in Hnd as (_ & Hd & _).
      apply root_ptr_in in Hp. by apply (Hd p).
Qed.

Lemma bfIs_run {B} (h : gmap ptr Node) R S (t : ptree) par x (k : bool → M B) :
  wf h par t → bf_root t ≠ None ∨ t = PE →
  bind (bfIs (root_ptr t) x) k (mkTree h R S)
  = k (bool_decide (bf_root t = Some x)) (mkTree h R S).
Proof.
  intros Hwf _. destruct t as [|p l kk v b r|p kk v b]; simpl in *.
  - reflexivity.
  - destruct Hwf as (Hp & _). mrun.
    destruct (Z.eqb_spec b x);
      [rewrite bool_decide_eq_true_2 by congruence
      |rewrite bool_decide_eq_false_2 by congruence]; reflexivity.
  - mrun.
    destruct (Z.eqb_spec b x);
      [rewrite bool_decide_eq_true_2 by congruence
      |rewrite bool_decide_eq_false_2 by congruence]; reflexivity.
Qed.

Lemma fixRightHeavy_tree (h : gmap ptr Node) R S ctx t t' p :
  wf h None (plug ctx t) → NoDup (ptrs (plug ctx t)) →
  fixR t = Some t' → root_ptr t = Some p → R = root_ptr (plug ctx t) →
  ∃ h', fixRightHeavy p (mkTree h R S)
        = Done (root_ptr t') (mkTree h' (root_ptr (plug ctx t')) S)
    ∧ wf h' None (plug ctx t') ∧ NoDup (ptrs (plug ctx t')).
Proof.
  intros Hwf Hnd Hfix Hroot HR.
  destruct t as [|p' l k v b r|]; simpl in Hfix; try discriminate.
  simpl in Hroot. simplify_eq.
  pose proof Hwf as Hwf0.
  apply wf_plug in Hwf0 as (Hctx & Hp & Hl & Hr).
  unfold fixRightHeavy. mrun.
  erewrite bfIs_run by (eauto; destruct r; simpl; eauto; left; done).
  case_bool_decide as Hb.
  - destruct (rotR r) as [r'|] eqn:Hrr; simpl in Hfix; [|discriminate].
    cbn [when]. mrun.
    destruct r as [|q ql qk qv qb qr|]; try discriminate. simpl.
    edestruct (rotateRight_tree h (root_ptr (plug ctx (PN p l k v b (PN q ql qk qv qb qr)))) S
                 (FR p l k v b :: ctx) (PN q ql qk qv qb qr) r' q)
      as (h1 & Hrun1 & Hwf1 & Hnd1); [done..|].
    rewrite run_assoc. erewrite run_bind by exact Hrun1.
    rewrite run_ret. simpl in Hwf1, Hnd1.
    edestruct (rotateLeft_tree h1 (root_ptr (plug ctx (PN p l k v b (PN q ql qk qv qb qr)))) S
                 ctx (PN p l k v b r') t' p)
      as (h2 & Hrun2 & Hwf2 & Hnd2); [done..|].
    erewrite run_bind by exact Hrun2.
    mrun. exists h2. split; [|done].
    unfold when.
    rewrite <- (root_follow ctx (PN p l k v b (PN q ql qk qv qb qr)) t' p _ Hnd eq_refl eq_refl).
    destruct (same _ _); reflexivity.
  - cbn [when]. mrun.
    edestruct (rotateLeft_tree h (root_ptr (plug ctx (PN p l k v b r))) S
                 ctx (PN p l k v b r) t' p)
      as (h2 & Hrun2 & Hwf2 & Hnd2); [done..|].
    erewrite run_bind by exact Hrun2.
    mrun. exists h2. split; [|done].
    unfold when.
    rewrite <- (root_follow ctx (PN p l k v b r) t' p _ Hnd eq_refl eq_refl).
    destruct (same _ _); reflexivity.
Qed.

Lemma fixLeftHeavy_tree (h : gmap ptr Node) R S ctx t t' p :
  wf h None (plug ctx t) → NoDup (ptrs (plug ctx t)) →
  fixL t = Some t' → root_ptr t = Some p → R = root_ptr (plug ctx t) →
  ∃ h', fixLeftHeavy p (mkTree h R S)
        = Done (root_ptr t') (mkTree h' (root_ptr (plug ctx t')) S)
    ∧ wf h' None (plug ctx t') ∧ NoDup (ptrs (plug ctx t')).
Proof.
  intros Hwf Hnd Hfix Hroot HR.
  destruct t as [|p' l k v b r|]; simpl in Hfix; try discriminate.
  simpl in Hroot. simplify_eq.
  pose proof Hwf as Hwf0.
  apply wf_plug in Hwf0 as (Hctx & Hp & Hl & Hr).
  unfold fixLeftHeavy. mrun.
  erewrite bfIs_run by (eauto; destruct l; simpl; eauto; left; done).
  case_bool_decide as Hb.
  - destruct (rotL l) as [l'|] eqn:Hrr; simpl in Hfix; [|discriminate].
    cbn [when]. mrun.
    destruct l as [|q ql qk qv qb qr|]; try discriminate. simpl.
    edestruct (rotateLeft_tree h (root_ptr (plug ctx (PN p (PN q ql qk qv qb qr) k v b r))) S
                 (FL p k v b r :: ctx) (PN q ql qk qv qb qr) l' q)
      as (h1 & Hrun1 & Hwf1 & Hnd1); [done..|].
    rewrite run_assoc. erewrite run_bind by exact Hrun1.
    rewrite run_ret. simpl in Hwf1, Hnd1.
    edestruct (rotateRight_tree h1 (root_ptr (plug ctx (PN p (PN q ql qk qv qb qr) k v b r))) S
                 ctx (PN p l' k v b r) t' p)
      as (h2 & Hrun2 & Hwf2 & Hnd2); [done..|].
    erewrite run_bind by exact Hrun2.
    mrun. exists h2. split; [|done].
    unfold when.
    rewrite <- (root_follow ctx (PN p (PN q ql qk qv qb qr) k v b r) t' p _ Hnd eq_refl eq_refl).
    destruct (same _ _); reflexivity.
  - cbn [when]. mrun.
    edestruct (rotateRight_tree h (root_ptr (plug ctx (PN p l k v b r))) S
                 ctx (PN p l k v b r) t' p)
      as (h2 & Hrun2 & Hwf2 & Hnd2); [done..|].
    erewrite run_bind by exact Hrun2.
    mrun. exists h2. split; [|done].
    unfold when.
    rewrite <- (root_follow ctx (PN p l k v b r) t' p _ Hnd eq_refl eq_refl).
    destruct (same _ _); reflexivity.
Qed.

End TreeRotations.

(** ** More about paths *)

Section Paths.

Context {K V : Type}.
#[local] Abbreviation Node := (Node K V).
#[local] Abbreviation AVLTree := (AVLTree K V).
#[local] Abbreviation M := (M K V).
#[local] Abbreviation ptree := (ptree K V).
#[local] Abbreviation frame := (@frame K V).

(** The longest chain of links below a reference. *)
Fixpoint depth (t : ptree) : nat :=
  match t with
  | PE => 0
  | PN _ l _ _ _ r => S (Nat.max (depth l) (depth r))
  | PG _ _ _ _ => 1
  end.

Lemma depth_le_ptrs (t : ptree) : (depth t ≤ length (ptrs t))%nat.
Proof.
  induction t as [|p l IHl k v b r IHr|]; simpl; [lia| |lia].
  rewrite length_app. lia.
Qed.

Lemma wf_size h par (t : ptree) :
  wf h par t → NoDup (ptrs t) → (length (ptrs t) ≤ size h)%nat.
Proof.
  intros Hwf Hnd.
  rewrite <- (size_list_to_set (C:=gset ptr)) by done.
  rewrite <- (size_dom (D:=gset ptr)).
  apply subseteq_size. intros x Hx%elem_of_list_to_set.
  apply elem_of_dom. eapply wf_lookup; eauto.
Qed.

Lemma depth_fuel h par (t : ptree) :
  wf h par t → NoDup (ptrs t) → (depth t < S (size h))%nat.
Proof.
  intros Hwf Hnd. pose proof (depth_le_ptrs t). pose proof (wf_size _ _ _ Hwf Hnd). lia.
Qed.

(** The object of a frame, around the child [c]. *)
Definition frame_cell (f : frame) (par c : option ptr) : Node :=
  match f with
  | FL _ k v b r => mkNode par c (root_ptr r) b k v
  | FR _ l k v b => mkNode par (root_ptr l) c b k v
  end.

Lemma wf_ctx_cons h f ctx c :
  wf_ctx h (f :: ctx) c
  ↔ h !! frame_ptr f = Some (frame_cell f (ctx_top ctx) c)
    ∧ wf h (Some (frame_ptr f)) (frame_sib f) ∧ wf_ctx h ctx (Some (frame_ptr f)).
Proof. destruct f; simpl; tauto. Qed.

(** The innermost frame may get another child. *)
Lemma wf_ctx_child h h' ctx c c' :
  wf_ctx h ctx c →
  (∀ f ctx0, ctx = f :: ctx0 → h' !! frame_ptr f = Some (frame_cell f (ctx_top ctx0) c')) →
  (∀ x, x ∈ ctx_ptrs ctx → ctx_top ctx ≠ Some x → h' !! x = h !! x) →
  NoDup (ctx_ptrs ctx) →
  wf_ctx h' ctx c'.
Proof.
  destruct ctx as [|f ctx]; [done|].
  intros Hwf Htop Hag Hnd. apply wf_ctx_cons in Hwf as (Hf & Hs & Hc).
  simpl in Hnd. nodup_split.
  apply wf_ctx_cons. split; [eauto|]. split.
  - eapply wf_agree; [|done]. intros x Hx. apply Hag; simpl; [set_solver|].
    intros [= <-]. set_solver.
  - eapply wf_ctx_agree; [|done]. intros x Hx. apply Hag; simpl; [set_solver|].
    intros [= <-]. set_solver.
Qed.

(** The root object of the focused subtree may get another entry and
    another balance factor. *)
Lemma wf_update_root h ctx p (l r : ptree) k v b k' v' b' :
  wf h None (plug ctx (PN p l k v b r)) →
  NoDup (ptrs (plug ctx (PN p l k v b r))) →
  wf (<[p := mkNode (ctx_top ctx) (root_ptr l) (root_ptr r) b' k' v']> h) None
     (plug ctx (PN p l k' v' b' r)).
Proof.
  intros Hwf Hnd. apply wf_plug in Hwf as (Hctx & Hp & Hl & Hr).
  rewrite ptrs_plug in Hnd. simpl in Hnd. nodup_split.
  apply wf_plug. simpl. split; [|split; [|split]].
  - eapply wf_ctx_agree; [|done]. intros x Hx.
    rewrite lookup_insert_ne; [done|]. set_solver.
  - by rewrite lookup_insert_eq.
  - eapply wf_agree; [|done]. intros x Hx.
    rewrite lookup_insert_ne; [done|]. set_solver.
  - eapply wf_agree; [|done]. intros x Hx.
    rewrite lookup_insert_ne; [done|]. set_solver.
Qed.

Definition frame_key (f : frame) : K :=
  match f with FL _ k _ _ _ => k | FR _ _ k _ _ => k end.

Definition frame_bf (f : frame) : Z :=
  match f with FL _ _ _ b _ => b | FR _ _ _ _ b => b end.

Definition frame_with_bf (b : Z) (f : frame) : frame :=
  match f with
  | FL p k v _ r => FL p k v b r
  | FR p l k v _ => FR p l k v b
  end.

Lemma ctx_length_ptrs (ctx : list frame) : (length ctx ≤ length (ctx_ptrs ctx))%nat.
Proof.
  induction ctx as [|f ctx IH]; simpl; [done|]. rewrite length_app. lia.
Qed.

Lemma ctx_fuel h (ctx : list frame) (t : ptree) :
  wf h None (plug ctx t) → NoDup (ptrs (plug ctx t)) → (length ctx < S (size h))%nat.
Proof.
  intros Hwf Hnd. pose proof (wf_size _ _ _ Hwf Hnd) as Hs.
  rewrite ptrs_plug, length_app in Hs. pose proof (ctx_length_ptrs ctx). lia.
Qed.


End Paths.

(** ** [set] on the tree *)

Section SetTree.

Context {K V : Type}.
#[local] Abbreviation Node := (Node K V).
#[local] Abbreviation AVLTree := (AVLTree K V).
#[local] Abbreviation M := (M K V).
#[local] Abbreviation ptree := (ptree K V).
#[local] Abbreviation frame := (@frame K V).

Variable compare : K → K → Z.

(** The descent of [set] when duplicates are allowed: the frames down to
    the empty place where the new leaf goes. *)
Fixpoint descend (k : K) (t : ptree) (ctx : list frame) : option (list frame) :=
  match t with
  | PE => Some ctx
  | PN p l k' v b r =>
    if compare k k' <=? 0 then descend k l (FL p k' v b r :: ctx)
    else descend k r (FR p l k' v b :: ctx)
  | PG _ _ _ _ => None
  end.

(** The descent of [set] when duplicates are rejected: the tree with the
    value replaced, or the frames down to the empty place. *)
Fixpoint descend_unique (k : K) (v : option V) (t : ptree) (ctx : list frame)
    : option (ptree + list frame) :=
  match t with
  | PE => Some (inr ctx)
  | PN p l k' v' b r =>
    let c := compare k k' in
    if c =? 0 then Some (inl (plug ctx (PN p l k' v b r)))
    else if c <? 0 then descend_unique k v l (FL p k' v' b r :: ctx)
    else descend_unique k v r (FR p l k' v' b :: ctx)
  | PG _ _ _ _ => None
  end.

(** The [while (parent)] loop of [set] on the shape. *)
Fixpoint set_up (k : K) (ctx : list frame) (c : ptree) : option ptree :=
  match ctx with
  | [] => Some c
  | f :: ctx =>
    let b := if compare (frame_key f) k <? 0 then frame_bf f - 1 else frame_bf f + 1 in
    let t := plug1 (frame_with_bf b f) c in
    if b =? 0 then Some (plug ctx t)
    else if b <? -1 then t' ← fixR t; Some (plug ctx t')
    else if 1 <? b then t' ← fixL t; Some (plug ctx t')
    else set_up k ctx t
  end.

(** [cmp] when the descent ends. *)
Definition last_cmp (k : K) (ctx : list frame) (cmp0 : Z) : Z :=
  match ctx with [] => cmp0 | f :: _ => compare k (frame_key f) end.

(** [set] on the shape; [newp] is the reference of the new object, and the
    flag tells whether a node was added. *)
Definition pset (noDuplicates : bool) (newp : ptr) (k : K) (v : option V) (t : ptree)
    : option (ptree * bool) :=
  let leaf := PN newp PE k v 0 PE in
  match t with
  | PE => Some (leaf, true)
  | _ =>
    if noDuplicates then
      d ← descend_unique k v t [];
      match d with
      | inl t' => Some (t', false)
      | inr ctx => t' ← set_up k ctx leaf; Some (t', true)
      end
    else
      ctx ← descend k t [];
      t' ← set_up k ctx leaf; Some (t', true)
  end.

Lemma descend_plug k t ctx ctx' :
  descend k t ctx = Some ctx' → plug ctx' PE = plug ctx t.
Proof.
  revert ctx. induction t as [|p l IHl k' v b r IHr|]; intros ctx; simpl; [|..|done].
  - intros [= ->]. done.
  - destruct (compare k k' <=? 0); intros H.
    + by rewrite (IHl _ H).
    + by rewrite (IHr _ H).
Qed.

Lemma descend_length k t ctx ctx' :
  descend k t ctx = Some ctx' → (length ctx' ≤ depth t + length ctx)%nat.
Proof.
  revert ctx. induction t as [|p l IHl k' v b r IHr|]; intros ctx; simpl; [|..|done].
  - intros [= ->]. done.
  - destruct (compare k k' <=? 0); intros H.
    + apply IHl in H. simpl in H. lia.
    + apply IHr in H. simpl in H. lia.
Qed.

Lemma descend_nonempty k t ctx ctx' :
  descend k t ctx = Some ctx' → t ≠ PE → ctx' ≠ [].
Proof.
  intros H Ht Hc. subst ctx'. apply descend_plug in H. simpl in H.
  destruct ctx as [|f ctx].
  - simpl in H. congruence.
  - destruct (root_ptr_plug_in (f :: ctx) t) as (g & Hg & _); [done|].
    rewrite <- H in Hg. done.
Qed.

Lemma descend_unique_plug k v t ctx ctx' :
  descend_unique k v t ctx = Some (inr ctx') → plug ctx' PE = plug ctx t.
Proof.
  revert ctx. induction t as [|p l IHl k' v' b r IHr|]; intros ctx; simpl; [|..|done].
  - intros [= ->]. done.
  - destruct (compare k k' =? 0); [done|].
    destruct (compare k k' <? 0); intros H.
    + by rewrite (IHl _ H).
    + by rewrite (IHr _ H).
Qed.

Lemma descend_unique_length k v t ctx ctx' :
  descend_unique k v t ctx = Some (inr ctx') → (length ctx' ≤ depth t + length ctx)%nat.
Proof.
  revert ctx. induction t as [|p l IHl k' v' b r IHr|]; intros ctx; simpl; [|..|done].
  - intros [= ->]. done.
  - destruct (compare k k' =? 0); [done|].
    destruct (compare k k' <? 0); intros H.
    + apply IHl in H. simpl in H. lia.
    + apply IHr in H. simpl in H. lia.
Qed.

Lemma descend_unique_nonempty k v t ctx ctx' :
  descend_unique k v t ctx = Some (inr ctx') → t ≠ PE → ctx' ≠ [].
Proof.
  intros H Ht Hc. subst ctx'. apply descend_unique_plug in H. simpl in H.
  destruct ctx as [|f ctx].
  - simpl in H. congruence.
  - destruct (root_ptr_plug_in (f :: ctx) t) as (g & Hg & _); [done|].
    rewrite <- H in Hg. done.
Qed.

(** The side on which a frame holds the path, against the comparison that
    the descent made there. *)
Definition dir_ok (k : K) (f : frame) : Prop :=
  match f with
  | FL _ k' _ _ _ => compare k k' ≤ 0
  | FR _ _ k' _ _ => 0 < compare k k'
  end.

Lemma descend_dir_ok k t ctx ctx' :
  descend k t ctx = Some ctx' → Forall (dir_ok k) ctx → Forall (dir_ok k) ctx'.
Proof.
  revert ctx. induction t as [|p l IHl k' v b r IHr|]; intros ctx; simpl; [|..|done].
  - intros [= ->]. done.
  - destruct (Z.leb_spec (compare k k') 0) as [Hle|Hle]; intros H Hc.
    + apply (IHl _ H). constructor; [simpl; lia|done].
    + apply (IHr _ H). constructor; [simpl; lia|done].
Qed.

Lemma descend_unique_dir_ok k v t ctx ctx' :
  descend_unique k v t ctx = Some (inr ctx') →
  Forall (dir_ok k) ctx → Forall (dir_ok k) ctx'.
Proof.
  revert ctx. induction t as [|p l IHl k' v' b r IHr|]; intros ctx; simpl; [|..|done].
  - intros [= ->]. done.
  - destruct (Z.eqb_spec (compare k k') 0) as [Heq|Heq]; [done|].
    destruct (Z.ltb_spec (compare k k') 0) as [Hlt|Hlt]; intros H Hc.
    + apply (IHl _ H). constructor; [simpl; lia|done].
    + apply (IHr _ H). constructor; [simpl; lia|done].
Qed.

End SetTree.

(** ** [set] on the store follows [pset] *)

Section SetStoreFrames.

Context {K V : Type}.
#[local] Abbreviation Node := (Node K V).
#[local] Abbreviation AVLTree := (AVLTree K V).
#[local] Abbreviation M := (M K V).
#[local] Abbreviation ptree := (ptree K V).
#[local] Abbreviation frame := (@frame K V).

Lemma frame_cell_bf (f : frame) par c b :
  with_bf b (frame_cell f par c) = frame_cell (frame_with_bf b f) par c.
Proof. destruct f; reflexivity. Qed.

Lemma plug1_root (f : frame) (c : ptree) : root_ptr (plug1 f c) = Some (frame_ptr f).
Proof. destruct f; reflexivity. Qed.

(** The object of the innermost frame, and the tree after its balance
    factor is written. *)
Lemma wf_focus_frame h (f : frame) ctx (c : ptree) :
  wf h None (plug (f :: ctx) c) →
  h !! frame_ptr f = Some (frame_cell f (ctx_top ctx) (root_ptr c)).
Proof.
  intros Hwf. apply wf_plug in Hwf as (Hctx & _).
  by apply wf_ctx_cons in Hctx as (Hf & _).
Qed.

Lemma wf_set_frame_bf h (f : frame) ctx (c : ptree) b :
  wf h None (plug (f :: ctx) c) → NoDup (ptrs (plug (f :: ctx) c)) →
  wf (<[frame_ptr f := with_bf b (frame_cell f (ctx_top ctx) (root_ptr c))]> h) None
     (plug ctx (plug1 (frame_with_bf b f) c))
  ∧ NoDup (ptrs (plug ctx (plug1 (frame_with_bf b f) c))).
Proof.
  intros Hwf Hnd. split.
  - destruct f; simpl in *; by eapply wf_update_root.
  - destruct f; simpl in *; (eapply NoDup_plug; [|exact Hnd]); reflexivity.
Qed.

Lemma root_plug_frame_bf (f : frame) ctx (c : ptree) b :
  root_ptr (plug ctx (plug1 (frame_with_bf b f) c)) = root_ptr (plug (f :: ctx) c).
Proof.
  simpl. destruct ctx as [|g ctx].
  - destruct f; reflexivity.
  - by apply root_ptr_plug.
Qed.

Lemma fresh_not_in h par (t : ptree) :
  wf h par t → fresh (dom h) ∉ ptrs t.
Proof.
  intros Hwf Hin. eapply wf_lookup in Hin; [|done].
  apply elem_of_dom in Hin. by apply is_fresh in Hin.
Qed.

(** Hanging the new leaf below the innermost frame of the path. *)
Lemma attach_leaf (h : gmap ptr Node) f ctx k v :
  let new := fresh (dom h) in
  let h2 := <[frame_ptr f := frame_cell f (ctx_top ctx) (Some new)]>
              (<[new := mkNode (Some (frame_ptr f)) None None 0 k v]> h) in
  wf h None (plug (f :: ctx) PE) → NoDup (ptrs (plug (f :: ctx) PE)) →
  wf h2 None (plug (f :: ctx) (PN new PE k v 0 PE))
  ∧ NoDup (ptrs (plug (f :: ctx) (PN new PE k v 0 PE))).
Proof.
  intros new h2 Hwf Hnd.
  pose proof (fresh_not_in _ _ _ Hwf) as Hnew. fold new in Hnew.
  rewrite ptrs_plug in Hnew, Hnd. simpl in Hnew, Hnd.
  apply wf_plug in Hwf as (Hctx & _). split.
  - apply wf_plug. split.
    + eapply wf_ctx_child; [exact Hctx| | |].
      * intros f0 ctx0 [= <- <-]. subst h2. by rewrite lookup_insert_eq.
      * intros x Hx Hne. subst h2. simpl in Hne.
        rewrite !lookup_insert_ne; [done|set_solver|congruence].
      * done.
    + simpl. subst h2. rewrite lookup_insert_ne by set_solver.
      by rewrite lookup_insert_eq.
  - rewrite ptrs_plug. simpl. constructor; [set_solver|done].
Qed.

End SetStoreFrames.

Section SetStore.

Context {K V : Type}.
#[local] Abbreviation Node := (Node K V).
#[local] Abbreviation AVLTree := (AVLTree K V).
#[local] Abbreviation M := (M K V).
#[local] Abbreviation ptree := (ptree K V).
#[local] Abbreviation frame := (@frame K V).

Variable compare : K → K → Z.

Lemma set_descend_tree k fuel (h : gmap ptr Node) R S (t : ptree) ctx ctx' cmp :
  wf h (ctx_top ctx) t → descend compare k t ctx = Some ctx' →
  (depth t < fuel)%nat →
  set_descend compare fuel k (root_ptr t) (ctx_top ctx) cmp (mkTree h R S)
  = Done (inr (ctx_top ctx',
               match t with PE => cmp | _ => last_cmp compare k ctx' 0 end))
         (mkTree h R S).
Proof.
  revert fuel ctx cmp.
  induction t as [|p l IHl k' v b r IHr|]; intros fuel ctx cmp Hwf Hd Hf; simpl in Hd;
    [|..|done].
  - simplify_eq. destruct fuel; reflexivity.
  - destruct fuel as [|fuel]; [simpl in Hf; lia|].
    destruct Hwf as (Hp & Hl & Hr). simpl in Hf.
    simpl. mrun.
    destruct (compare k k' <=? 0) eqn:Hc; mrun.
    + rewrite (IHl fuel (FL p k' v b r :: ctx) _ Hl Hd) by lia.
      destruct l; [|done..]. simpl in Hd. by simplify_eq.
    + rewrite (IHr fuel (FR p l k' v b :: ctx) _ Hr Hd) by lia.
      destruct r; [|done..]. simpl in Hd. by simplify_eq.
Qed.

Lemma set_descend_unique_path k v fuel (h : gmap ptr Node) R S (t : ptree) ctx ctx' cmp :
  wf h (ctx_top ctx) t → descend_unique compare k v t ctx = Some (inr ctx') →
  (depth t < fuel)%nat →
  set_descend_unique compare fuel k v (root_ptr t) (ctx_top ctx) cmp (mkTree h R S)
  = Done (inr (ctx_top ctx',
               match t with PE => cmp | _ => last_cmp compare k ctx' 0 end))
         (mkTree h R S).
Proof.
  revert fuel ctx cmp.
  induction t as [|p l IHl k' v' b r IHr|]; intros fuel ctx cmp Hwf Hd Hf; simpl in Hd;
    [|..|done].
  - simplify_eq. destruct fuel; reflexivity.
  - destruct fuel as [|fuel]; [simpl in Hf; lia|].
    destruct Hwf as (Hp & Hl & Hr). simpl in Hf.
    simpl. mrun.
    destruct (compare k k' =? 0) eqn:Hc0; [done|].
    destruct (compare k k' <? 0) eqn:Hc; mrun.
    + rewrite (IHl fuel (FL p k' v' b r :: ctx) _ Hl Hd) by lia.
      destruct l; [|done..]. simpl in Hd. by simplify_eq.
    + rewrite (IHr fuel (FR p l k' v' b :: ctx) _ Hr Hd) by lia.
      destruct r; [|done..]. simpl in Hd. by simplify_eq.
Qed.

Lemma set_descend_unique_found k v fuel (h : gmap ptr Node) R S (t : ptree) ctx t' cmp :
  wf h None (plug ctx t) → NoDup (ptrs (plug ctx t)) →
  descend_unique compare k v t ctx = Some (inl t') →
  (depth t < fuel)%nat →
  ∃ h', set_descend_unique compare fuel k v (root_ptr t) (ctx_top ctx) cmp (mkTree h R S)
        = Done (inl tt) (mkTree h' R S)
    ∧ wf h' None t' ∧ NoDup (ptrs t') ∧ root_ptr t' = root_ptr (plug ctx t).
Proof.
  revert fuel ctx cmp.
  induction t as [|p l IHl k' v' b r IHr|]; intros fuel ctx cmp Hwf Hnd Hd Hf; simpl in Hd;
    [done|..|done].
  destruct fuel as [|fuel]; [simpl in Hf; lia|].
  pose proof Hwf as Hwf0. apply wf_plug in Hwf0 as (Hctx & Hp & Hl & Hr).
  simpl in Hf. simpl. mrun.
  destruct (compare k k' =? 0) eqn:Hc0.
  - simplify_eq. mrun.
    eexists. split; [reflexivity|]. split; [|split].
    + eapply wf_update_root; eauto.
    + revert Hnd. by apply NoDup_plug.
    + destruct ctx as [|f ctx]; [done|]. by apply root_ptr_plug.
  - destruct (compare k k' <? 0) eqn:Hc; mrun.
    + apply (IHl fuel (FL p k' v' b r :: ctx)); auto. lia.
    + apply (IHr fuel (FR p l k' v' b :: ctx)); auto. lia.
Qed.

Lemma set_rebalance_tree k fuel (h : gmap ptr Node) S ctx (c t' : ptree) :
  wf h None (plug ctx c) → NoDup (ptrs (plug ctx c)) →
  set_up compare k ctx c = Some t' →
  (length ctx < fuel)%nat →
  ∃ h', set_rebalance compare fuel k (ctx_top ctx) (mkTree h (root_ptr (plug ctx c)) S)
        = Done tt (mkTree h' (root_ptr t') S)
    ∧ wf h' None t' ∧ NoDup (ptrs t').
Proof.
  revert fuel h c.
  induction ctx as [|f ctx IH]; intros fuel h c Hwf Hnd Hup Hf; simpl in Hup.
  - simplify_eq. exists h. by destruct fuel.
  - destruct fuel as [|fuel]; [simpl in Hf; lia|]. simpl in Hf.
    pose proof (wf_focus_frame _ _ _ _ Hwf) as Hcell.
    cbn [set_rebalance ctx_top].
    erewrite run_fld by exact Hcell.
    erewrite run_fld by exact Hcell.
    replace (key (frame_cell f (ctx_top ctx) (root_ptr c))) with (frame_key f)
      by (destruct f; reflexivity).
    replace (balanceFactor (frame_cell f (ctx_top ctx) (root_ptr c))) with (frame_bf f)
      by (destruct f; reflexivity).
    set (b := if compare (frame_key f) k <? 0 then frame_bf f - 1 else frame_bf f + 1) in *.
    destruct (wf_set_frame_bf _ _ _ _ b Hwf Hnd) as (Hwf1 & Hnd1).
    rewrite <- (root_plug_frame_bf f ctx c b).
    assert (Hstep : ∀ B (kk : unit → M B) R,
      bind (if compare (frame_key f) k <? 0 then setBF (frame_ptr f) (frame_bf f - 1)
            else setBF (frame_ptr f) (frame_bf f + 1)) kk (mkTree h R S)
      = kk tt (mkTree (<[frame_ptr f := with_bf b (frame_cell f (ctx_top ctx) (root_ptr c))]> h) R S)).
    { intros B kk R. subst b. destruct (compare (frame_key f) k <? 0); mrun; reflexivity. }
    rewrite Hstep. clear Hstep.
    set (h1 := <[frame_ptr f := _]> h) in *.
    erewrite run_fld by (subst h1; apply lookup_insert_eq).
    cbn [balanceFactor with_bf].
    destruct (b =? 0) eqn:Hb0.
    { simplify_eq. exists h1. done. }
    destruct (b <? -1) eqn:Hb1.
    { destruct (fixR _) as [t1|] eqn:Hfix; simpl in Hup; [|done]. simplify_eq.
      edestruct (fixRightHeavy_tree h1 (root_ptr (plug ctx (plug1 (frame_with_bf b f) c))) S ctx _ t1 (frame_ptr f) Hwf1 Hnd1 Hfix)
        as (h2 & Hrun & Hwf2 & Hnd2); [destruct f; reflexivity|reflexivity|].
      erewrite run_bind by exact Hrun. exists h2. done. }
    destruct (1 <? b) eqn:Hb2.
    { destruct (fixL _) as [t1|] eqn:Hfix; simpl in Hup; [|done]. simplify_eq.
      edestruct (fixLeftHeavy_tree h1 (root_ptr (plug ctx (plug1 (frame_with_bf b f) c))) S ctx _ t1 (frame_ptr f) Hwf1 Hnd1 Hfix)
        as (h2 & Hrun & Hwf2 & Hnd2); [destruct f; reflexivity|reflexivity|].
      erewrite run_bind by exact Hrun. exists h2. done. }
    erewrite run_fld by (subst h1; apply lookup_insert_eq).
    replace (parent _) with (ctx_top ctx) by (destruct f; reflexivity).
    apply IH; auto. lia.
Qed.

Lemma set_tree noDuplicates (st : AVLTree) (t t' : ptree) k v ins :
  Rep st t → pset compare noDuplicates (fresh (dom (heap st))) k v t = Some (t', ins) →
  ∃ st', set compare noDuplicates k v st = Done tt st' ∧ Rep st' t'
    ∧ _size st' = _size st + (if ins then 1 else 0).
Proof.
  destruct st as [h R S]. intros (Hwf & Hnd & HR) Hset. simpl in *. subst R.
  unfold set. rewrite run_getRoot.
  destruct (root_ptr t) as [rp|] eqn:Hrp.
  2:{ destruct t; try discriminate. simpl in Hset. simplify_eq.
      mrun. eexists. split; [reflexivity|]. split; [|simpl; lia].
      split; [|split]; simpl.
      - by rewrite lookup_insert_eq.
      - apply NoDup_singleton.
      - done. }
  rewrite run_getFuel.
  assert (Hpath : ∀ ctx, plug ctx PE = t → ctx ≠ [] → Forall (dir_ok compare k) ctx →
            set_up compare k ctx (PN (fresh (dom h)) PE k v 0 PE) = Some t' →
            ∃ st', bind (ret (inr (ctx_top ctx, last_cmp compare k ctx 0)))
                    (λ d : unit + option ptr * Z,
                      match d with
                      | inl _ => ret tt
                      | inr (None, _) => throw "failed to find parent node for insert"%string
                      | inr (Some p, cmp) =>
                        bind (alloc (mkNode (Some p) None None 0 k v)) (λ newNode,
                          bind (if cmp <=? 0 then setLeft p (Some newNode)
                                else setRight p (Some newNode)) (λ _,
                          bind getFuel (λ fuel,
                          bind (set_rebalance compare fuel k (Some p)) (λ _,
                          bind getSize (λ n, setSize (n + 1))))))
                      end) (mkTree h (Some rp) S) = Done tt st'
              ∧ Rep st' t' ∧ _size st' = S + 1).
  { intros ctx Hplug Hne Hdir Hup. destruct ctx as [|f ctx]; [done|]. subst t.
    rewrite run_ret. cbn [ctx_top last_cmp]. rewrite run_alloc.
    pose proof (wf_focus_frame _ _ _ _ Hwf) as Hcell.
    destruct (attach_leaf h f ctx k v Hwf Hnd) as (Hwf2 & Hnd2).
    apply Forall_cons in Hdir as [Hdir _].
    set (new := fresh (dom h)) in *.
    assert (Hnew : new ≠ frame_ptr f).
    { intros Heq. apply (is_fresh (dom h)). fold new. rewrite Heq.
      apply elem_of_dom. eauto. }
    assert (Hstep : ∀ B (kk : unit → M B) R,
      bind (if compare k (frame_key f) <=? 0 then setLeft (frame_ptr f) (Some new)
            else setRight (frame_ptr f) (Some new)) kk
           (mkTree (<[new := mkNode (Some (frame_ptr f)) None None 0 k v]> h) R S)
      = kk tt (mkTree (<[frame_ptr f := frame_cell f (ctx_top ctx) (Some new)]>
                 (<[new := mkNode (Some (frame_ptr f)) None None 0 k v]> h)) R S)).
    { intros B kk R. destruct f; simpl in *.
      - destruct (Z.leb_spec (compare k k0) 0); [|lia]. mrun. reflexivity.
      - destruct (Z.leb_spec (compare k k0) 0); [lia|]. mrun. reflexivity. }
    rewrite Hstep. clear Hstep.
    rewrite run_getFuel.
    set (h2 := <[frame_ptr f := _]> (<[new := _]> h)) in *.
    destruct (set_rebalance_tree k (Datatypes.S (size h2)) h2 S (f :: ctx) _ t' Hwf2 Hnd2 Hup)
      as (h3 & Hrun & Hwf3 & Hnd3); [eapply ctx_fuel; eauto|].
    rewrite (root_ptr_plug (f :: ctx) _ PE) in Hrun by done.
    rewrite Hrp in Hrun. simpl ctx_top in Hrun.
    erewrite run_bind by exact Hrun.
    rewrite run_getSize. eexists. split; [reflexivity|]. done. }
  unfold pset in Hset.
  destruct noDuplicates.
  - destruct (descend_unique compare k v t []) as [[t1|ctx]|] eqn:Hd;
      [| |by destruct t]; (destruct t as [|p l k0 v0 b r|]; [done| |done]);
      cbn [mbind option_bind] in Hset.
    + simplify_eq.
      edestruct (set_descend_unique_found k v (Datatypes.S (size h)) h (Some rp) S
                   (PN p l k0 v0 b r) [] t' 0) as (h' & Hrun & Hwf' & Hnd' & Hroot');
        [done..| |].
      { eapply depth_fuel; eauto. }
      simpl root_ptr in Hrun. simpl ctx_top in Hrun. simpl in Hrp. simplify_eq.
      erewrite run_bind by exact Hrun.
      eexists. split; [reflexivity|]. split; [|simpl; lia]. done.
    + destruct (set_up compare k ctx _) as [t1|] eqn:Hup; simpl in Hset; [|done].
      simplify_eq.
      pose proof (set_descend_unique_path k v (Datatypes.S (size h)) h (Some rp) S
                   (PN p l k0 v0 b r) [] ctx 0 Hwf Hd) as Hrun.
      simpl root_ptr in Hrun. simpl ctx_top in Hrun. simpl in Hrp. simplify_eq.
      erewrite run_bind by (apply Hrun; eapply depth_fuel; eauto).
      apply Hpath; auto.
      * by apply descend_unique_plug in Hd.
      * by eapply descend_unique_nonempty.
      * eapply descend_unique_dir_ok; eauto.
  - destruct (descend compare k t []) as [ctx|] eqn:Hd;
      [|by destruct t]; (destruct t as [|p l k0 v0 b r|]; [done| |done]);
      cbn [mbind option_bind] in Hset.
    destruct (set_up compare k ctx _) as [t1|] eqn:Hup; simpl in Hset; [|done].
    simplify_eq.
    pose proof (set_descend_tree k (Datatypes.S (size h)) h (Some rp) S
                 (PN p l k0 v0 b r) [] ctx 0 Hwf Hd) as Hrun.
    simpl root_ptr in Hrun. simpl ctx_top in Hrun. simpl in Hrp. simplify_eq.
    erewrite run_bind by (apply Hrun; eapply depth_fuel; eauto).
    apply Hpath; auto.
    * by apply descend_plug in Hd.
    * by eapply descend_nonempty.
    * eapply descend_dir_ok; eauto.
Qed.

End SetStore.

(** ** [delete] on the tree *)

Section DeleteShapes.

Context {K V : Type}.
#[local] Abbreviation Node := (Node K V).
#[local] Abbreviation AVLTree := (AVLTree K V).
#[local] Abbreviation M := (M K V).
#[local] Abbreviation ptree := (ptree K V).
#[local] Abbreviation frame := (@frame K V).

(** Where [while (max.right) max = max.right] stops. *)
Fixpoint rightmost_ptr (t : ptree) : option ptr :=
  match t with
  | PE => None
  | PN p _ _ _ _ r =>
    match r with
    | PE => Some p
    | _ => rightmost_ptr r
    end
  | PG p _ _ _ => Some p
  end.

(** Where [while (min.left) min = min.left] stops. *)
Fixpoint leftmost_ptr (t : ptree) : option ptr :=
  match t with
  | PE => None
  | PN p l _ _ _ _ =>
    match l with
    | PE => Some p
    | _ => leftmost_ptr l
    end
  | PG p _ _ _ => Some p
  end.

(** The first block of [delete], below the left child of [node]: every
    entry on the way moves one place up in the order.  The result is the entry
    that goes into [node], the frames from the last [max] up to the root of
    the subtree, and the last [max], a leaf. *)
Fixpoint shiftMax (t : ptree) : option ((K * option V) * list frame * ptree) :=
  match t with
  | PN p l k v b r =>
    match r with
    | PE =>
      match l with
      | PE => Some ((k, v), [], t)
      | _ =>
        '(kv, c, leaf) ← shiftMax l;
        Some ((k, v), c ++ [FL p kv.1 kv.2 b PE], leaf)
      end
    | _ =>
      '(kv, c, leaf) ← shiftMax r;
      Some (kv, c ++ [FR p l k v b], leaf)
    end
  | _ => None
  end.

(** The second block of [delete], below the right child of [node]. *)
Fixpoint shiftMin (t : ptree) : option ((K * option V) * list frame * ptree) :=
  match t with
  | PN p l k v b r =>
    match l with
    | PE =>
      match r with
      | PE => Some ((k, v), [], t)
      | _ =>
        '(kv, c, leaf) ← shiftMin r;
        Some ((k, v), c ++ [FR p PE kv.1 kv.2 b], leaf)
      end
    | _ =>
      '(kv, c, leaf) ← shiftMin l;
      Some (kv, c ++ [FL p k v b r], leaf)
    end
  | _ => None
  end.

(** The leaf that is about to be unlinked no longer counts. *)
Definition ghost_of (t : ptree) : option ptree :=
  match t with
  | PN m PE k v b PE => Some (PG m k v b)
  | _ => None
  end.

(** Unlinking it. *)
Fixpoint purge (t : ptree) : ptree :=
  match t with
  | PE => PE
  | PN p l k v b r => PN p (purge l) k v b (purge r)
  | PG _ _ _ _ => PE
  end.

Fixpoint ghosts (t : ptree) : list ptr :=
  match t with
  | PE => []
  | PN _ l _ _ _ r => ghosts l ++ ghosts r
  | PG p _ _ _ => [p]
  end.

(** The [while (parent)] loop of [delete] on the shape. *)
Fixpoint del_up (ctx : list frame) (c : ptree) : option ptree :=
  match ctx with
  | [] => Some c
  | f :: ctx =>
    let b := match f with
             | FL _ _ _ b _ => b - 1
             | FR _ _ _ _ b => b + 1
             end in
    let t := plug1 (frame_with_bf b f) c in
    t1 ← (if b <? -1 then fixR t else if 1 <? b then fixL t else Some t);
    if bool_decide (bf_root t1 = Some (-1)) || bool_decide (bf_root t1 = Some 1)
    then Some (plug ctx t1)
    else del_up ctx t1
  end.

Lemma purge_clean (t : ptree) : ghosts t = [] → purge t = t.
Proof.
  induction t as [|p l IHl k v b r IHr|]; simpl; [done| |done].
  intros [Hl Hr]%app_eq_nil. by rewrite IHl, IHr.
Qed.

Lemma clean_ghosts (t : ptree) : clean t ↔ ghosts t = [].
Proof.
  induction t as [|p l IHl k v b r IHr|]; simpl; [done| |done].
  rewrite IHl, IHr. split.
  - intros [-> ->]. done.
  - by intros [? ?]%app_eq_nil.
Qed.

Lemma purge_is_clean (t : ptree) : clean (purge t).
Proof. induction t; simpl; auto. Qed.

Lemma ghosts_ptrs (t : ptree) x : x ∈ ghosts t → x ∈ ptrs t.
Proof.
  induction t as [|p l IHl k v b r IHr|]; simpl; [done| |done].
  rewrite !elem_of_cons, !elem_of_app. naive_solver.
Qed.

Lemma purge_ptrs (t : ptree) : ptrs (purge t) `sublist_of` ptrs t.
Proof.
  induction t as [|p l IHl k v b r IHr|]; simpl; [done| |].
  - constructor. by apply sublist_app.
  - apply sublist_nil_l.
Qed.

Lemma purge_NoDup (t : ptree) : NoDup (ptrs t) → NoDup (ptrs (purge t)).
Proof. intros H. exact (sublist_NoDup _ _ H (purge_ptrs t)). Qed.

Lemma purge_root (t : ptree) :
  (∀ p k v b, t ≠ PG p k v b) → root_ptr (purge t) = root_ptr t.
Proof. destruct t; simpl; try done. intros H. by edestruct H. Qed.

(** A frame inside the path may get another entry. *)
Lemma wf_update_frame h (spine ctx0 : list frame) n k v b r k' v' (t : ptree) :
  wf h None (plug (spine ++ FL n k v b r :: ctx0) t) →
  NoDup (ptrs (plug (spine ++ FL n k v b r :: ctx0) t)) →
  wf (<[n := mkNode (ctx_top ctx0) (root_ptr (plug spine t)) (root_ptr r) b k' v']> h)
     None (plug (spine ++ FL n k' v' b r :: ctx0) t)
  ∧ NoDup (ptrs (plug (spine ++ FL n k' v' b r :: ctx0) t)).
Proof.
  rewrite !plug_app. simpl. intros Hwf Hnd. split.
  - eapply wf_update_root; eauto.
  - revert Hnd. by apply NoDup_plug.
Qed.

Lemma wf_update_frame_r h (spine ctx0 : list frame) n l k v b k' v' (t : ptree) :
  wf h None (plug (spine ++ FR n l k v b :: ctx0) t) →
  NoDup (ptrs (plug (spine ++ FR n l k v b :: ctx0) t)) →
  wf (<[n := mkNode (ctx_top ctx0) (root_ptr l) (root_ptr (plug spine t)) b k' v']> h)
     None (plug (spine ++ FR n l k' v' b :: ctx0) t)
  ∧ NoDup (ptrs (plug (spine ++ FR n l k' v' b :: ctx0) t)).
Proof.
  rewrite !plug_app. simpl. intros Hwf Hnd. split.
  - eapply wf_update_root; eauto.
  - revert Hnd. by apply NoDup_plug.
Qed.

Lemma wf_frame_cell h (spine ctx0 : list frame) f (t : ptree) :
  wf h None (plug (spine ++ f :: ctx0) t) →
  h !! frame_ptr f = Some (frame_cell f (ctx_top ctx0) (root_ptr (plug spine t))).
Proof. rewrite plug_app. apply wf_focus_frame. Qed.

Lemma wf_focus h ctx (t : ptree) : wf h None (plug ctx t) → wf h (ctx_top ctx) t.
Proof. intros H. by apply wf_plug in H as [_ ?]. Qed.

Lemma shiftMax_leaf t kv c leaf :
  shiftMax t = Some (kv, c, leaf) → ∃ m k v b, leaf = PN m PE k v b PE.
Proof.
  revert kv c. induction t as [|p l IHl k v b r IHr|]; intros kv c; simpl; [done| |done].
  destruct r as [|rp rl rk rv rb rr|].
  - destruct l as [|lp ll lk lv lb lr|].
    + intros [= <- <- <-]. eauto.
    + destruct (shiftMax (PN lp ll lk lv lb lr)) as [[[kv1 c1] leaf1]|] eqn:E; [|done].
      simpl. intros [= <- <- <-]. eauto.
    + done.
  - destruct (shiftMax (PN rp rl rk rv rb rr)) as [[[kv1 c1] leaf1]|] eqn:E; [|done].
    simpl. intros [= <- <- <-]. eauto.
  - done.
Qed.

Lemma shiftMin_leaf t kv c leaf :
  shiftMin t = Some (kv, c, leaf) → ∃ m k v b, leaf = PN m PE k v b PE.
Proof.
  revert kv c. induction t as [|p l IHl k v b r IHr|]; intros kv c; simpl; [done| |done].
  destruct l as [|lp ll lk lv lb lr|].
  - destruct r as [|rp rl rk rv rb rr|].
    + intros [= <- <- <-]. eauto.
    + destruct (shiftMin (PN rp rl rk rv rb rr)) as [[[kv1 c1] leaf1]|] eqn:E; [|done].
      simpl. intros [= <- <- <-]. eauto.
    + done.
  - destruct (shiftMin (PN lp ll lk lv lb lr)) as [[[kv1 c1] leaf1]|] eqn:E; [|done].
    simpl. intros [= <- <- <-]. eauto.
  - done.
Qed.

End DeleteShapes.

Section DeleteTree.

Context {K V : Type}.
#[local] Abbreviation ptree := (ptree K V).
#[local] Abbreviation frame := (@frame K V).

Variable compare : K → K → Z.

(** The search loop of [delete]: the frames above the first node whose key
    compares equal, and the subtree of that node. *)
Fixpoint pfind (k : K) (t : ptree) (ctx : list frame) : option (list frame * ptree) :=
  match t with
  | PE => None
  | PN p l k' v b r =>
    let c := compare k k' in
    if c =? 0 then Some (ctx, t)
    else if c <? 0 then pfind k l (FL p k' v b r :: ctx)
    else pfind k r (FR p l k' v b :: ctx)
  | PG _ _ _ _ => None
  end.

(** The path to the leaf that [delete] unlinks, with the entries already
    moved, and that leaf. *)
Definition del_path (ctx : list frame) (x : ptree) : option (list frame * ptree) :=
  match x with
  | PN p l k v b r =>
    match l with
    | PE =>
      match r with
      | PE => Some (ctx, x)
      | _ =>
        '(kv, c, leaf) ← shiftMin r;
        Some (c ++ FR p PE kv.1 kv.2 b :: ctx, leaf)
      end
    | _ =>
      '(kv, c, leaf) ← shiftMax l;
      Some (c ++ FL p kv.1 kv.2 b r :: ctx, leaf)
    end
  | _ => None
  end.

(** [delete] on the shape, when the key is found. *)
Definition pdelete (k : K) (t : ptree) : option ptree :=
  '(ctx, x) ← pfind k t [];
  '(ctx1, leaf) ← del_path ctx x;
  g ← ghost_of leaf;
  t1 ← del_up ctx1 g;
  Some (purge t1).

Lemma pfind_plug k t ctx ctx' x :
  pfind k t ctx = Some (ctx', x) → plug ctx' x = plug ctx t.
Proof.
  revert ctx. induction t as [|p l IHl k' v b r IHr|]; intros ctx; simpl; [done| |done].
  destruct (compare k k' =? 0).
  - intros [= <- <-]. done.
  - destruct (compare k k' <? 0); intros H.
    + by rewrite (IHl _ H).
    + by rewrite (IHr _ H).
Qed.

Lemma pfind_node k t ctx ctx' x :
  pfind k t ctx = Some (ctx', x) → ∃ p l k' v b r, x = PN p l k' v b r ∧ compare k k' = 0.
Proof.
  revert ctx. induction t as [|p l IHl k' v b r IHr|]; intros ctx; simpl; [done| |done].
  destruct (Z.eqb_spec (compare k k') 0).
  - intros [= <- <-]. naive_solver.
  - destruct (compare k k' <? 0); eauto.
Qed.

End DeleteTree.

(** ** [delete] on the store follows [pdelete] *)

Section DeleteStoreShapes.

Context {K V : Type}.
#[local] Abbreviation Node := (Node K V).
#[local] Abbreviation AVLTree := (AVLTree K V).
#[local] Abbreviation M := (M K V).
#[local] Abbreviation ptree := (ptree K V).
#[local] Abbreviation frame := (@frame K V).

Lemma rightmost_tree fuel (h : gmap ptr Node) R S par (t : ptree) p :
  wf h par t → root_ptr t = Some p → (depth t ≤ fuel)%nat →
  ∃ m, rightmost_ptr t = Some m
    ∧ rightmost fuel p (mkTree h R S) = Done m (mkTree h R S).
Proof.
  revert fuel par p.
  induction t as [|q l IHl k v b r IHr|q k v b]; intros fuel par p Hwf Hp Hf;
    simpl in Hp; simplify_eq.
  - destruct Hwf as (Hq & Hl & Hr). simpl in Hf.
    destruct r as [|rp rl rk rv rb rr|rp rk rv rb].
    + exists p. split; [done|]. destruct fuel; simpl; mrun; reflexivity.
    + destruct fuel as [|fuel]; [lia|].
      destruct (IHr fuel (Some p) rp Hr eq_refl) as (m & Hm & Hrun); [simpl in *; lia|].
      exists m. split; [done|]. simpl. mrun. exact Hrun.
    + destruct fuel as [|fuel]; [lia|].
      destruct (IHr fuel (Some p) rp Hr eq_refl) as (m & Hm & Hrun); [simpl in *; lia|].
      exists m. split; [done|]. simpl. mrun. exact Hrun.
  - exists p. split; [done|]. simpl in Hwf. destruct fuel; simpl; mrun; reflexivity.
Qed.

Lemma leftmost_tree fuel (h : gmap ptr Node) R S par (t : ptree) p :
  wf h par t → root_ptr t = Some p → (depth t ≤ fuel)%nat →
  ∃ m, leftmost_ptr t = Some m
    ∧ leftmost fuel p (mkTree h R S) = Done m (mkTree h R S).
Proof.
  revert fuel par p.
  induction t as [|q l IHl k v b r IHr|q k v b]; intros fuel par p Hwf Hp Hf;
    simpl in Hp; simplify_eq.
  - destruct Hwf as (Hq & Hl & Hr). simpl in Hf.
    destruct l as [|rp rl rk rv rb rr|rp rk rv rb].
    + exists p. split; [done|]. destruct fuel; simpl; mrun; reflexivity.
    + destruct fuel as [|fuel]; [lia|].
      destruct (IHl fuel (Some p) rp Hl eq_refl) as (m & Hm & Hrun); [simpl in *; lia|].
      exists m. split; [done|]. simpl. mrun. exact Hrun.
    + destruct fuel as [|fuel]; [lia|].
      destruct (IHl fuel (Some p) rp Hl eq_refl) as (m & Hm & Hrun); [simpl in *; lia|].
      exists m. split; [done|]. simpl. mrun. exact Hrun.
  - exists p. split; [done|]. simpl in Hwf. destruct fuel; simpl; mrun; reflexivity.
Qed.

Lemma run_copyEntry {B} (h : gmap ptr Node) R S node m cn cm (k : unit → M B) :
  h !! node = Some cn → h !! m = Some cm → node ≠ m →
  bind (copyEntry node m) k (mkTree h R S)
  = k tt (mkTree (<[node := mkNode (parent cn) (left cn) (right cn) (balanceFactor cn)
                             (key cm) (value cm)]> h) R S).
Proof.
  intros Hn Hm Hne. unfold copyEntry. mrun.
  rewrite insert_insert_eq. reflexivity.
Qed.

(** The references of the focused subtree are not those of the frames. *)
Lemma focus_apart (ctx : list frame) (t : ptree) x y :
  NoDup (ptrs (plug ctx t)) → x ∈ ptrs t → y ∈ ctx_ptrs ctx → x ≠ y.
Proof.
  rewrite ptrs_plug. intros (_ & Hd & _)%NoDup_app Hx Hy ->. by apply (Hd y).
Qed.

Lemma frame_in_ctx (spine ctx0 : list frame) f :
  frame_ptr f ∈ ctx_ptrs (spine ++ f :: ctx0).
Proof.
  induction spine as [|g spine IH]; simpl; [set_solver|].
  rewrite !elem_of_cons, !elem_of_app. auto.
Qed.

Lemma delete_shift_max_tree R S (t : ptree) :
  ∀ spine n kn vn bn rn ctx0 fuel inner (h : gmap ptr Node) kv c leaf mx,
  wf h None (plug (spine ++ FL n kn vn bn rn :: ctx0) t) →
  NoDup (ptrs (plug (spine ++ FL n kn vn bn rn :: ctx0) t)) →
  shiftMax t = Some (kv, c, leaf) → root_ptr t = Some mx →
  (depth t < fuel)%nat → (depth t ≤ inner)%nat →
  ∃ h' m,
    bind (delete_shift_max fuel inner n mx)
         (λ r, bind (copyEntry r.1 r.2) (λ _, ret r.2)) (mkTree h R S)
    = Done m (mkTree h' R S)
    ∧ root_ptr leaf = Some m
    ∧ wf h' None (plug (c ++ spine ++ FL n kv.1 kv.2 bn rn :: ctx0) leaf)
    ∧ NoDup (ptrs (plug (c ++ spine ++ FL n kv.1 kv.2 bn rn :: ctx0) leaf)).
Proof.
  induction t as [|p l IHl k v b r IHr|]; [done| |done].
  intros spine n kn vn bn rn ctx0 fuel inner h kv c leaf mx Hwf Hnd Hs Hmx Hf Hi.
  simpl in Hmx. simplify_eq.
  pose proof (wf_focus _ _ _ Hwf) as Hfoc.
  pose proof Hfoc as (Hcp & Hwl & Hwr).
  pose proof (wf_frame_cell _ _ _ _ _ Hwf) as Hcn. simpl in Hcn.
  assert (Hnp : n ≠ mx).
  { intros ->. apply (focus_apart _ _ mx mx Hnd); [simpl; set_solver| |done].
    apply (frame_in_ctx spine ctx0 (FL mx kn vn bn rn)). }
  simpl in Hs.
  destruct r as [|q rl qk qv qb rr|]; [destruct l as [|lp ll lk lv lb lr|]| |].
  - (* a leaf: the loop does not run *)
    simplify_eq. simpl.
    destruct (wf_update_frame _ _ _ _ _ _ _ _ k v _ Hwf Hnd) as (Hwf1 & Hnd1).
    eexists _, mx. split; [|split; [done|split; [exact Hwf1|exact Hnd1]]].
    destruct fuel; simpl; mrun; simpl; mrun; simpl;
      (erewrite run_copyEntry by (first [exact Hcn|exact Hcp|exact Hnp]));
      reflexivity.
  - (* only a left child: the entry of [max] goes up, [max] takes the place of [node] *)
    destruct (shiftMax (PN lp ll lk lv lb lr)) as [[[kv1 c1] leaf1]|] eqn:Hs1; [|done].
    simpl in Hs. simplify_eq.
    destruct fuel as [|fuel]; [lia|]. simpl in Hf.
    destruct (wf_update_frame _ _ _ _ _ _ _ _ k v _ Hwf Hnd) as (Hwf1 & Hnd1).
    set (h1 := <[n := _]> h) in *.
    edestruct (IHl [] mx k v b PE (spine ++ FL n k v bn rn :: ctx0) fuel inner h1
                 kv1 c1 leaf lp) as (h' & m & Hrun & Hm & Hwf' & Hnd');
      [exact Hwf1|exact Hnd1|first [exact Hs1|reflexivity]|reflexivity|simpl in *; lia|simpl in *; lia|].
    exists h', m. split; [|split; [done|]].
    + simpl. mrun. simpl.
      destruct inner; simpl; mrun; simpl; mrun;
        (erewrite run_copyEntry by (first [exact Hcn|exact Hcp|exact Hnp]));
        simpl; fold h1; rewrite run_assoc;
        (erewrite run_fld by (subst h1; heap_lookup)); simpl; exact Hrun.
    + simpl in Hwf', Hnd'. rewrite <- !app_assoc. simpl. done.
  - done.
  - (* a right child: the loop goes on from it *)
    destruct (shiftMax (PN q rl qk qv qb rr)) as [[[kv1 c1] leaf1]|] eqn:Hs1; [|done].
    simpl in Hs. simplify_eq.
    destruct fuel as [|fuel]; [lia|].
    edestruct (IHr (FR mx l k v b :: spine) n kn vn bn rn ctx0 (Datatypes.S fuel) inner h
                 kv c1 leaf q) as (h' & m & Hrun & Hm & Hwf' & Hnd');
      [exact Hwf|exact Hnd|first [exact Hs1|reflexivity]|reflexivity|simpl in *; lia|simpl in *; lia|].
    exists h', m. split; [|split; [done|]].
    + rewrite <- Hrun. clear Hrun.
      destruct (rightmost_tree inner h R S _ _ mx Hfoc eq_refl Hi) as (m0 & Hm0 & Hrm).
      pose proof Hwr as (Hcq & Hwrl & Hwrr).
      assert (Hi' : (depth (PN q rl qk qv qb rr) ≤ inner)%nat) by (simpl in *; lia).
      destruct (rightmost_tree inner h R S _ _ q Hwr eq_refl Hi') as (m1 & Hm1 & Hrm1).
      assert (Hnq : n ≠ q).
      { intros ->. apply (focus_apart _ _ q q Hnd); [simpl; set_solver| |done].
        apply (frame_in_ctx spine ctx0 (FL q kn vn bn rn)). }
      change (rightmost_ptr (PN q rl qk qv qb rr) = Some m0) in Hm0.
      rewrite Hm1 in Hm0. simplify_eq.
      destruct rl as [|? ? ? ? ? ?|], rr as [|? ? ? ? ? ?|]; try done.
      all: simpl; mrun; simpl; mrun; rewrite andb_false_r.
      all: rewrite ?run_assoc; erewrite (run_bind (rightmost inner mx)) by exact Hrm.
      2-5: rewrite ?run_assoc; erewrite (run_bind (rightmost inner q)) by exact Hrm1;
           rewrite ?run_assoc; reflexivity.
      simpl in Hm1. simplify_eq. cbn [fst snd].
      erewrite (run_copyEntry h R S n m0) by (first [exact Hcn|exact Hcq|exact Hnq]).
      rewrite run_assoc.
      erewrite (run_copyEntry h R S n m0) by (first [exact Hcn|exact Hcq|exact Hnq]).
      simpl.
      rewrite run_assoc. erewrite run_fld by heap_lookup. simpl.
      destruct fuel as [|fuel]; [simpl in Hf; lia|].
      simpl. mrun. simpl. mrun. simpl.
      erewrite run_copyEntry by (first [apply lookup_insert_eq|heap_lookup|exact Hnq]).
      simpl. rewrite insert_insert_eq. reflexivity.
    + rewrite <- !app_assoc. simpl. done.
  - done.
Qed.

Lemma delete_shift_min_tree R S (t : ptree) :
  ∀ spine n ln kn vn bn ctx0 fuel inner (h : gmap ptr Node) kv c leaf mn,
  wf h None (plug (spine ++ FR n ln kn vn bn :: ctx0) t) →
  NoDup (ptrs (plug (spine ++ FR n ln kn vn bn :: ctx0) t)) →
  shiftMin t = Some (kv, c, leaf) → root_ptr t = Some mn →
  (depth t < fuel)%nat → (depth t ≤ inner)%nat →
  ∃ h' m,
    bind (delete_shift_min fuel inner n mn)
         (λ r, bind (copyEntry r.1 r.2) (λ _, ret r.2)) (mkTree h R S)
    = Done m (mkTree h' R S)
    ∧ root_ptr leaf = Some m
    ∧ wf h' None (plug (c ++ spine ++ FR n ln kv.1 kv.2 bn :: ctx0) leaf)
    ∧ NoDup (ptrs (plug (c ++ spine ++ FR n ln kv.1 kv.2 bn :: ctx0) leaf)).
Proof.
  induction t as [|p l IHl k v b r IHr|]; [done| |done].
  intros spine n ln kn vn bn ctx0 fuel inner h kv c leaf mn Hwf Hnd Hs Hmn Hf Hi.
  simpl in Hmn. simplify_eq.
  pose proof (wf_focus _ _ _ Hwf) as Hfoc.
  pose proof Hfoc as (Hcp & Hwl & Hwr).
  pose proof (wf_frame_cell _ _ _ _ _ Hwf) as Hcn. simpl in Hcn.
  assert (Hnp : n ≠ mn).
  { intros ->. apply (focus_apart _ _ mn mn Hnd); [simpl; set_solver| |done].
    apply (frame_in_ctx spine ctx0 (FR mn ln kn vn bn)). }
  simpl in Hs.
  destruct l as [|q ll qk qv qb lr|]; [destruct r as [|rp rl rk rv rb rr|]| |].
  - (* a leaf: the loop does not run *)
    simplify_eq. simpl.
    destruct (wf_update_frame_r _ _ _ _ _ _ _ _ k v _ Hwf Hnd) as (Hwf1 & Hnd1).
    eexists _, mn. split; [|split; [done|split; [exact Hwf1|exact Hnd1]]].
    destruct fuel; simpl; mrun; simpl; mrun; simpl;
      (erewrite run_copyEntry by (first [exact Hcn|exact Hcp|exact Hnp]));
      reflexivity.
  - (* only a right child *)
    destruct (shiftMin (PN rp rl rk rv rb rr)) as [[[kv1 c1] leaf1]|] eqn:Hs1; [|done].
    simpl in Hs. simplify_eq.
    destruct fuel as [|fuel]; [lia|]. simpl in Hf.
    destruct (wf_update_frame_r _ _ _ _ _ _ _ _ k v _ Hwf Hnd) as (Hwf1 & Hnd1).
    set (h1 := <[n := _]> h) in *.
    edestruct (IHr [] mn PE k v b (spine ++ FR n ln k v bn :: ctx0) fuel inner h1
                 kv1 c1 leaf rp) as (h' & m & Hrun & Hm & Hwf' & Hnd');
      [exact Hwf1|exact Hnd1|first [exact Hs1|reflexivity]|reflexivity
      |simpl in *; lia|simpl in *; lia|].
    exists h', m. split; [|split; [done|]].
    + simpl. mrun. simpl.
      destruct inner; simpl; mrun; simpl; mrun;
        (erewrite run_copyEntry by (first [exact Hcn|exact Hcp|exact Hnp]));
        simpl; fold h1; rewrite run_assoc;
        (erewrite run_fld by (subst h1; heap_lookup)); simpl; exact Hrun.
    + simpl in Hwf', Hnd'. rewrite <- !app_assoc. simpl. done.
  - done.
  - (* a left child: the loop goes on from it *)
    destruct (shiftMin (PN q ll qk qv qb lr)) as [[[kv1 c1] leaf1]|] eqn:Hs1; [|done].
    simpl in Hs. simplify_eq.
    destruct fuel as [|fuel]; [lia|].
    edestruct (IHl (FL mn k v b r :: spine) n ln kn vn bn ctx0 (Datatypes.S fuel) inner h
                 kv c1 leaf q) as (h' & m & Hrun & Hm & Hwf' & Hnd');
      [exact Hwf|exact Hnd|first [exact Hs1|reflexivity]|reflexivity
      |simpl in *; lia|simpl in *; lia|].
    exists h', m. split; [|split; [done|]].
    + rewrite <- Hrun. clear Hrun.
      destruct (leftmost_tree inner h R S _ _ mn Hfoc eq_refl Hi) as (m0 & Hm0 & Hrm).
      pose proof Hwl as (Hcq & Hwll & Hwlr).
      assert (Hi' : (depth (PN q ll qk qv qb lr) ≤ inner)%nat) by (simpl in *; lia).
      destruct (leftmost_tree inner h R S _ _ q Hwl eq_refl Hi') as (m1 & Hm1 & Hrm1).
      assert (Hnq : n ≠ q).
      { intros ->. apply (focus_apart _ _ q q Hnd); [simpl; set_solver| |done].
        apply (frame_in_ctx spine ctx0 (FR q ln kn vn bn)). }
      change (leftmost_ptr (PN q ll qk qv qb lr) = Some m0) in Hm0.
      rewrite Hm1 in Hm0. simplify_eq.
      destruct ll as [|? ? ? ? ? ?|], lr as [|? ? ? ? ? ?|]; try done.
      all: simpl; mrun; simpl; mrun; rewrite ?andb_false_r.
      all: rewrite ?run_assoc; erewrite (run_bind (leftmost inner mn)) by exact Hrm.
      2-5: rewrite ?run_assoc; erewrite (run_bind (leftmost inner q)) by exact Hrm1;
           rewrite ?run_assoc; reflexivity.
      simpl in Hm1. simplify_eq. cbn [fst snd].
      erewrite (run_copyEntry h R S n m0) by (first [exact Hcn|exact Hcq|exact Hnq]).
      rewrite run_assoc.
      erewrite (run_copyEntry h R S n m0) by (first [exact Hcn|exact Hcq|exact Hnq]).
      simpl.
      rewrite run_assoc. erewrite run_fld by heap_lookup. simpl.
      destruct fuel as [|fuel]; [simpl in Hf; lia|].
      simpl. mrun. simpl. mrun. simpl.
      erewrite run_copyEntry by (first [apply lookup_insert_eq|heap_lookup|exact Hnq]).
      simpl. rewrite insert_insert_eq. reflexivity.
    + rewrite <- !app_assoc. simpl. done.
  - done.
Qed.

End DeleteStoreShapes.

Section DeleteStoreLoops.

Context {K V : Type}.
#[local] Abbreviation Node := (Node K V).
#[local] Abbreviation AVLTree := (AVLTree K V).
#[local] Abbreviation M := (M K V).
#[local] Abbreviation ptree := (ptree K V).
#[local] Abbreviation frame := (@frame K V).

Lemma wf_root_cell h par (t : ptree) q :
  wf h par t → root_ptr t = Some q → ∃ n, h !! q = Some n ∧ parent n = par.
Proof.
  destruct t as [|p l k v b r|p k v b]; simpl; [done|..]; intros Hwf [= <-].
  - destruct Hwf as (Hp & _). exists (mkNode par (root_ptr l) (root_ptr r) b k v). done.
  - exists (mkNode par None None b k v). done.
Qed.

Lemma frame_with_bf_ptr (f : frame) b : frame_ptr (frame_with_bf b f) = frame_ptr f.
Proof. by destruct f. Qed.

Lemma fix_root_some (t t1 : ptree) :
  fixR t = Some t1 ∨ fixL t = Some t1 → ∃ q, root_ptr t1 = Some q.
Proof.
  intros [H|H]; destruct t as [|p l k v b r|]; simpl in H; try done.
  - case_bool_decide.
    + destruct (rotR r) as [r'|]; simpl in H; [|done].
      destruct r' as [|? ? ? ? ? ?|]; simpl in H; simplify_eq. eauto.
    + destruct r as [|? ? ? ? ? ?|]; simpl in H; simplify_eq. eauto.
  - case_bool_decide.
    + destruct (rotL l) as [l'|]; simpl in H; [|done].
      destruct l' as [|? ? ? ? ? ?|]; simpl in H; simplify_eq. eauto.
    + destruct l as [|? ? ? ? ? ?|]; simpl in H; simplify_eq. eauto.
Qed.

Lemma delete_rebalance_tree fuel (h : gmap ptr Node) S ctx (c t' : ptree) x :
  wf h None (plug ctx c) → NoDup (ptrs (plug ctx c)) →
  del_up ctx c = Some t' → root_ptr c = Some x →
  (length ctx < fuel)%nat →
  ∃ h', delete_rebalance fuel (ctx_top ctx) (root_ptr c)
          (mkTree h (root_ptr (plug ctx c)) S)
        = Done tt (mkTree h' (root_ptr t') S)
    ∧ wf h' None t' ∧ NoDup (ptrs t').
Proof.
  revert fuel h c x.
  induction ctx as [|f ctx IH]; intros fuel h c x Hwf Hnd Hup Hx Hf; simpl in Hup.
  - simplify_eq. exists h. by destruct fuel.
  - destruct fuel as [|fuel]; [simpl in Hf; lia|]. simpl in Hf.
    pose proof (wf_focus_frame _ _ _ _ Hwf) as Hcell.
    cbn [delete_rebalance ctx_top].
    erewrite run_fld by exact Hcell.
    erewrite run_fld by exact Hcell.
    set (b := match f with FL _ _ _ b _ => b - 1 | FR _ _ _ _ b => b + 1 end) in *.
    destruct (wf_set_frame_bf _ _ _ _ b Hwf Hnd) as (Hwf1 & Hnd1).
    rewrite <- (root_plug_frame_bf f ctx c b).
    assert (Hstep : ∀ B (kk : unit → M B) R,
      bind (if same (left (frame_cell f (ctx_top ctx) (root_ptr c))) (root_ptr c)
            then setBF (frame_ptr f)
                   (balanceFactor (frame_cell f (ctx_top ctx) (root_ptr c)) - 1)
            else setBF (frame_ptr f)
                   (balanceFactor (frame_cell f (ctx_top ctx) (root_ptr c)) + 1))
           kk (mkTree h R S)
      = kk tt (mkTree (<[frame_ptr f := with_bf b (frame_cell f (ctx_top ctx) (root_ptr c))]> h) R S)).
    { intros B kk R. subst b. destruct f as [p k v b0 r|p l k v b0]; simpl; simpl in Hcell.
      - unfold same. rewrite bool_decide_eq_true_2 by done. mrun. reflexivity.
      - unfold same. rewrite bool_decide_eq_false_2.
        + mrun. reflexivity.
        + rewrite Hx. intros Hl%root_ptr_in. apply root_ptr_in in Hx.
          simpl in Hnd. rewrite ptrs_plug in Hnd. simpl in Hnd.
          nodup_split. set_solver. }
    rewrite Hstep. clear Hstep.
    set (h1 := <[frame_ptr f := _]> h) in *.
    erewrite run_fld by (subst h1; apply lookup_insert_eq).
    cbn [balanceFactor with_bf].
    set (t := plug1 (frame_with_bf b f) c) in *.
    assert (Ht : root_ptr t = Some (frame_ptr f)).
    { subst t. rewrite plug1_root. by rewrite frame_with_bf_ptr. }
    assert (Hfix : ∃ h2 t1,
      (if b <? -1 then fixR t else if 1 <? b then fixL t else Some t) = Some t1
      ∧ (∀ B (kk : option ptr → M B),
          bind (if b <? -1 then fixRightHeavy (frame_ptr f)
                else if 1 <? b then fixLeftHeavy (frame_ptr f)
                else ret (Some (frame_ptr f))) kk
               (mkTree h1 (root_ptr (plug ctx t)) S)
          = kk (root_ptr t1) (mkTree h2 (root_ptr (plug ctx t1)) S))
      ∧ wf h2 None (plug ctx t1) ∧ NoDup (ptrs (plug ctx t1))
      ∧ ∃ q, root_ptr t1 = Some q).
    { destruct (b <? -1) eqn:Hb1; [|destruct (1 <? b) eqn:Hb2].
      - destruct (fixR t) as [t1|] eqn:Hfx; [|done].
        edestruct (fixRightHeavy_tree h1 (root_ptr (plug ctx t)) S ctx t t1 (frame_ptr f)
                     Hwf1 Hnd1 Hfx Ht eq_refl) as (h2 & Hrun & Hwf2 & Hnd2).
        exists h2, t1. split; [done|]. split; [|split; [done|split; [done|]]].
        + intros B kk. erewrite run_bind by exact Hrun. reflexivity.
        + eapply fix_root_some; eauto.
      - destruct (fixL t) as [t1|] eqn:Hfx; [|done].
        edestruct (fixLeftHeavy_tree h1 (root_ptr (plug ctx t)) S ctx t t1 (frame_ptr f)
                     Hwf1 Hnd1 Hfx Ht eq_refl) as (h2 & Hrun & Hwf2 & Hnd2).
        exists h2, t1. split; [done|]. split; [|split; [done|split; [done|]]].
        + intros B kk. erewrite run_bind by exact Hrun. reflexivity.
        + eapply fix_root_some; eauto.
      - exists h1, t. split; [done|]. split; [|split; [done|split; [done|eauto]]].
        intros B kk. rewrite run_ret. by rewrite Ht. }
    destruct Hfix as (h2 & t1 & Ht1 & Hrun & Hwf2 & Hnd2 & q & Hq).
    rewrite Ht1 in Hup. simpl in Hup.
    rewrite Hrun.
    pose proof (wf_focus _ _ _ Hwf2) as Hfoc2.
    erewrite !bfIs_run by (first [exact Hfoc2 | destruct t1; simpl; eauto; left; done]).
    destruct (bool_decide (bf_root t1 = Some (-1)) || bool_decide (bf_root t1 = Some 1)).
    + simplify_eq. exists h2. done.
    + rewrite Hq.
      destruct (wf_root_cell _ _ _ _ Hfoc2 Hq) as (n & Hn & Hpar).
      erewrite run_fld by exact Hn. rewrite Hpar, <- Hq.
      eapply IH; eauto. lia.
Qed.

End DeleteStoreLoops.

(** ** Shapes without their entries *)

Section Erase.

Context {K V : Type}.
#[local] Abbreviation frame := (@frame K V).

(** The links and balance factors of a tree: what [delete] keeps when it
    moves entries up. *)
Fixpoint erase (t : ptree K V) : ptree unit unit :=
  match t with
  | PE => PE
  | PN p l _ _ b r => PN p (erase l) tt None b (erase r)
  | PG p _ _ b => PG p tt None b
  end.

#[local] Abbreviation ptree := (ptree K V).

Lemma root_ptr_erase t : root_ptr (erase t) = root_ptr t.
Proof. by destruct t. Qed.

Lemma ptrs_erase t : ptrs (erase t) = ptrs t.
Proof. induction t; simpl; congruence. Qed.

Lemma ghosts_erase t : ghosts (erase t) = ghosts t.
Proof. induction t; simpl; congruence. Qed.

Lemma theight_erase t : theight (erase t) = theight t.
Proof. induction t; simpl; congruence. Qed.

Lemma count_erase t : count (erase t) = count t.
Proof. induction t; simpl; congruence. Qed.

Lemma avl_erase t : avl (erase t) ↔ avl t.
Proof.
  induction t as [|p l IHl k v b r IHr|]; simpl; [done| |done].
  rewrite IHl, IHr, !theight_erase. done.
Qed.

Lemma erase_plug (ctx : list frame) (t1 t2 : ptree) :
  erase t1 = erase t2 → erase (plug ctx t1) = erase (plug ctx t2).
Proof.
  revert t1 t2. induction ctx as [|f ctx IH]; intros t1 t2 H; simpl; [done|].
  apply IH. destruct f; simpl; by rewrite H.
Qed.

Lemma shiftMax_erase (t : ptree) kv c leaf :
  shiftMax t = Some (kv, c, leaf) → erase (plug c leaf) = erase t.
Proof.
  revert kv c leaf. induction t as [|p l IHl k v b r IHr|]; intros kv c leaf; simpl;
    [done| |done].
  destruct r as [|rp rl rk rv rb rr|].
  - destruct l as [|lp ll lk lv lb lr|].
    + intros [= <- <- <-]. done.
    + destruct (shiftMax (PN lp ll lk lv lb lr)) as [[[kv1 c1] leaf1]|] eqn:E; [|done].
      simpl. intros [= <- <- <-]. rewrite plug_app. simpl.
      by rewrite (IHl _ _ _ eq_refl).
    + done.
  - destruct (shiftMax (PN rp rl rk rv rb rr)) as [[[kv1 c1] leaf1]|] eqn:E; [|done].
    simpl. intros [= <- <- <-]. rewrite plug_app. simpl.
    by rewrite (IHr _ _ _ eq_refl).
  - done.
Qed.

Lemma shiftMin_erase (t : ptree) kv c leaf :
  shiftMin t = Some (kv, c, leaf) → erase (plug c leaf) = erase t.
Proof.
  revert kv c leaf. induction t as [|p l IHl k v b r IHr|]; intros kv c leaf; simpl;
    [done| |done].
  destruct l as [|lp ll lk lv lb lr|].
  - destruct r as [|rp rl rk rv rb rr|].
    + intros [= <- <- <-]. done.
    + destruct (shiftMin (PN rp rl rk rv rb rr)) as [[[kv1 c1] leaf1]|] eqn:E; [|done].
      simpl. intros [= <- <- <-]. rewrite plug_app. simpl.
      by rewrite (IHr _ _ _ eq_refl).
    + done.
  - destruct (shiftMin (PN lp ll lk lv lb lr)) as [[[kv1 c1] leaf1]|] eqn:E; [|done].
    simpl. intros [= <- <- <-]. rewrite plug_app. simpl.
    by rewrite (IHl _ _ _ eq_refl).
  - done.
Qed.

Lemma del_path_erase ctx (x : ptree) ctx1 leaf :
  del_path ctx x = Some (ctx1, leaf) → erase (plug ctx1 leaf) = erase (plug ctx x).
Proof.
  destruct x as [|p l k v b r|]; simpl; [done| |done].
  destruct l as [|lp ll lk lv lb lr|].
  - destruct r as [|rp rl rk rv rb rr|].
    + intros [= <- <-]. done.
    + destruct (shiftMin (PN rp rl rk rv rb rr)) as [[[kv1 c1] leaf1]|] eqn:E; [|done].
      simpl. intros [= <- <-]. rewrite plug_app. simpl.
      apply erase_plug. simpl. by rewrite (shiftMin_erase _ _ _ _ E).
    + done.
  - destruct (shiftMax (PN lp ll lk lv lb lr)) as [[[kv1 c1] leaf1]|] eqn:E; [|done].
    simpl. intros [= <- <-]. rewrite plug_app. simpl.
    apply erase_plug. simpl. by rewrite (shiftMax_erase _ _ _ _ E).
  - done.
Qed.

Lemma del_path_leaf ctx (x : ptree) ctx1 leaf :
  del_path ctx x = Some (ctx1, leaf) → ∃ m k v b, leaf = PN m PE k v b PE.
Proof.
  destruct x as [|p l k v b r|]; simpl; [done| |done].
  destruct l as [|lp ll lk lv lb lr|].
  - destruct r as [|rp rl rk rv rb rr|].
    + intros [= <- <-]. eauto.
    + destruct (shiftMin (PN rp rl rk rv rb rr)) as [[[kv1 c1] leaf1]|] eqn:E; [|done].
      simpl. intros [= <- <-]. by eapply shiftMin_leaf.
    + done.
  - destruct (shiftMax (PN lp ll lk lv lb lr)) as [[[kv1 c1] leaf1]|] eqn:E; [|done].
    simpl. intros [= <- <-]. by eapply shiftMax_leaf.
  - done.
Qed.

Lemma ghosts_plug (ctx : list frame) (t : ptree) :
  ghosts (plug ctx t) ≡ₚ ghosts t ++ ghosts (plug ctx PE).
Proof.
  revert t. induction ctx as [|f ctx IH]; intros t; simpl; [by rewrite app_nil_r|].
  rewrite (IH (plug1 f t)), (IH (plug1 f PE)).
  destruct f; simpl.
  - by rewrite <- !app_assoc.
  - rewrite app_nil_r, !app_assoc. f_equiv. apply Permutation_app_comm.
Qed.

Lemma rotL_ghosts (t t' : ptree) : rotL t = Some t' → ghosts t' = ghosts t.
Proof.
  destruct t as [|p l k v b [|q ql qk qv qb qr|]|]; simpl; intros; simplify_eq.
  simpl. by rewrite app_assoc.
Qed.

Lemma rotR_ghosts (t t' : ptree) : rotR t = Some t' → ghosts t' = ghosts t.
Proof.
  destruct t as [|p [|q ql qk qv qb qr|] k v b r|]; simpl; intros; simplify_eq.
  simpl. by rewrite app_assoc.
Qed.

Lemma fixR_ghosts (t t' : ptree) : fixR t = Some t' → ghosts t' = ghosts t.
Proof.
  destruct t as [|p l k v b r|]; [done| |done]. cbv [fixR].
  case_bool_decide as Hb.
  - destruct (rotR r) as [r'|] eqn:Hr; [|done]. cbn [mbind option_bind].
    intros H. apply (rotL_ghosts (PN p l k v b r') t') in H.
    rewrite H. simpl. by rewrite (rotR_ghosts _ _ Hr).
  - apply rotL_ghosts.
Qed.

Lemma fixL_ghosts (t t' : ptree) : fixL t = Some t' → ghosts t' = ghosts t.
Proof.
  destruct t as [|p l k v b r|]; [done| |done]. cbv [fixL].
  case_bool_decide as Hb.
  - destruct (rotL l) as [l'|] eqn:Hl; [|done]. cbn [mbind option_bind].
    intros H. apply (rotR_ghosts (PN p l' k v b r) t') in H.
    rewrite H. simpl. by rewrite (rotL_ghosts _ _ Hl).
  - apply rotR_ghosts.
Qed.

Lemma ghosts_plug_eq (ctx : list frame) (t t' : ptree) :
  ghosts t' = ghosts t → ghosts (plug ctx t') ≡ₚ ghosts (plug ctx t).
Proof. intros H. by rewrite (ghosts_plug ctx t'), (ghosts_plug ctx t), H. Qed.

Lemma del_up_ghosts (ctx : list frame) (c t' : ptree) :
  del_up ctx c = Some t' → ghosts t' ≡ₚ ghosts (plug ctx c).
Proof.
  revert c. induction ctx as [|f ctx IH]; intros c; simpl.
  - by intros [= ->].
  - set (b := match f with FL _ _ _ b _ => b - 1 | FR _ _ _ _ b => b + 1 end).
    set (t := plug1 (frame_with_bf b f) c).
    assert (Ht : ghosts t = ghosts (plug1 f c)) by (destruct f; reflexivity).
    destruct (if b <? -1 then fixR t else if 1 <? b then fixL t else Some t)
      as [t1|] eqn:Hfix; simpl; [|done].
    assert (Ht1 : ghosts t1 = ghosts (plug1 f c)).
    { rewrite <- Ht. destruct (b <? -1); [by apply fixR_ghosts|].
      destruct (1 <? b); [by apply fixL_ghosts|]. by simplify_eq. }
    destruct (_ || _).
    + intros [= <-]. by apply ghosts_plug_eq.
    + intros H%IH. rewrite H. by apply ghosts_plug_eq.
Qed.

End Erase.

(** ** [delete] on the store follows [pdelete] *)

Section UnlinkStore.

Context {K V : Type}.
#[local] Abbreviation Node := (Node K V).
#[local] Abbreviation AVLTree := (AVLTree K V).
#[local] Abbreviation M := (M K V).
#[local] Abbreviation ptree := (ptree K V).
#[local] Abbreviation frame := (@frame K V).

(** The parent of the leaf that goes: its link to the leaf is dropped. *)
Definition drop_child (m : ptr) (cg : Node) : Node :=
  if same (left cg) (Some m) then with_left None cg else with_right None cg.

Lemma unlink_sub h par (t : ptree) m :
  wf h par t → NoDup (ptrs t) → ghosts t = [m] →
  (∀ p k v b, t ≠ PG p k v b) →
  ∃ g cm cg, h !! m = Some cm ∧ parent cm = Some g ∧ h !! g = Some cg
    ∧ g ∈ ptrs t ∧ g ≠ m
    ∧ wf (<[g := drop_child m cg]> h) par (purge t).
Proof.
  revert par. induction t as [|p l IHl k v b r IHr|]; intros par Hwf Hnd Hg Hne;
    [done| |by edestruct Hne].
  destruct Hwf as (Hp & Hl & Hr). simpl in Hnd, Hg. nodup_split.
  apply app_singleton in Hg as [[Hgl Hgr]|[Hgl Hgr]]; cbn [purge].
  - (* the leaf is on the right *)
    rewrite (purge_clean l Hgl).
    destruct r as [|rp rl rk rv rb rr|m' rk rv rb]; [done| |].
    + destruct (IHr (Some p) Hr) as (g & cm & cg & Hm & Hpar & Hcg & Hin & Hgm & Hwf');
        [done..|].
      exists g, cm, cg. split; [done|]. split; [done|]. split; [done|].
      split; [simpl; set_solver|]. split; [done|].
      simpl. split; [|split].
      * rewrite lookup_insert_ne by set_solver. done.
      * eapply wf_agree; [|exact Hl]. intros x Hx.
        rewrite lookup_insert_ne; [done|]. set_solver.
      * exact Hwf'.
    + simpl in Hgr. simplify_eq. simpl in Hr.
      eexists p, _, _. split; [exact Hr|]. split; [done|]. split; [exact Hp|].
      split; [simpl; set_solver|]. split; [set_solver|].
      simpl. unfold drop_child, same. simpl.
      rewrite bool_decide_eq_false_2.
      * split; [by rewrite lookup_insert_eq|]. split; [|done].
        eapply wf_agree; [|exact Hl]. intros x Hx.
        rewrite lookup_insert_ne; [done|]. set_solver.
      * intros Hx%root_ptr_in. set_solver.
  - (* the leaf is on the left *)
    rewrite (purge_clean r Hgr).
    destruct l as [|lp ll lk lv lb lr|m' lk lv lb]; [done| |].
    + destruct (IHl (Some p) Hl) as (g & cm & cg & Hm & Hpar & Hcg & Hin & Hgm & Hwf');
        [done..|].
      exists g, cm, cg. split; [done|]. split; [done|]. split; [done|].
      split; [simpl; set_solver|]. split; [done|].
      simpl. split; [|split].
      * rewrite lookup_insert_ne by set_solver. done.
      * exact Hwf'.
      * eapply wf_agree; [|exact Hr]. intros x Hx.
        rewrite lookup_insert_ne; [done|]. set_solver.
    + simpl in Hgl. simplify_eq. simpl in Hl.
      eexists p, _, _. split; [exact Hl|]. split; [done|]. split; [exact Hp|].
      split; [simpl; set_solver|]. split; [set_solver|].
      simpl. unfold drop_child, same. simpl.
      rewrite bool_decide_eq_true_2 by done.
      split; [by rewrite lookup_insert_eq|]. split; [done|].
      eapply wf_agree; [|exact Hr]. intros x Hx.
      rewrite lookup_insert_ne; [done|]. set_solver.
Qed.

Lemma unlink_tree {B} (h : gmap ptr Node) S (t : ptree) m (k : unit → M B) :
  wf h None t → NoDup (ptrs t) → ghosts t = [m] →
  ∃ h', wf h' None (purge t)
    ∧ bind (fld parent m) (λ np,
        bind (whenSome np (λ np,
                bind (fld left np) (λ npl,
                  if same npl (Some m) then setLeft np None else setRight np None)))
          (λ _, bind getRoot (λ root,
             bind (when (same (Some m) root) (setRoot None)) k)))
        (mkTree h (root_ptr t) S)
      = k tt (mkTree h' (root_ptr (purge t)) S).
Proof.
  intros Hwf Hnd Hg.
  destruct t as [|p l kk v b r|p kk v b].
  - done.
  - destruct (unlink_sub h None (PN p l kk v b r) m Hwf Hnd Hg)
      as (g & cm & cg & Hm & Hpar & Hcg & Hin & Hgm & Hwf'); [done|].
    exists (<[g := drop_child m cg]> h). split; [done|].
    erewrite run_fld by exact Hm. rewrite Hpar. cbn [whenSome].
    rewrite run_assoc. erewrite run_fld by exact Hcg.
    assert (Hpm : p ≠ m).
    { simpl in Hnd, Hg. nodup_split. intros ->.
      assert (m ∈ ghosts l ++ ghosts r) as Hin' by (rewrite Hg; set_solver).
      apply elem_of_app in Hin' as [Hin'%ghosts_ptrs|Hin'%ghosts_ptrs]; set_solver. }
    unfold drop_child.
    destruct (same (left cg) (Some m)); unfold setLeft, setRight;
      (erewrite run_modify by exact Hcg); rewrite run_getRoot; simpl;
      unfold same; rewrite bool_decide_eq_false_2 by congruence; cbn [when];
      rewrite run_ret; reflexivity.
  - simpl in Hg. simplify_eq. simpl in Hwf.
    exists h. split; [done|].
    erewrite run_fld by exact Hwf. simpl. rewrite run_ret, run_getRoot.
    unfold same. rewrite bool_decide_eq_true_2 by done. cbn [when].
    rewrite run_setRoot. reflexivity.
Qed.

Lemma wf_ghost h ctx m k v b :
  wf h None (plug ctx (PN m PE k v b PE)) → wf h None (plug ctx (PG m k v b : ptree)).
Proof.
  intros Hwf. apply wf_plug in Hwf as (Hctx & Hm & _). apply wf_plug. done.
Qed.

End UnlinkStore.

Section DeleteStore.

Context {K V : Type}.
#[local] Abbreviation Node := (Node K V).
#[local] Abbreviation AVLTree := (AVLTree K V).
#[local] Abbreviation M := (M K V).
#[local] Abbreviation ptree := (ptree K V).
#[local] Abbreviation frame := (@frame K V).

Variable compare : K → K → Z.

Lemma delete_find_found k fuel (h : gmap ptr Node) R S (t : ptree) ctx ctx' x :
  wf h (ctx_top ctx) t → pfind compare k t ctx = Some (ctx', x) →
  (depth t < fuel)%nat →
  delete_find compare fuel k (root_ptr t) (mkTree h R S) = Done (root_ptr x) (mkTree h R S).
Proof.
  revert fuel ctx.
  induction t as [|p l IHl k' v b r IHr|]; intros fuel ctx Hwf Hd Hf; simpl in Hd;
    [done| |done].
  destruct fuel as [|fuel]; [simpl in Hf; lia|].
  destruct Hwf as (Hp & Hl & Hr). simpl in Hf.
  simpl. mrun.
  destruct (compare k k' =? 0) eqn:Hc0.
  - simplify_eq. reflexivity.
  - destruct (compare k k' <? 0) eqn:Hc; mrun.
    + apply (IHl fuel (FL p k' v b r :: ctx)); auto. lia.
    + apply (IHr fuel (FR p l k' v b :: ctx)); auto. lia.
Qed.

Lemma delete_find_none k fuel (h : gmap ptr Node) R S (t : ptree) par ctx :
  wf h par t → clean t → pfind compare k t ctx = None →
  (depth t < fuel)%nat →
  delete_find compare fuel k (root_ptr t) (mkTree h R S) = Done None (mkTree h R S).
Proof.
  revert fuel par ctx.
  induction t as [|p l IHl k' v b r IHr|]; intros fuel par ctx Hwf Hcl Hd Hf; simpl in Hd;
    [by destruct fuel| |done].
  destruct fuel as [|fuel]; [simpl in Hf; lia|].
  destruct Hwf as (Hp & Hl & Hr). destruct Hcl as [Hcl Hcr]. simpl in Hf.
  simpl. mrun.
  destruct (compare k k' =? 0) eqn:Hc0; [done|].
  destruct (compare k k' <? 0) eqn:Hc; mrun.
  - eapply IHl; eauto. lia.
  - eapply IHr; eauto. lia.
Qed.

End DeleteStore.

Section DeleteLocate.

Context {K V : Type}.
#[local] Abbreviation Node := (Node K V).
#[local] Abbreviation AVLTree := (AVLTree K V).
#[local] Abbreviation M := (M K V).
#[local] Abbreviation ptree := (ptree K V).
#[local] Abbreviation frame := (@frame K V).

(** The two blocks of [delete] that move entries up: they end at a leaf. *)
Lemma delete_locate {B} (rest : ptr → M B) (h : gmap ptr Node) R S fuel
    ctx (x : ptree) xp ctx1 leaf :
  wf h None (plug ctx x) → NoDup (ptrs (plug ctx x)) →
  del_path ctx x = Some (ctx1, leaf) → root_ptr x = Some xp →
  (depth x ≤ fuel)%nat →
  ∃ h1 m,
    bind (fld left xp) (λ nl,
      bind (match nl with
            | Some max =>
              bind (delete_shift_max fuel fuel xp max) (λ r,
                bind (copyEntry r.1 r.2) (λ _, ret r.2))
            | None => ret xp
            end) (λ node,
        bind (fld right node) (λ nr,
          bind (match nr with
                | Some min =>
                  bind (delete_shift_min fuel fuel node min) (λ r,
                    bind (copyEntry r.1 r.2) (λ _, ret r.2))
                | None => ret node
                end) rest))) (mkTree h R S)
    = rest m (mkTree h1 R S)
    ∧ root_ptr leaf = Some m
    ∧ wf h1 None (plug ctx1 leaf) ∧ NoDup (ptrs (plug ctx1 leaf)).
Proof.
  intros Hwf Hnd Hpath Hxp Hf.
  destruct x as [|p l k v b r|]; simpl in Hpath; [done| |done].
  simpl in Hxp. simplify_eq.
  pose proof (wf_focus _ _ _ Hwf) as (Hcp & Hwl & Hwr).
  erewrite run_fld by exact Hcp. cbn [left].
  destruct l as [|lp ll lk lv lb lr|]; [destruct r as [|rp rl rk rv rb rr|]| |].
  - (* [node] is a leaf already *)
    simplify_eq. exists h, xp. split; [|done].
    simpl. rewrite run_ret. erewrite run_fld by exact Hcp. simpl. by rewrite run_ret.
  - (* only a right subtree *)
    destruct (shiftMin (PN rp rl rk rv rb rr)) as [[[kv c] leaf1]|] eqn:Hs; [|done].
    simpl in Hpath. simplify_eq.
    destruct (delete_shift_min_tree R S (PN rp rl rk rv rb rr) [] xp PE k v b ctx
                fuel fuel h kv c leaf rp Hwf Hnd Hs eq_refl)
      as (h1 & m & Hrun & Hm & Hwf1 & Hnd1); [simpl in *; lia..|].
    exists h1, m. split; [|done].
    simpl. rewrite run_ret. erewrite run_fld by exact Hcp. simpl.
    erewrite run_bind by exact Hrun. reflexivity.
  - done.
  - (* a left subtree *)
    destruct (shiftMax (PN lp ll lk lv lb lr)) as [[[kv c] leaf1]|] eqn:Hs; [|done].
    simpl in Hpath. simplify_eq.
    destruct (delete_shift_max_tree R S (PN lp ll lk lv lb lr) [] xp k v b r ctx
                fuel fuel h kv c leaf lp Hwf Hnd Hs eq_refl)
      as (h1 & m & Hrun & Hm & Hwf1 & Hnd1); [simpl in *; lia..|].
    exists h1, m. split; [|done].
    destruct (shiftMax_leaf _ _ _ _ Hs) as (m' & k' & v' & b' & ->).
    simpl in Hm. simplify_eq.
    pose proof (wf_focus _ _ _ Hwf1) as (Hcm & _).
    simpl root_ptr. cbv beta iota.
    erewrite run_bind by exact Hrun.
    erewrite run_fld by exact Hcm. simpl. by rewrite run_ret.
  - done.
Qed.

End DeleteLocate.

Section DeleteTop.

Context {K V : Type}.
#[local] Abbreviation Node := (Node K V).
#[local] Abbreviation AVLTree := (AVLTree K V).
#[local] Abbreviation M := (M K V).
#[local] Abbreviation ptree := (ptree K V).
#[local] Abbreviation frame := (@frame K V).

Variable compare : K → K → Z.
Variable falsy : K → bool.

Lemma delete_falsy k (st : AVLTree) :
  falsy k = true → delete compare falsy k st = Done false st.
Proof.
  intros Hk. destruct st as [h R S]. unfold delete. rewrite run_getRoot.
  rewrite Hk, orb_true_r. reflexivity.
Qed.

Lemma delete_absent k (st : AVLTree) (t : ptree) :
  Rep st t → clean t → pfind compare k t [] = None →
  delete compare falsy k st = Done false st.
Proof.
  destruct st as [h R S]. intros (Hwf & Hnd & HR) Hcl Hfind. simpl in *. subst R.
  unfold delete. rewrite run_getRoot.
  destruct (bool_decide (root_ptr t = None) || falsy k); [reflexivity|].
  rewrite run_getFuel.
  erewrite run_bind
    by (eapply (delete_find_none compare k _ h _ S t None []); eauto;
        eapply depth_fuel; eauto).
  reflexivity.
Qed.

Lemma delete_tree k (st : AVLTree) (t t' : ptree) :
  Rep st t → clean t → falsy k = false → pdelete compare k t = Some t' →
  ∃ st', delete compare falsy k st = Done true st' ∧ Rep st' t'
    ∧ _size st' = _size st - 1.
Proof.
  destruct st as [h R S]. intros (Hwf & Hnd & HR) Hcl Hk Hdel. simpl in *. subst R.
  unfold pdelete in Hdel.
  destruct (pfind compare k t []) as [[ctx x]|] eqn:Hfind; [|done].
  cbn [mbind option_bind] in Hdel.
  destruct (del_path ctx x) as [[ctx1 leaf]|] eqn:Hpath; [|done].
  cbn [mbind option_bind] in Hdel.
  destruct (ghost_of leaf) as [g|] eqn:Hg; [|done].
  cbn [mbind option_bind] in Hdel.
  destruct (del_up ctx1 g) as [t1|] eqn:Hup; [|done].
  cbn [mbind option_bind] in Hdel.
  injection Hdel as <-.
  pose proof (pfind_plug _ _ _ _ _ _ Hfind) as Hplug. simpl in Hplug.
  destruct (pfind_node _ _ _ _ _ _ Hfind) as (xp & l & kx & vx & bx & r & Hx & Hkx).
  assert (Hroot : ∃ rp, root_ptr t = Some rp).
  { rewrite <- Hplug, Hx. destruct ctx as [|f ctx]; [simpl; eauto|].
    destruct (root_ptr_plug_in (f :: ctx) (PN xp l kx vx bx r)) as (q & Hq & _); eauto. }
  destruct Hroot as (rp & Hrp).
  pose proof (depth_fuel _ _ _ Hwf Hnd) as Hfuel.
  pose proof (wf_size _ _ _ Hwf Hnd) as Hsize.
  pose proof (delete_find_found compare k _ h (Some rp) S t [] ctx x Hwf Hfind Hfuel) as Hrunf.
  pose proof (del_path_erase _ _ _ _ Hpath) as Her. rewrite Hplug in Her.
  assert (Hcg : ghosts t = []) by (by apply clean_ghosts).
  rewrite <- Hplug in Hwf, Hnd.
  assert (Hdx : (depth x ≤ Datatypes.S (size h))%nat).
  { pose proof (depth_le_ptrs x).
    rewrite <- Hplug, ptrs_plug, length_app in Hsize. lia. }
  assert (Hlen : (length ctx1 < Datatypes.S (size h))%nat).
  { pose proof (ctx_length_ptrs ctx1).
    assert (length (ptrs (plug ctx1 leaf)) = length (ptrs t)) as Hl
      by (by rewrite <- ptrs_erase, Her, ptrs_erase).
    rewrite ptrs_plug, length_app in Hl. lia. }
  assert (Hroot1 : ∀ c : ptree, root_ptr c = root_ptr leaf →
            root_ptr (plug ctx1 c) = Some rp).
  { intros c Hc. rewrite <- Hrp, <- (root_ptr_erase t), <- Her, root_ptr_erase.
    destruct ctx1 as [|f ctx1]; [done|]. by apply root_ptr_plug. }
  assert (Hnil : ghosts (plug ctx1 PE) = []).
  { assert (ghosts (plug ctx1 leaf) = []) as Hn
      by (by rewrite <- ghosts_erase, Her, ghosts_erase).
    pose proof (ghosts_plug ctx1 leaf) as Hp. rewrite Hn in Hp.
    apply Permutation_nil_l in Hp. symmetry in Hp.
    by apply app_eq_nil in Hp as [_ ?]. }
  clear Hcl Hcg Her Hsize Hfuel Hfind Hplug. subst x.
  unfold delete. rewrite run_getRoot, Hrp, Hk. simpl.
  rewrite run_getFuel.
  rewrite Hrp in Hrunf. erewrite run_bind by exact Hrunf. clear Hrunf.
  cbn [root_ptr].
  (* moving the entries up *)
  match goal with
  | |- context [bind (fld left xp) (λ nl, bind _ (λ node, bind _ (λ nr, bind _ ?rest)))] =>
    destruct (delete_locate rest h (Some rp) S (Datatypes.S (size h)) ctx
                (PN xp l kx vx bx r) xp ctx1 leaf Hwf Hnd Hpath eq_refl Hdx)
      as (h1 & m & Hrun & Hm & Hwf1 & Hnd1)
  end.
  rewrite Hrun. clear Hrun.
  destruct (del_path_leaf _ _ _ _ Hpath) as (m' & km & vm & bm & Hleaf).
  subst leaf. simpl in Hm, Hg. injection Hm as ->. injection Hg as <-.
  (* climbing back *)
  pose proof (wf_focus _ _ _ Hwf1) as (Hcm & _).
  erewrite run_fld by exact Hcm. cbn [parent].
  edestruct (delete_rebalance_tree (Datatypes.S (size h)) h1 S ctx1 (PG m km vm bm) t1 m)
    as (h2 & Hrun & Hwf2 & Hnd2);
    [by apply wf_ghost|revert Hnd1; by apply NoDup_plug|exact Hup|reflexivity|exact Hlen|].
  rewrite (Hroot1 (PG m km vm bm)) in Hrun by done. cbn [root_ptr] in Hrun.
  erewrite run_bind by exact Hrun. clear Hrun.
  (* unlinking the leaf *)
  assert (Hgh : ghosts t1 = [m]).
  { apply Permutation_singleton_r.
    rewrite (del_up_ghosts _ _ _ Hup), ghosts_plug, Hnil. done. }
  match goal with
  | |- context [bind (when _ (setRoot None)) ?rest] =>
    destruct (unlink_tree h2 S t1 m rest Hwf2 Hnd2 Hgh) as (h3 & Hwf3 & Hrun)
  end.
  rewrite Hrun. clear Hrun.
  rewrite run_getSize, run_setSize.
  eexists. split; [reflexivity|]. split; [|done].
  split; [done|]. split; [by apply purge_NoDup|done].
Qed.

End DeleteTop.

(** ** Balance *)

Section Balance.

Context {K V : Type}.
#[local] Abbreviation ptree := (ptree K V).
#[local] Abbreviation frame := (@frame K V).

Lemma theight_nonneg (t : ptree) : 0 ≤ theight t.
Proof. induction t; simpl; lia. Qed.

(** The frames are balanced around a hole of height [h]. *)
Fixpoint avl_ctx (ctx : list frame) (h : Z) : Prop :=
  match ctx with
  | [] => True
  | FL _ _ _ b r :: ctx =>
    avl r ∧ b = h - theight r ∧ -1 ≤ b ≤ 1 ∧ avl_ctx ctx (1 + Z.max h (theight r))
  | FR _ l _ _ b :: ctx =>
    avl l ∧ b = theight l - h ∧ -1 ≤ b ≤ 1 ∧ avl_ctx ctx (1 + Z.max (theight l) h)
  end.

Lemma avl_plug (ctx : list frame) (t : ptree) :
  avl (plug ctx t) ↔ avl_ctx ctx (theight t) ∧ avl t.
Proof.
  revert t. induction ctx as [|f ctx IH]; intros t; simpl; [tauto|].
  rewrite IH. destruct f; simpl; tauto.
Qed.

Lemma avl_plug_same (ctx : list frame) (t t' : ptree) :
  avl (plug ctx t) → avl t' → theight t' = theight t → avl (plug ctx t').
Proof. rewrite !avl_plug. intros [H _] H' ->. done. Qed.

Ltac split_ltb :=
  repeat match goal with
  | |- context [?a <? ?b] => destruct (Z.ltb_spec a b)
  | H : context [?a <? ?b] |- _ => destruct (Z.ltb_spec a b)
  end.

(** The branch for a node that leans to the right by two. *)
Lemma fixR_spec p (l : ptree) k v (r : ptree) :
  avl l → avl r → theight r = theight l + 2 →
  ∃ t', fixR (PN p l k v (-2) r) = Some t' ∧ avl t'
    ∧ (bf_root r = Some 0 → theight t' = theight r + 1 ∧ bf_root t' = Some 1)
    ∧ (bf_root r ≠ Some 0 → theight t' = theight r ∧ bf_root t' = Some 0).
Proof.
  intros Hl Hr Hh. pose proof (theight_nonneg l).
  destruct r as [|q ql qk qv qb qr|]; simpl in Hh; [lia| |lia].
  destruct Hr as (Hqb & Hrange & Hql & Hqr).
  pose proof (theight_nonneg ql). pose proof (theight_nonneg qr).
  cbv [fixR bf_root]. case_bool_decide as Hb.
  - injection Hb as ->.
    destruct ql as [|x xl xk xv xb xr|]; simpl in Hqb, Hh; [lia| |lia].
    destruct Hql as (Hxb & Hxrange & Hxl & Hxr).
    pose proof (theight_nonneg xl). pose proof (theight_nonneg xr).
    simpl. split_ltb; (eexists; split; [reflexivity|]); simpl;
      (split; [repeat split; auto; lia|split; [intros [=]|intros _; split; [lia|f_equal; lia]]]).
  - assert (qb ≠ 1) by congruence.
    simpl. split_ltb; (eexists; split; [reflexivity|]); simpl;
      (split; [repeat split; auto; lia
              |split; [intros [= ->]; split; [lia|f_equal; lia]
                      |intros Hne; assert (qb ≠ 0) by congruence; split; [lia|f_equal; lia]]]).
Qed.

(** The branch for a node that leans to the left by two. *)
Lemma fixL_spec p (l : ptree) k v (r : ptree) :
  avl l → avl r → theight l = theight r + 2 →
  ∃ t', fixL (PN p l k v 2 r) = Some t' ∧ avl t'
    ∧ (bf_root l = Some 0 → theight t' = theight l + 1 ∧ bf_root t' = Some (-1))
    ∧ (bf_root l ≠ Some 0 → theight t' = theight l ∧ bf_root t' = Some 0).
Proof.
  intros Hl Hr Hh. pose proof (theight_nonneg r).
  destruct l as [|q ql qk qv qb qr|]; simpl in Hh; [lia| |lia].
  destruct Hl as (Hqb & Hrange & Hql & Hqr).
  pose proof (theight_nonneg ql). pose proof (theight_nonneg qr).
  cbv [fixL bf_root]. case_bool_decide as Hb.
  - injection Hb as ->.
    destruct qr as [|x xl xk xv xb xr|]; simpl in Hqb, Hh; [lia| |lia].
    destruct Hqr as (Hxb & Hxrange & Hxl & Hxr).
    pose proof (theight_nonneg xl). pose proof (theight_nonneg xr).
    simpl. split_ltb; (eexists; split; [reflexivity|]); simpl;
      (split; [repeat split; auto; lia|split; [intros [=]|intros _; split; [lia|f_equal; lia]]]).
  - assert (qb ≠ -1) by congruence.
    simpl. split_ltb; (eexists; split; [reflexivity|]); simpl;
      (split; [repeat split; auto; lia
              |split; [intros [= ->]; split; [lia|f_equal; lia]
                      |intros Hne; assert (qb ≠ 0) by congruence; split; [lia|f_equal; lia]]]).
Qed.

End Balance.

Section BalanceLoops.

Context {K V : Type}.
#[local] Abbreviation ptree := (ptree K V).
#[local] Abbreviation frame := (@frame K V).

Variable compare : K → K → Z.

(** The side that the loop of [set] charges at a frame is the side of the
    path. *)
Definition up_ok (k : K) (f : frame) : Prop :=
  match f with
  | FL _ kf _ _ _ => (compare kf k <? 0) = false
  | FR _ _ kf _ _ => (compare kf k <? 0) = true
  end.

Lemma set_up_avl k ctx (c : ptree) hold :
  Forall (up_ok k) ctx → avl_ctx ctx hold → avl c → theight c = hold + 1 →
  bf_root c ≠ Some 0 ∨ theight c = 1 →
  ∃ t', set_up compare k ctx c = Some t' ∧ avl t'.
Proof.
  revert c hold. induction ctx as [|f ctx IH]; intros c hold Hok Hctx Hc Hh Hgrown.
  - exists c. done.
  - apply Forall_cons in Hok as [Hf Hok].
    pose proof (theight_nonneg c) as Hc0.
    destruct f as [p kf v b r|p l kf v b]; simpl in Hf, Hctx;
      destruct Hctx as (Hs & Hb & Hrange & Hctx); cbn [set_up frame_key frame_bf];
      rewrite Hf; cbn [frame_with_bf plug1].
    + pose proof (theight_nonneg r).
      destruct (Z.eqb_spec (b + 1) 0) as [H0|H0].
      { eexists. split; [reflexivity|]. apply avl_plug. split.
        - simpl. replace (1 + Z.max (theight c) (theight r)) with (1 + Z.max hold (theight r)) by lia.
          done.
        - simpl. repeat split; auto; lia. }
      destruct (Z.ltb_spec (b + 1) (-1)); [lia|].
      destruct (Z.ltb_spec 1 (b + 1)).
      { assert (b = 1) as -> by lia. change (1 + 1) with 2.
        destruct (fixL_spec p c kf v r Hc Hs) as (t' & Hfix & Havl & _ & Hh'); [lia|].
        rewrite Hfix. simpl. eexists. split; [reflexivity|].
        destruct Hh' as [Hh' _]; [destruct Hgrown; [done|lia]|].
        apply avl_plug. split; [|done]. rewrite Hh'.
        replace (theight c) with (1 + Z.max hold (theight r)) by lia. done. }
      apply (IH _ (1 + Z.max hold (theight r))); auto.
      * simpl. repeat split; auto; lia.
      * simpl. lia.
      * left. simpl. intros [=]. lia.
    + pose proof (theight_nonneg l).
      destruct (Z.eqb_spec (b - 1) 0) as [H0|H0].
      { eexists. split; [reflexivity|]. apply avl_plug. split.
        - simpl. replace (1 + Z.max (theight l) (theight c)) with (1 + Z.max (theight l) hold) by lia.
          done.
        - simpl. repeat split; auto; lia. }
      destruct (Z.ltb_spec (b - 1) (-1)).
      { assert (b = -1) as -> by lia. change (-1 - 1) with (-2).
        destruct (fixR_spec p l kf v c Hs Hc) as (t' & Hfix & Havl & _ & Hh'); [lia|].
        rewrite Hfix. simpl. eexists. split; [reflexivity|].
        destruct Hh' as [Hh' _]; [destruct Hgrown; [done|lia]|].
        apply avl_plug. split; [|done]. rewrite Hh'.
        replace (theight c) with (1 + Z.max (theight l) hold) by lia. done. }
      destruct (Z.ltb_spec 1 (b - 1)); [lia|].
      apply (IH _ (1 + Z.max (theight l) hold)); auto.
      * simpl. repeat split; auto; lia.
      * simpl. lia.
      * left. simpl. intros [=]. lia.
Qed.

End BalanceLoops.

Section BalanceDelete.

Context {K V : Type}.
#[local] Abbreviation ptree := (ptree K V).
#[local] Abbreviation frame := (@frame K V).

Lemma del_up_avl ctx (c : ptree) hc :
  avl_ctx ctx (hc + 1) → avl c → theight c = hc →
  ∃ t', del_up ctx c = Some t' ∧ avl t'.
Proof.
  revert c hc. induction ctx as [|f ctx IH]; intros c hc Hctx Hc Hh.
  - exists c. done.
  - pose proof (theight_nonneg c) as Hc0.
    destruct f as [p kf v b r|p l kf v b]; simpl in Hctx;
      destruct Hctx as (Hs & Hb & Hrange & Hctx); cbn [del_up frame_with_bf plug1].
    + pose proof (theight_nonneg r).
      destruct (Z.ltb_spec (b - 1) (-1)).
      { assert (b = -1) as -> by lia. change (-1 - 1) with (-2).
        destruct (fixR_spec p c kf v r Hc Hs) as (t1 & Hfix & Havl & Hz & Hnz); [lia|].
        rewrite Hfix. cbn [mbind option_bind].
        destruct (decide (bf_root r = Some 0)) as [Hr0|Hr0].
        - destruct (Hz Hr0) as [Hh1 Hb1]. rewrite Hb1. simpl.
          eexists. split; [reflexivity|]. apply avl_plug. split; [|done].
          rewrite Hh1. replace (theight r + 1) with (1 + Z.max (hc + 1) (theight r)) by lia.
          done.
        - destruct (Hnz Hr0) as [Hh1 Hb1]. rewrite Hb1. simpl.
          apply (IH _ (theight r)); auto.
          replace (theight r + 1) with (1 + Z.max (hc + 1) (theight r)) by lia. done. }
      destruct (Z.ltb_spec 1 (b - 1)); [lia|].
      cbn [mbind option_bind bf_root].
      destruct (decide (b = 0)) as [->|Hb0].
      { simpl. eexists. split; [reflexivity|]. apply avl_plug. split.
        - simpl. replace (1 + Z.max (theight c) (theight r))
            with (1 + Z.max (hc + 1) (theight r)) by lia. done.
        - simpl. repeat split; auto; lia. }
      assert (b = 1) as -> by lia. simpl.
      apply (IH _ (1 + Z.max (theight c) (theight r))).
      * replace (1 + Z.max (theight c) (theight r) + 1)
          with (1 + Z.max (hc + 1) (theight r)) by lia. done.
      * simpl. repeat split; auto; lia.
      * done.
    + pose proof (theight_nonneg l).
      destruct (Z.ltb_spec (b + 1) (-1)); [lia|].
      destruct (Z.ltb_spec 1 (b + 1)).
      { assert (b = 1) as -> by lia. change (1 + 1) with 2.
        destruct (fixL_spec p l kf v c Hs Hc) as (t1 & Hfix & Havl & Hz & Hnz); [lia|].
        rewrite Hfix. cbn [mbind option_bind].
        destruct (decide (bf_root l = Some 0)) as [Hr0|Hr0].
        - destruct (Hz Hr0) as [Hh1 Hb1]. rewrite Hb1. simpl.
          eexists. split; [reflexivity|]. apply avl_plug. split; [|done].
          rewrite Hh1. replace (theight l + 1) with (1 + Z.max (theight l) (hc + 1)) by lia.
          done.
        - destruct (Hnz Hr0) as [Hh1 Hb1]. rewrite Hb1. simpl.
          apply (IH _ (theight l)); auto.
          replace (theight l + 1) with (1 + Z.max (theight l) (hc + 1)) by lia. done. }
      cbn [mbind option_bind bf_root].
      destruct (decide (b = 0)) as [->|Hb0].
      { simpl. eexists. split; [reflexivity|]. apply avl_plug. split.
        - simpl. replace (1 + Z.max (theight l) (theight c))
            with (1 + Z.max (theight l) (hc + 1)) by lia. done.
        - simpl. repeat split; auto; lia. }
      assert (b = -1) as -> by lia. simpl.
      apply (IH _ (1 + Z.max (theight l) (theight c))).
      * replace (1 + Z.max (theight l) (theight c) + 1)
          with (1 + Z.max (theight l) (hc + 1)) by lia. done.
      * simpl. repeat split; auto; lia.
      * done.
Qed.

Lemma theight_purge (t : ptree) : theight (purge t) = theight t.
Proof. induction t; simpl; congruence. Qed.

Lemma avl_purge (t : ptree) : avl t → avl (purge t).
Proof.
  induction t as [|p l IHl k v b r IHr|]; simpl; [done| |done].
  rewrite !theight_purge. tauto.
Qed.

End BalanceDelete.

(** ** The entries in order *)

Section Inorder.

Context {K V : Type}.
#[local] Abbreviation ptree := (ptree K V).
#[local] Abbreviation frame := (@frame K V).

(** The entries before and after the hole of a path. *)
Fixpoint before (ctx : list frame) : list (K * option V) :=
  match ctx with
  | [] => []
  | FL _ _ _ _ _ :: ctx => before ctx
  | FR _ l k v _ :: ctx => before ctx ++ inorder l ++ [(k, v)]
  end.

Fixpoint after (ctx : list frame) : list (K * option V) :=
  match ctx with
  | [] => []
  | FL _ k v _ r :: ctx => (k, v) :: inorder r ++ after ctx
  | FR _ _ _ _ _ :: ctx => after ctx
  end.

Lemma inorder_plug (ctx : list frame) (t : ptree) :
  inorder (plug ctx t) = before ctx ++ inorder t ++ after ctx.
Proof.
  revert t. induction ctx as [|f ctx IH]; intros t; simpl.
  - by rewrite app_nil_r.
  - rewrite IH. destruct f; simpl; by rewrite <- ?app_assoc.
Qed.

Lemma inorder_plug_eq (ctx : list frame) (t t' : ptree) :
  inorder t' = inorder t → inorder (plug ctx t') = inorder (plug ctx t).
Proof. intros H. by rewrite !inorder_plug, H. Qed.

Lemma rotL_inorder (t t' : ptree) : rotL t = Some t' → inorder t' = inorder t.
Proof.
  destruct t as [|p l k v b [|q ql qk qv qb qr|]|]; simpl; intros; simplify_eq.
  simpl. by rewrite <- app_assoc.
Qed.

Lemma rotR_inorder (t t' : ptree) : rotR t = Some t' → inorder t' = inorder t.
Proof.
  destruct t as [|p [|q ql qk qv qb qr|] k v b r|]; simpl; intros; simplify_eq.
  simpl. by rewrite <- app_assoc.
Qed.

Lemma fixR_inorder (t t' : ptree) : fixR t = Some t' → inorder t' = inorder t.
Proof.
  destruct t as [|p l k v b r|]; [done| |done]. cbv [fixR].
  case_bool_decide as Hb.
  - destruct (rotR r) as [r'|] eqn:Hr; [|done]. cbn [mbind option_bind].
    intros H. apply (rotL_inorder (PN p l k v b r') t') in H.
    rewrite H. simpl. by rewrite (rotR_inorder _ _ Hr).
  - apply rotL_inorder.
Qed.

Lemma fixL_inorder (t t' : ptree) : fixL t = Some t' → inorder t' = inorder t.
Proof.
  destruct t as [|p l k v b r|]; [done| |done]. cbv [fixL].
  case_bool_decide as Hb.
  - destruct (rotL l) as [l'|] eqn:Hl; [|done]. cbn [mbind option_bind].
    intros H. apply (rotR_inorder (PN p l' k v b r) t') in H.
    rewrite H. simpl. by rewrite (rotL_inorder _ _ Hl).
  - apply rotR_inorder.
Qed.

Lemma inorder_frame_bf (f : frame) b (c : ptree) :
  inorder (plug1 (frame_with_bf b f) c) = inorder (plug1 f c).
Proof. by destruct f. Qed.

Lemma ghosts_frame_bf (f : frame) b (c : ptree) :
  ghosts (plug1 (frame_with_bf b f) c) = ghosts (plug1 f c).
Proof. by destruct f. Qed.

Lemma del_up_inorder (ctx : list frame) (c t' : ptree) :
  del_up ctx c = Some t' → inorder t' = inorder (plug ctx c).
Proof.
  revert c. induction ctx as [|f ctx IH]; intros c; simpl.
  - by intros [= ->].
  - set (b := match f with FL _ _ _ b _ => b - 1 | FR _ _ _ _ b => b + 1 end).
    set (t := plug1 (frame_with_bf b f) c).
    assert (Ht : inorder t = inorder (plug1 f c)) by apply inorder_frame_bf.
    destruct (if b <? -1 then fixR t else if 1 <? b then fixL t else Some t)
      as [t1|] eqn:Hfix; simpl; [|done].
    assert (Ht1 : inorder t1 = inorder (plug1 f c)).
    { rewrite <- Ht. destruct (b <? -1); [by apply fixR_inorder|].
      destruct (1 <? b); [by apply fixL_inorder|]. by simplify_eq. }
    destruct (_ || _).
    + intros [= <-]. by apply inorder_plug_eq.
    + intros H%IH. rewrite H. by apply inorder_plug_eq.
Qed.

Lemma inorder_purge (t : ptree) : inorder (purge t) = inorder t.
Proof. induction t; simpl; congruence. Qed.

Lemma count_inorder (t : ptree) : count t = Z.of_nat (length (inorder t)).
Proof.
  induction t as [|p l IHl k v b r IHr|]; simpl; [done| |done].
  rewrite length_app. simpl. lia.
Qed.

Lemma shiftMax_inorder (t : ptree) kv c leaf :
  shiftMax t = Some (kv, c, leaf) → inorder (plug c PE) ++ [kv] = inorder t.
Proof.
  revert kv c leaf. induction t as [|p l IHl k v b r IHr|]; intros kv c leaf; simpl;
    [done| |done].
  destruct r as [|rp rl rk rv rb rr|].
  - destruct l as [|lp ll lk lv lb lr|].
    + intros [= <- <- <-]. done.
    + destruct (shiftMax (PN lp ll lk lv lb lr)) as [[[kv1 c1] leaf1]|] eqn:E; [|done].
      simpl. intros [= <- <- <-]. rewrite plug_app. simpl.
      pose proof (IHl _ _ _ eq_refl) as H. simpl in H. rewrite <- H.
      destruct kv1. by rewrite <- !app_assoc.
    + done.
  - destruct (shiftMax (PN rp rl rk rv rb rr)) as [[[kv1 c1] leaf1]|] eqn:E; [|done].
    simpl. intros [= <- <- <-]. rewrite plug_app. simpl.
    pose proof (IHr _ _ _ eq_refl) as H. simpl in H. rewrite <- H.
    by rewrite <- !app_assoc.
  - done.
Qed.

Lemma shiftMin_inorder (t : ptree) kv c leaf :
  shiftMin t = Some (kv, c, leaf) → kv :: inorder (plug c PE) = inorder t.
Proof.
  revert kv c leaf. induction t as [|p l IHl k v b r IHr|]; intros kv c leaf; simpl;
    [done| |done].
  destruct l as [|lp ll lk lv lb lr|].
  - destruct r as [|rp rl rk rv rb rr|].
    + intros [= <- <- <-]. done.
    + destruct (shiftMin (PN rp rl rk rv rb rr)) as [[[kv1 c1] leaf1]|] eqn:E; [|done].
      simpl. intros [= <- <- <-]. rewrite plug_app. simpl.
      pose proof (IHr _ _ _ eq_refl) as H. simpl in H. rewrite <- H.
      by destruct kv1.
    + done.
  - destruct (shiftMin (PN lp ll lk lv lb lr)) as [[[kv1 c1] leaf1]|] eqn:E; [|done].
    simpl. intros [= <- <- <-]. rewrite plug_app. simpl.
    pose proof (IHl _ _ _ eq_refl) as H. simpl in H. by rewrite <- H.
  - done.
Qed.

(** What [delete] leaves: the entries without the one of the node found. *)
Lemma del_path_inorder ctx p (l : ptree) k v b (r : ptree) ctx1 leaf :
  del_path ctx (PN p l k v b r) = Some (ctx1, leaf) →
  inorder (plug ctx1 PE) = before ctx ++ inorder l ++ inorder r ++ after ctx.
Proof.
  simpl. destruct l as [|lp ll lk lv lb lr|].
  - destruct r as [|rp rl rk rv rb rr|].
    + intros [= <- <-]. by rewrite inorder_plug.
    + destruct (shiftMin (PN rp rl rk rv rb rr)) as [[[kv1 c1] leaf1]|] eqn:E; [|done].
      simpl. intros [= <- <-]. rewrite plug_app. simpl. rewrite inorder_plug.
      pose proof (shiftMin_inorder _ _ _ _ E) as H. simpl in *. rewrite <- H.
      by destruct kv1.
    + done.
  - destruct (shiftMax (PN lp ll lk lv lb lr)) as [[[kv1 c1] leaf1]|] eqn:E; [|done].
    simpl. intros [= <- <-]. rewrite plug_app. simpl. rewrite inorder_plug.
    pose proof (shiftMax_inorder _ _ _ _ E) as H. simpl in *. rewrite <- H.
    destruct kv1. by rewrite <- !app_assoc.
  - done.
Qed.

End Inorder.

Section InorderSet.

Context {K V : Type}.
#[local] Abbreviation ptree := (ptree K V).
#[local] Abbreviation frame := (@frame K V).

Variable compare : K → K → Z.

Lemma set_up_inorder k (ctx : list frame) (c t' : ptree) :
  set_up compare k ctx c = Some t' → inorder t' = inorder (plug ctx c).
Proof.
  revert c. induction ctx as [|f ctx IH]; intros c; simpl.
  - by intros [= ->].
  - set (b := if compare (frame_key f) k <? 0 then frame_bf f - 1 else frame_bf f + 1).
    set (t := plug1 (frame_with_bf b f) c).
    assert (Ht : inorder t = inorder (plug1 f c)) by apply inorder_frame_bf.
    destruct (b =? 0); [intros [= <-]; by apply inorder_plug_eq|].
    destruct (b <? -1).
    { destruct (fixR t) as [t1|] eqn:Hfix; simpl; [|done]. intros [= <-].
      apply inorder_plug_eq. rewrite <- Ht. by apply fixR_inorder. }
    destruct (1 <? b).
    { destruct (fixL t) as [t1|] eqn:Hfix; simpl; [|done]. intros [= <-].
      apply inorder_plug_eq. rewrite <- Ht. by apply fixL_inorder. }
    intros H%IH. rewrite H. by apply inorder_plug_eq.
Qed.

Lemma set_up_ghosts k (ctx : list frame) (c t' : ptree) :
  set_up compare k ctx c = Some t' → ghosts t' ≡ₚ ghosts (plug ctx c).
Proof.
  revert c. induction ctx as [|f ctx IH]; intros c; simpl.
  - by intros [= ->].
  - set (b := if compare (frame_key f) k <? 0 then frame_bf f - 1 else frame_bf f + 1).
    set (t := plug1 (frame_with_bf b f) c).
    assert (Ht : ghosts t = ghosts (plug1 f c)) by apply ghosts_frame_bf.
    destruct (b =? 0); [intros [= <-]; by apply ghosts_plug_eq|].
    destruct (b <? -1).
    { destruct (fixR t) as [t1|] eqn:Hfix; simpl; [|done]. intros [= <-].
      apply ghosts_plug_eq. rewrite <- Ht. by apply fixR_ghosts. }
    destruct (1 <? b).
    { destruct (fixL t) as [t1|] eqn:Hfix; simpl; [|done]. intros [= <-].
      apply ghosts_plug_eq. rewrite <- Ht. by apply fixL_ghosts. }
    intros H%IH. rewrite H. by apply ghosts_plug_eq.
Qed.

End InorderSet.

(** ** The order of the keys *)

Section Comparator.

Context {K : Type}.

(** What the data model asks of a comparator: the sign of [compare b a] is
    the opposite of the sign of [compare a b], and less-than-or-equal is
    transitive. *)
Definition total_order (compare : K → K → Z) : Prop :=
  (∀ a b, Z.sgn (compare b a) = - Z.sgn (compare a b))
  ∧ (∀ a b c, compare a b ≤ 0 → compare b c ≤ 0 → compare a c ≤ 0).

Variable compare : K → K → Z.
Hypothesis compare_ok : total_order compare.

Definition kle (a b : K) : Prop := compare a b ≤ 0.
Definition klt (a b : K) : Prop := compare a b < 0.

Lemma compare_flip a b : Z.sgn (compare b a) = - Z.sgn (compare a b).
Proof using compare_ok. apply compare_ok. Qed.

Lemma compare_refl a : compare a a = 0.
Proof using compare_ok. pose proof (compare_flip a a). lia. Qed.

Lemma kle_trans a b c : kle a b → kle b c → kle a c.
Proof using compare_ok. apply compare_ok. Qed.

Lemma kle_flip a b : kle a b ↔ 0 ≤ compare b a.
Proof using compare_ok. unfold kle. pose proof (compare_flip a b). lia. Qed.

Lemma klt_flip a b : klt a b ↔ 0 < compare b a.
Proof using compare_ok. unfold klt. pose proof (compare_flip a b). lia. Qed.

Lemma klt_kle a b : klt a b → kle a b.
Proof. unfold klt, kle. lia. Qed.

Lemma klt_not_kle a b : klt a b ↔ ¬ kle b a.
Proof using compare_ok. unfold klt, kle. pose proof (compare_flip a b). lia. Qed.

Lemma klt_kle_trans a b c : klt a b → kle b c → klt a c.
Proof using compare_ok.
  rewrite !klt_not_kle. intros Hab Hbc Hca. apply Hab. by eapply kle_trans.
Qed.

Lemma kle_klt_trans a b c : kle a b → klt b c → klt a c.
Proof using compare_ok.
  rewrite !klt_not_kle. intros Hab Hbc Hca. apply Hbc. by eapply kle_trans.
Qed.

Lemma klt_trans a b c : klt a b → klt b c → klt a c.
Proof using compare_ok. intros H1 H2. eapply klt_kle_trans; [done|by apply klt_kle]. Qed.

(** Keys that compare equal compare alike with every other key. *)
Lemma compare_eq_l a b c : compare a b = 0 → Z.sgn (compare a c) = Z.sgn (compare b c).
Proof using compare_ok.
  intros Hab.
  assert (Hba : kle b a) by (apply kle_flip; lia).
  assert (Hab' : kle a b) by (unfold kle; lia).
  assert (H1 : kle a c ↔ kle b c) by (split; intros ?; by eapply kle_trans).
  assert (H2 : kle c a ↔ kle c b) by (split; intros ?; by eapply kle_trans).
  pose proof (compare_flip a c). pose proof (compare_flip b c).
  unfold kle in *. lia.
Qed.

End Comparator.

(** The default comparator on numbers is such an order. *)
Lemma DEFAULT_COMPARE_order : total_order DEFAULT_COMPARE.
Proof.
  split.
  - intros a b. unfold DEFAULT_COMPARE.
    destruct (Z.ltb_spec a b), (Z.ltb_spec b a); simpl; lia.
  - intros a b c. unfold DEFAULT_COMPARE.
    destruct (Z.ltb_spec b a), (Z.ltb_spec a b), (Z.ltb_spec c b), (Z.ltb_spec b c),
      (Z.ltb_spec c a), (Z.ltb_spec a c); lia.
Qed.

Section Sorted.

Context {K V : Type}.
#[local] Abbreviation ptree := (ptree K V).
#[local] Abbreviation frame := (@frame K V).

Variable compare : K → K → Z.
Hypothesis compare_ok : total_order compare.

(** The keys in order. *)
Definition tkeys (t : ptree) : list K := (inorder t).*1.

(** The order when duplicates are allowed, and when they are rejected. *)
Definition sorted (strict : bool) (l : list K) : Prop :=
  StronglySorted (if strict then klt compare else kle compare) l.

Lemma sorted_weaken strict l : sorted true l → sorted strict l.
Proof.
  destruct strict; [done|]. unfold sorted. induction 1 as [|x l Hl IH Hx]; constructor; [done|].
  eapply Forall_impl; [exact Hx|]. intros y. apply klt_kle.
Qed.

Lemma sorted_app strict l1 x l2 :
  sorted strict (l1 ++ x :: l2) ↔
    sorted strict l1 ∧ sorted strict l2
    ∧ Forall (λ y, if strict then klt compare y x else kle compare y x) l1
    ∧ Forall (λ y, if strict then klt compare x y else kle compare x y) l2.
Proof using compare_ok.
  unfold sorted. rewrite StronglySorted_app, StronglySorted_cons, !Forall_forall.
  split.
  - intros (H12 & H1 & Hx & H2). repeat split; [done|done| |by destruct strict].
    intros y Hy. specialize (H12 y x Hy). destruct strict; apply H12; set_solver.
  - intros (H1 & H2 & Hl & Hr). repeat split; [|done|by destruct strict|done].
    intros y z Hy [->|Hz]%elem_of_cons.
    + specialize (Hl y Hy). by destruct strict.
    + specialize (Hl y Hy). specialize (Hr z Hz). destruct strict.
      * by eapply klt_trans.
      * by eapply kle_trans.
Qed.

Lemma sorted_sublist strict l l' : l `sublist_of` l' → sorted strict l' → sorted strict l.
Proof.
  unfold sorted. intros Hs H. revert l Hs.
  induction H as [|x l' Hl' IH Hx]; intros l Hs.
  - apply sublist_nil_r in Hs as ->. constructor.
  - apply sublist_cons_r in Hs as [Hs|(l0 & -> & Hs)]; [by apply IH|].
    constructor; [by apply IH|]. rewrite Forall_forall in Hx |- *.
    intros y Hy. apply Hx. eapply elem_of_submseteq; [exact Hy|by apply sublist_submseteq].
Qed.

Lemma tkeys_node p (l : ptree) k v b (r : ptree) :
  tkeys (PN p l k v b r) = tkeys l ++ k :: tkeys r.
Proof. unfold tkeys. simpl. by rewrite fmap_app. Qed.

(** [bst] in the mode that rejects duplicates is the strict order of the
    keys, [bst_weak] the order with ties. *)
Lemma bst_sorted (t : ptree) : bst compare true t ↔ sorted true (tkeys t).
Proof using compare_ok.
  induction t as [|p l IHl k v b r IHr|]; simpl.
  - split; [constructor|done].
  - rewrite tkeys_node, sorted_app, IHl, IHr. unfold tkeys.
    rewrite !Forall_fmap. unfold compose.
    split; intros (?&H&?&?); repeat split; try done.
    + eapply Forall_impl; [exact H|]. intros e. simpl. apply klt_flip. done.
    + eapply Forall_impl; [exact H2|]. intros e. simpl. apply klt_flip. done.
  - split; [constructor|done].
Qed.

Lemma bst_weak_sorted (t : ptree) : bst_weak compare t ↔ sorted false (tkeys t).
Proof using compare_ok.
  induction t as [|p l IHl k v b r IHr|]; simpl.
  - split; [constructor|done].
  - rewrite tkeys_node, sorted_app, IHl, IHr. unfold tkeys.
    rewrite !Forall_fmap. unfold compose.
    split; intros (?&H&?&?); repeat split; try done.
    + eapply Forall_impl; [exact H|]. intros e. simpl. apply kle_flip. done.
    + eapply Forall_impl; [exact H2|]. intros e. simpl. apply kle_flip. done.
  - split; [constructor|done].
Qed.

End Sorted.

(** ** What [set] does to the entries *)

Section SetEntries.

Context {K V : Type}.
#[local] Abbreviation ptree := (ptree K V).
#[local] Abbreviation frame := (@frame K V).

Variable compare : K → K → Z.
Hypothesis compare_ok : total_order compare.

Lemma descend_some k (t : ptree) ctx : clean t → is_Some (descend compare k t ctx).
Proof.
  revert ctx. induction t as [|p l IHl k' v b r IHr|]; intros ctx; simpl; [eauto| |done].
  intros [Hl Hr]. destruct (compare k k' <=? 0); auto.
Qed.

Lemma descend_unique_some k v (t : ptree) ctx :
  clean t → is_Some (descend_unique compare k v t ctx).
Proof.
  revert ctx. induction t as [|p l IHl k' v' b r IHr|]; intros ctx; simpl; [eauto| |done].
  intros [Hl Hr]. destruct (compare k k' =? 0); [eauto|].
  destruct (compare k k' <? 0); auto.
Qed.

(** The side of a frame when the descent rejects duplicates. *)
Definition dir_lt (k : K) (f : frame) : Prop :=
  match f with
  | FL _ k' _ _ _ => compare k k' < 0
  | FR _ _ k' _ _ => 0 < compare k k'
  end.

Lemma dir_lt_ok k (f : frame) : dir_lt k f → dir_ok compare k f.
Proof. destruct f; simpl; lia. Qed.

Lemma descend_unique_dir_lt k v (t : ptree) ctx ctx' :
  descend_unique compare k v t ctx = Some (inr ctx') →
  Forall (dir_lt k) ctx → Forall (dir_lt k) ctx'.
Proof.
  revert ctx. induction t as [|p l IHl k' v' b r IHr|]; intros ctx; simpl; [|..|done].
  - intros [= ->]. done.
  - destruct (Z.eqb_spec (compare k k') 0) as [Heq|Heq]; [done|].
    destruct (Z.ltb_spec (compare k k') 0) as [Hlt|Hlt]; intros H Hc.
    + apply (IHl _ H). constructor; [simpl; lia|done].
    + apply (IHr _ H). constructor; [simpl; lia|done].
Qed.

(** The node that the descent finds when it rejects duplicates. *)
Lemma descend_unique_found k v (t : ptree) ctx t' :
  descend_unique compare k v t ctx = Some (inl t') →
  ∃ ctx' p l k' v' b r,
    plug ctx t = plug ctx' (PN p l k' v' b r) ∧ t' = plug ctx' (PN p l k' v b r)
    ∧ compare k k' = 0.
Proof.
  revert ctx. induction t as [|p l IHl k' v' b r IHr|]; intros ctx; simpl; [done|..|done].
  destruct (Z.eqb_spec (compare k k') 0) as [Heq|Heq].
  - intros [= <-]. by exists ctx, p, l, k', v', b, r.
  - destruct (compare k k' <? 0); intros H.
    + apply IHl in H as (ctx' & H). by exists ctx'.
    + apply IHr in H as (ctx' & H). by exists ctx'.
Qed.

Lemma dir_up_ok k (f : frame) : dir_ok compare k f → up_ok compare k f.
Proof using compare_ok.
  destruct f as [p k' v b r|p l k' v b]; simpl; intros H;
    pose proof (compare_flip compare compare_ok k k');
    destruct (Z.ltb_spec (compare k' k) 0); auto; lia.
Qed.

(** The keys around the place where a descent ends. *)
Lemma path_bounds (strict : bool) k ctx :
  sorted compare false (before ctx ++ after ctx).*1 →
  Forall (if strict then dir_lt k else dir_ok compare k) ctx →
  Forall (λ e, klt compare e.1 k) (before ctx)
  ∧ Forall (λ e, if strict then klt compare k e.1 else kle compare k e.1) (after ctx).
Proof using compare_ok.
  induction ctx as [|f ctx IH]; [done|].
  intros Hs [Hf Hctx]%Forall_cons.
  destruct f as [p k' v' b r|p l k' v' b]; simpl in *.
  - destruct IH as [IHb IHa]; [|done|].
    { revert Hs. apply sorted_sublist. apply fmap_sublist, sublist_app; [done|].
      apply sublist_cons, sublist_inserts_l. done. }
    split; [done|].
    rewrite fmap_app, fmap_cons, fmap_app in Hs.
    apply sorted_app in Hs as (_ & _ & _ & Hr); [|done].
    rewrite <- fmap_app, Forall_fmap in Hr.
    apply Forall_app in Hr as [Hr _].
    constructor; [|apply Forall_app; split; [|done]].
    + destruct strict; simpl in *; done.
    + eapply Forall_impl; [exact Hr|]. intros e He. simpl in He.
      destruct strict; simpl in Hf.
      * by eapply klt_kle_trans.
      * by eapply kle_trans.
  - rewrite <- !app_assoc in Hs. simpl in Hs.
    destruct IH as [IHb IHa]; [|done|].
    { revert Hs. apply sorted_sublist. apply fmap_sublist, sublist_app; [done|].
      apply sublist_inserts_l, sublist_cons. done. }
    split; [|done].
    rewrite app_assoc, fmap_app, fmap_cons in Hs.
    apply sorted_app in Hs as (_ & _ & Hl & _); [|done].
    rewrite Forall_fmap in Hl.
    assert (Hk : klt compare k' k).
    { apply klt_flip; [done|]. destruct strict; simpl in Hf; done. }
    rewrite app_assoc. apply Forall_app. split; [|by constructor].
    eapply Forall_impl; [exact Hl|]. intros e He. simpl in He.
    by eapply kle_klt_trans.
Qed.

(** How the entries change: a new entry between the smaller keys and the
    others, or a new value at the key that was there. *)
Definition set_entries (strict ins : bool) (k : K) (v : option V)
    (old new : list (K * option V)) : Prop :=
  if ins then
    ∃ l1 l2, old = l1 ++ l2 ∧ new = l1 ++ (k, v) :: l2
      ∧ Forall (λ e, klt compare e.1 k) l1
      ∧ Forall (λ e, if strict then klt compare k e.1 else kle compare k e.1) l2
  else
    strict = true
    ∧ ∃ l1 k' v' l2, old = l1 ++ (k', v') :: l2 ∧ new = l1 ++ (k', v) :: l2
      ∧ compare k k' = 0.

Lemma set_leaf k v newp ctx (t : ptree) (strict : bool) :
  plug ctx PE = t → clean t → avl t → sorted compare false (tkeys t) →
  Forall (if strict then dir_lt k else dir_ok compare k) ctx →
  ∃ t', set_up compare k ctx (PN newp PE k v 0 PE) = Some t'
    ∧ clean t' ∧ avl t' ∧ set_entries strict true k v (inorder t) (inorder t').
Proof using compare_ok.
  intros <- Hclean Havl Hs Hdir.
  assert (Hdir' : Forall (dir_ok compare k) ctx).
  { destruct strict; [|done]. eapply Forall_impl; [exact Hdir|]. apply dir_lt_ok. }
  apply avl_plug in Havl as [Hctx _]. simpl in Hctx.
  destruct (set_up_avl compare k ctx (PN newp PE k v 0 PE) 0) as (t' & Hup & Havl').
  - eapply Forall_impl; [exact Hdir'|]. apply dir_up_ok.
  - done.
  - simpl. repeat split; lia.
  - simpl. lia.
  - by right.
  - exists t'. split; [done|]. split; [|split; [done|]].
    + apply clean_ghosts. apply clean_ghosts in Hclean.
      pose proof (set_up_ghosts _ _ _ _ _ Hup) as Hg.
      rewrite ghosts_plug in Hg. simpl in Hg. rewrite Hclean in Hg.
      by apply Permutation_nil_r in Hg.
    + unfold tkeys in Hs. rewrite inorder_plug in Hs. simpl in Hs.
      destruct (path_bounds strict k ctx Hs Hdir) as [Hb Ha].
      exists (before ctx), (after ctx). split; [by rewrite inorder_plug|].
      split; [|done]. rewrite (set_up_inorder _ _ _ _ _ Hup), inorder_plug. done.
Qed.

Lemma pset_spec noDuplicates newp k v (t : ptree) :
  clean t → avl t → sorted compare false (tkeys t) →
  ∃ t' ins, pset compare noDuplicates newp k v t = Some (t', ins)
    ∧ clean t' ∧ avl t'
    ∧ set_entries noDuplicates ins k v (inorder t) (inorder t').
Proof using compare_ok.
  intros Hclean Havl Hs. unfold pset.
  assert (Hgoal : ∃ t' ins,
    (if noDuplicates then
       d ← descend_unique compare k v t [];
       match d with
       | inl t' => Some (t', false)
       | inr ctx => t' ← set_up compare k ctx (PN newp PE k v 0 PE); Some (t', true)
       end
     else
       ctx ← descend compare k t [];
       t' ← set_up compare k ctx (PN newp PE k v 0 PE); Some (t', true)) = Some (t', ins)
    ∧ clean t' ∧ avl t' ∧ set_entries noDuplicates ins k v (inorder t) (inorder t')).
  2:{ destruct t as [|p0 l0 k0 v0 b0 r0|]; [|exact Hgoal|done].
      eexists _, true. split; [done|]. split; [done|]. split; [simpl; lia|].
      exists [], []. simpl. repeat split; constructor. }
  destruct noDuplicates.
  - destruct (descend_unique_some k v t [] Hclean) as [[t'|ctx] Hd]; rewrite Hd; simpl.
    + exists t', false. split; [done|].
      apply descend_unique_found in Hd as (ctx' & p & l & k' & v' & b & r & Ht & -> & Hk).
      simpl in Ht. subst t.
      split; [|split].
      * apply clean_ghosts. apply clean_ghosts in Hclean.
        apply Permutation_nil_r. rewrite <- Hclean. by apply ghosts_plug_eq.
      * revert Havl. rewrite !avl_plug. done.
      * split; [done|].
        exists (before ctx' ++ inorder l), k', v', (inorder r ++ after ctx').
        rewrite !inorder_plug. simpl. by rewrite <- !app_assoc.
    + pose proof (descend_unique_plug _ _ _ _ _ _ Hd) as Hplug. simpl in Hplug.
      destruct (set_leaf k v newp ctx t true Hplug Hclean Havl Hs) as (t' & Hup & H).
      { eapply descend_unique_dir_lt; [exact Hd|constructor]. }
      rewrite Hup. simpl. by exists t', true.
  - destruct (descend_some k t [] Hclean) as [ctx Hd]; rewrite Hd; simpl.
    pose proof (descend_plug _ _ _ _ _ Hd) as Hplug. simpl in Hplug.
    destruct (set_leaf k v newp ctx t false Hplug Hclean Havl Hs) as (t' & Hup & H).
    { eapply descend_dir_ok; [exact Hd|constructor]. }
    rewrite Hup. simpl. by exists t', true.
Qed.

(** The order of the keys after [set]. *)
Lemma set_entries_sorted (noDuplicates strict ins : bool) k v (old new : list (K * option V)) :
  set_entries noDuplicates ins k v old new →
  (strict = true → noDuplicates = true) →
  sorted compare strict old.*1 → sorted compare strict new.*1.
Proof using compare_ok.
  unfold set_entries. destruct ins.
  - intros (l1 & l2 & -> & -> & H1 & H2) Hmode Hs.
    rewrite fmap_app, fmap_cons. apply sorted_app; [done|].
    rewrite fmap_app in Hs.
    split; [|split; [|split]].
    + revert Hs. apply sorted_sublist. by apply sublist_inserts_r.
    + revert Hs. apply sorted_sublist. by apply sublist_inserts_l.
    + rewrite Forall_fmap. eapply Forall_impl; [exact H1|].
      intros e He. simpl. destruct strict; [done|by apply klt_kle].
    + rewrite Forall_fmap. eapply Forall_impl; [exact H2|].
      intros e He. simpl. destruct strict.
      * by rewrite Hmode in He.
      * destruct noDuplicates; [by apply klt_kle|done].
  - intros (_ & l1 & k' & v' & l2 & -> & -> & _) _.
    by rewrite !fmap_app, !fmap_cons.
Qed.

Lemma set_entries_length (noDuplicates ins : bool) k v (old new : list (K * option V)) :
  set_entries noDuplicates ins k v old new →
  length new = (length old + (if ins then 1 else 0))%nat.
Proof.
  unfold set_entries. destruct ins.
  - intros (l1 & l2 & -> & -> & _). rewrite !length_app. simpl. lia.
  - intros (_ & l1 & k' & v' & l2 & -> & -> & _). rewrite !length_app. simpl. lia.
Qed.

End SetEntries.

(** ** What [delete] does to the entries *)

Section DeleteEntries.

Context {K V : Type}.
#[local] Abbreviation ptree := (ptree K V).
#[local] Abbreviation frame := (@frame K V).

Lemma shiftMax_some (t : ptree) : clean t → t ≠ PE → is_Some (shiftMax t).
Proof.
  induction t as [|p l IHl k v b r IHr|]; [done| |done].
  intros [Hl Hr] _. cbn [shiftMax].
  destruct r as [|rp rl rk rv rb rr|]; [| |done].
  - destruct l as [|lp ll lk lv lb lr|]; [by eexists| |done].
    destruct (IHl Hl) as [[[kv c] leaf] E]; [done|]. rewrite E. by eexists.
  - destruct (IHr Hr) as [[[kv c] leaf] E]; [done|]. rewrite E. by eexists.
Qed.

Lemma shiftMin_some (t : ptree) : clean t → t ≠ PE → is_Some (shiftMin t).
Proof.
  induction t as [|p l IHl k v b r IHr|]; [done| |done].
  intros [Hl Hr] _. cbn [shiftMin].
  destruct l as [|lp ll lk lv lb lr|]; [| |done].
  - destruct r as [|rp rl rk rv rb rr|]; [by eexists| |done].
    destruct (IHr Hr) as [[[kv c] leaf] E]; [done|]. rewrite E. by eexists.
  - destruct (IHl Hl) as [[[kv c] leaf] E]; [done|]. rewrite E. by eexists.
Qed.

Lemma del_path_some ctx p (l : ptree) k v b (r : ptree) :
  clean l → clean r → is_Some (del_path ctx (PN p l k v b r)).
Proof.
  intros Hl Hr. cbn [del_path].
  destruct l as [|lp ll lk lv lb lr|]; [| |done].
  - destruct r as [|rp rl rk rv rb rr|]; [by eexists| |done].
    destruct (shiftMin_some _ Hr) as [[[kv c] leaf] E]; [done|]. rewrite E. by eexists.
  - destruct (shiftMax_some _ Hl) as [[[kv c] leaf] E]; [done|]. rewrite E. by eexists.
Qed.

Lemma clean_plug (ctx : list frame) (t : ptree) : clean (plug ctx t) → clean t.
Proof.
  rewrite !clean_ghosts. intros H.
  pose proof (ghosts_plug ctx t) as Hp. rewrite H in Hp.
  apply Permutation_nil_l in Hp. symmetry in Hp. by apply app_eq_nil in Hp as [? _].
Qed.

End DeleteEntries.

Section DeleteEntriesFind.

Context {K V : Type}.
#[local] Abbreviation ptree := (ptree K V).
#[local] Abbreviation frame := (@frame K V).

Variable compare : K → K → Z.

(** The entries lose the one of the node that the search found. *)
Definition delete_entries (k : K) (old new : list (K * option V)) : Prop :=
  ∃ l1 k' v' l2, old = l1 ++ (k', v') :: l2 ∧ new = l1 ++ l2 ∧ compare k k' = 0.

Lemma pdelete_spec k (t : ptree) :
  clean t → avl t → is_Some (pfind compare k t []) →
  ∃ t', pdelete compare k t = Some t' ∧ clean t' ∧ avl t'
    ∧ delete_entries k (inorder t) (inorder t').
Proof.
  intros Hclean Havl [[ctx x] Hfind]. unfold pdelete. rewrite Hfind. simpl.
  pose proof (pfind_plug _ _ _ _ _ _ Hfind) as Hplug. simpl in Hplug.
  destruct (pfind_node _ _ _ _ _ _ Hfind) as (p & l & k' & v & b & r & -> & Hk).
  assert (Hx : clean (PN p l k' v b r)) by (apply (clean_plug ctx); by rewrite Hplug).
  destruct Hx as [Hl Hr].
  destruct (del_path_some ctx p l k' v b r Hl Hr) as [[ctx1 leaf] Hpath].
  rewrite Hpath. simpl.
  destruct (del_path_leaf _ _ _ _ Hpath) as (m & lk & lv & lb & ->). simpl.
  assert (Havl1 : avl (plug ctx1 (PN m PE lk lv lb PE))).
  { apply avl_erase. rewrite (del_path_erase _ _ _ _ Hpath), Hplug. by apply avl_erase. }
  apply avl_plug in Havl1 as [Hctx1 _]. simpl in Hctx1.
  destruct (del_up_avl ctx1 (PG m lk lv lb) 0) as (t1 & Hup & Havl1); [done..|].
  rewrite Hup. simpl. eexists. split; [done|].
  split; [apply purge_is_clean|]. split; [by apply avl_purge|].
  exists (before ctx ++ inorder l), k', v, (inorder r ++ after ctx).
  split; [|split; [|done]].
  - rewrite <- Hplug, inorder_plug. simpl. by rewrite <- !app_assoc.
  - rewrite inorder_purge, (del_up_inorder _ _ _ Hup), inorder_plug. simpl.
    pose proof (del_path_inorder _ _ _ _ _ _ _ _ _ Hpath) as Hin.
    rewrite inorder_plug in Hin. simpl in Hin. rewrite Hin. by rewrite <- !app_assoc.
Qed.

Lemma delete_entries_sorted strict k (old new : list (K * option V)) :
  delete_entries k old new → sorted compare strict old.*1 → sorted compare strict new.*1.
Proof.
  intros (l1 & k' & v' & l2 & -> & -> & _). apply sorted_sublist.
  apply fmap_sublist, sublist_app; [done|]. by apply sublist_cons.
Qed.

Lemma delete_entries_length k (old new : list (K * option V)) :
  delete_entries k old new → length old = S (length new).
Proof.
  intros (l1 & k' & v' & l2 & -> & -> & _). rewrite !length_app. simpl. lia.
Qed.

End DeleteEntriesFind.

(** ** Reading the tree off the store *)

Section Shape.

Context {K V : Type}.
#[local] Abbreviation Node := (Node K V).
#[local] Abbreviation AVLTree := (AVLTree K V).
#[local] Abbreviation ptree := (ptree K V).

Lemma reify_wf fuel (h : gmap ptr Node) par (t : ptree) :
  wf h par t → clean t → (depth t ≤ fuel)%nat → reify fuel h par (root_ptr t) = Some t.
Proof.
  revert fuel par. induction t as [|p l IHl k v b r IHr|]; intros fuel par;
    [by destruct fuel| |done].
  intros (Hp & Hl & Hr) [Hcl Hcr] Hf. simpl in Hf.
  destruct fuel as [|fuel]; [lia|]. simpl. rewrite Hp. simpl.
  rewrite bool_decide_true by done.
  rewrite IHl by (auto; lia). simpl. rewrite IHr by (auto; lia). done.
Qed.

Lemma Rep_shape (st : AVLTree) (t : ptree) : Rep st t → clean t → shape st = Some t.
Proof.
  intros (Hwf & Hnd & Hroot) Hclean. unfold shape. rewrite Hroot.
  rewrite (reify_wf _ _ _ t); [|done|done|].
  - simpl. by rewrite bool_decide_true.
  - pose proof (depth_fuel _ _ _ Hwf Hnd). lia.
Qed.

End Shape.

(** ** The invariants of the data model *)

Section Invariants.

Context {K V : Type}.
#[local] Abbreviation Node := (Node K V).
#[local] Abbreviation AVLTree := (AVLTree K V).
#[local] Abbreviation M := (M K V).
#[local] Abbreviation ptree := (ptree K V).

Variable compare : K → K → Z.
Variable falsy : K → bool.
Variable noDuplicates : bool.
Hypothesis compare_ok : total_order compare.

(** The order that the tree keeps in its mode: strict on both sides when it
    rejects duplicates, with ties on both sides when it allows them. *)
Definition bst_mode (t : ptree) : Prop :=
  if noDuplicates then bst compare true t else bst_weak compare t.

Lemma bst_mode_sorted (t : ptree) : bst_mode t ↔ sorted compare noDuplicates (tkeys t).
Proof using compare_ok.
  unfold bst_mode. destruct noDuplicates; [by apply bst_sorted|by apply bst_weak_sorted].
Qed.

(** The store holds the tree [t], and [t] has the invariants. *)
Record Inv (st : AVLTree) (t : ptree) : Prop := mkInv {
  inv_rep : Rep st t;
  inv_clean : clean t;
  inv_avl : avl t;
  inv_sorted : sorted compare noDuplicates (tkeys t);
  inv_size : _size st = count t
}.

Lemma Inv_empty : Inv empty PE.
Proof.
  split; try done.
  - split; [done|]. split; [constructor|done].
  - constructor.
Qed.

Lemma Inv_weak st t : Inv st t → sorted compare false (tkeys t).
Proof.
  intros H. destruct noDuplicates eqn:E.
  - apply sorted_weaken. pose proof (inv_sorted _ _ H) as Hs. by rewrite E in Hs.
  - pose proof (inv_sorted _ _ H) as Hs. by rewrite E in Hs.
Qed.

Lemma set_Inv k v st t :
  Inv st t →
  ∃ st' t' ins, set compare noDuplicates k v st = Done tt st' ∧ Inv st' t'
    ∧ set_entries compare noDuplicates ins k v (inorder t) (inorder t')
    ∧ _size st' = _size st + (if ins then 1 else 0).
Proof using compare_ok.
  intros HI. pose proof (Inv_weak _ _ HI) as Hw. destruct HI as [Hrep Hclean Havl Hs Hsize].
  destruct (pset_spec compare compare_ok noDuplicates (fresh (dom (heap st))) k v t)
    as (t' & ins & Hset & Hclean' & Havl' & Hent); [done..|].
  destruct (set_tree compare noDuplicates st t t' k v ins Hrep Hset) as (st' & Hrun & Hrep' & Hsz).
  exists st', t', ins. split; [done|]. split; [|done].
  split; try done.
  - revert Hs. by eapply set_entries_sorted.
  - rewrite Hsz, Hsize, !count_inorder, (set_entries_length _ _ _ _ _ _ _ Hent).
    destruct ins; lia.
Qed.

Lemma delete_Inv k st t :
  Inv st t → falsy k = false → is_Some (pfind compare k t []) →
  ∃ st' t', delete compare falsy k st = Done true st' ∧ Inv st' t'
    ∧ delete_entries compare k (inorder t) (inorder t')
    ∧ _size st' = _size st - 1.
Proof.
  intros [Hrep Hclean Havl Hs Hsize] Hk Hfind.
  destruct (pdelete_spec compare k t Hclean Havl Hfind) as (t' & Hdel & Hclean' & Havl' & Hent).
  destruct (delete_tree compare falsy k st t t' Hrep Hclean Hk Hdel) as (st' & Hrun & Hrep' & Hsz).
  exists st', t'. split; [done|]. split; [|done].
  split; try done.
  - revert Hs. by eapply delete_entries_sorted.
  - rewrite Hsz, Hsize, !count_inorder, (delete_entries_length _ _ _ _ Hent). lia.
Qed.

Lemma delete_Inv_none k st t :
  Inv st t → falsy k = true ∨ pfind compare k t [] = None →
  delete compare falsy k st = Done false st.
Proof.
  intros [Hrep Hclean Havl Hs Hsize] [Hk|Hfind].
  - by apply delete_falsy.
  - by eapply delete_absent.
Qed.

(** Whatever the key, [delete] returns and keeps the invariants. *)
Lemma delete_Inv_any k st t :
  Inv st t → ∃ b st' t', delete compare falsy k st = Done b st' ∧ Inv st' t'.
Proof.
  intros HI. destruct (falsy k) eqn:Hk.
  { exists false, st, t. split; [|done]. eapply delete_Inv_none; eauto. }
  destruct (pfind compare k t []) as [x|] eqn:Hfind.
  - destruct (delete_Inv k st t HI Hk) as (st' & t' & Hrun & HI' & _); [by rewrite Hfind|].
    by exists true, st', t'.
  - exists false, st, t. split; [|done]. eapply delete_Inv_none; eauto.
Qed.

(** *** Sequences of operations *)

Inductive op : Type :=
| OpSet (k : K) (v : option V)
| OpInsert (k : K) (v : option V)
| OpDelete (k : K).

Definition step (o : op) : M unit :=
  match o with
  | OpSet k v => set compare noDuplicates k v
  | OpInsert k v => insert compare noDuplicates k v
  | OpDelete k => bind (delete compare falsy k) (λ _, ret tt)
  end.

Fixpoint steps (ops : list op) : M unit :=
  match ops with
  | [] => ret tt
  | o :: ops => bind (step o) (λ _, steps ops)
  end.

Lemma step_Inv o st t : Inv st t → ∃ st' t', step o st = Done tt st' ∧ Inv st' t'.
Proof using compare_ok.
  intros HI. destruct o as [k v|k v|k]; simpl.
  - destruct (set_Inv k v st t HI) as (st' & t' & ins & Hrun & HI' & _). eauto.
  - destruct (set_Inv k v st t HI) as (st' & t' & ins & Hrun & HI' & _). eauto.
  - destruct (delete_Inv_any k st t HI) as (b & st' & t' & Hrun & HI').
    exists st', t'. split; [|done]. unfold bind. by rewrite Hrun.
Qed.

Lemma steps_Inv ops st t : Inv st t → ∃ st' t', steps ops st = Done tt st' ∧ Inv st' t'.
Proof using compare_ok.
  revert st t. induction ops as [|o ops IH]; intros st t HI; simpl.
  - by exists st, t.
  - destruct (step_Inv o st t HI) as (st1 & t1 & Hrun & HI1).
    destruct (IH st1 t1 HI1) as (st' & t' & Hrun' & HI').
    exists st', t'. split; [|done]. unfold bind. by rewrite Hrun.
Qed.

End Invariants.

(** ** Lookups *)

Section Lookup.

Context {K V : Type}.
#[local] Abbreviation Node := (Node K V).
#[local] Abbreviation AVLTree := (AVLTree K V).
#[local] Abbreviation M := (M K V).
#[local] Abbreviation ptree := (ptree K V).

Variable compare : K → K → Z.

(** The entry of the first node on the descent whose key compares equal. *)
Fixpoint tfind (k : K) (t : ptree) : option (K * option V) :=
  match t with
  | PN _ l k' v _ r =>
    let c := compare k k' in
    if c =? 0 then Some (k', v)
    else if c <? 0 then tfind k l
    else tfind k r
  | _ => None
  end.

Lemma has_loop_tree k fuel (h : gmap ptr Node) R S par (t : ptree) :
  wf h par t → clean t → (depth t ≤ fuel)%nat →
  has_loop compare fuel k (root_ptr t) (mkTree h R S)
  = Done (bool_decide (is_Some (tfind k t))) (mkTree h R S).
Proof.
  revert fuel par.
  induction t as [|p l IHl k' v b r IHr|]; intros fuel par Hwf Hcl Hf;
    [by destruct fuel| |done].
  destruct fuel as [|fuel]; [simpl in Hf; lia|].
  destruct Hwf as (Hp & Hl & Hr). destruct Hcl as [Hcl Hcr]. simpl in Hf.
  simpl. mrun.
  destruct (compare k k' =? 0) eqn:Hc0.
  { rewrite bool_decide_true by eauto. done. }
  destruct (compare k k' <? 0) eqn:Hc; mrun.
  - eapply IHl; eauto. lia.
  - eapply IHr; eauto. lia.
Qed.

Lemma get_loop_tree k fuel (h : gmap ptr Node) R S par (t : ptree) :
  wf h par t → clean t → (depth t ≤ fuel)%nat →
  get_loop compare fuel k (root_ptr t) (mkTree h R S)
  = Done (tfind k t ≫= snd) (mkTree h R S).
Proof.
  revert fuel par.
  induction t as [|p l IHl k' v b r IHr|]; intros fuel par Hwf Hcl Hf;
    [by destruct fuel| |done].
  destruct fuel as [|fuel]; [simpl in Hf; lia|].
  destruct Hwf as (Hp & Hl & Hr). destruct Hcl as [Hcl Hcr]. simpl in Hf.
  simpl. mrun.
  destruct (compare k k' =? 0) eqn:Hc0.
  { mrun. done. }
  destruct (compare k k' <? 0) eqn:Hc; mrun.
  - eapply IHl; eauto. lia.
  - eapply IHr; eauto. lia.
Qed.

Lemma has_tree k (st : AVLTree) (t : ptree) :
  Rep st t → clean t →
  has compare k st = Done (bool_decide (is_Some (tfind k t))) st.
Proof.
  destruct st as [h R S]. intros (Hwf & Hnd & HR) Hcl. simpl in *. subst R.
  unfold has. rewrite run_getRoot.
  destruct (root_ptr t) as [rp|] eqn:Hrp.
  - rewrite run_getFuel, <- Hrp. eapply has_loop_tree; eauto.
    pose proof (depth_fuel _ _ _ Hwf Hnd). lia.
  - destruct t; try done.
Qed.

Lemma get_tree k (st : AVLTree) (t : ptree) :
  Rep st t → clean t →
  get compare k st = Done (tfind k t ≫= snd) st.
Proof.
  destruct st as [h R S]. intros (Hwf & Hnd & HR) Hcl. simpl in *. subst R.
  unfold get. rewrite run_getRoot, run_getFuel. eapply get_loop_tree; eauto.
  pose proof (depth_fuel _ _ _ Hwf Hnd). lia.
Qed.

Lemma tfind_Some k (t : ptree) e :
  tfind k t = Some e → e ∈ inorder t ∧ compare k e.1 = 0.
Proof.
  induction t as [|p l IHl k' v b r IHr|]; simpl; [done| |done].
  destruct (Z.eqb_spec (compare k k') 0) as [Hc0|Hc0].
  - intros [= <-]. split; [set_solver|done].
  - destruct (compare k k' <? 0); intros H.
    + apply IHl in H as [H1 H2]. split; [set_solver|done].
    + apply IHr in H as [H1 H2]. split; [set_solver|done].
Qed.

Lemma pfind_tfind k (t : ptree) ctx :
  is_Some (pfind compare k t ctx) ↔ is_Some (tfind k t).
Proof.
  revert ctx. induction t as [|p l IHl k' v b r IHr|]; intros ctx; simpl.
  - split; intros [? ?]; done.
  - destruct (compare k k' =? 0); [split; eauto|].
    destruct (compare k k' <? 0); auto.
  - split; intros [? ?]; done.
Qed.

Hypothesis compare_ok : total_order compare.

Lemma tfind_None k (t : ptree) :
  sorted compare false (tkeys t) → tfind k t = None →
  Forall (λ e, compare k e.1 ≠ 0) (inorder t).
Proof using compare_ok.
  induction t as [|p l IHl k' v b r IHr|]; simpl; [constructor| |constructor].
  rewrite tkeys_node. intros (Hsl & Hsr & Hl & Hr)%sorted_app; [|done].
  unfold tkeys in Hl, Hr. rewrite Forall_fmap in Hl, Hr.
  destruct (Z.eqb_spec (compare k k') 0) as [Hc0|Hc0]; [done|].
  destruct (Z.ltb_spec (compare k k') 0) as [Hc|Hc]; intros H.
  - apply Forall_app. split; [auto|]. constructor; [done|].
    eapply Forall_impl; [exact Hr|]. intros e He. simpl in He.
    assert (klt compare k e.1) by (eapply klt_kle_trans; eauto).
    unfold klt in *. lia.
  - apply Forall_app. split; [|constructor; [done|auto]].
    eapply Forall_impl; [exact Hl|]. intros e He. simpl in He.
    assert (klt compare e.1 k).
    { eapply kle_klt_trans; eauto. apply klt_flip; [done|]. lia. }
    apply klt_flip in H0; [|done]. lia.
Qed.

(** When duplicates are rejected at most one entry compares equal. *)
Lemma sorted_unique k (l : list (K * option V)) e1 e2 :
  sorted compare true l.*1 → e1 ∈ l → e2 ∈ l →
  compare k e1.1 = 0 → compare k e2.1 = 0 → e1 = e2.
Proof using compare_ok.
  intros Hs H1 H2 Hk1 Hk2.
  assert (Hne : ∀ a b : K * option V, compare k a.1 = 0 → compare k b.1 = 0 →
                  ¬ klt compare a.1 b.1).
  { intros a b Ha Hb. unfold klt.
    pose proof (compare_eq_l compare compare_ok k a.1 b.1 Ha) as Hsg.
    pose proof (compare_flip compare compare_ok k a.1). lia. }
  induction l as [|x l IH]; [by apply elem_of_nil in H1|].
  rewrite fmap_cons in Hs. unfold sorted in Hs. apply StronglySorted_cons in Hs as [Hx Hs].
  rewrite Forall_fmap in Hx. rewrite Forall_forall in Hx.
  apply elem_of_cons in H1 as [->|H1]; apply elem_of_cons in H2 as [->|H2]; auto.
  - exfalso. apply (Hne x e2 Hk1 Hk2). by apply Hx.
  - exfalso. apply (Hne x e1 Hk2 Hk1). by apply Hx.
Qed.

End Lookup.

(** ** Lookups after a sequence of [set] *)

Section SetHistory.

Context {K V : Type}.
#[local] Abbreviation Node := (Node K V).
#[local] Abbreviation AVLTree := (AVLTree K V).
#[local] Abbreviation M := (M K V).
#[local] Abbreviation ptree := (ptree K V).

Variable compare : K → K → Z.
Variable noDuplicates : bool.

(** [set] for every pair, in order. *)
Fixpoint set_all (sets : list (K * option V)) : M unit :=
  match sets with
  | [] => ret tt
  | (k, v) :: sets => bind (set compare noDuplicates k v) (λ _, set_all sets)
  end.

(** Some call set a key that compares equal to [k]. *)
Definition was_set (k : K) (sets : list (K * option V)) : bool :=
  existsb (λ e, compare k e.1 =? 0) sets.

(** The value of the most recent call for a key that compares equal to [k]. *)
Definition last_set (k : K) (sets : list (K * option V)) : option V :=
  foldl (λ acc e, if compare k e.1 =? 0 then e.2 else acc) None sets.

(** The entries of the tree against the calls so far. *)
Definition agree (hist l : list (K * option V)) : Prop :=
  (∀ k, was_set k hist = true ↔ Exists (λ e, compare k e.1 = 0) l)
  ∧ (noDuplicates = true → ∀ k e, e ∈ l → compare k e.1 = 0 → e.2 = last_set k hist)
  ∧ (noDuplicates = false → ∀ e, e ∈ l → e ∈ hist).

Lemma was_set_snoc k hist k' v :
  was_set k (hist ++ [(k', v)]) = was_set k hist || (compare k k' =? 0).
Proof. unfold was_set. rewrite existsb_app. simpl. by rewrite orb_false_r. Qed.

Lemma last_set_snoc k hist k' v :
  last_set k (hist ++ [(k', v)]) = if compare k k' =? 0 then v else last_set k hist.
Proof. unfold last_set. by rewrite foldl_app. Qed.

Lemma last_set_never k hist : was_set k hist = false → last_set k hist = None.
Proof.
  induction hist as [|[k' v] hist IH] using rev_ind; [done|].
  rewrite was_set_snoc, last_set_snoc. intros [H1 H2]%orb_false_iff.
  rewrite H2. auto.
Qed.

Hypothesis compare_ok : total_order compare.

Lemma compare_eq_trans a b c : compare a b = 0 → compare b c = 0 → compare a c = 0.
Proof using compare_ok.
  intros Hab Hbc. pose proof (compare_eq_l compare compare_ok a b c Hab). lia.
Qed.

Lemma compare_eq_sym a b : compare a b = 0 → compare b a = 0.
Proof using compare_ok. intros Hab. pose proof (compare_flip compare compare_ok a b). lia. Qed.

Lemma agree_set hist ins k v (old new : list (K * option V)) :
  set_entries compare noDuplicates ins k v old new →
  sorted compare noDuplicates old.*1 →
  agree hist old → agree (hist ++ [(k, v)]) new.
Proof using compare_ok.
  intros Hent Hs (Hmem & Hval & Hsub). split; [|split].
  - intros k0. rewrite was_set_snoc, orb_true_iff, Hmem.
    unfold set_entries in Hent. destruct ins.
    + destruct Hent as (l1 & l2 & -> & -> & _).
      rewrite !Exists_app, Exists_cons. simpl.
      destruct (Z.eqb_spec (compare k0 k) 0); naive_solver.
    + destruct Hent as (_ & l1 & k' & v' & l2 & -> & -> & Hk).
      rewrite !Exists_app, !Exists_cons. simpl.
      destruct (Z.eqb_spec (compare k0 k) 0) as [H0|H0]; [|naive_solver].
      pose proof (compare_eq_trans _ _ _ H0 Hk). naive_solver.
  - intros Hmode k0 e He Hk0. specialize (Hval Hmode). rewrite last_set_snoc.
    rewrite Hmode in Hs, Hent.
    unfold set_entries in Hent. destruct ins.
    + destruct Hent as (l1 & l2 & -> & -> & H1 & H2).
      rewrite Forall_forall in H1, H2.
      apply elem_of_app in He as [He|He]; [|apply elem_of_cons in He as [->|He]].
      * destruct (Z.eqb_spec (compare k0 k) 0) as [H0|H0]; [|apply Hval; set_solver].
        exfalso. specialize (H1 e He).
        pose proof (compare_eq_trans _ _ _ (compare_eq_sym _ _ Hk0) H0). unfold klt in H1. lia.
      * simpl in *. by rewrite Hk0.
      * destruct (Z.eqb_spec (compare k0 k) 0) as [H0|H0]; [|apply Hval; set_solver].
        exfalso. specialize (H2 e He).
        pose proof (compare_eq_trans _ _ _ (compare_eq_sym _ _ H0) Hk0). unfold klt in H2. lia.
    + destruct Hent as (_ & l1 & k' & v' & l2 & -> & -> & Hk).
      destruct (Z.eqb_spec (compare k0 k) 0) as [H0|H0].
      * pose proof (compare_eq_trans _ _ _ H0 Hk) as H0'.
        apply elem_of_app in He as [He|He]; [|apply elem_of_cons in He as [->|He]]; [|done|].
        -- assert (e = (k', v')) as ->; [|].
           { eapply (sorted_unique compare compare_ok k0); [exact Hs|set_solver|set_solver|done|done]. }
           exfalso. rewrite fmap_app, fmap_cons in Hs.
           apply sorted_app in Hs as (_ & _ & Hl & _); [|done].
           rewrite Forall_fmap, Forall_forall in Hl. specialize (Hl _ He). simpl in Hl.
           pose proof (compare_refl compare compare_ok k'). unfold klt in Hl. lia.
        -- assert (e = (k', v')) as ->; [|].
           { eapply (sorted_unique compare compare_ok k0); [exact Hs|set_solver|set_solver|done|done]. }
           exfalso. rewrite fmap_app, fmap_cons in Hs.
           apply sorted_app in Hs as (_ & _ & _ & Hr); [|done].
           rewrite Forall_fmap, Forall_forall in Hr. specialize (Hr _ He). simpl in Hr.
           pose proof (compare_refl compare compare_ok k'). unfold klt in Hr. lia.
      * apply elem_of_app in He as [He|He]; [|apply elem_of_cons in He as [->|He]].
        -- apply Hval; set_solver.
        -- simpl in Hk0. exfalso. apply H0.
           eapply compare_eq_trans; [exact Hk0|by apply compare_eq_sym].
        -- apply Hval; set_solver.
  - intros Hmode e He. specialize (Hsub Hmode). rewrite Hmode in Hent.
    unfold set_entries in Hent. destruct ins.
    + destruct Hent as (l1 & l2 & -> & -> & _).
      apply elem_of_app. apply elem_of_app in He as [He|He]; [left; apply Hsub; set_solver|].
      apply elem_of_cons in He as [->|He]; [right; set_solver|left; apply Hsub; set_solver].
    + by destruct Hent as [? _].
Qed.

Lemma set_all_Inv sets hist st t :
  Inv compare noDuplicates st t → agree hist (inorder t) →
  ∃ st' t', set_all sets st = Done tt st' ∧ Inv compare noDuplicates st' t'
    ∧ agree (hist ++ sets) (inorder t').
Proof using compare_ok.
  revert hist st t. induction sets as [|[k v] sets IH]; intros hist st t HI Hag.
  - exists st, t. by rewrite app_nil_r.
  - destruct (set_Inv compare noDuplicates compare_ok k v st t HI)
      as (st1 & t1 & ins & Hrun & HI1 & Hent & _).
    destruct (IH (hist ++ [(k, v)]) st1 t1 HI1) as (st' & t' & Hrun' & HI' & Hag').
    { eapply agree_set; eauto. apply (inv_sorted _ _ _ _ HI). }
    exists st', t'. split; [|split; [done|]].
    + simpl. unfold bind. by rewrite Hrun.
    + by rewrite <- app_assoc in Hag'.
Qed.

Lemma agree_has k hist (t : ptree) :
  sorted compare false (tkeys t) → agree hist (inorder t) →
  bool_decide (is_Some (tfind compare k t)) = was_set k hist.
Proof using compare_ok.
  intros Hs (Hmem & _ & _). destruct (tfind compare k t) as [e|] eqn:Hfind.
  - rewrite bool_decide_true by eauto. symmetry. apply Hmem.
    apply tfind_Some in Hfind as [He Hk]. apply Exists_exists. eauto.
  - rewrite bool_decide_false by (by intros [? ?]).
    symmetry. apply not_true_is_false. intros Hw%Hmem.
    apply (tfind_None compare compare_ok k t Hs) in Hfind.
    apply Exists_exists in Hw as (e & He & Hk).
    rewrite Forall_forall in Hfind. by apply (Hfind e He).
Qed.

Lemma agree_get k hist (t : ptree) :
  noDuplicates = true →
  sorted compare false (tkeys t) → agree hist (inorder t) →
  tfind compare k t ≫= snd = last_set k hist.
Proof using compare_ok.
  intros Hmode Hs Hag. pose proof (agree_has k hist t Hs Hag) as Hhas.
  destruct Hag as (Hmem & Hval & _).
  destruct (tfind compare k t) as [e|] eqn:Hfind; simpl.
  - apply tfind_Some in Hfind as [He Hk]. by apply Hval.
  - rewrite bool_decide_false in Hhas by (by intros [? ?]).
    symmetry. by apply last_set_never.
Qed.

(** When duplicates are allowed [get] finds the value of one of the calls
    for the key. *)
Lemma agree_get_dup k hist (t : ptree) :
  noDuplicates = false →
  sorted compare false (tkeys t) → agree hist (inorder t) →
  if was_set k hist
  then ∃ e, e ∈ hist ∧ compare k e.1 = 0 ∧ tfind compare k t ≫= snd = e.2
  else tfind compare k t ≫= snd = None.
Proof using compare_ok.
  intros Hmode Hs Hag. pose proof (agree_has k hist t Hs Hag) as Hhas.
  destruct Hag as (Hmem & _ & Hsub). rewrite <- Hhas.
  destruct (tfind compare k t) as [e|] eqn:Hfind.
  - rewrite bool_decide_true by eauto.
    apply tfind_Some in Hfind as [He Hk]. exists e. auto.
  - by rewrite bool_decide_false by (by intros [? ?]).
Qed.

End SetHistory.

(** ** The ends of the order *)

Section Ends.

Context {K V : Type}.
#[local] Abbreviation Node := (Node K V).
#[local] Abbreviation AVLTree := (AVLTree K V).
#[local] Abbreviation M := (M K V).
#[local] Abbreviation ptree := (ptree K V).

Lemma leftmost_cell (h : gmap ptr Node) par (t : ptree) m :
  wf h par t → clean t → leftmost_ptr t = Some m →
  ∃ n, h !! m = Some n ∧ head (inorder t) = Some (key n, value n) ∧ head (nodes t) = Some m.
Proof.
  revert par. induction t as [|p l IHl k v b r IHr|]; intros par; [done| |done].
  intros (Hp & Hl & Hr) [Hcl Hcr] Hm. simpl in Hm.
  destruct l as [|lp ll lk lv lb lr|]; [| |done].
  - simplify_eq. eexists. split; [exact Hp|]. done.
  - destruct (IHl _ Hl Hcl Hm) as (n & Hn & Hhd & Hnd).
    exists n. split; [done|]. simpl in *.
    destruct (inorder ll ++ (lk, lv) :: inorder lr) eqn:E1; [done|].
    destruct (nodes ll ++ lp :: nodes lr) eqn:E2; [done|]. done.
Qed.

Lemma rightmost_cell (h : gmap ptr Node) par (t : ptree) m :
  wf h par t → clean t → rightmost_ptr t = Some m →
  ∃ n, h !! m = Some n ∧ last (inorder t) = Some (key n, value n) ∧ last (nodes t) = Some m.
Proof.
  revert par. induction t as [|p l IHl k v b r IHr|]; intros par; [done| |done].
  intros (Hp & Hl & Hr) [Hcl Hcr] Hm. simpl in Hm.
  destruct r as [|rp rl rk rv rb rr|]; [| |done].
  - simplify_eq. eexists. split; [exact Hp|]. simpl.
    by rewrite !last_snoc.
  - destruct (IHr _ Hr Hcr Hm) as (n & Hn & Hhd & Hnd).
    exists n. split; [done|].
    cbn [inorder nodes] in *.
    rewrite (last_app_cons (inorder l)), (last_app_cons (nodes l)).
    rewrite !last_cons, Hhd, Hnd. done.
Qed.

Lemma minNode_tree (st : AVLTree) (t : ptree) :
  Rep st t → clean t → minNode st = Done (head (nodes t)) st.
Proof.
  destruct st as [h R sz]. intros (Hwf & Hnd & HR) Hcl. simpl in *. subst R.
  unfold minNode. rewrite run_getRoot.
  destruct (root_ptr t) as [rp|] eqn:Hrp; [|by destruct t].
  rewrite run_getFuel.
  destruct (leftmost_tree (Datatypes.S (size h)) h (root_ptr t) sz None t rp Hwf Hrp) as (m & Hm & Hrun).
  { pose proof (depth_fuel _ _ _ Hwf Hnd). lia. }
  rewrite Hrp in Hrun. unfold bind. rewrite Hrun.
  destruct (leftmost_cell h None t m Hwf Hcl Hm) as (n & _ & _ & ->). done.
Qed.

Lemma maxNode_tree (st : AVLTree) (t : ptree) :
  Rep st t → clean t → maxNode st = Done (last (nodes t)) st.
Proof.
  destruct st as [h R sz]. intros (Hwf & Hnd & HR) Hcl. simpl in *. subst R.
  unfold maxNode. rewrite run_getRoot.
  destruct (root_ptr t) as [rp|] eqn:Hrp; [|by destruct t].
  rewrite run_getFuel.
  destruct (rightmost_tree (Datatypes.S (size h)) h (root_ptr t) sz None t rp Hwf Hrp) as (m & Hm & Hrun).
  { pose proof (depth_fuel _ _ _ Hwf Hnd). lia. }
  rewrite Hrp in Hrun. unfold bind. rewrite Hrun.
  destruct (rightmost_cell h None t m Hwf Hcl Hm) as (n & _ & _ & ->). done.
Qed.

Lemma min_tree (st : AVLTree) (t : ptree) :
  Rep st t → clean t → min st = Done (fst <$> head (inorder t)) st.
Proof.
  destruct st as [h R sz]. intros (Hwf & Hnd & HR) Hcl. simpl in *. subst R.
  unfold min, minNode. rewrite run_assoc, run_getRoot.
  destruct (root_ptr t) as [rp|] eqn:Hrp; [|by destruct t].
  rewrite !run_assoc, run_getFuel, run_assoc.
  destruct (leftmost_tree (Datatypes.S (size h)) h (root_ptr t) sz None t rp Hwf Hrp) as (m & Hm & Hrun).
  { pose proof (depth_fuel _ _ _ Hwf Hnd). lia. }
  rewrite Hrp in Hrun. unfold bind at 1. rewrite Hrun. rewrite run_ret.
  destruct (leftmost_cell h None t m Hwf Hcl Hm) as (n & Hn & -> & _).
  mrun. done.
Qed.

Lemma max_tree (st : AVLTree) (t : ptree) :
  Rep st t → clean t → max st = Done (fst <$> last (inorder t)) st.
Proof.
  destruct st as [h R sz]. intros (Hwf & Hnd & HR) Hcl. simpl in *. subst R.
  unfold max, maxNode. rewrite run_assoc, run_getRoot.
  destruct (root_ptr t) as [rp|] eqn:Hrp; [|by destruct t].
  rewrite !run_assoc, run_getFuel, run_assoc.
  destruct (rightmost_tree (Datatypes.S (size h)) h (root_ptr t) sz None t rp Hwf Hrp) as (m & Hm & Hrun).
  { pose proof (depth_fuel _ _ _ Hwf Hnd). lia. }
  rewrite Hrp in Hrun. unfold bind at 1. rewrite Hrun. rewrite run_ret.
  destruct (rightmost_cell h None t m Hwf Hcl Hm) as (n & Hn & -> & _).
  mrun. done.
Qed.

End Ends.

(** ** The results of [delete], [shift] and [pop] *)

Section Removal.

Context {K V : Type}.
#[local] Abbreviation Node := (Node K V).
#[local] Abbreviation AVLTree := (AVLTree K V).
#[local] Abbreviation M := (M K V).
#[local] Abbreviation ptree := (ptree K V).

Variable compare : K → K → Z.
Variable falsy : K → bool.
Variable noDuplicates : bool.
Hypothesis compare_ok : total_order compare.

(** Some entry has a key that compares equal to [k]. *)
Definition present (k : K) (l : list (K * option V)) : Prop :=
  Exists (λ e, compare k e.1 = 0) l.

Lemma tfind_present k (t : ptree) :
  sorted compare false (tkeys t) → present k (inorder t) → is_Some (tfind compare k t).
Proof using compare_ok.
  intros Hs Hex. destruct (tfind compare k t) as [e|] eqn:Hfind; [eauto|].
  apply (tfind_None compare compare_ok k t Hs) in Hfind.
  apply Exists_exists in Hex as (e & He & Hk).
  rewrite Forall_forall in Hfind. by destruct (Hfind e He).
Qed.

Lemma tfind_absent k (t : ptree) :
  ¬ present k (inorder t) → tfind compare k t = None.
Proof.
  intros Hex. destruct (tfind compare k t) as [e|] eqn:Hfind; [|done].
  destruct Hex. apply tfind_Some in Hfind as [He Hk]. apply Exists_exists. eauto.
Qed.

Lemma delete_present k st t :
  Inv compare noDuplicates st t → falsy k = false → present k (inorder t) →
  ∃ st' t', delete compare falsy k st = Done true st' ∧ Inv compare noDuplicates st' t'
    ∧ delete_entries compare k (inorder t) (inorder t')
    ∧ _size st' = _size st - 1.
Proof using compare_ok.
  intros HI Hk Hex. apply delete_Inv; [done..|].
  apply pfind_tfind. apply tfind_present; [|done]. by eapply Inv_weak.
Qed.

Lemma delete_missing k st t :
  Inv compare noDuplicates st t → ¬ present k (inorder t) →
  delete compare falsy k st = Done false st.
Proof.
  intros HI Hex. eapply delete_Inv_none; [done|]. right.
  apply tfind_absent in Hex.
  destruct (pfind compare k t []) as [x|] eqn:Hfind; [|done].
  assert (is_Some (tfind compare k t)) as [? ?]; [|congruence].
  apply (pfind_tfind compare k t []). by rewrite Hfind.
Qed.

Lemma head_present (l : list (K * option V)) k v : head l = Some (k, v) → present k l.
Proof using compare_ok.
  destruct l as [|e l]; [done|]. intros [= ->]. apply Exists_cons_hd. simpl.
  by apply compare_refl.
Qed.

Lemma last_present (l : list (K * option V)) k v : last l = Some (k, v) → present k l.
Proof using compare_ok.
  intros Hl. apply Exists_exists. exists (k, v). split.
  - apply last_Some in Hl as (l' & ->). apply elem_of_app. right.
    by apply list_elem_of_singleton.
  - simpl. by apply compare_refl.
Qed.

(** What [shift] and [pop] do once they hold the node of an end of the
    order. *)
Lemma take_end (st : AVLTree) (t : ptree) m n (loop : ptr → M ptr) rp :
  Inv compare noDuplicates st t →
  loop rp st = Done m st → heap st !! m = Some n →
  present (key n) (inorder t) →
  (falsy (key n) = false →
   ∃ st' t', bind (loop rp) (λ node,
               bind (fld key node) (λ nk, bind (fld value node) (λ nv,
               bind (fld key node) (λ nk',
               bind (delete compare falsy nk') (λ _, ret (Some (nk, nv)))))))
               st = Done (Some (key n, value n)) st'
     ∧ Inv compare noDuplicates st' t'
     ∧ delete_entries compare (key n) (inorder t) (inorder t')
     ∧ _size st' = _size st - 1)
  ∧ (falsy (key n) = true →
     bind (loop rp) (λ node,
       bind (fld key node) (λ nk, bind (fld value node) (λ nv,
       bind (fld key node) (λ nk',
       bind (delete compare falsy nk') (λ _, ret (Some (nk, nv)))))))
       st = Done (Some (key n, value n)) st).
Proof using compare_ok.
  intros HI Hloop Hn Hex. destruct st as [h R sz]. simpl in Hn.
  split; intros Hk; unfold bind at 1; rewrite Hloop; mrun.
  - destruct (delete_present (key n) _ t HI Hk Hex) as (st' & t' & Hdel & H).
    exists st', t'. split; [|done]. unfold bind. by rewrite Hdel.
  - unfold bind. rewrite (delete_falsy compare falsy _ _ Hk). done.
Qed.

Lemma shift_tree (st : AVLTree) (t : ptree) k v :
  Inv compare noDuplicates st t → head (inorder t) = Some (k, v) →
  (falsy k = false →
   ∃ st' t', shift compare falsy st = Done (Some (k, v)) st'
     ∧ Inv compare noDuplicates st' t'
     ∧ delete_entries compare k (inorder t) (inorder t')
     ∧ _size st' = _size st - 1)
  ∧ (falsy k = true → shift compare falsy st = Done (Some (k, v)) st).
Proof using compare_ok.
  intros HI Hhd. pose proof HI as [(Hwf & Hnd & HR) Hcl _ _ _].
  unfold shift.
  destruct (root_ptr t) as [rp|] eqn:Hrp; [|by destruct t].
  destruct (leftmost_tree (Datatypes.S (size (heap st))) (heap st) (_root st) (_size st)
              None t rp Hwf Hrp) as (m & Hm & Hrun).
  { pose proof (depth_fuel _ _ _ Hwf Hnd). lia. }
  destruct (leftmost_cell (heap st) None t m Hwf Hcl Hm) as (n & Hn & Hhd' & _).
  rewrite Hhd in Hhd'. injection Hhd' as -> ->.
  destruct st as [h R sz]. simpl in *. subst R.
  rewrite run_getRoot, run_getFuel.
  apply (take_end (mkTree h (Some rp) sz) t m n (leftmost (Datatypes.S (size h))) rp); auto.
  eapply head_present; eauto.
Qed.

Lemma pop_tree (st : AVLTree) (t : ptree) k v :
  Inv compare noDuplicates st t → last (inorder t) = Some (k, v) →
  (falsy k = false →
   ∃ st' t', pop compare falsy st = Done (Some (k, v)) st'
     ∧ Inv compare noDuplicates st' t'
     ∧ delete_entries compare k (inorder t) (inorder t')
     ∧ _size st' = _size st - 1)
  ∧ (falsy k = true → pop compare falsy st = Done (Some (k, v)) st).
Proof using compare_ok.
  intros HI Hhd. pose proof HI as [(Hwf & Hnd & HR) Hcl _ _ _].
  unfold pop.
  destruct (root_ptr t) as [rp|] eqn:Hrp; [|by destruct t].
  destruct (rightmost_tree (Datatypes.S (size (heap st))) (heap st) (_root st) (_size st)
              None t rp Hwf Hrp) as (m & Hm & Hrun).
  { pose proof (depth_fuel _ _ _ Hwf Hnd). lia. }
  destruct (rightmost_cell (heap st) None t m Hwf Hcl Hm) as (n & Hn & Hhd' & _).
  rewrite Hhd in Hhd'. injection Hhd' as -> ->.
  destruct st as [h R sz]. simpl in *. subst R.
  rewrite run_getRoot, run_getFuel.
  apply (take_end (mkTree h (Some rp) sz) t m n (rightmost (Datatypes.S (size h))) rp); auto.
  eapply last_present; eauto.
Qed.

Lemma shift_empty (st : AVLTree) : _root st = None → shift compare falsy st = Done None st.
Proof. destruct st as [h R sz]. simpl. intros ->. done. Qed.

Lemma pop_empty (st : AVLTree) : _root st = None → pop compare falsy st = Done None st.
Proof. destruct st as [h R sz]. simpl. intros ->. done. Qed.

End Removal.

(** ** Operations that only read *)

Section ReadOnly.

Context {K V : Type}.
#[local] Abbreviation Node := (Node K V).
#[local] Abbreviation AVLTree := (AVLTree K V).
#[local] Abbreviation M := (M K V).

(** The outcome [r] of a run from [st] left the store, the root and the
    size as they were. *)
Definition same_tree {A} (st : AVLTree) (r : result K V A) : Prop :=
  match r with
  | Done _ st' => st' = st
  | Thrown _ st' => st' = st
  | Stuck => True
  end.

Definition readonly {A} (m : M A) : Prop := ∀ st, same_tree st (m st).

Lemma readonly_ret {A} (a : A) : readonly (ret a).
Proof. intros st. reflexivity. Qed.

Lemma readonly_stuck {A} : readonly (stuck (A:=A)).
Proof. intros st. exact I. Qed.

Lemma readonly_fld {A} (f : Node → A) p : readonly (fld f p).
Proof. intros st. unfold fld. by destruct (heap st !! p). Qed.

Lemma readonly_getRoot : readonly getRoot.
Proof. intros st. reflexivity. Qed.

Lemma readonly_getSize : readonly getSize.
Proof. intros st. reflexivity. Qed.

Lemma readonly_getFuel : readonly getFuel.
Proof. intros st. reflexivity. Qed.

Lemma readonly_bind {A B} (m : M A) (f : A → M B) :
  readonly m → (∀ a, readonly (f a)) → readonly (bind m f).
Proof.
  intros Hm Hf st. unfold bind. specialize (Hm st).
  destruct (m st) as [a st'|msg st'|]; simpl in *; [|done|done].
  subst st'. apply Hf.
Qed.

Lemma readonly_getFuel2 : readonly getFuel2.
Proof. apply readonly_bind; [apply readonly_getFuel|intros; apply readonly_ret]. Qed.

End ReadOnly.

Ltac readonly_step :=
  first
    [ apply readonly_ret | apply readonly_stuck | apply readonly_fld
    | apply readonly_getRoot | apply readonly_getSize | apply readonly_getFuel
    | apply readonly_getFuel2
    | assumption
    | apply readonly_bind; [|intros]
    | match goal with
      | |- readonly (if ?b then _ else _) => destruct b
      | |- readonly (match ?x with _ => _ end) => destruct x
      end ].

Section ReadOnlyOps.

Context {K V : Type}.
#[local] Abbreviation Node := (Node K V).
#[local] Abbreviation AVLTree := (AVLTree K V).
#[local] Abbreviation M := (M K V).

Variable compare : K → K → Z.

Lemma readonly_has k : readonly (has (V:=V) compare k).
Proof.
  assert (H : ∀ fuel node, readonly (has_loop (V:=V) compare fuel k node)).
  { induction fuel as [|fuel IH]; intros [n|]; simpl; repeat readonly_step; apply IH. }
  unfold has. repeat readonly_step; apply H.
Qed.

Lemma readonly_get k : readonly (get (V:=V) compare k).
Proof.
  assert (H : ∀ fuel node, readonly (get_loop (V:=V) compare fuel k node)).
  { induction fuel as [|fuel IH]; intros [n|]; simpl; repeat readonly_step; apply IH. }
  unfold get. repeat readonly_step; apply H.
Qed.

Lemma readonly_leftmost fuel p : readonly (leftmost (K:=K) (V:=V) fuel p).
Proof.
  revert p. induction fuel as [|fuel IH]; intros p; simpl; repeat readonly_step; apply IH.
Qed.

Lemma readonly_rightmost fuel p : readonly (rightmost (K:=K) (V:=V) fuel p).
Proof.
  revert p. induction fuel as [|fuel IH]; intros p; simpl; repeat readonly_step; apply IH.
Qed.

Lemma readonly_minNode : readonly (minNode (K:=K) (V:=V)).
Proof. unfold minNode. repeat readonly_step. apply readonly_leftmost. Qed.

Lemma readonly_maxNode : readonly (maxNode (K:=K) (V:=V)).
Proof. unfold maxNode. repeat readonly_step. apply readonly_rightmost. Qed.

Lemma readonly_min : readonly (min (K:=K) (V:=V)).
Proof. unfold min. apply readonly_bind; [apply readonly_minNode|]. intros. repeat readonly_step. Qed.

Lemma readonly_max : readonly (max (K:=K) (V:=V)).
Proof. unfold max. apply readonly_bind; [apply readonly_maxNode|]. intros. repeat readonly_step. Qed.

Lemma readonly_forEach {A} (callback : ptr → Z → A → M (bool * A)) acc :
  (∀ n i a, readonly (callback n i a)) → readonly (forEach callback acc).
Proof.
  intros Hcb.
  assert (H : ∀ fuel node s i a, readonly (forEach_loop fuel callback node s i a)).
  { induction fuel as [|fuel IH]; intros node s i a; simpl; [apply readonly_stuck|].
    destruct node as [n|]; [repeat readonly_step; apply IH|].
    destruct s as [|n s]; [apply readonly_ret|].
    apply readonly_bind; [apply Hcb|]. intros [done a'].
    repeat readonly_step. apply IH. }
  unfold forEach. repeat readonly_step. apply H.
Qed.

Lemma readonly_at index : readonly (at_ (K:=K) (V:=V) index).
Proof. unfold at_. apply readonly_forEach. intros. repeat readonly_step. Qed.

Lemma readonly_generate {A} fuel (yield : Node → A) node s :
  readonly (generate fuel yield node s).
Proof.
  revert node s. induction fuel as [|fuel IH]; intros node s; simpl; [apply readonly_stuck|].
  destruct node as [n|]; [repeat readonly_step; apply IH|].
  destruct s as [|n s]; [apply readonly_ret|].
  repeat readonly_step. apply IH.
Qed.

Lemma readonly_keys : readonly (keys (K:=K) (V:=V)).
Proof. unfold keys. repeat readonly_step. apply readonly_generate. Qed.

Lemma readonly_values : readonly (values (K:=K) (V:=V)).
Proof. unfold values. repeat readonly_step. apply readonly_generate. Qed.

Lemma readonly_entries : readonly (entries (K:=K) (V:=V)).
Proof. unfold entries. repeat readonly_step. apply readonly_generate. Qed.

Lemma readonly_height fuel node : readonly (height (K:=K) (V:=V) fuel node).
Proof.
  revert node. induction fuel as [|fuel IH]; intros [n|]; simpl; repeat readonly_step; apply IH.
Qed.

Lemma readonly_isBalanced : readonly (isBalanced (K:=K) (V:=V)).
Proof.
  assert (H : ∀ fuel node, readonly (isBalanced_rec (K:=K) (V:=V) fuel node)).
  { induction fuel as [|fuel IH]; intros [n|]; simpl; repeat readonly_step;
      first [apply readonly_height|apply IH]. }
  unfold isBalanced. repeat readonly_step. apply H.
Qed.

End ReadOnlyOps.

(** ** In-order traversals *)

Section Traversal.

Context {K V : Type}.
#[local] Abbreviation Node := (Node K V).
#[local] Abbreviation AVLTree := (AVLTree K V).
#[local] Abbreviation M := (M K V).
#[local] Abbreviation ptree := (ptree K V).

(** The number of nodes, as an iteration count. *)
Fixpoint tsize (t : ptree) : nat :=
  match t with
  | PE => 0
  | PN _ l _ _ _ r => S (tsize l + tsize r)
  | PG _ _ _ _ => 0
  end.

Lemma tsize_ptrs (t : ptree) : (tsize t ≤ length (ptrs t))%nat.
Proof.
  induction t as [|p l IHl k v b r IHr|]; simpl; [lia| |lia].
  rewrite length_app. lia.
Qed.

Lemma tsize_fuel (st : AVLTree) (t : ptree) :
  Rep st t → ∃ fuel, (2 * S (size (heap st)) = 2 * tsize t + S fuel)%nat.
Proof.
  intros (Hwf & Hnd & _). pose proof (wf_size _ _ _ Hwf Hnd). pose proof (tsize_ptrs t).
  exists (2 * S (size (heap st)) - 2 * tsize t - 1)%nat. lia.
Qed.

Lemma tsize_inorder (t : ptree) : tsize t = length (inorder t).
Proof.
  induction t as [|p l IHl k v b r IHr|]; simpl; [done| |done].
  rewrite length_app. simpl. lia.
Qed.

Lemma tsize_nodes (t : ptree) : tsize t = length (nodes t).
Proof.
  induction t as [|p l IHl k v b r IHr|]; simpl; [done| |done].
  rewrite length_app. simpl. lia.
Qed.

(** The generators walk the subtree [t] and then go on with the stack. *)
Lemma generate_walk {A} (yield : Node → A) (g : K * option V → A)
    (h : gmap ptr Node) R sz (t : ptree) par s fuel out :
  (∀ n, yield n = g (key n, value n)) →
  wf h par t → clean t →
  generate fuel yield None s (mkTree h R sz) = Done out (mkTree h R sz) →
  generate (2 * tsize t + fuel) yield (root_ptr t) s (mkTree h R sz)
  = Done ((g <$> inorder t) ++ out) (mkTree h R sz).
Proof.
  intros Hy. revert par s fuel out.
  induction t as [|p l IHl k v b r IHr|]; intros par s fuel out Hwf Hcl Hrest; [done| |done].
  destruct Hwf as (Hp & Hl & Hr). destruct Hcl as [Hcl Hcr].
  cbn [tsize root_ptr inorder].
  replace (2 * S (tsize l + tsize r) + fuel)%nat
    with (S (2 * tsize l + S (2 * tsize r + fuel)))%nat by lia.
  cbn [generate]. mrun.
  rewrite (IHl (Some p) (p :: s) (S (2 * tsize r + fuel))%nat
             (g (k, v) :: (g <$> inorder r) ++ out)); [|done|done|].
  - by rewrite fmap_app, fmap_cons, <- app_assoc.
  - cbn [generate]. mrun.
    unfold bind. rewrite (IHr (Some p) s fuel out) by done.
    unfold ret. by rewrite Hy.
Qed.

Lemma generate_tree {A} (yield : Node → A) (g : K * option V → A)
    (st : AVLTree) (t : ptree) :
  (∀ n, yield n = g (key n, value n)) →
  Rep st t → clean t →
  bind getRoot (λ root, bind getFuel2 (λ fuel, generate fuel yield root [])) st
  = Done (g <$> inorder t) st.
Proof.
  intros Hy Hrep Hcl. destruct (tsize_fuel st t Hrep) as (fuel & Hfuel).
  destruct st as [h R sz]. destruct Hrep as (Hwf & Hnd & HR). cbn [heap _root] in *. subst R.
  rewrite run_getRoot. unfold getFuel2. rewrite run_assoc, run_getFuel, run_ret.
  rewrite Hfuel.
  rewrite (generate_walk yield g h _ sz t None [] (S fuel) []); try done.
  by rewrite app_nil_r.
Qed.

Lemma keys_tree (st : AVLTree) (t : ptree) :
  Rep st t → clean t → keys st = Done (tkeys t) st.
Proof. intros. by apply (generate_tree key fst). Qed.

Lemma values_tree (st : AVLTree) (t : ptree) :
  Rep st t → clean t → values st = Done ((inorder t).*2) st.
Proof. intros. by apply (generate_tree value snd). Qed.

Lemma entries_tree (st : AVLTree) (t : ptree) :
  Rep st t → clean t → entries st = Done (inorder t) st.
Proof.
  intros Hrep Hcl. unfold entries.
  rewrite (generate_tree (λ n, (key n, value n)) id st t); [|done..].
  by rewrite list_fmap_id.
Qed.

End Traversal.

(** ** [range] *)

Section Range.

Context {K V : Type}.
#[local] Abbreviation Node := (Node K V).
#[local] Abbreviation AVLTree := (AVLTree K V).
#[local] Abbreviation M := (M K V).
#[local] Abbreviation ptree := (ptree K V).

Variable compare : K → K → Z.

(** The nodes in order, each with its key. *)
Fixpoint pkeys (t : ptree) : list (ptr * K) :=
  match t with
  | PE => []
  | PN p l k _ _ r => pkeys l ++ (p, k) :: pkeys r
  | PG _ _ _ _ => []
  end.

Lemma pkeys_keys (t : ptree) : (pkeys t).*2 = tkeys t.
Proof.
  unfold tkeys. induction t as [|p l IHl k v b r IHr|]; simpl; [done| |done].
  by rewrite !fmap_app, !fmap_cons, IHl, IHr.
Qed.

Lemma pkeys_nodes (t : ptree) : (pkeys t).*1 = nodes t.
Proof.
  induction t as [|p l IHl k v b r IHr|]; simpl; [done| |done].
  by rewrite !fmap_app, !fmap_cons, IHl, IHr.
Qed.







End Range.

Section RangeResult.

Context {K V : Type}.
#[local] Abbreviation Node := (Node K V).
#[local] Abbreviation AVLTree := (AVLTree K V).
#[local] Abbreviation M := (M K V).
#[local] Abbreviation ptree := (ptree K V).

Variable compare : K → K → Z.



Hypothesis compare_ok : total_order compare.



End RangeResult.

(** ** The invariants, read off the store *)

Section ShapeInv.

Context {K V : Type}.
#[local] Abbreviation Node := (Node K V).
#[local] Abbreviation AVLTree := (AVLTree K V).
#[local] Abbreviation ptree := (ptree K V).

Lemma reify_root fuel (h : gmap ptr Node) par q (t : ptree) :
  reify fuel h par q = Some t → root_ptr t = q.
Proof.
  destruct q as [p|]; [|destruct fuel; simpl; by intros [= <-]].
  destruct fuel as [|fuel]; [done|]. simpl.
  destruct (h !! p) as [n|]; [|done]. simpl.
  case_bool_decide; [|done].
  destruct (reify fuel h (Some p) (left n)); [|done]. simpl.
  destruct (reify fuel h (Some p) (right n)); [|done]. simpl.
  by intros [= <-].
Qed.

Lemma reify_sound fuel (h : gmap ptr Node) par q (t : ptree) :
  reify fuel h par q = Some t → wf h par t ∧ clean t.
Proof.
  revert par q t. induction fuel as [|fuel IH]; intros par q t.
  { destruct q; simpl; [done|]. by intros [= <-]. }
  destruct q as [p|]; simpl; [|by intros [= <-]].
  destruct (h !! p) as [n|] eqn:Hp; [|done]. simpl.
  case_bool_decide as Hpar; [|done].
  destruct (reify fuel h (Some p) (left n)) as [l|] eqn:Hl; [|done]. simpl.
  destruct (reify fuel h (Some p) (right n)) as [r|] eqn:Hr; [|done]. simpl.
  intros [= <-].
  pose proof (reify_root _ _ _ _ _ Hl) as Hrl. pose proof (reify_root _ _ _ _ _ Hr) as Hrr.
  apply IH in Hl as [Hwl Hcl]. apply IH in Hr as [Hwr Hcr].
  simpl. rewrite Hrl, Hrr, <- Hpar. split; [|done]. split; [|done].
  rewrite Hp. by destruct n.
Qed.

Lemma shape_Rep (st : AVLTree) (t : ptree) : shape st = Some t → Rep st t ∧ clean t.
Proof.
  unfold shape.
  destruct (reify _ _ _ _) as [t'|] eqn:Hr; [|done]. simpl.
  case_bool_decide as Hnd; [|done]. intros [= <-].
  pose proof (reify_root _ _ _ _ _ Hr) as Hroot.
  apply reify_sound in Hr as [Hwf Hcl]. done.
Qed.

Variable compare : K → K → Z.
Variable noDuplicates : bool.

(** The invariants of the data model, on the tree that the store holds. *)
Definition invariants (st : AVLTree) (t : ptree) : Prop :=
  shape st = Some t ∧ bst_mode compare noDuplicates t ∧ avl t ∧ _size st = count t.

Hypothesis compare_ok : total_order compare.

Lemma invariants_Inv (st : AVLTree) (t : ptree) :
  invariants st t ↔ Inv compare noDuplicates st t.
Proof using compare_ok.
  split.
  - intros (Hshape & Hbst & Havl & Hsize). apply shape_Rep in Hshape as [Hrep Hcl].
    split; try done. by apply bst_mode_sorted.
  - intros [Hrep Hcl Havl Hs Hsize]. split; [by apply Rep_shape|].
    split; [by apply bst_mode_sorted|done].
Qed.

End ShapeInv.

(** ** [isBalanced] and [at] *)

Section Balanced.

Context {K V : Type}.
#[local] Abbreviation Node := (Node K V).
#[local] Abbreviation AVLTree := (AVLTree K V).
#[local] Abbreviation M := (M K V).
#[local] Abbreviation ptree := (ptree K V).

(** [isBalanced(root)] on the shape. *)
Fixpoint balanced (t : ptree) : bool :=
  match t with
  | PN _ l _ _ _ r =>
    if Z.abs (theight l - theight r) <=? 1 then
      if balanced l then balanced r else false
    else false
  | _ => true
  end.

Lemma height_tree fuel (h : gmap ptr Node) R sz par (t : ptree) :
  wf h par t → clean t → (depth t ≤ fuel)%nat →
  height fuel (root_ptr t) (mkTree h R sz) = Done (theight t) (mkTree h R sz).
Proof.
  revert fuel par.
  induction t as [|p l IHl k v b r IHr|]; intros fuel par Hwf Hcl Hf;
    [by destruct fuel| |done].
  destruct fuel as [|fuel]; [simpl in Hf; lia|].
  destruct Hwf as (Hp & Hl & Hr). destruct Hcl as [Hcl Hcr]. simpl in Hf.
  cbn [height root_ptr theight]. mrun.
  unfold bind at 1. rewrite (IHl fuel (Some p)) by (auto; lia). mrun.
  unfold bind at 1. rewrite (IHr fuel (Some p)) by (auto; lia). done.
Qed.

Lemma isBalanced_rec_tree fuel (h : gmap ptr Node) R sz par (t : ptree) :
  wf h par t → clean t → (depth t ≤ fuel)%nat →
  isBalanced_rec fuel (root_ptr t) (mkTree h R sz) = Done (balanced t) (mkTree h R sz).
Proof.
  revert fuel par.
  induction t as [|p l IHl k v b r IHr|]; intros fuel par Hwf Hcl Hf;
    [by destruct fuel| |done].
  destruct fuel as [|fuel]; [simpl in Hf; lia|].
  pose proof Hwf as (Hp & Hl & Hr). destruct Hcl as [Hcl Hcr]. simpl in Hf.
  cbn [isBalanced_rec root_ptr balanced]. mrun.
  unfold bind at 1. rewrite (height_tree fuel h R sz (Some p) l) by (auto; lia). mrun.
  unfold bind at 1. rewrite (height_tree fuel h R sz (Some p) r) by (auto; lia).
  destruct (Z.abs (theight l - theight r) <=? 1); [|done]. mrun.
  unfold bind at 1. rewrite (IHl fuel (Some p)) by (auto; lia).
  destruct (balanced l); [|done]. mrun.
  apply (IHr fuel (Some p)); auto. lia.
Qed.

Lemma isBalanced_tree (st : AVLTree) (t : ptree) :
  Rep st t → clean t → isBalanced st = Done (balanced t) st.
Proof.
  destruct st as [h R sz]. intros (Hwf & Hnd & HR) Hcl. cbn [heap _root] in *. subst R.
  unfold isBalanced. rewrite run_getRoot, run_getFuel.
  eapply isBalanced_rec_tree; eauto.
  pose proof (depth_fuel _ _ _ Hwf Hnd). lia.
Qed.

(** The callback of [at]. *)
Definition at_callback (i0 : Z) (node : ptr) (i : Z) (r : option ptr)
    : M (bool * option ptr) :=
  if i =? i0 then ret (true, Some node) else ret (false, r).

(** The loop of [at] over the nodes in order: [inl] when the callback ends
    it, [inr] with the next index when it goes on. *)
Fixpoint at_walk (i0 : Z) (l : list ptr) (i : Z) : ptr + Z :=
  match l with
  | [] => inr i
  | p :: l => if i =? i0 then inl p else at_walk i0 l (i + 1)
  end.

Lemma at_walk_app i0 l1 l2 i :
  at_walk i0 (l1 ++ l2) i
  = match at_walk i0 l1 i with
    | inl p => inl p
    | inr j => at_walk i0 l2 j
    end.
Proof.
  revert i. induction l1 as [|p l1 IH]; intros i; simpl; [done|].
  destruct (i =? i0); [done|apply IH].
Qed.

Lemma at_loop_walk i0 (h : gmap ptr Node) R sz (t : ptree) par :
  wf h par t → clean t →
  ∀ s i fuel,
    match at_walk i0 (nodes t) i with
    | inl p =>
      forEach_loop (2 * tsize t + fuel) (at_callback i0) (root_ptr t) s i None (mkTree h R sz)
      = Done (Some p) (mkTree h R sz)
    | inr j =>
      ∀ res,
        forEach_loop fuel (at_callback i0) None s j None (mkTree h R sz)
        = Done res (mkTree h R sz) →
        forEach_loop (2 * tsize t + fuel) (at_callback i0) (root_ptr t) s i None (mkTree h R sz)
        = Done res (mkTree h R sz)
    end.
Proof.
  revert par.
  induction t as [|p l IHl k v b r IHr|]; intros par Hwf Hcl s i fuel; [by simpl| |done].
  destruct Hwf as (Hp & Hl & Hr). destruct Hcl as [Hcl Hcr].
  cbn [tsize root_ptr nodes].
  replace (2 * S (tsize l + tsize r) + fuel)%nat
    with (S (2 * tsize l + S (2 * tsize r + fuel)))%nat by lia.
  rewrite at_walk_app.
  specialize (IHl (Some p) Hl Hcl (p :: s) i (S (2 * tsize r + fuel))%nat).
  cbn [forEach_loop]. mrun.
  destruct (at_walk i0 (nodes l) i) as [q|j]; [exact IHl|].
  cbn [at_walk].
  specialize (IHr (Some p) Hr Hcr s (j + 1) fuel).
  destruct (j =? i0) eqn:Hj.
  - apply IHl. cbn [forEach_loop]. unfold at_callback at 1. rewrite Hj. mrun. done.
  - destruct (at_walk i0 (nodes r) (j + 1)) as [q|j'].
    + apply IHl. cbn [forEach_loop]. unfold at_callback at 1. rewrite Hj. mrun. exact IHr.
    + intros res Hres. apply IHl. cbn [forEach_loop]. unfold at_callback at 1. rewrite Hj.
      mrun. by apply IHr.
Qed.

Lemma at_walk_index i0 (l : list ptr) i :
  i ≤ i0 →
  match at_walk i0 l i with
  | inl p => index l (i0 - i) = Some p
  | inr j => index l (i0 - i) = None ∧ j = i + Z.of_nat (length l)
  end.
Proof.
  revert i. induction l as [|p l IH]; intros i Hi; simpl.
  - split; [|lia]. unfold index. destruct (i0 - i <? 0); [done|]. apply lookup_nil.
  - destruct (Z.eqb_spec i i0) as [->|Hne].
    + replace (i0 - i0) with 0 by lia. done.
    + specialize (IH (i + 1) ltac:(lia)).
      assert (Hidx : index (p :: l) (i0 - i) = index l (i0 - (i + 1))).
      { unfold index. destruct (Z.ltb_spec (i0 - i) 0); [lia|].
        destruct (Z.ltb_spec (i0 - (i + 1)) 0); [lia|].
        replace (Z.to_nat (i0 - i)) with (S (Z.to_nat (i0 - (i + 1)))) by lia. done. }
      rewrite Hidx. destruct (at_walk i0 l (i + 1)); [done|].
      destruct IH as [? ->]. split; [done|lia].
Qed.

Lemma at_walk_negative i0 (l : list ptr) i :
  i0 < i → at_walk i0 l i = inr (i + Z.of_nat (length l)).
Proof.
  revert i. induction l as [|p l IH]; intros i Hi; simpl; [f_equal; lia|].
  destruct (Z.eqb_spec i i0); [lia|]. rewrite IH by lia. f_equal. lia.
Qed.

Lemma at_tree i0 (st : AVLTree) (t : ptree) :
  Rep st t → clean t → at_ i0 st = Done (index (nodes t) i0) st.
Proof.
  intros Hrep Hcl. destruct (tsize_fuel st t Hrep) as (fuel & Hfuel).
  destruct st as [h R sz]. destruct Hrep as (Hwf & Hnd & HR). cbn [heap _root] in *. subst R.
  unfold at_, forEach. rewrite run_getRoot. unfold getFuel2.
  rewrite run_assoc, run_getFuel, run_ret. rewrite Hfuel.
  pose proof (at_loop_walk i0 h (root_ptr t) sz t None Hwf Hcl [] 0 (S fuel)) as Hwalk.
  change (λ (node : ptr) (i : Z) (r : option ptr),
           if i =? i0 then ret (true, Some node) else ret (false, r)) with (at_callback i0).
  destruct (Z.le_gt_cases 0 i0) as [Hi|Hi].
  - pose proof (at_walk_index i0 (nodes t) 0 Hi) as Hidx.
    rewrite Z.sub_0_r in Hidx.
    destruct (at_walk i0 (nodes t) 0) as [p|j].
    + by rewrite Hidx.
    + destruct Hidx as [-> _]. by apply Hwalk.
  - rewrite at_walk_negative in Hwalk by lia.
    unfold index. rewrite (proj2 (Z.ltb_lt i0 0)) by lia. by apply Hwalk.
Qed.

End Balanced.

(** ** Bulk loading *)

Section Load.

Context {K V : Type}.
#[local] Abbreviation Node := (Node K V).
#[local] Abbreviation AVLTree := (AVLTree K V).
#[local] Abbreviation M := (M K V).
#[local] Abbreviation ptree := (ptree K V).

(** The entries [l] are what the two arrays hold from the index [start] on;
    a value that is missing is [undefined]. *)
Definition segment (keys : list K) (values : list V) (start : Z)
    (l : list (K * option V)) : Prop :=
  0 ≤ start
  ∧ ∀ i e, l !! i = Some e →
      keys !! (Z.to_nat start + i)%nat = Some e.1
      ∧ values !! (Z.to_nat start + i)%nat = e.2.

Lemma segment_index keys values start l i e :
  segment keys values start l → l !! i = Some e →
  index keys (start + Z.of_nat i) = Some e.1 ∧ index values (start + Z.of_nat i) = e.2.
Proof.
  intros [H0 Hl] Hi. destruct (Hl i e Hi) as [Hk Hv]. unfold index.
  destruct (Z.ltb_spec (start + Z.of_nat i) 0); [lia|].
  replace (Z.to_nat (start + Z.of_nat i)) with (Z.to_nat start + i)%nat by lia. done.
Qed.

Lemma segment_take keys values start l n :
  segment keys values start l → segment keys values start (take n l).
Proof.
  intros [H0 Hl]. split; [done|]. intros i e Hi. apply Hl.
  apply lookup_take_Some in Hi as [Hi _]. done.
Qed.

Lemma segment_drop keys values start l n :
  segment keys values start l → segment keys values (start + Z.of_nat n) (drop n l).
Proof.
  intros [H0 Hl]. split; [lia|]. intros i e Hi. rewrite lookup_drop in Hi.
  replace (Z.to_nat (start + Z.of_nat n) + i)%nat with (Z.to_nat start + (n + i))%nat by lia.
  by apply Hl.
Qed.

(** Every node has the lower half of the entries below it on its left. *)
Fixpoint halved (t : ptree) : Prop :=
  match t with
  | PN _ l _ _ _ r => tsize l = (S (tsize l + tsize r) / 2)%nat ∧ halved l ∧ halved r
  | _ => True
  end.

Lemma loadRecursive_tree fuel keys values :
  ∀ (l : list (K * option V)) start end_ par (h : gmap ptr Node) R sz,
    segment keys values start l → end_ = start + Z.of_nat (length l) →
    (length l ≤ fuel)%nat →
    ∃ (t : ptree) h',
      loadRecursive fuel par keys values start end_ (mkTree h R sz)
      = Done (root_ptr t) (mkTree h' R sz)
      ∧ wf h' par t ∧ clean t ∧ NoDup (ptrs t) ∧ inorder t = l
      ∧ (∀ x, x ∈ ptrs t → h !! x = None)
      ∧ (∀ x, x ∉ ptrs t → h' !! x = h !! x)
      ∧ halved t.
Proof.
  induction fuel as [|fuel IH]; intros l start end_ par h R sz Hseg -> Hlen.
  { destruct l; [|simpl in Hlen; lia]. exists PE, h. simpl.
    replace (start + Z.of_nat 0 - start) with 0 by lia. simpl.
    repeat split; try done; [constructor|by intros x ?%elem_of_nil]. }
  cbn [loadRecursive].
  replace (start + Z.of_nat (length l) - start) with (Z.of_nat (length l)) by lia.
  destruct (Z.ltb_spec 0 (Z.of_nat (length l))) as [Hpos|Hpos].
  2:{ destruct l; [|simpl in Hpos; lia]. exists PE, h.
      repeat split; try done; [constructor|by intros x ?%elem_of_nil]. }
  set (n1 := (length l / 2)%nat).
  assert (Hn1 : Z.of_nat (length l) / 2 = Z.of_nat n1).
  { unfold n1. by rewrite Nat2Z.inj_div. }
  assert (Hn1lt : (n1 < length l)%nat).
  { unfold n1. apply Nat.div_lt; lia. }
  destruct (lookup_lt_is_Some_2 l n1 Hn1lt) as [[k v] Hx].
  rewrite Hn1.
  destruct (segment_index _ _ _ _ _ _ Hseg Hx) as [Hk Hv]. simpl in Hk, Hv.
  rewrite Hk, Hv. rewrite run_alloc.
  set (p := fresh (dom h)).
  assert (Hpfresh : h !! p = None).
  { apply not_elem_of_dom. apply is_fresh. }
  set (h1 := <[p := mkNode par None None 0 k v]> h).
  destruct (IH (take n1 l) start (start + Z.of_nat n1) (Some p) h1 R sz)
    as (tl & h2 & Hrunl & Hwfl & Hcll & Hndl & Hinl & Hfreshl & Hframel & Hhalfl).
  { by apply segment_take. }
  { rewrite length_take. lia. }
  { rewrite length_take. lia. }
  assert (Hpl : p ∉ ptrs tl).
  { intros Hin. apply Hfreshl in Hin. unfold h1 in Hin. by rewrite lookup_insert_eq in Hin. }
  assert (Hp2 : h2 !! p = Some (mkNode par None None 0 k v)).
  { rewrite Hframel by done. unfold h1. by rewrite lookup_insert_eq. }
  unfold bind at 1. rewrite Hrunl. mrun.
  set (h3 := <[p := with_left (root_ptr tl) (mkNode par None None 0 k v)]> h2).
  destruct (IH (drop (S n1) l) (start + Z.of_nat n1 + 1) (start + Z.of_nat (length l))
              (Some p) h3 R sz)
    as (tr & h4 & Hrunr & Hwfr & Hclr & Hndr & Hinr & Hfreshr & Hframer & Hhalfr).
  { replace (start + Z.of_nat n1 + 1) with (start + Z.of_nat (S n1)) by lia.
    by apply segment_drop. }
  { rewrite length_drop. lia. }
  { rewrite length_drop. lia. }
  assert (Hpr : p ∉ ptrs tr).
  { intros Hin. apply Hfreshr in Hin. unfold h3 in Hin. by rewrite lookup_insert_eq in Hin. }
  assert (Hp4 : h4 !! p = Some (with_left (root_ptr tl) (mkNode par None None 0 k v))).
  { rewrite Hframer by done. unfold h3. by rewrite lookup_insert_eq. }
  assert (Hdisj : ∀ x, x ∈ ptrs tl → x ∉ ptrs tr).
  { intros x Hxl Hxr. apply Hfreshr in Hxr. unfold h3 in Hxr.
    rewrite lookup_insert_ne in Hxr by (intros <-; done).
    destruct (wf_lookup _ _ _ x Hwfl Hxl) as [? Hsome]. congruence. }
  unfold bind at 1. rewrite Hrunr. mrun.
  exists (PN p tl k v 0 tr). eexists. split; [reflexivity|].
  split; [|split; [done|split; [|split; [|split; [|split]]]]].
  - simpl. split; [by rewrite lookup_insert_eq|]. split.
    + eapply wf_agree; [|exact Hwfl]. intros x Hin.
      rewrite lookup_insert_ne by (intros <-; done).
      rewrite Hframer by auto. unfold h3.
      rewrite lookup_insert_ne by (intros <-; done). done.
    + eapply wf_agree; [|exact Hwfr]. intros x Hin.
      rewrite lookup_insert_ne by (intros <-; done). done.
  - simpl. constructor.
    + rewrite elem_of_app. tauto.
    + apply NoDup_app. split; [done|]. split; [|done]. exact Hdisj.
  - simpl. rewrite Hinl, Hinr.
    rewrite <- (take_drop_middle l n1 (k, v) Hx) at 3. done.
  - simpl. intros x [->|[Hin|Hin]%elem_of_app]%elem_of_cons; [done| |].
    + apply Hfreshl in Hin. unfold h1 in Hin.
      rewrite lookup_insert_ne in Hin by (intros <-; by rewrite lookup_insert_eq in Hin). done.
    + apply Hfreshr in Hin. unfold h3 in Hin.
      assert (x ≠ p) by (intros ->; by rewrite lookup_insert_eq in Hin).
      rewrite lookup_insert_ne in Hin by done.
      destruct (decide (x ∈ ptrs tl)) as [Hxl|Hxl].
      * destruct (wf_lookup _ _ _ x Hwfl Hxl) as [? Hsome]. congruence.
      * rewrite Hframel in Hin by done. unfold h1 in Hin.
        by rewrite lookup_insert_ne in Hin.
  - simpl. intros x Hin. rewrite not_elem_of_cons, not_elem_of_app in Hin.
    destruct Hin as (Hxp & Hxl & Hxr).
    rewrite lookup_insert_ne by done. rewrite Hframer by done. unfold h3.
    rewrite lookup_insert_ne by done. rewrite Hframel by done. unfold h1.
    by rewrite lookup_insert_ne.
  - cbn [halved]. split; [|done]. rewrite !tsize_inorder, Hinl, Hinr.
    rewrite length_take, length_drop.
    replace (S (n1 `min` length l + (length l - S n1)))%nat with (length l) by lia.
    fold n1. lia.
Qed.

End Load.

(** ** [sort] on two arrays *)

Section SortApart.

Context {K V : Type}.

Variable compare : K → K → Z.

(** What the loop of [sort] and [sort] itself do to two arrays that are
    apart, as functions of the contents of the two. *)
Fixpoint partition_apart (fuel inner : nat) (keys : list K) (values : list V)
    (pivot : K) (i j : Z) : option (list K * list V * Z) :=
  match fuel with
  | O => None
  | S fuel =>
    i ← scan_up compare inner keys pivot i;
    j ← scan_down compare inner keys pivot j;
    if j <=? i then Some (keys, values, j)
    else
      keys ← swap keys i j;
      values ← swap values i j;
      partition_apart fuel inner keys values pivot i j
  end.

Fixpoint sort_apart (fuel : nat) (keys : list K) (values : list V) (left right : Z)
    : option (list K * list V) :=
  if right <=? left then Some (keys, values)
  else
    match fuel with
    | O => None
    | S fuel =>
      pivot ← index keys (Z.shiftr (left + right) 1);
      let inner := S (S (length keys)) in
      '(keys, values, j) ← partition_apart inner inner keys values pivot (left - 1) (right + 1);
      '(keys, values) ← sort_apart fuel keys values left j;
      sort_apart fuel keys values (j + 1) right
    end.

Lemma partition_Apart fuel inner (keys : list K) (values : list V) pivot i j :
  partition compare fuel inner (Apart keys values) pivot i j
  = '(keys', values', j') ← partition_apart fuel inner keys values pivot i j;
    Some (Apart keys' values', j').
Proof.
  revert keys values i j. induction fuel as [|fuel IH]; intros keys values i j; [done|].
  cbn [partition partition_apart keysOf].
  destruct (scan_up compare inner keys pivot i) as [i'|]; [|done]. cbn [mbind option_bind].
  destruct (scan_down compare inner keys pivot j) as [j'|]; [|done]. cbn [mbind option_bind].
  destruct (j' <=? i'); [done|]. cbn [swapKeys].
  destruct (swap keys i' j') as [keys1|]; [|done]. cbn [mbind option_bind swapValues].
  destruct (swap values i' j') as [values1|]; [|done]. cbn [mbind option_bind].
  apply IH.
Qed.

Lemma sort_Apart fuel (keys : list K) (values : list V) left right :
  sort compare fuel (Apart keys values) left right
  = '(keys', values') ← sort_apart fuel keys values left right; Some (Apart keys' values').
Proof.
  revert keys values left right.
  induction fuel as [|fuel IH]; intros keys values left right; cbn [sort sort_apart];
    (destruct (right <=? left); [done|]); [done|].
  cbn [keysOf]. destruct (index keys _) as [pivot|]; [|done]. cbn [mbind option_bind].
  rewrite partition_Apart.
  destruct (partition_apart _ _ keys values pivot _ _) as [[[keys1 values1] j]|]; [|done].
  cbn [mbind option_bind]. rewrite IH.
  destruct (sort_apart fuel keys1 values1 left j) as [[keys2 values2]|]; [|done].
  cbn [mbind option_bind]. apply IH.
Qed.

(** On one array handed over for both, the two swaps undo each other. *)
Lemma swap_length {A} (l l' : list A) i j : swap l i j = Some l' → length l' = length l.
Proof.
  unfold swap. destruct (index l i); [|done]. destruct (index l j); [|done].
  intros [= <-]. by rewrite !length_insert.
Qed.

End SortApart.

(** ** [sort] returns *)

Section SortReturns.

Context {K V : Type}.

Variable compare : K → K → Z.
Hypothesis compare_ok : total_order compare.

Lemma index_valid {A} (l : list A) z :
  0 ≤ z < Z.of_nat (length l) → is_Some (index l z).
Proof.
  intros Hz. unfold index. destruct (Z.ltb_spec z 0); [lia|].
  apply lookup_lt_is_Some_2. lia.
Qed.

Lemma index_bounds {A} (l : list A) z a : index l z = Some a → 0 ≤ z < Z.of_nat (length l).
Proof.
  unfold index. destruct (Z.ltb_spec z 0); [done|]. intros Hz%lookup_lt_Some. lia.
Qed.

Lemma scan_up_stops fuel (keys : list K) pivot i s ks :
  i < s → (∀ z, i < z ≤ s → is_Some (index keys z)) →
  index keys s = Some ks → 0 ≤ compare ks pivot →
  (Z.to_nat (s - i) ≤ fuel)%nat →
  ∃ i' k', scan_up compare fuel keys pivot i = Some i'
    ∧ i < i' ≤ s ∧ index keys i' = Some k' ∧ 0 ≤ compare k' pivot.
Proof.
  revert i. induction fuel as [|fuel IH]; intros i Hlt Hvalid Hs Hc Hf; [lia|].
  simpl. destruct (Hvalid (i + 1)) as [k Hk]; [lia|]. rewrite Hk. simpl.
  destruct (Z.ltb_spec (compare k pivot) 0) as [Hlo|Hlo].
  - destruct (decide (i + 1 = s)) as [Heq|Hne].
    { rewrite Heq, Hs in Hk. injection Hk as ->. lia. }
    destruct (IH (i + 1)) as (i' & k' & Hrun & Hi' & Hk' & Hc'); [lia| |done|done|lia|].
    { intros z Hz. apply Hvalid. lia. }
    exists i', k'. split; [done|]. split; [lia|done].
  - exists (i + 1), k. split; [done|]. split; [lia|done].
Qed.

Lemma scan_down_stops fuel (keys : list K) pivot j s ks :
  s < j → (∀ z, s ≤ z < j → is_Some (index keys z)) →
  index keys s = Some ks → compare ks pivot ≤ 0 →
  (Z.to_nat (j - s) ≤ fuel)%nat →
  ∃ j' k', scan_down compare fuel keys pivot j = Some j'
    ∧ s ≤ j' < j ∧ index keys j' = Some k' ∧ compare k' pivot ≤ 0.
Proof.
  revert j. induction fuel as [|fuel IH]; intros j Hlt Hvalid Hs Hc Hf; [lia|].
  simpl. destruct (Hvalid (j - 1)) as [k Hk]; [lia|]. rewrite Hk. simpl.
  destruct (Z.ltb_spec 0 (compare k pivot)) as [Hhi|Hhi].
  - destruct (decide (j - 1 = s)) as [Heq|Hne].
    { rewrite Heq, Hs in Hk. injection Hk as ->. lia. }
    destruct (IH (j - 1)) as (j' & k' & Hrun & Hj' & Hk' & Hc'); [lia| |done|done|lia|].
    { intros z Hz. apply Hvalid. lia. }
    exists j', k'. split; [done|]. split; [lia|done].
  - exists (j - 1), k. split; [done|]. split; [lia|done].
Qed.

Lemma swap_some {A} (l : list A) i j x y :
  index l i = Some x → index l j = Some y →
  swap l i j = Some (<[Z.to_nat j := x]> (<[Z.to_nat i := y]> l)).
Proof. intros Hi Hj. unfold swap. by rewrite Hi, Hj. Qed.

Lemma index_insert_eq {A} (l : list A) i x :
  0 ≤ i < Z.of_nat (length l) → index (<[Z.to_nat i := x]> l) i = Some x.
Proof.
  intros Hi. unfold index. destruct (Z.ltb_spec i 0); [lia|].
  apply list_lookup_insert_eq. lia.
Qed.

Lemma index_insert_ne {A} (l : list A) i j x :
  0 ≤ i → 0 ≤ j → i ≠ j → index (<[Z.to_nat i := x]> l) j = index l j.
Proof.
  intros Hi Hj Hne. unfold index. destruct (Z.ltb_spec j 0); [done|].
  apply list_lookup_insert_ne. lia.
Qed.

(** The [while (true)] loop ends with [j] inside the range and below
    [right]. *)
Lemma partition_returns fuel inner (keys : list K) (values : list V) pivot left right :
  ∀ i j a b ka kb,
    0 ≤ left → right < Z.of_nat (length keys) → length values = length keys →
    left - 1 ≤ i → j ≤ right + 1 → i < j → i < a → a ≤ right → left ≤ b → b < j →
    a < right ∨ j ≤ right →
    index keys a = Some ka → 0 ≤ compare ka pivot →
    index keys b = Some kb → compare kb pivot ≤ 0 →
    (Z.to_nat (j - i) ≤ fuel)%nat → (Z.to_nat (right - left + 2) ≤ inner)%nat →
    ∃ keys' values' j',
      partition_apart compare fuel inner keys values pivot i j = Some (keys', values', j')
      ∧ length keys' = length keys ∧ length values' = length keys
      ∧ left ≤ j' < right.
Proof.
  revert keys values.
  induction fuel as [|fuel IH];
    intros keys values i j a b ka kb Hl Hr Hlen Hi Hj Hij Hia Har Hlb Hbj Hend Ha Hca Hb Hcb Hf Hin;
    [lia|].
  assert (Hvalid : ∀ z, left ≤ z ≤ right → is_Some (index keys z)).
  { intros z Hz. apply index_valid. lia. }
  cbn [partition_apart].
  destruct (scan_up_stops inner keys pivot i a ka) as (i' & ki & Hup & Hi' & Hki & Hci);
    [lia| |done|done|lia|].
  { intros z Hz. apply Hvalid. lia. }
  rewrite Hup. cbn [mbind option_bind].
  destruct (scan_down_stops inner keys pivot j b kb) as (j' & kj & Hdown & Hj' & Hkj & Hcj);
    [lia| |done|done|lia|].
  { intros z Hz. apply Hvalid. lia. }
  rewrite Hdown. cbn [mbind option_bind].
  destruct (Z.leb_spec j' i') as [Hji|Hji].
  { exists keys, values, j'. split; [done|]. split; [done|]. split; [done|]. lia. }
  rewrite (swap_some keys i' j' ki kj Hki Hkj). cbn [mbind option_bind].
  destruct (index_valid values i') as [vi Hvi]; [lia|].
  destruct (index_valid values j') as [vj Hvj]; [lia|].
  rewrite (swap_some values i' j' vi vj Hvi Hvj). cbn [mbind option_bind].
  set (keys' := <[Z.to_nat j' := ki]> (<[Z.to_nat i' := kj]> keys)).
  set (values' := <[Z.to_nat j' := vi]> (<[Z.to_nat i' := vj]> values)).
  assert (Hlk : length keys' = length keys).
  { unfold keys'. by rewrite !length_insert. }
  assert (Hlv : length values' = length keys).
  { unfold values'. by rewrite !length_insert. }
  destruct (IH keys' values' i' j' j' i' ki kj) as (keys2 & values2 & j2 & Hrun & Hk2 & Hv2 & Hj2);
    try lia.
  - unfold keys'. apply index_insert_eq. rewrite length_insert. lia.
  - unfold keys'. rewrite index_insert_ne by lia. apply index_insert_eq. lia.
  - exists keys2, values2, j2. split; [exact Hrun|]. split; [lia|]. split; [lia|done].
Qed.

Lemma sort_returns fuel :
  ∀ (keys : list K) (values : list V) left right,
    0 ≤ left → right < Z.of_nat (length keys) → length values = length keys →
    (Z.to_nat (right - left) ≤ fuel)%nat →
    ∃ keys' values',
      sort_apart compare fuel keys values left right = Some (keys', values')
      ∧ length keys' = length keys ∧ length values' = length keys.
Proof using compare_ok.
  induction fuel as [|fuel IH]; intros keys values left right Hl Hr Hlen Hf.
  { exists keys, values. simpl. rewrite (proj2 (Z.leb_le right left)) by lia. done. }
  cbn [sort_apart]. destruct (Z.leb_spec right left) as [Hle|Hlt].
  { by exists keys, values. }
  assert (Hm : left ≤ Z.shiftr (left + right) 1 < right).
  { rewrite Z.shiftr_div_pow2 by lia. change (2 ^ 1) with 2.
    pose proof (Z.div_mod (left + right) 2 ltac:(lia)).
    pose proof (Z.mod_pos_bound (left + right) 2 ltac:(lia)). lia. }
  destruct (index_valid keys (Z.shiftr (left + right) 1)) as [pivot Hpivot]; [lia|].
  rewrite Hpivot. cbn [mbind option_bind].
  pose proof (compare_refl compare compare_ok pivot) as Hpp.
  destruct (partition_returns (S (S (length keys))) (S (S (length keys))) keys values pivot
              left right (left - 1) (right + 1)
              (Z.shiftr (left + right) 1) (Z.shiftr (left + right) 1) pivot pivot)
    as (keys1 & values1 & j & Hpart & Hk1 & Hv1 & Hj); try lia; try done.
  rewrite Hpart. cbn [mbind option_bind].
  destruct (IH keys1 values1 left j) as (keys2 & values2 & Hs1 & Hk2 & Hv2); try lia.
  rewrite Hs1. cbn [mbind option_bind].
  destruct (IH keys2 values2 (j + 1) right) as (keys3 & values3 & Hs2 & Hk3 & Hv3); try lia.
  exists keys3, values3. split; [exact Hs2|]. split; lia.
Qed.

End SortReturns.

(** ** [markBalance] and [load] *)

Section MarkBalance.

Context {K V : Type}.
#[local] Abbreviation Node := (Node K V).
#[local] Abbreviation AVLTree := (AVLTree K V).
#[local] Abbreviation M := (M K V).
#[local] Abbreviation ptree := (ptree K V).

(** The tree with every balance factor set to the difference of the
    heights. *)
Fixpoint marked (t : ptree) : ptree :=
  match t with
  | PN p l k v _ r => PN p (marked l) k v (theight l - theight r) (marked r)
  | _ => t
  end.

Lemma root_ptr_marked (t : ptree) : root_ptr (marked t) = root_ptr t.
Proof. by destruct t. Qed.

Lemma ptrs_marked (t : ptree) : ptrs (marked t) = ptrs t.
Proof. induction t; simpl; congruence. Qed.

Lemma inorder_marked (t : ptree) : inorder (marked t) = inorder t.
Proof. induction t; simpl; congruence. Qed.

Lemma clean_marked (t : ptree) : clean t → clean (marked t).
Proof. induction t; simpl; tauto. Qed.

Lemma theight_marked (t : ptree) : theight (marked t) = theight t.
Proof. induction t; simpl; congruence. Qed.

Lemma count_marked (t : ptree) : count (marked t) = count t.
Proof. induction t; simpl; congruence. Qed.

Lemma markBalance_tree fuel (h : gmap ptr Node) R sz par (t : ptree) :
  wf h par t → clean t → NoDup (ptrs t) → (depth t ≤ fuel)%nat →
  ∃ h', markBalance fuel (root_ptr t) (mkTree h R sz) = Done (theight t) (mkTree h' R sz)
    ∧ wf h' par (marked t)
    ∧ (∀ x, x ∉ ptrs t → h' !! x = h !! x).
Proof.
  revert fuel h par.
  induction t as [|p l IHl k v b r IHr|]; intros fuel h par Hwf Hcl Hnd Hf; [|..|done].
  { exists h. by destruct fuel. }
  destruct fuel as [|fuel]; [simpl in Hf; lia|].
  destruct Hwf as (Hp & Hl & Hr). destruct Hcl as [Hcl Hcr]. simpl in Hf, Hnd.
  nodup_split.
  cbn [markBalance root_ptr]. mrun.
  destruct (IHl fuel h (Some p) Hl Hcl) as (h1 & Hrun1 & Hwf1 & Hfr1); [done|lia|].
  unfold bind at 1. rewrite Hrun1.
  assert (Hp1 : h1 !! p = Some (mkNode par (root_ptr l) (root_ptr r) b k v)).
  { rewrite Hfr1; [done|]. set_solver. }
  mrun.
  assert (Hr1 : wf h1 (Some p) r).
  { eapply wf_agree; [|exact Hr]. intros x Hx. apply Hfr1. set_solver. }
  destruct (IHr fuel h1 (Some p) Hr1 Hcr) as (h2 & Hrun2 & Hwf2 & Hfr2); [done|lia|].
  unfold bind at 1. rewrite Hrun2.
  assert (Hp2 : h2 !! p = Some (mkNode par (root_ptr l) (root_ptr r) b k v)).
  { rewrite Hfr2; [done|]. set_solver. }
  mrun.
  eexists. split; [f_equal; simpl; lia|]. split.
  - simpl. rewrite lookup_insert_eq, !root_ptr_marked. split; [done|]. split.
    + eapply wf_agree; [|exact Hwf1]. rewrite ptrs_marked. intros x Hx.
      rewrite lookup_insert_ne by set_solver. apply Hfr2. set_solver.
    + eapply wf_agree; [|exact Hwf2]. rewrite ptrs_marked. intros x Hx.
      rewrite lookup_insert_ne by set_solver. done.
  - intros x Hx. simpl in Hx.
    rewrite lookup_insert_ne by set_solver.
    rewrite Hfr2 by set_solver. apply Hfr1. set_solver.
Qed.

End MarkBalance.

Section LoadTree.

Context {K V : Type}.
#[local] Abbreviation Node := (Node K V).
#[local] Abbreviation AVLTree := (AVLTree K V).
#[local] Abbreviation M := (M K V).
#[local] Abbreviation ptree := (ptree K V).

Variable compare : K → K → Z.

(** The pairs that [load] reads from its two arrays: [values[i]] beside
    [keys[i]], [undefined] where [values] is shorter. *)
Definition load_entries (ks : list K) (vs : list V) : list (K * option V) :=
  imap (λ i k, (k, vs !! i)) ks.

Lemma load_entries_segment ks vs : segment ks vs 0 (load_entries ks vs).
Proof.
  split; [done|]. intros i e He. unfold load_entries in He.
  rewrite list_lookup_imap in He. simpl.
  destruct (ks !! i) as [k|]; [|done]. simpl in He. by injection He as <-.
Qed.

Lemma load_entries_length ks vs : length (load_entries ks vs) = length ks.
Proof. unfold load_entries. by rewrite length_imap. Qed.

(** The part of [load] that builds the tree. *)
Lemma load_build ks vs n (h : gmap ptr Node) R :
  n = length ks →
  ∃ st' (t : ptree),
    bind (loadRecursive (S n) None ks vs 0 (Z.of_nat n)) (λ r,
      bind (setRoot r) (λ _, bind getRoot (λ root, bind getFuel (λ fuel,
      bind (markBalance fuel root) (λ _, setSize (Z.of_nat n))))))
      (mkTree h R 0) = Done tt st'
    ∧ Rep st' t ∧ clean t ∧ inorder t = load_entries ks vs
    ∧ _size st' = Z.of_nat n.
Proof.
  intros ->.
  destruct (loadRecursive_tree (S (length ks)) ks vs (load_entries ks vs) 0
              (Z.of_nat (length ks)) None h R 0)
    as (t & h1 & Hrun & Hwf & Hcl & Hnd & Hin & Hfresh & Hframe & _).
  { apply load_entries_segment. }
  { by rewrite load_entries_length. }
  { rewrite load_entries_length. lia. }
  unfold bind at 1. rewrite Hrun. mrun.
  destruct (markBalance_tree (S (size h1)) h1 (root_ptr t) 0 None t Hwf Hcl Hnd)
    as (h2 & Hmark & Hwf2 & _).
  { pose proof (depth_fuel _ _ _ Hwf Hnd). lia. }
  unfold bind at 1. rewrite Hmark. unfold setSize. cbn [heap _root _size].
  eexists _, (marked t). split; [reflexivity|].
  split; [|split; [by apply clean_marked|split; [by rewrite inorder_marked|done]]].
  split; [done|]. split; [by rewrite ptrs_marked|]. simpl. by rewrite root_ptr_marked.
Qed.

(** [load] on the arrays as they are. *)
Lemma load_arrays_unsorted (a : arrays K V) (st : AVLTree) :
  _size st = 0 →
  ∃ st' (t : ptree), load_arrays compare a false st = Done tt st'
    ∧ Rep st' t ∧ clean t ∧ inorder t = load_entries (keysOf a) (valuesOf a)
    ∧ _size st' = Z.of_nat (length (keysOf a)).
Proof.
  destruct st as [h R sz]. simpl. intros ->.
  unfold load_arrays. rewrite run_getSize. change (negb (0 =? 0)) with false. cbv iota.
  rewrite run_ret. by apply load_build.
Qed.

Lemma load_unsorted ks vs (st : AVLTree) :
  _size st = 0 →
  ∃ st' (t : ptree), load compare ks vs false st = Done tt st'
    ∧ Rep st' t ∧ clean t ∧ inorder t = load_entries ks vs
    ∧ _size st' = Z.of_nat (length ks).
Proof. apply (load_arrays_unsorted (Apart ks vs)). Qed.

(** [load] with [presort], on two arrays. *)
Lemma load_presorted ks vs (st : AVLTree) :
  total_order compare → length vs = length ks → _size st = 0 →
  ∃ st' (t : ptree) ks' vs',
    load compare ks vs true st = Done tt st'
    ∧ sort compare (S (length ks)) (Apart ks vs) 0 (Z.of_nat (length ks) - 1)
      = Some (Apart ks' vs')
    ∧ Rep st' t ∧ clean t ∧ inorder t = load_entries ks' vs'
    ∧ _size st' = Z.of_nat (length ks).
Proof.
  intros Hcmp Hlen. destruct st as [h R sz]. simpl. intros ->.
  destruct (sort_returns compare Hcmp (S (length ks)) ks vs 0 (Z.of_nat (length ks) - 1))
    as (ks' & vs' & Hsort & Hk & Hv); [lia|lia|done|lia|].
  assert (Hsort' : sort compare (S (length ks)) (Apart ks vs) 0 (Z.of_nat (length ks) - 1)
                   = Some (Apart ks' vs')) by (by rewrite sort_Apart, Hsort).
  unfold load, load_arrays. rewrite run_getSize. change (negb (0 =? 0)) with false. cbv iota.
  cbn [keysOf]. rewrite Hsort'. cbn [liftOption]. rewrite run_ret. cbn [keysOf valuesOf].
  destruct (load_build ks' vs' (length ks) h R) as (st' & t & Hrun & H); [done|].
  exists st', t, ks', vs'. split; [exact Hrun|]. split; [done|]. exact H.
Qed.

End LoadTree.

(** ** [set] of ascending keys *)

Section Ascending.

Context {K V : Type}.
#[local] Abbreviation Node := (Node K V).
#[local] Abbreviation AVLTree := (AVLTree K V).
#[local] Abbreviation M := (M K V).
#[local] Abbreviation ptree := (ptree K V).

Variable compare : K → K → Z.
Variable noDuplicates : bool.
Hypothesis compare_ok : total_order compare.

(** A key above all the keys of the tree goes to the end of the order. *)
Lemma set_entries_last ins k v (old new : list (K * option V)) :
  set_entries compare noDuplicates ins k v old new →
  Forall (λ e, klt compare e.1 k) old →
  new = old ++ [(k, v)].
Proof using compare_ok.
  unfold set_entries. destruct ins.
  - intros (l1 & l2 & -> & -> & H1 & H2) [_ Hold]%Forall_app.
    destruct l2 as [|e l2]; [by rewrite app_nil_r|]. exfalso.
    apply Forall_cons in H2 as [H2 _]. apply Forall_cons in Hold as [Hold _].
    apply klt_not_kle in Hold; [|done]. apply Hold.
    destruct noDuplicates; [by apply klt_kle|done].
  - intros (_ & l1 & k' & v' & l2 & -> & -> & Hk) [_ Hold]%Forall_app. exfalso.
    apply Forall_cons in Hold as [Hold _]. simpl in Hold.
    pose proof (compare_flip compare compare_ok k k'). unfold klt in Hold. lia.
Qed.

Lemma set_all_ascending sets hist (st : AVLTree) (t : ptree) :
  sorted compare true (hist ++ sets).*1 →
  Inv compare noDuplicates st t → inorder t = hist →
  ∃ st' t', set_all compare noDuplicates sets st = Done tt st'
    ∧ Inv compare noDuplicates st' t' ∧ inorder t' = hist ++ sets.
Proof using compare_ok.
  revert hist st t. induction sets as [|[k v] sets IH]; intros hist st t Hs HI Hin.
  - exists st, t. by rewrite app_nil_r.
  - destruct (set_Inv compare noDuplicates compare_ok k v st t HI)
      as (st1 & t1 & ins & Hrun & HI1 & Hent & _).
    assert (Hnew : inorder t1 = hist ++ [(k, v)]).
    { rewrite <- Hin. eapply set_entries_last; [exact Hent|].
      rewrite Hin. rewrite fmap_app, fmap_cons in Hs.
      apply sorted_app in Hs as (_ & _ & Hl & _); [|done].
      by rewrite Forall_fmap in Hl. }
    destruct (IH (hist ++ [(k, v)]) st1 t1) as (st' & t' & Hrun' & HI' & Hin'); [|done|done|].
    { by rewrite <- app_assoc. }
    exists st', t'. split; [|split; [done|]].
    + simpl. unfold bind. by rewrite Hrun.
    + by rewrite <- app_assoc in Hin'.
Qed.

Lemma load_entries_zip (ks : list K) (vs : list V) :
  length vs = length ks → load_entries ks vs = zip ks (Some <$> vs).
Proof.
  unfold load_entries. revert vs. induction ks as [|k ks IH]; intros vs Hlen; [done|].
  destruct vs as [|v vs]; [done|]. simpl in Hlen. simpl. f_equal.
  rewrite <- IH by lia. by apply imap_ext.
Qed.

End Ascending.

(** ** Deleting every key *)

Section DeleteAll.

Context {K V : Type}.
#[local] Abbreviation Node := (Node K V).
#[local] Abbreviation AVLTree := (AVLTree K V).
#[local] Abbreviation M := (M K V).
#[local] Abbreviation ptree := (ptree K V).

Variable compare : K → K → Z.
Variable noDuplicates : bool.
Hypothesis compare_ok : total_order compare.

(** No two of the keys compare equal. *)
Definition distinct_keys (ks : list K) : Prop :=
  NoDup ks ∧ ∀ a b, a ∈ ks → b ∈ ks → compare a b = 0 → a = b.

Lemma distinct_keys_perm ks ks' : ks ≡ₚ ks' → distinct_keys ks → distinct_keys ks'.
Proof.
  intros Hp [Hnd Heq]. split; [by rewrite <- Hp|].
  intros a b Ha Hb. rewrite <- Hp in Ha, Hb. by apply Heq.
Qed.

Lemma distinct_keys_tail k ks : distinct_keys (k :: ks) → distinct_keys ks.
Proof.
  intros [Hnd Heq]. apply NoDup_cons in Hnd as [_ Hnd]. split; [done|].
  intros a b Ha Hb. apply Heq; apply elem_of_cons; by right.
Qed.

Lemma set_all_keys sets (st : AVLTree) (t : ptree) :
  Inv compare noDuplicates st t → distinct_keys (tkeys t ++ sets.*1) →
  ∃ st' t', set_all compare noDuplicates sets st = Done tt st'
    ∧ Inv compare noDuplicates st' t' ∧ tkeys t' ≡ₚ tkeys t ++ sets.*1.
Proof using compare_ok.
  revert st t. induction sets as [|[k v] sets IH]; intros st t HI Hd.
  { exists st, t. by rewrite app_nil_r. }
  destruct (set_Inv compare noDuplicates compare_ok k v st t HI)
    as (st1 & t1 & ins & Hrun & HI1 & Hent & _).
  assert (Hkeys : tkeys t1 ≡ₚ tkeys t ++ [k]).
  { unfold tkeys, set_entries in *. destruct ins.
    - destruct Hent as (l1 & l2 & -> & -> & _).
      rewrite !fmap_app, fmap_cons, <- app_assoc. f_equiv.
      rewrite <- Permutation_middle. by rewrite Permutation_app_comm.
    - destruct Hent as (_ & l1 & k' & v' & l2 & Hold & _ & Hk). exfalso.
      destruct Hd as [Hnd Heq]. rewrite Hold in Hnd, Heq.
      rewrite fmap_app, !fmap_cons in Hnd, Heq. simpl in Hnd, Heq.
      assert (k = k') as <-.
      { apply Heq; [|rewrite !elem_of_app, !elem_of_cons; tauto|done].
        rewrite elem_of_app, elem_of_cons. tauto. }
      apply NoDup_app in Hnd as (_ & Hdis & _). apply (Hdis k).
      + rewrite elem_of_app, elem_of_cons. tauto.
      + apply elem_of_cons. tauto. }
  destruct (IH st1 t1 HI1) as (st' & t' & Hrun' & HI' & Hkeys').
  { eapply distinct_keys_perm; [|exact Hd]. rewrite Hkeys. simpl.
    by rewrite <- app_assoc. }
  exists st', t'. split; [|split; [done|]].
  - simpl. unfold bind. by rewrite Hrun.
  - rewrite Hkeys', Hkeys. simpl. by rewrite <- app_assoc.
Qed.

Variable falsy : K → bool.

(** [delete] for every key, in order. *)
Fixpoint delete_all (ks : list K) : M unit :=
  match ks with
  | [] => ret tt
  | k :: ks => bind (delete compare falsy k) (λ _, delete_all ks)
  end.

Lemma delete_all_keys ks rest (st : AVLTree) (t : ptree) :
  Inv compare noDuplicates st t → tkeys t ≡ₚ ks ++ rest → distinct_keys (ks ++ rest) →
  Forall (λ k, falsy k = false) ks →
  ∃ st' t', delete_all ks st = Done tt st'
    ∧ Inv compare noDuplicates st' t' ∧ tkeys t' ≡ₚ rest.
Proof using compare_ok.
  revert st t. induction ks as [|k ks IH]; intros st t HI Hkeys Hd Hf.
  { by exists st, t. }
  apply Forall_cons in Hf as [Hk Hf].
  assert (Hin : k ∈ tkeys t) by (rewrite Hkeys; apply elem_of_cons; tauto).
  destruct (delete_present compare falsy noDuplicates compare_ok k st t HI Hk)
    as (st1 & t1 & Hrun & HI1 & Hent & _).
  { unfold tkeys in Hin. apply list_elem_of_fmap in Hin as (e & -> & He).
    apply Exists_exists. exists e. split; [done|]. by apply compare_refl. }
  assert (Hkeys1 : tkeys t1 ≡ₚ ks ++ rest).
  { destruct Hent as (l1 & k' & v' & l2 & Hold & Hnew & Hkk).
    unfold tkeys in *. rewrite Hold in Hkeys, Hin. rewrite Hnew.
    rewrite fmap_app, fmap_cons in Hkeys, Hin. simpl in Hkeys, Hin.
    assert (k = k') as <-.
    { destruct Hd as [_ Heq]. apply Heq; [apply elem_of_cons; tauto| |done].
      rewrite <- Hkeys. rewrite elem_of_app, elem_of_cons. tauto. }
    rewrite <- Permutation_middle in Hkeys. simpl in Hkeys.
    apply Permutation_cons_inv in Hkeys. by rewrite fmap_app. }
  destruct (IH st1 t1 HI1 Hkeys1) as (st' & t' & Hrun' & HI' & Hkeys'); [|done|].
  { by eapply distinct_keys_tail. }
  exists st', t'. split; [|done]. simpl. unfold bind. by rewrite Hrun.
Qed.

(** Keys that are not falsy: inserting all of them and deleting each of
    them once, in any order, leaves the tree empty. *)
Lemma set_all_delete_all sets ks :
  distinct_keys sets.*1 → ks ≡ₚ sets.*1 → Forall (λ k, falsy k = false) ks →
  ∃ st1 st2 : AVLTree,
    set_all compare noDuplicates sets empty = Done tt st1
    ∧ delete_all ks st1 = Done tt st2
    ∧ _size st2 = 0 ∧ _root st2 = None.
Proof using compare_ok.
  intros Hd Hp Hf.
  destruct (set_all_keys sets empty PE) as (st1 & t1 & Hrun1 & HI1 & Hkeys1);
    [apply Inv_empty|done|].
  simpl in Hkeys1.
  destruct (delete_all_keys ks [] st1 t1 HI1) as (st2 & t2 & Hrun2 & HI2 & Hkeys2).
  { by rewrite app_nil_r, Hkeys1, Hp. }
  { rewrite app_nil_r. eapply distinct_keys_perm; [|exact Hd]. done. }
  { done. }
  exists st1, st2. split; [done|]. split; [done|].
  apply Permutation_nil_r in Hkeys2.
  destruct HI2 as [(_ & _ & Hroot) Hcl _ _ Hsize].
  destruct t2 as [|p l k v b r|]; [done| |done].
  unfold tkeys in Hkeys2. simpl in Hkeys2. rewrite fmap_app in Hkeys2.
  by apply app_eq_nil in Hkeys2 as [_ ?].
Qed.

End DeleteAll.

(** * More of the code: properties of the operations *)

(** ** Keys in order, and the two ends *)

Section KeysOrder.

Context {K V : Type}.
#[local] Abbreviation Node := (Node K V).
#[local] Abbreviation AVLTree := (AVLTree K V).
#[local] Abbreviation M := (M K V).
#[local] Abbreviation ptree := (ptree K V).

Variable compare : K → K → Z.
Hypothesis compare_ok : total_order compare.

Lemma sorted_to_weak strict (l : list K) : sorted compare strict l → sorted compare false l.
Proof. destruct strict; [apply sorted_weaken|done]. Qed.

Lemma sorted_head_least strict (l : list K) lo :
  sorted compare strict l → head l = Some lo → Forall (λ k, compare lo k ≤ 0) l.
Proof using compare_ok.
  destruct l as [|x l]; [done|]. intros Hs [= ->].
  apply sorted_to_weak in Hs.
  unfold sorted in Hs. apply StronglySorted_cons in Hs as [Hx _].
  constructor; [by rewrite (compare_refl compare compare_ok)|exact Hx].
Qed.

Lemma sorted_last_greatest strict (l : list K) hi :
  sorted compare strict l → last l = Some hi → Forall (λ k, compare k hi ≤ 0) l.
Proof using compare_ok.
  intros Hs (l' & ->)%last_Some. apply sorted_to_weak in Hs.
  unfold sorted in Hs. apply StronglySorted_app in Hs as (Hx & _ & _).
  apply Forall_app. split.
  - apply Forall_forall. intros k Hk. apply Hx; [done|]. by apply list_elem_of_singleton.
  - constructor; [|done]. by rewrite (compare_refl compare compare_ok).
Qed.

Lemma head_tkeys (t : ptree) : head (tkeys t) = fst <$> head (inorder t).
Proof. unfold tkeys. by destruct (inorder t). Qed.

Lemma last_tkeys (t : ptree) : last (tkeys t) = fst <$> last (inorder t).
Proof. unfold tkeys. apply fmap_last. Qed.

Lemma length_tkeys (t : ptree) : Z.of_nat (length (tkeys t)) = count t.
Proof. unfold tkeys. by rewrite length_fmap, count_inorder. Qed.

End KeysOrder.

(** ** Lookups before and after an update *)

Section LookupUpdate.

Context {K V : Type}.
#[local] Abbreviation Node := (Node K V).
#[local] Abbreviation AVLTree := (AVLTree K V).
#[local] Abbreviation M := (M K V).
#[local] Abbreviation ptree := (ptree K V).

Variable compare : K → K → Z.
Hypothesis compare_ok : total_order compare.

Lemma compare_eq_trans' a b c : compare a b = 0 → compare b c = 0 → compare a c = 0.
Proof using compare_ok.
  intros Hab Hbc. pose proof (compare_eq_l compare compare_ok a b c Hab). lia.
Qed.

Lemma compare_eq_sym' a b : compare a b = 0 → compare b a = 0.
Proof using compare_ok. intros Hab. pose proof (compare_flip compare compare_ok a b). lia. Qed.

(** [has] sees the same keys in two trees with the same matching entries. *)
Lemma tfind_is_Some_iff k (t : ptree) :
  sorted compare false (tkeys t) →
  is_Some (tfind compare k t) ↔ present compare k (inorder t).
Proof using compare_ok.
  intros Hs. split.
  - intros [e [He Hk]%tfind_Some]. apply Exists_exists. eauto.
  - by apply tfind_present.
Qed.

(** When duplicates are rejected [get] finds the one entry that matches. *)
Lemma tfind_unique k (t : ptree) e :
  sorted compare true (tkeys t) → e ∈ inorder t → compare k e.1 = 0 →
  tfind compare k t = Some e.
Proof using compare_ok.
  intros Hs He Hk.
  destruct (tfind_present compare compare_ok k t) as [e' He'].
  { by apply sorted_weaken. }
  { apply Exists_exists. eauto. }
  rewrite He'. f_equal. apply tfind_Some in He' as [Hin' Hk'].
  by eapply (sorted_unique compare compare_ok k (inorder t)).
Qed.

Lemma tfind_same k (t t' : ptree) :
  sorted compare true (tkeys t) → sorted compare true (tkeys t') →
  (∀ e, compare k e.1 = 0 → e ∈ inorder t ↔ e ∈ inorder t') →
  tfind compare k t = tfind compare k t'.
Proof using compare_ok.
  intros Hs Hs' Hiff. destruct (tfind compare k t) as [e|] eqn:Hfind.
  - apply tfind_Some in Hfind as [He Hk]. symmetry. apply tfind_unique; [done| |done].
    by apply Hiff.
  - destruct (tfind compare k t') as [e'|] eqn:Hfind'; [|done].
    apply tfind_Some in Hfind' as [He Hk]. apply Hiff in He; [|done].
    apply (tfind_None compare compare_ok k t) in Hfind; [|by apply sorted_weaken].
    rewrite Forall_forall in Hfind. by destruct (Hfind e' He).
Qed.

Lemma present_same k (l l' : list (K * option V)) :
  (∀ e, compare k e.1 = 0 → e ∈ l ↔ e ∈ l') →
  present compare k l ↔ present compare k l'.
Proof.
  intros Hiff. unfold present. rewrite !Exists_exists.
  split; intros (e & He & Hk); exists e; (split; [by apply Hiff|done]).
Qed.

(** The entries that match another key are the same before and after
    [set]. *)
Lemma set_entries_other strict ins k v (old new : list (K * option V)) k' e :
  set_entries compare strict ins k v old new →
  compare k' k ≠ 0 → compare k' e.1 = 0 → e ∈ old ↔ e ∈ new.
Proof using compare_ok.
  unfold set_entries. intros Hent Hne Hk'. destruct ins.
  - destruct Hent as (l1 & l2 & -> & -> & _).
    rewrite !elem_of_app, elem_of_cons. split; [tauto|].
    intros [?|[->|?]]; [tauto| |tauto]. simpl in Hk'. done.
  - destruct Hent as (_ & l1 & k0 & v0 & l2 & -> & -> & Hk0).
    rewrite !elem_of_app, !elem_of_cons.
    assert (Hne0 : compare k' k0 ≠ 0).
    { intros H0. apply Hne. eapply compare_eq_trans'; [exact H0|by apply compare_eq_sym']. }
    split; (intros [?|[->|?]]; [tauto| |tauto]); simpl in Hk'; done.
Qed.

(** The entry that matches the key after [set]. *)
Lemma set_entries_key strict ins k v (old new : list (K * option V)) :
  set_entries compare strict ins k v old new →
  ∃ k0, (k0, v) ∈ new ∧ compare k k0 = 0.
Proof using compare_ok.
  unfold set_entries. destruct ins.
  - intros (l1 & l2 & -> & -> & _). exists k. split; [|by apply compare_refl].
    rewrite elem_of_app, elem_of_cons. tauto.
  - intros (_ & l1 & k0 & v0 & l2 & -> & -> & Hk0). exists k0. split; [|done].
    rewrite elem_of_app, elem_of_cons. tauto.
Qed.

(** A node is added unless the tree rejects duplicates and holds the key. *)
Lemma set_entries_ins strict ins k v (old new : list (K * option V)) :
  set_entries compare strict ins k v old new →
  ins = negb (strict && bool_decide (present compare k old)).
Proof using compare_ok.
  unfold set_entries. destruct ins.
  - intros (l1 & l2 & -> & -> & H1 & H2). destruct strict; [|done]. simpl.
    rewrite bool_decide_false; [done|].
    intros (e & [He|He]%elem_of_app & Hk)%Exists_exists.
    + rewrite Forall_forall in H1. specialize (H1 e He).
      pose proof (compare_flip compare compare_ok k e.1). unfold klt in H1. lia.
    + rewrite Forall_forall in H2. specialize (H2 e He). unfold klt in H2. lia.
  - intros (-> & l1 & k0 & v0 & l2 & -> & -> & Hk0). simpl.
    rewrite bool_decide_true; [done|].
    apply Exists_exists. exists (k0, v0). split; [|done].
    rewrite elem_of_app, elem_of_cons. tauto.
Qed.

(** The entries that match another key are the same before and after
    [delete]. *)
Lemma delete_entries_other k (old new : list (K * option V)) k' e :
  delete_entries compare k old new →
  compare k' k ≠ 0 → compare k' e.1 = 0 → e ∈ old ↔ e ∈ new.
Proof using compare_ok.
  intros (l1 & k0 & v0 & l2 & -> & -> & Hk0) Hne Hk'.
  rewrite !elem_of_app, elem_of_cons. split; [|tauto].
  intros [?|[->|?]]; [tauto| |tauto]. simpl in Hk'. exfalso. apply Hne.
  eapply compare_eq_trans'; [exact Hk'|by apply compare_eq_sym'].
Qed.

(** When duplicates are rejected the key is gone after [delete]. *)
Lemma delete_entries_gone k (old new : list (K * option V)) :
  delete_entries compare k old new → sorted compare true old.*1 →
  ¬ present compare k new.
Proof using compare_ok.
  intros (l1 & k0 & v0 & l2 & -> & -> & Hk0) Hs.
  rewrite fmap_app, fmap_cons in Hs. apply sorted_app in Hs as (_ & _ & H1 & H2); [|done].
  rewrite Forall_fmap, Forall_forall in H1, H2. simpl in H1, H2.
  intros (e & [He|He]%elem_of_app & Hk)%Exists_exists.
  - specialize (H1 e He). simpl in H1.
    pose proof (compare_eq_trans' _ _ _ (compare_eq_sym' _ _ Hk) Hk0). unfold klt in H1. lia.
  - specialize (H2 e He). simpl in H2.
    pose proof (compare_eq_trans' _ _ _ (compare_eq_sym' _ _ Hk0) Hk). unfold klt in H2. lia.
Qed.

(** The first and the last entry, when duplicates are rejected. *)
Lemma delete_entries_head k v (rest new : list (K * option V)) :
  delete_entries compare k ((k, v) :: rest) new → sorted compare true ((k, v) :: rest).*1 →
  new = rest.
Proof using compare_ok.
  intros (l1 & k0 & v0 & l2 & Hold & -> & Hk0) Hs.
  destruct l1 as [|x l1]; simpl in Hold.
  - by injection Hold as _ _ <-.
  - injection Hold as <- ->. exfalso. rewrite fmap_cons in Hs.
    unfold sorted in Hs. apply StronglySorted_cons in Hs as [Hx _].
    rewrite Forall_fmap, Forall_forall in Hx.
    assert (Hlt : klt compare k (k0, v0).1).
    { apply Hx. rewrite elem_of_app, elem_of_cons. tauto. }
    simpl in Hlt. unfold klt in Hlt. lia.
Qed.

Lemma delete_entries_last k v (init new : list (K * option V)) :
  delete_entries compare k (init ++ [(k, v)]) new →
  sorted compare true (init ++ [(k, v)]).*1 →
  new = init.
Proof using compare_ok.
  intros (l1 & k0 & v0 & l2 & Hold & -> & Hk0) Hs.
  destruct l2 as [|x l2 _] using rev_ind.
  - apply app_inj_tail in Hold as [<- _]. by rewrite app_nil_r.
  - exfalso.
    change (l1 ++ (k0, v0) :: l2 ++ [x]) with (l1 ++ ((k0, v0) :: l2) ++ [x]) in Hold.
    rewrite app_assoc in Hold. apply app_inj_tail in Hold as [-> <-].
    rewrite !fmap_app, fmap_cons in Hs.
    rewrite <- app_assoc in Hs. simpl in Hs.
    apply sorted_app in Hs as (_ & _ & _ & H2); [|done].
    apply Forall_app in H2 as [_ H2]. apply Forall_cons in H2 as [H2 _].
    simpl in H2. pose proof (compare_flip compare compare_ok k k0). unfold klt in H2. lia.
Qed.

End LookupUpdate.

(** ** [forEach] *)

Section ForEach.

Context {K V : Type}.
#[local] Abbreviation Node := (Node K V).
#[local] Abbreviation AVLTree := (AVLTree K V).
#[local] Abbreviation M := (M K V).
#[local] Abbreviation ptree := (ptree K V).

(** The loop of [forEach] over the nodes in order, for a callback that
    computes [f node i acc]: [inl] when the callback ends it, [inr] with the
    next index when it goes on. *)
Fixpoint forEach_walk {A} (f : ptr → Z → A → bool * A) (l : list ptr) (i : Z) (acc : A)
    : A + Z * A :=
  match l with
  | [] => inr (i, acc)
  | p :: l =>
    let '(done, acc) := f p i acc in
    if done : bool then inl acc else forEach_walk f l (i + 1) acc
  end.

Definition forEach_outcome {A} (r : A + Z * A) : A :=
  match r with inl a => a | inr (_, a) => a end.

Lemma forEach_walk_app {A} (f : ptr → Z → A → bool * A) l1 l2 i acc :
  forEach_walk f (l1 ++ l2) i acc
  = match forEach_walk f l1 i acc with
    | inl a => inl a
    | inr (j, a) => forEach_walk f l2 j a
    end.
Proof.
  revert i acc. induction l1 as [|p l1 IH]; intros i acc; simpl; [done|].
  destruct (f p i acc) as [[] a]; [done|apply IH].
Qed.

Lemma forEach_loop_walk {A} (f : ptr → Z → A → bool * A)
    (callback : ptr → Z → A → M (bool * A)) (h : gmap ptr Node) R sz (t : ptree) par :
  (∀ p i a, callback p i a (mkTree h R sz) = Done (f p i a) (mkTree h R sz)) →
  wf h par t → clean t →
  ∀ s i acc fuel,
    match forEach_walk f (nodes t) i acc with
    | inl a =>
      forEach_loop (2 * tsize t + fuel) callback (root_ptr t) s i acc (mkTree h R sz)
      = Done a (mkTree h R sz)
    | inr (j, a) =>
      ∀ res,
        forEach_loop fuel callback None s j a (mkTree h R sz) = Done res (mkTree h R sz) →
        forEach_loop (2 * tsize t + fuel) callback (root_ptr t) s i acc (mkTree h R sz)
        = Done res (mkTree h R sz)
    end.
Proof.
  intros Hcb. revert par.
  induction t as [|p l IHl k v b r IHr|]; intros par Hwf Hcl s i acc fuel; [by simpl| |done].
  destruct Hwf as (Hp & Hl & Hr). destruct Hcl as [Hcl Hcr].
  cbn [tsize root_ptr nodes].
  replace (2 * S (tsize l + tsize r) + fuel)%nat
    with (S (2 * tsize l + S (2 * tsize r + fuel)))%nat by lia.
  rewrite forEach_walk_app.
  specialize (IHl (Some p) Hl Hcl (p :: s) i acc (S (2 * tsize r + fuel))%nat).
  cbn [forEach_loop]. mrun.
  destruct (forEach_walk f (nodes l) i acc) as [a|[j a]]; [exact IHl|].
  cbn [forEach_walk].
  destruct (f p j a) as [done a'] eqn:Hf.
  specialize (IHr (Some p) Hr Hcr s (j + 1) a' fuel).
  destruct done.
  - apply IHl. cbn [forEach_loop]. unfold bind at 1. rewrite Hcb, Hf. mrun. done.
  - destruct (forEach_walk f (nodes r) (j + 1) a') as [a2|[j2 a2]].
    + apply IHl. cbn [forEach_loop]. unfold bind at 1. rewrite Hcb, Hf. mrun. exact IHr.
    + intros res Hres. apply IHl. cbn [forEach_loop]. unfold bind at 1. rewrite Hcb, Hf.
      mrun. by apply IHr.
Qed.

Lemma forEach_tree {A} (f : ptr → Z → A → bool * A)
    (callback : ptr → Z → A → M (bool * A)) (acc : A) (st : AVLTree) (t : ptree) :
  (∀ p i a, callback p i a st = Done (f p i a) st) →
  Rep st t → clean t →
  forEach callback acc st = Done (forEach_outcome (forEach_walk f (nodes t) 0 acc)) st.
Proof.
  intros Hcb Hrep Hcl. destruct (tsize_fuel st t Hrep) as (fuel & Hfuel).
  destruct st as [h R sz]. destruct Hrep as (Hwf & Hnd & HR). cbn [heap _root] in *. subst R.
  unfold forEach. rewrite run_getRoot. unfold getFuel2.
  rewrite run_assoc, run_getFuel, run_ret. rewrite Hfuel.
  pose proof (forEach_loop_walk f callback h (root_ptr t) sz t None Hcb Hwf Hcl [] 0 acc (S fuel))
    as Hwalk.
  destruct (forEach_walk f (nodes t) 0 acc) as [a|[j a]]; [exact Hwalk|].
  by apply Hwalk.
Qed.

(** The object of a node holds its key. *)
Lemma pkeys_cell (h : gmap ptr Node) par (t : ptree) i p k :
  wf h par t → pkeys t !! i = Some (p, k) → ∃ n, h !! p = Some n ∧ key n = k.
Proof.
  revert par i. induction t as [|q l IHl k' v b r IHr|]; intros par i; [done| |done].
  intros (Hq & Hl & Hr). simpl.
  intros [Hi|[Hlen Hi]]%lookup_app_Some; [by eapply IHl|].
  destruct (i - length (pkeys l))%nat as [|j]; simpl in Hi.
  - injection Hi as <- <-. eauto.
  - by eapply IHr.
Qed.

(** The i-th node in order holds the i-th key. *)
Lemma nodes_hold_keys (st : AVLTree) (t : ptree) :
  Rep st t →
  length (nodes t) = length (tkeys t)
  ∧ ∀ i p, nodes t !! i = Some p → ∃ n, heap st !! p = Some n ∧ tkeys t !! i = Some (key n).
Proof.
  intros (Hwf & _ & _). split; [by rewrite <- pkeys_nodes, <- pkeys_keys, !length_fmap|].
  intros i p Hp. rewrite <- pkeys_nodes in Hp. rewrite <- pkeys_keys.
  rewrite list_lookup_fmap in Hp. rewrite list_lookup_fmap.
  destruct (pkeys t !! i) as [[p' k]|] eqn:Hpk; [|done]. simpl in Hp. injection Hp as ->.
  destruct (pkeys_cell _ _ _ _ _ _ Hwf Hpk) as (n & Hn & <-). by exists n.
Qed.

End ForEach.

(** ** Balance *)

Section BalancedAvl.

Context {K V : Type}.
#[local] Abbreviation ptree := (ptree K V).

Lemma avl_balanced (t : ptree) : avl t → balanced t = true.
Proof.
  induction t as [|p l IHl k v b r IHr|]; simpl; [done| |done].
  intros (Hb & Hrange & Hl & Hr). rewrite IHl, IHr by done.
  destruct (Z.leb_spec (Z.abs (theight l - theight r)) 1); [done|lia].
Qed.

End BalancedAvl.

(** ** [next] and [prev] *)

Section NeighboursTree.

Context {K V : Type}.
#[local] Abbreviation Node := (Node K V).
#[local] Abbreviation AVLTree := (AVLTree K V).
#[local] Abbreviation M := (M K V).
#[local] Abbreviation ptree := (ptree K V).
#[local] Abbreviation frame := (@frame K V).

(** The nodes before and after the hole of a context, in order. *)
Fixpoint nodes_before (ctx : list frame) : list ptr :=
  match ctx with
  | [] => []
  | FL _ _ _ _ _ :: ctx => nodes_before ctx
  | FR p l _ _ _ :: ctx => nodes_before ctx ++ nodes l ++ [p]
  end.

Fixpoint nodes_after (ctx : list frame) : list ptr :=
  match ctx with
  | [] => []
  | FL p _ _ _ r :: ctx => p :: nodes r ++ nodes_after ctx
  | FR _ _ _ _ _ :: ctx => nodes_after ctx
  end.

Lemma nodes_plug (ctx : list frame) (t : ptree) :
  nodes (plug ctx t) = nodes_before ctx ++ nodes t ++ nodes_after ctx.
Proof.
  revert t. induction ctx as [|f ctx IH]; intros t; simpl.
  - by rewrite app_nil_r.
  - rewrite IH. destruct f; simpl; by rewrite <- ?app_assoc.
Qed.

Lemma nodes_ptrs (t : ptree) x : x ∈ nodes t → x ∈ ptrs t.
Proof.
  induction t as [|p l IHl k v b r IHr|]; simpl; [done| |by intros ?%elem_of_nil].
  rewrite elem_of_app, !elem_of_cons, elem_of_app. naive_solver.
Qed.

Lemma nodes_NoDup (t : ptree) : NoDup (ptrs t) → NoDup (nodes t).
Proof.
  induction t as [|p l IHl k v b r IHr|]; simpl; [done| |constructor].
  rewrite NoDup_cons, NoDup_app. intros (Hp & Hl & Hlr & Hr).
  rewrite elem_of_app in Hp.
  apply NoDup_app. split; [by apply IHl|]. split.
  - intros x Hx. rewrite elem_of_cons. intros [->|Hxr].
    + apply Hp. left. by apply nodes_ptrs.
    + apply (Hlr x); by apply nodes_ptrs.
  - apply NoDup_cons. split; [|by apply IHr].
    intros Hx. apply Hp. right. by apply nodes_ptrs.
Qed.

Lemma focus_node (t : ptree) x :
  x ∈ nodes t → ∃ ctx l k v b r, t = plug ctx (PN x l k v b r).
Proof.
  induction t as [|p l IHl k v b r IHr|]; simpl; [by intros ?%elem_of_nil| |by intros ?%elem_of_nil].
  rewrite elem_of_app, elem_of_cons. intros [Hx|[->|Hx]].
  - destruct (IHl Hx) as (ctx & l' & k' & v' & b' & r' & ->).
    exists (ctx ++ [FL p k v b r]), l', k', v', b', r'. by rewrite plug_app.
  - by exists [], l, k, v, b, r.
  - destruct (IHr Hx) as (ctx & l' & k' & v' & b' & r' & ->).
    exists (ctx ++ [FR p l k v b]), l', k', v', b', r'. by rewrite plug_app.
Qed.

Lemma split_unique {A} (l1 l2 l1' l2' : list A) x :
  NoDup (l1 ++ x :: l2) → l1 ++ x :: l2 = l1' ++ x :: l2' → l1 = l1' ∧ l2 = l2'.
Proof.
  revert l1'. induction l1 as [|a l1 IH]; intros l1' Hnd Heq.
  - destruct l1' as [|a' l1']; simpl in *; [by simplify_eq|].
    simplify_eq. apply NoDup_cons in Hnd as [Hx _].
    exfalso. apply Hx. rewrite elem_of_app, elem_of_cons. tauto.
  - destruct l1' as [|a' l1']; simpl in *; simplify_eq.
    + apply NoDup_cons in Hnd as [Hx _].
      exfalso. apply Hx. rewrite elem_of_app, elem_of_cons. tauto.
    + apply NoDup_cons in Hnd as [_ Hnd]. destruct (IH l1' Hnd) as [-> ->]; done.
Qed.

Lemma next_climb_tree (h : gmap ptr Node) R sz (ctx : list frame) :
  ∀ (t : ptree) c fuel,
    wf h None (plug ctx t) → NoDup (ptrs (plug ctx t)) → root_ptr t = Some c →
    (length ctx ≤ fuel)%nat →
    next_climb fuel c (ctx_top ctx) (mkTree h R sz)
    = Done (head (nodes_after ctx)) (mkTree h R sz).
Proof.
  induction ctx as [|f ctx IH]; intros t c fuel Hwf Hnd Hc Hfuel; [by destruct fuel|].
  pose proof Hwf as Hwf'. apply wf_plug in Hwf' as [Hctx _].
  apply wf_ctx_cons in Hctx. rewrite Hc in Hctx.
  destruct fuel as [|fuel]; [simpl in Hfuel; lia|].
  destruct f as [p k v b r|p l k v b]; cbn [ctx_top frame_ptr next_climb nodes_after].
  - destruct Hctx as [Hp _]. cbn [frame_ptr frame_cell] in Hp. mrun.
    unfold same. rewrite bool_decide_eq_false_2; [done|].
    intros Hr. rewrite ptrs_plug in Hnd. apply NoDup_app in Hnd as (_ & Hdis & _).
    apply (Hdis c); [by apply root_ptr_in|].
    simpl. rewrite elem_of_cons, elem_of_app. right; left. by apply root_ptr_in.
  - destruct Hctx as [Hp _]. cbn [frame_ptr frame_cell] in Hp. mrun.
    unfold same. rewrite bool_decide_eq_true_2 by done.
    mrun.
    apply (IH (PN p l k v b t) p fuel); [done|done|done|simpl in Hfuel; lia].
Qed.

Lemma prev_climb_tree (h : gmap ptr Node) R sz (ctx : list frame) :
  ∀ (t : ptree) c fuel,
    wf h None (plug ctx t) → NoDup (ptrs (plug ctx t)) → root_ptr t = Some c →
    (length ctx ≤ fuel)%nat →
    prev_climb fuel c (ctx_top ctx) (mkTree h R sz)
    = Done (last (nodes_before ctx)) (mkTree h R sz).
Proof.
  induction ctx as [|f ctx IH]; intros t c fuel Hwf Hnd Hc Hfuel; [by destruct fuel|].
  pose proof Hwf as Hwf'. apply wf_plug in Hwf' as [Hctx _].
  apply wf_ctx_cons in Hctx. rewrite Hc in Hctx.
  destruct fuel as [|fuel]; [simpl in Hfuel; lia|].
  destruct f as [p k v b r|p l k v b]; cbn [ctx_top frame_ptr prev_climb nodes_before].
  - destruct Hctx as [Hp _]. cbn [frame_ptr frame_cell] in Hp. mrun.
    unfold same. rewrite bool_decide_eq_true_2 by done.
    mrun.
    apply (IH (PN p t k v b r) p fuel); [done|done|done|simpl in Hfuel; lia].
  - destruct Hctx as [Hp _]. cbn [frame_ptr frame_cell] in Hp. mrun.
    unfold same. rewrite bool_decide_eq_false_2.
    + by rewrite !app_assoc, last_snoc.
    + intros Hl. rewrite ptrs_plug in Hnd. apply NoDup_app in Hnd as (_ & Hdis & _).
      apply (Hdis c); [by apply root_ptr_in|].
      simpl. rewrite elem_of_cons, elem_of_app. right; left. by apply root_ptr_in.
Qed.

Lemma child_NoDup (ctx : list frame) p (l r : ptree) k v b :
  NoDup (ptrs (plug ctx (PN p l k v b r))) → NoDup (ptrs l) ∧ NoDup (ptrs r).
Proof.
  rewrite ptrs_plug. intros (Hnd & _ & _)%NoDup_app.
  simpl in Hnd. apply NoDup_cons in Hnd as [_ Hnd].
  apply NoDup_app in Hnd as (? & _ & ?). done.
Qed.

Lemma next_tree (st : AVLTree) (t : ptree) l1 p l2 :
  Rep st t → clean t → nodes t = l1 ++ p :: l2 →
  next (Some p) st = Done (head l2) st.
Proof.
  destruct st as [h R sz]. intros (Hwf & Hnd & _) Hcl Hsplit.
  destruct (focus_node t p) as (ctx & l & k & v & b & r & ->).
  { rewrite Hsplit, elem_of_app, elem_of_cons. tauto. }
  pose proof (nodes_NoDup _ Hnd) as Hnd'. rewrite nodes_plug in Hsplit, Hnd'.
  cbn [nodes] in Hsplit, Hnd'. rewrite <- app_assoc in Hsplit, Hnd'.
  rewrite app_assoc in Hsplit, Hnd'. cbn [app] in Hsplit, Hnd'.
  destruct (split_unique _ _ _ _ _ Hnd' Hsplit) as [_ <-].
  cbn [heap _root] in *.
  pose proof Hwf as Hwf'. apply wf_plug in Hwf' as [_ (Hp & Hl & Hr)].
  apply clean_plug in Hcl. destruct Hcl as [_ Hcr].
  destruct (child_NoDup _ _ _ _ _ _ _ Hnd) as [_ Hndr].
  unfold next. mrun.
  destruct (root_ptr r) as [rp|] eqn:Hrp.
  - rewrite run_getFuel.
    destruct (leftmost_tree (Datatypes.S (size h)) h R sz (Some p) r rp Hr Hrp)
      as (m & Hm & Hrun).
    { pose proof (depth_fuel _ _ _ Hr Hndr). lia. }
    unfold bind. rewrite Hrun.
    destruct (leftmost_cell h (Some p) r m Hr Hcr Hm) as (n & _ & _ & Hhd).
    unfold ret. f_equal. destruct (nodes r); simpl in *; by simplify_eq.
  - destruct r; [|done|done]. mrun.
    apply (next_climb_tree h R sz ctx (PN p l k v b PE) p); [done|done|done|].
    pose proof (ctx_fuel _ _ _ Hwf Hnd). lia.
Qed.

Lemma prev_tree (st : AVLTree) (t : ptree) l1 p l2 :
  Rep st t → clean t → nodes t = l1 ++ p :: l2 →
  prev (Some p) st = Done (last l1) st.
Proof.
  destruct st as [h R sz]. intros (Hwf & Hnd & _) Hcl Hsplit.
  destruct (focus_node t p) as (ctx & l & k & v & b & r & ->).
  { rewrite Hsplit, elem_of_app, elem_of_cons. tauto. }
  pose proof (nodes_NoDup _ Hnd) as Hnd'. rewrite nodes_plug in Hsplit, Hnd'.
  cbn [nodes] in Hsplit, Hnd'. rewrite <- app_assoc in Hsplit, Hnd'.
  rewrite app_assoc in Hsplit, Hnd'. cbn [app] in Hsplit, Hnd'.
  destruct (split_unique _ _ _ _ _ Hnd' Hsplit) as [<- _].
  cbn [heap _root] in *.
  pose proof Hwf as Hwf'. apply wf_plug in Hwf' as [_ (Hp & Hl & Hr)].
  apply clean_plug in Hcl. destruct Hcl as [Hcll _].
  destruct (child_NoDup _ _ _ _ _ _ _ Hnd) as [Hndl _].
  unfold prev. mrun.
  destruct (root_ptr l) as [lp|] eqn:Hlp.
  - rewrite run_getFuel.
    destruct (rightmost_tree (Datatypes.S (size h)) h R sz (Some p) l lp Hl Hlp)
      as (m & Hm & Hrun).
    { pose proof (depth_fuel _ _ _ Hl Hndl). lia. }
    unfold bind. rewrite Hrun.
    destruct (rightmost_cell h (Some p) l m Hl Hcll Hm) as (n & _ & _ & Hhd).
    unfold ret. f_equal. by rewrite last_app, Hhd.
  - destruct l; [|done|done]. mrun. cbn [nodes]. rewrite app_nil_r.
    apply (prev_climb_tree h R sz ctx (PN p PE k v b r) p); [done|done|done|].
    pose proof (ctx_fuel _ _ _ Hwf Hnd). lia.
Qed.

End NeighboursTree.

(** ** The tree that [load] builds is balanced *)

Section LoadShape.

Context {K V : Type}.
#[local] Abbreviation Node := (Node K V).
#[local] Abbreviation AVLTree := (AVLTree K V).
#[local] Abbreviation M := (M K V).
#[local] Abbreviation ptree := (ptree K V).

(** The number of binary digits of [n]. *)
Definition bitlen (n : Z) : Z := if n =? 0 then 0 else Z.log2 n + 1.

Lemma bitlen_half n : 0 < n → 1 + bitlen (n / 2) = bitlen n.
Proof.
  intros Hn. unfold bitlen.
  destruct (Z.eqb_spec n 0); [lia|].
  pose proof (Z.div_mod n 2 ltac:(lia)) as Hdm.
  pose proof (Z.mod_pos_bound n 2 ltac:(lia)) as Hm.
  destruct (Z.eqb_spec (n / 2) 0) as [H0|H0].
  - assert (n = 1) as -> by lia. done.
  - assert (0 < n / 2) as Hpos by (pose proof (Z.div_pos n 2); lia).
    destruct (decide (n mod 2 = 0)) as [He|He].
    + rewrite Hdm at 2. rewrite He, Z.add_0_r, Z.log2_double by done. lia.
    + rewrite Hdm at 2. replace (n mod 2) with 1 by lia.
      rewrite Z.log2_succ_double by done. lia.
Qed.

Lemma bitlen_step m : 0 ≤ m → bitlen m ≤ bitlen (m + 1) ≤ bitlen m + 1.
Proof.
  intros Hm. unfold bitlen.
  destruct (Z.eqb_spec (m + 1) 0); [lia|].
  destruct (Z.eqb_spec m 0) as [->|]; [simpl; lia|].
  pose proof (Z.log2_le_mono m (m + 1) ltac:(lia)).
  pose proof (Z.log2_succ_le m). unfold Z.succ in *. lia.
Qed.

Lemma halved_sizes (l r : ptree) :
  tsize l = (S (tsize l + tsize r) / 2)%nat →
  Z.of_nat (tsize l) = Z.of_nat (S (tsize l + tsize r)) / 2
  ∧ (tsize l = tsize r ∨ tsize l = S (tsize r)).
Proof.
  intros H. split.
  { change 2 with (Z.of_nat 2). rewrite <- Nat2Z.inj_div. by f_equal. }
  pose proof (Nat.div_mod_eq (S (tsize l + tsize r)) 2).
  pose proof (Nat.mod_upper_bound (S (tsize l + tsize r)) 2). lia.
Qed.

Lemma halved_height (t : ptree) : halved t → theight t = bitlen (Z.of_nat (tsize t)).
Proof.
  induction t as [|p l IHl k v b r IHr|]; [done| |done].
  intros (Hhalf & Hl & Hr). cbn [theight tsize].
  destruct (halved_sizes l r Hhalf) as [Hdiv Hsz].
  rewrite IHl, IHr by done.
  rewrite <- (bitlen_half (Z.of_nat (S (tsize l + tsize r)))) by lia. rewrite <- Hdiv.
  destruct Hsz as [ <- | -> ]; [lia|].
  pose proof (bitlen_step (Z.of_nat (tsize r)) ltac:(lia)).
  replace (Z.of_nat (S (tsize r))) with (Z.of_nat (tsize r) + 1) by lia. lia.
Qed.

Lemma halved_avl (t : ptree) : halved t → avl (marked t).
Proof.
  induction t as [|p l IHl k v b r IHr|]; [done| |done].
  intros (Hhalf & Hl & Hr). cbn [marked avl]. rewrite !theight_marked.
  split; [done|]. split; [|by split; [apply IHl|apply IHr]].
  destruct (halved_sizes l r Hhalf) as [_ Hsz].
  rewrite !halved_height by done.
  destruct Hsz as [ <- | -> ]; [lia|].
  pose proof (bitlen_step (Z.of_nat (tsize r)) ltac:(lia)).
  replace (Z.of_nat (S (tsize r))) with (Z.of_nat (tsize r) + 1) by lia. lia.
Qed.

Variable compare : K → K → Z.

(** The part of [load] that builds the tree and marks the balance factors. *)
Lemma load_build_avl ks vs n (h : gmap ptr Node) R :
  n = length ks →
  ∃ st' (t : ptree),
    bind (loadRecursive (S n) None ks vs 0 (Z.of_nat n)) (λ r,
      bind (setRoot r) (λ _, bind getRoot (λ root, bind getFuel (λ fuel,
      bind (markBalance fuel root) (λ _, setSize (Z.of_nat n))))))
      (mkTree h R 0) = Done tt st'
    ∧ Rep st' t ∧ clean t ∧ avl t ∧ inorder t = load_entries ks vs
    ∧ _size st' = Z.of_nat n.
Proof.
  intros ->.
  destruct (loadRecursive_tree (S (length ks)) ks vs (load_entries ks vs) 0
              (Z.of_nat (length ks)) None h R 0)
    as (t & h1 & Hrun & Hwf & Hcl & Hnd & Hin & Hfresh & Hframe & Hhalf).
  { apply load_entries_segment. }
  { by rewrite load_entries_length. }
  { rewrite load_entries_length. lia. }
  unfold bind at 1. rewrite Hrun. mrun.
  destruct (markBalance_tree (S (size h1)) h1 (root_ptr t) 0 None t Hwf Hcl Hnd)
    as (h2 & Hmark & Hwf2 & _).
  { pose proof (depth_fuel _ _ _ Hwf Hnd). lia. }
  unfold bind at 1. rewrite Hmark. unfold setSize. cbn [heap _root _size].
  eexists _, (marked t). split; [reflexivity|].
  split; [|split; [by apply clean_marked|split;
    [by apply halved_avl|split; [by rewrite inorder_marked|done]]]].
  split; [done|]. split; [by rewrite ptrs_marked|]. simpl. by rewrite root_ptr_marked.
Qed.

Lemma load_arrays_unsorted_avl (a : arrays K V) (st : AVLTree) :
  _size st = 0 →
  ∃ st' (t : ptree), load_arrays compare a false st = Done tt st'
    ∧ Rep st' t ∧ clean t ∧ avl t ∧ inorder t = load_entries (keysOf a) (valuesOf a)
    ∧ _size st' = Z.of_nat (length (keysOf a)).
Proof.
  destruct st as [h R sz]. simpl. intros ->.
  unfold load_arrays. rewrite run_getSize. change (negb (0 =? 0)) with false. cbv iota.
  rewrite run_ret. by apply load_build_avl.
Qed.

Lemma load_unsorted_avl ks vs (st : AVLTree) :
  _size st = 0 →
  ∃ st' (t : ptree), load compare ks vs false st = Done tt st'
    ∧ Rep st' t ∧ clean t ∧ avl t ∧ inorder t = load_entries ks vs
    ∧ _size st' = Z.of_nat (length ks).
Proof. apply (load_arrays_unsorted_avl (Apart ks vs)). Qed.

End LoadShape.

(** ** [sort] sorts *)

Section SortSorts.

Context {K V : Type}.

Variable compare : K → K → Z.
Hypothesis compare_ok : total_order compare.

Lemma scan_up_scans fuel (keys : list K) pivot i i' :
  scan_up compare fuel keys pivot i = Some i' →
  ∀ z k, i < z < i' → index keys z = Some k → compare k pivot < 0.
Proof.
  revert i. induction fuel as [|fuel IH]; intros i; [done|].
  simpl. destruct (index keys (i + 1)) as [k1|] eqn:Hk1; [|done]. simpl.
  destruct (Z.ltb_spec (compare k1 pivot) 0) as [Hlo|Hlo].
  - intros Hrun z k Hz Hk. destruct (decide (z = i + 1)) as [->|Hne].
    + congruence.
    + apply (IH _ Hrun z k); [lia|done].
  - intros [= <-] z k Hz. lia.
Qed.

Lemma scan_down_scans fuel (keys : list K) pivot j j' :
  scan_down compare fuel keys pivot j = Some j' →
  ∀ z k, j' < z < j → index keys z = Some k → 0 < compare k pivot.
Proof.
  revert j. induction fuel as [|fuel IH]; intros j; [done|].
  simpl. destruct (index keys (j - 1)) as [k1|] eqn:Hk1; [|done]. simpl.
  destruct (Z.ltb_spec 0 (compare k1 pivot)) as [Hhi|Hhi].
  - intros Hrun z k Hz Hk. destruct (decide (z = j - 1)) as [->|Hne].
    + congruence.
    + apply (IH _ Hrun z k); [lia|done].
  - intros [= <-] z k Hz. lia.
Qed.

Lemma insert_swap_head {A} (l : list A) j x y :
  l !! j = Some y → y :: <[j := x]> l ≡ₚ x :: l.
Proof.
  revert j. induction l as [|a l IH]; intros [|j] Hj; simplify_eq/=.
  - apply perm_swap.
  - rewrite perm_swap. rewrite (IH j Hj). apply perm_swap.
Qed.

Lemma insert_swap_perm {A} (l : list A) i j x y :
  (i < j)%nat → l !! i = Some x → l !! j = Some y →
  <[j := x]> (<[i := y]> l) ≡ₚ l.
Proof.
  revert i j. induction l as [|a l IH]; intros i j Hij Hi Hj; [done|].
  destruct j as [|j]; [lia|]. destruct i as [|i]; simplify_eq/=.
  - by apply insert_swap_head.
  - f_equiv. apply IH; [lia|done|done].
Qed.

(** What [sort] may do to the arrays between [left] and [right]: it moves
    pairs inside that range. *)
Definition rearranged (left right : Z) (keys : list K) (values : list V)
    (keys' : list K) (values' : list V) : Prop :=
  length keys' = length keys ∧ length values' = length values
  ∧ zip keys' values' ≡ₚ zip keys values
  ∧ (∀ z, ¬ (left ≤ z ≤ right) → index keys' z = index keys z)
  ∧ (∀ P : K → Prop,
       (∀ z k, left ≤ z ≤ right → index keys z = Some k → P k) →
       ∀ z k, left ≤ z ≤ right → index keys' z = Some k → P k).

Lemma rearranged_refl left right keys values :
  rearranged left right keys values keys values.
Proof. unfold rearranged. naive_solver. Qed.

Lemma rearranged_trans left right keys values keys1 values1 keys2 values2 :
  rearranged left right keys values keys1 values1 →
  rearranged left right keys1 values1 keys2 values2 →
  rearranged left right keys values keys2 values2.
Proof.
  intros (Hk1 & Hv1 & Hp1 & Ho1 & Hc1) (Hk2 & Hv2 & Hp2 & Ho2 & Hc2).
  split; [congruence|]. split; [congruence|]. split; [by rewrite Hp2|]. split.
  - intros z Hz. rewrite Ho2, Ho1; done.
  - intros P HP. apply Hc2. by apply Hc1.
Qed.

Lemma rearranged_widen left right left' right' keys values keys' values' :
  left' ≤ left → right ≤ right' →
  rearranged left right keys values keys' values' →
  rearranged left' right' keys values keys' values'.
Proof.
  intros Hl Hr (Hk & Hv & Hp & Ho & Hc).
  split; [done|]. split; [done|]. split; [done|]. split.
  - intros z Hz. apply Ho. lia.
  - intros P HP z k Hz Hk'.
    destruct (decide (left ≤ z ≤ right)) as [Hin|Hout].
    + apply (Hc P) with z; [|done|done]. intros z' k' Hz'. apply HP. lia.
    + rewrite Ho in Hk' by done. by apply (HP z).
Qed.

Lemma index_lookup {A} (l : list A) z a : index l z = Some a → l !! Z.to_nat z = Some a.
Proof. unfold index. by destruct (Z.ltb_spec z 0). Qed.

Lemma rearranged_swap left right (keys : list K) (values : list V) i j ki kj vi vj :
  left ≤ i → i < j → j ≤ right → 0 ≤ left →
  index keys i = Some ki → index keys j = Some kj →
  index values i = Some vi → index values j = Some vj →
  rearranged left right keys values
    (<[Z.to_nat j := ki]> (<[Z.to_nat i := kj]> keys))
    (<[Z.to_nat j := vi]> (<[Z.to_nat i := vj]> values)).
Proof.
  intros Hli Hij Hjr Hl Hki Hkj Hvi Hvj.
  split; [by rewrite !length_insert|]. split; [by rewrite !length_insert|]. split.
  { rewrite <- (insert_zip_with pair _ _ (Z.to_nat j) ki vi).
    rewrite <- (insert_zip_with pair _ _ (Z.to_nat i) kj vj).
    apply insert_swap_perm; [lia| |].
    - apply lookup_zip_with_Some. exists ki, vi.
      split; [done|]. split; by apply index_lookup.
    - apply lookup_zip_with_Some. exists kj, vj.
      split; [done|]. split; by apply index_lookup. }
  split.
  - intros z Hz. destruct (decide (0 ≤ z)) as [Hz0|Hz0].
    + rewrite !index_insert_ne by lia. done.
    + unfold index. by rewrite !(proj2 (Z.ltb_lt z 0)) by lia.
  - intros P HP z k Hz Hk.
    pose proof (index_bounds _ _ _ Hki). pose proof (index_bounds _ _ _ Hkj).
    destruct (decide (z = j)) as [->|Hzj].
    { rewrite index_insert_eq in Hk by (rewrite length_insert; lia).
      injection Hk as <-. apply (HP i); [lia|done]. }
    rewrite index_insert_ne in Hk by lia.
    destruct (decide (z = i)) as [->|Hzi].
    { rewrite index_insert_eq in Hk by lia. injection Hk as <-. apply (HP j); [lia|done]. }
    rewrite index_insert_ne in Hk by lia. by apply (HP z).
Qed.

(** The [while (true)] loop leaves the keys up to [j] at most the pivot and
    the keys after [j] at least the pivot. *)
Lemma partition_splits fuel inner (keys : list K) (values : list V) pivot left right :
  ∀ i j a b ka kb,
    0 ≤ left → right < Z.of_nat (length keys) → length values = length keys →
    left - 1 ≤ i → j ≤ right + 1 → i < j → i < a → a ≤ right → left ≤ b → b < j →
    a < right ∨ j ≤ right →
    index keys a = Some ka → 0 ≤ compare ka pivot →
    index keys b = Some kb → compare kb pivot ≤ 0 →
    (∀ z k, left ≤ z ≤ i → index keys z = Some k → compare k pivot ≤ 0) →
    (∀ z k, j ≤ z ≤ right → index keys z = Some k → 0 ≤ compare k pivot) →
    (Z.to_nat (j - i) ≤ fuel)%nat → (Z.to_nat (right - left + 2) ≤ inner)%nat →
    ∃ keys' values' j',
      partition_apart compare fuel inner keys values pivot i j = Some (keys', values', j')
      ∧ rearranged left right keys values keys' values'
      ∧ left ≤ j' < right
      ∧ (∀ z k, left ≤ z ≤ j' → index keys' z = Some k → compare k pivot ≤ 0)
      ∧ (∀ z k, j' < z ≤ right → index keys' z = Some k → 0 ≤ compare k pivot).
Proof.
  revert keys values.
  induction fuel as [|fuel IH];
    intros keys values i j a b ka kb Hl Hr Hlen Hi Hj Hij Hia Har Hlb Hbj Hend
      Ha Hca Hb Hcb HL HR Hf Hin; [lia|].
  assert (Hvalid : ∀ z, left ≤ z ≤ right → is_Some (index keys z)).
  { intros z Hz. apply index_valid. lia. }
  cbn [partition_apart].
  destruct (scan_up_stops compare inner keys pivot i a ka)
    as (i' & ki & Hup & Hi' & Hki & Hci); [lia| |done|done|lia|].
  { intros z Hz. apply Hvalid. lia. }
  pose proof (scan_up_scans _ _ _ _ _ Hup) as Hlow.
  rewrite Hup. cbn [mbind option_bind].
  destruct (scan_down_stops compare inner keys pivot j b kb)
    as (j' & kj & Hdown & Hj' & Hkj & Hcj); [lia| |done|done|lia|].
  { intros z Hz. apply Hvalid. lia. }
  pose proof (scan_down_scans _ _ _ _ _ Hdown) as Hhigh.
  rewrite Hdown. cbn [mbind option_bind].
  destruct (Z.leb_spec j' i') as [Hji|Hji].
  { exists keys, values, j'. split; [done|]. split; [apply rearranged_refl|].
    split; [lia|]. split.
    - intros z k Hz Hk. destruct (decide (z ≤ i)) as [Hzi|Hzi]; [apply (HL z); [lia|done]|].
      destruct (decide (z = i')) as [->|Hne].
      + assert (j' = i') as -> by lia. congruence.
      + pose proof (Hlow z k ltac:(lia) Hk). lia.
    - intros z k Hz Hk. destruct (decide (j ≤ z)) as [Hzj|Hzj]; [apply (HR z); [lia|done]|].
      pose proof (Hhigh z k ltac:(lia) Hk). lia. }
  rewrite (swap_some keys i' j' ki kj Hki Hkj). cbn [mbind option_bind].
  destruct (index_valid values i') as [vi Hvi]; [lia|].
  destruct (index_valid values j') as [vj Hvj]; [lia|].
  rewrite (swap_some values i' j' vi vj Hvi Hvj). cbn [mbind option_bind].
  pose proof (rearranged_swap left right keys values i' j' ki kj vi vj
                ltac:(lia) ltac:(lia) ltac:(lia) Hl Hki Hkj Hvi Hvj) as Hswap.
  set (keys' := <[Z.to_nat j' := ki]> (<[Z.to_nat i' := kj]> keys)) in *.
  set (values' := <[Z.to_nat j' := vi]> (<[Z.to_nat i' := vj]> values)) in *.
  assert (Hlk : length keys' = length keys).
  { unfold keys'. by rewrite !length_insert. }
  assert (Hlv : length values' = length keys).
  { unfold values'. by rewrite !length_insert. }
  assert (Hki' : index keys' i' = Some kj).
  { unfold keys'. rewrite index_insert_ne by lia. apply index_insert_eq. lia. }
  assert (Hkj' : index keys' j' = Some ki).
  { unfold keys'. apply index_insert_eq. rewrite length_insert. lia. }
  assert (Hother : ∀ z, 0 ≤ z → z ≠ i' → z ≠ j' → index keys' z = index keys z).
  { intros z Hz Hzi Hzj. unfold keys'. rewrite !index_insert_ne by lia. done. }
  destruct (IH keys' values' i' j' j' i' ki kj)
    as (keys2 & values2 & j2 & Hrun & Hre & Hj2 & HL2 & HR2); try lia; try done.
  - intros z k Hz Hk. destruct (decide (z = i')) as [->|Hne]; [congruence|].
    rewrite Hother in Hk by lia.
    destruct (decide (z ≤ i)) as [Hzi|Hzi]; [apply (HL z); [lia|done]|].
    pose proof (Hlow z k ltac:(lia) Hk). lia.
  - intros z k Hz Hk. destruct (decide (z = j')) as [->|Hne]; [congruence|].
    rewrite Hother in Hk by lia.
    destruct (decide (j ≤ z)) as [Hzj|Hzj]; [apply (HR z); [lia|done]|].
    pose proof (Hhigh z k ltac:(lia) Hk). lia.
  - exists keys2, values2, j2. split; [exact Hrun|].
    split; [by eapply rearranged_trans|]. done.
Qed.

(** [sort] puts the keys between [left] and [right] in order, and the
    values move with their keys. *)
Lemma sort_segment fuel :
  ∀ (keys : list K) (values : list V) left right,
    0 ≤ left → right < Z.of_nat (length keys) → length values = length keys →
    (Z.to_nat (right - left) ≤ fuel)%nat →
    ∃ keys' values',
      sort_apart compare fuel keys values left right = Some (keys', values')
      ∧ rearranged left right keys values keys' values'
      ∧ (∀ a b ka kb, left ≤ a → a ≤ b → b ≤ right →
           index keys' a = Some ka → index keys' b = Some kb → compare ka kb ≤ 0).
Proof using compare_ok.
  induction fuel as [|fuel IH]; intros keys values left right Hl Hr Hlen Hf.
  { exists keys, values. simpl. rewrite (proj2 (Z.leb_le right left)) by lia.
    split; [done|]. split; [apply rearranged_refl|].
    intros a b ka kb Ha Hab Hb Hka Hkb. assert (a = b) as -> by lia.
    rewrite Hka in Hkb. injection Hkb as <-. by rewrite (compare_refl compare compare_ok). }
  cbn [sort_apart]. destruct (Z.leb_spec right left) as [Hle|Hlt].
  { exists keys, values. split; [done|]. split; [apply rearranged_refl|].
    intros a b ka kb Ha Hab Hb Hka Hkb. assert (a = b) as -> by lia.
    rewrite Hka in Hkb. injection Hkb as <-. by rewrite (compare_refl compare compare_ok). }
  assert (Hm : left ≤ Z.shiftr (left + right) 1 < right).
  { rewrite Z.shiftr_div_pow2 by lia. change (2 ^ 1) with 2.
    pose proof (Z.div_mod (left + right) 2 ltac:(lia)).
    pose proof (Z.mod_pos_bound (left + right) 2 ltac:(lia)). lia. }
  destruct (index_valid keys (Z.shiftr (left + right) 1)) as [pivot Hpivot]; [lia|].
  rewrite Hpivot. cbn [mbind option_bind].
  pose proof (compare_refl compare compare_ok pivot) as Hpp.
  destruct (partition_splits (S (S (length keys))) (S (S (length keys))) keys values pivot
              left right (left - 1) (right + 1)
              (Z.shiftr (left + right) 1) (Z.shiftr (left + right) 1) pivot pivot)
    as (keys1 & values1 & j & Hpart & Hre1 & Hj & HL1 & HR1); try lia; try done.
  rewrite Hpart. cbn [mbind option_bind].
  pose proof Hre1 as (Hk1 & Hv1 & _).
  destruct (IH keys1 values1 left j) as (keys2 & values2 & Hs1 & Hre2 & Hsorted2); try lia.
  rewrite Hs1. cbn [mbind option_bind].
  pose proof Hre2 as (Hk2 & Hv2 & _ & Hout2 & Hcl2).
  destruct (IH keys2 values2 (j + 1) right) as (keys3 & values3 & Hs2 & Hre3 & Hsorted3);
    try lia.
  pose proof Hre3 as (Hk3 & Hv3 & _ & Hout3 & Hcl3).
  exists keys3, values3. split; [exact Hs2|]. split.
  { eapply rearranged_trans; [exact Hre1|].
    eapply rearranged_trans.
    - eapply (rearranged_widen left j left right); [lia|lia|exact Hre2].
    - eapply (rearranged_widen (j + 1) right left right); [lia|lia|exact Hre3]. }
  assert (Hlow : ∀ z k, left ≤ z ≤ j → index keys3 z = Some k → compare k pivot ≤ 0).
  { intros z k Hz Hk. rewrite Hout3 in Hk by lia.
    by apply (Hcl2 (λ k, compare k pivot ≤ 0) HL1 z k). }
  assert (Hhigh : ∀ z k, j < z ≤ right → index keys3 z = Some k → 0 ≤ compare k pivot).
  { intros z k Hz Hk.
    apply (Hcl3 (λ k, 0 ≤ compare k pivot)) with z; [|lia|done].
    intros z' k' Hz' Hk'. rewrite Hout2 in Hk' by lia. apply (HR1 z'); [lia|done]. }
  intros a b ka kb Ha Hab Hb Hka Hkb.
  destruct (decide (b ≤ j)) as [Hbj|Hbj].
  { apply (Hsorted2 a b); [lia|lia|lia| |]; by rewrite <- Hout3 by lia. }
  destruct (decide (j < a)) as [Haj|Haj].
  { apply (Hsorted3 a b); [lia|lia|lia|done|done]. }
  apply (kle_trans compare compare_ok ka pivot kb).
  - apply (Hlow a); [lia|done].
  - apply (kle_flip compare compare_ok). apply (Hhigh b); [lia|done].
Qed.

Lemma index_sorted (R : K → K → Prop) (l : list K) :
  (∀ a b ka kb, 0 ≤ a → a < b → index l a = Some ka → index l b = Some kb → R ka kb) →
  StronglySorted R l.
Proof.
  induction l as [|x l IH]; intros H; constructor.
  - apply IH. intros a b ka kb Ha Hab Hka Hkb. apply (H (a + 1) (b + 1)); [lia|lia| |].
    + unfold index in *. destruct (Z.ltb_spec a 0); [lia|].
      destruct (Z.ltb_spec (a + 1) 0); [lia|].
      replace (Z.to_nat (a + 1)) with (S (Z.to_nat a)) by lia. done.
    + unfold index in *. destruct (Z.ltb_spec b 0); [lia|].
      destruct (Z.ltb_spec (b + 1) 0); [lia|].
      replace (Z.to_nat (b + 1)) with (S (Z.to_nat b)) by lia. done.
  - apply Forall_lookup. intros i y Hy. apply (H 0 (Z.of_nat (S i))); [lia|lia|done|].
    unfold index. destruct (Z.ltb_spec (Z.of_nat (S i)) 0); [lia|].
    rewrite Nat2Z.id. done.
Qed.

(** [sort] on the whole of two arrays. *)
Lemma sort_sorted (keys : list K) (values : list V) :
  length values = length keys →
  ∃ keys' values',
    sort compare (S (length keys)) (Apart keys values) 0 (Z.of_nat (length keys) - 1)
    = Some (Apart keys' values')
    ∧ length keys' = length keys ∧ length values' = length values
    ∧ zip keys' values' ≡ₚ zip keys values
    ∧ sorted compare false keys'.
Proof using compare_ok.
  intros Hlen.
  destruct (sort_segment (S (length keys)) keys values 0 (Z.of_nat (length keys) - 1))
    as (keys' & values' & Hsort & (Hk & Hv & Hp & _) & Hsorted); [lia|lia|done|lia|].
  exists keys', values'. split; [by rewrite sort_Apart, Hsort|]. split; [done|]. split; [done|]. split; [done|].
  apply index_sorted. intros a b ka kb Ha Hab Hka Hkb.
  pose proof (index_bounds _ _ _ Hkb). apply (Hsorted a b); [lia|lia|lia|done|done].
Qed.

(** Sorted keys of which no two compare equal are strictly ascending. *)
Lemma sorted_distinct (ks : list K) :
  sorted compare false ks → distinct_keys compare ks → sorted compare true ks.
Proof using compare_ok.
  unfold sorted. induction ks as [|k ks IH]; intros Hs Hd; [constructor|].
  apply StronglySorted_inv in Hs as [Hs Hall]. constructor.
  - apply IH; [done|]. by eapply distinct_keys_tail.
  - destruct Hd as [Hnd Heq]. apply NoDup_cons in Hnd as [Hk _].
    apply Forall_forall. intros y Hy. rewrite Forall_forall in Hall.
    specialize (Hall y Hy). unfold kle, klt in *.
    destruct (decide (compare k y = 0)) as [H0|H0]; [|lia].
    exfalso. apply Hk. rewrite (Heq k y); [done| | |done].
    + apply elem_of_cons. by left.
    + apply elem_of_cons. by right.
Qed.




End SortSorts.

(** ** Rotations undo each other; balance factors from heights *)

Section RoundTrip.

Context {K V : Type}.
#[local] Abbreviation Node := (Node K V).
#[local] Abbreviation AVLTree := (AVLTree K V).
#[local] Abbreviation M := (M K V).
#[local] Abbreviation ptree := (ptree K V).
#[local] Abbreviation frame := (@frame K V).

Lemma rotL_rotR (t t' : ptree) : rotL t = Some t' → rotR t' = Some t.
Proof.
  destruct t as [|p l k v b [|q ql qk qv qb qr|]|]; simpl; intros; simplify_eq.
  simpl. do 2 f_equal.
  - destruct (Z.ltb_spec qb 0), (Z.ltb_spec 0 (b + 1 - qb)), (Z.ltb_spec 0 (b + 1));
      repeat (match goal with |- context [?a <? ?b] => destruct (Z.ltb_spec a b) end); lia.
  - destruct (Z.ltb_spec qb 0), (Z.ltb_spec 0 (b + 1 - qb)), (Z.ltb_spec 0 (b + 1));
      repeat (match goal with |- context [?a <? ?b] => destruct (Z.ltb_spec a b) end);
      f_equal; lia.
Qed.

Lemma rotR_rotL (t t' : ptree) : rotR t = Some t' → rotL t' = Some t.
Proof.
  destruct t as [|p [|q ql qk qv qb qr|] k v b r|]; simpl; intros; simplify_eq.
  simpl. do 2 f_equal.
  - destruct (Z.ltb_spec 0 qb), (Z.ltb_spec (b - 1 - qb) 0), (Z.ltb_spec (b - 1) 0);
      repeat (match goal with |- context [?a <? ?b] => destruct (Z.ltb_spec a b) end);
      f_equal; lia.
  - destruct (Z.ltb_spec 0 qb), (Z.ltb_spec (b - 1 - qb) 0), (Z.ltb_spec (b - 1) 0);
      repeat (match goal with |- context [?a <? ?b] => destruct (Z.ltb_spec a b) end); lia.
Qed.

(** A tree that [isBalanced] accepts has the AVL invariant once its balance
    factors are the height differences. *)
Lemma balanced_avl (t : ptree) : balanced t = true → avl (marked t).
Proof.
  induction t as [|p l IHl k v b r IHr|]; [done| |done].
  cbn [balanced marked avl]. rewrite !theight_marked.
  destruct (Z.leb_spec (Z.abs (theight l - theight r)) 1) as [Hle|]; [|done].
  destruct (balanced l); [|done]. intros Hr.
  split; [done|]. split; [lia|]. split; [by apply IHl|by apply IHr].
Qed.

Lemma zip_fmap_Some (ks : list K) (vs : list V) :
  zip ks (Some <$> vs) = (λ e, (e.1, Some e.2)) <$> zip ks vs.
Proof.
  revert vs. induction ks as [|k ks IH]; intros [|v vs]; simpl; [done..|].
  by rewrite IH.
Qed.

Lemma imap_fst (g : nat → option V) (ks : list K) :
  (imap (λ i k, (k, g i)) ks).*1 = ks.
Proof.
  revert g. induction ks as [|k ks IH]; intros g; [done|].
  simpl. f_equal. apply (IH (g ∘ S)).
Qed.

Lemma load_entries_keys (ks : list K) (vs : list V) : (load_entries ks vs).*1 = ks.
Proof. unfold load_entries. apply (imap_fst (λ i, vs !! i)). Qed.

(** A tree with the AVL invariant of height [h] has at least [2 ^ (h / 2) - 1]
    nodes. *)
Lemma avl_height_bound (t : ptree) : avl t → 2 ^ (theight t / 2) ≤ count t + 1.
Proof.
  induction t as [|p l IHl k v b r IHr|]; [done| |done].
  intros (Hb & Hrange & Hl & Hr). specialize (IHl Hl). specialize (IHr Hr).
  cbn [theight count].
  pose proof (theight_nonneg l). pose proof (theight_nonneg r).
  set (m := Z.min (theight l) (theight r)).
  assert (2 ^ (m / 2) ≤ 2 ^ (theight l / 2)) as Hml.
  { apply Z.pow_le_mono_r; [lia|]. apply Z.div_le_mono; lia. }
  assert (2 ^ (m / 2) ≤ 2 ^ (theight r / 2)) as Hmr.
  { apply Z.pow_le_mono_r; [lia|]. apply Z.div_le_mono; lia. }
  assert (2 ^ ((1 + Z.max (theight l) (theight r)) / 2) ≤ 2 ^ (m / 2 + 1)) as Hup.
  { apply Z.pow_le_mono_r; [lia|].
    replace (m / 2 + 1) with ((m + 1 * 2) / 2) by (rewrite Z.div_add by lia; lia).
    apply Z.div_le_mono; lia. }
  rewrite Z.pow_add_r in Hup by (try apply Z.div_pos; lia).
  change (2 ^ 1) with 2 in Hup. lia.
Qed.

End RoundTrip.

Section SplitAt.

Context {A : Type}.

(** A list splits in one way only at its sole element with a property. *)
Lemma split_at_unique (P : A → Prop) (l1 l2 l1' l2' : list A) x y :
  l1 ++ x :: l2 = l1' ++ y :: l2' →
  Forall (λ e, ¬ P e) l1 → Forall (λ e, ¬ P e) l2 → P y →
  l1 = l1' ∧ x = y ∧ l2 = l2'.
Proof.
  revert l1'. induction l1 as [|a l1 IH]; intros l1' Heq H1 H2 Hy.
  - destruct l1' as [|a' l1']; simpl in Heq.
    + by injection Heq as -> ->.
    + injection Heq as -> ->. exfalso.
      rewrite Forall_app, Forall_cons in H2. tauto.
  - apply Forall_cons in H1 as [Ha H1].
    destruct l1' as [|a' l1']; simpl in Heq.
    + injection Heq as -> _. done.
    + injection Heq as -> Heq.
      destruct (IH l1' Heq H1 H2 Hy) as (-> & -> & ->). done.
Qed.

End SplitAt.

(** * The claims of the specification *)

(** C1, as the specification states it, asks that the keys of a right
    subtree compare greater than the key of the node.  A tree that allows
    duplicates (the default mode) does not keep that: after [set 1] three
    times the root holds 1 and so does its right child. *)
Lemma strict_right_order_fails_with_duplicates :
  ∃ (st : AVLTree Z Z) (t : ptree Z Z),
    steps DEFAULT_COMPARE falsyZ false
      [OpSet 1 (Some 10); OpSet 1 (Some 20); OpSet 1 (Some 30)] (empty (K:=Z) (V:=Z)) = Done tt st
    ∧ shape st = Some t
    ∧ avl t ∧ _size st = count t
    ∧ ¬ bst DEFAULT_COMPARE false t.
Proof.
  eexists _, _. split; [vm_compute; reflexivity|].
  split; [vm_compute; reflexivity|].
  split; [simpl; lia|]. split; [reflexivity|].
  simpl. intros (_ & Hr & _). apply Forall_cons in Hr as [Hr _]. vm_compute in Hr. done.
Qed.

(** C1 (amended): for every finite sequence of set/insert and delete
    operations applied to an initially empty tree whose comparator is a
    total order, every operation returns and afterwards the store holds a
    tree in which every node satisfies the order invariant of the tree's
    mode (strictly less on the left and strictly greater on the right when
    duplicates are rejected; less-or-equal on the left and greater-or-equal
    on the right when they are allowed), every [balanceFactor] equals
    height(left) - height(right) and lies in [-1, 1], and [_size] is the
    number of nodes reachable from [_root]. *)
Theorem invariants_after_operations {K V : Type} (compare : K → K → Z) (falsy : K → bool)
    (noDuplicates : bool) (ops : list (op (K:=K) (V:=V))) :
  total_order compare →
  ∃ (st : AVLTree K V) (t : ptree K V),
    steps compare falsy noDuplicates ops empty = Done tt st
    ∧ shape st = Some t
    ∧ bst_mode compare noDuplicates t ∧ avl t ∧ _size st = count t.
Proof.
  intros Hcmp.
  destruct (steps_Inv compare falsy noDuplicates Hcmp ops empty PE) as (st & t & Hrun & HI).
  { apply Inv_empty. }
  exists st, t. split; [done|].
  destruct HI as [Hrep Hclean Havl Hs Hsize].
  split; [by apply Rep_shape|]. split; [by apply bst_mode_sorted|]. done.
Qed.

Lemma invariants_after_operations_witness :
  total_order DEFAULT_COMPARE
  ∧ ∃ (st : AVLTree Z Z) (t : ptree Z Z),
      steps DEFAULT_COMPARE falsyZ false
        [OpSet 2 (Some 20); OpInsert 1 (Some 10); OpSet 2 (Some 21); OpDelete 1] empty
        = Done tt st
      ∧ shape st = Some t
      ∧ bst_mode DEFAULT_COMPARE false t ∧ avl t ∧ _size st = count t.
Proof.
  split; [exact DEFAULT_COMPARE_order|].
  apply (invariants_after_operations DEFAULT_COMPARE falsyZ false
    [OpSet 2 (Some 20); OpInsert 1 (Some 10); OpSet 2 (Some 21); OpDelete 1]).
  exact DEFAULT_COMPARE_order.
Defined.

(** C4: for every node [p] whose right child [q] exists, [rotateLeft p]
    returns [q]; afterwards [q] stands where [p] stood (it has the parent
    that [p] had and [p] as its left child, and the parent's link that
    pointed at [p] points at [q]), the former left subtree of [q] is the
    right subtree of [p] with [p] as its parent, and the two balance factors
    are computed from their values before the rotation by the rule
    [node.balanceFactor += 1; if (promoted.balanceFactor < 0)
    node.balanceFactor -= promoted.balanceFactor; promoted.balanceFactor += 1;
    if (node.balanceFactor > 0) promoted.balanceFactor += node.balanceFactor].
    Nothing else changes.  [rotateRight] on a node whose left child exists
    is the mirror image. *)
Theorem rotations_promote_child {K V : Type} :
  (∀ (h : gmap ptr (Node K V)) R S (p q : ptr) (n c : Node K V),
     h !! p = Some n → right n = Some q → h !! q = Some c →
     separate h p q (left c) (parent n) →
     let nb1 := balanceFactor n + 1 in
     let nb2 := if balanceFactor c <? 0 then nb1 - balanceFactor c else nb1 in
     let cb1 := balanceFactor c + 1 in
     let cb2 := if 0 <? nb2 then cb1 + nb2 else cb1 in
     ∃ h', rotateLeft p (mkTree h R S) = Done (Some q) (mkTree h' R S)
       ∧ h' !! p = Some (mkNode (Some q) (left n) (left c) nb2 (key n) (value n))
       ∧ h' !! q = Some (mkNode (parent n) (Some p) (right c) cb2 (key c) (value c))
       ∧ (∀ x, left c = Some x → h' !! x = with_parent (Some p) <$> h !! x)
       ∧ (∀ g, parent n = Some g →
            h' !! g = (λ gn, if same (left gn) (Some p) then with_left (Some q) gn
                             else with_right (Some q) gn) <$> h !! g)
       ∧ (∀ r, r ≠ p → r ≠ q → left c ≠ Some r → parent n ≠ Some r → h' !! r = h !! r))
  ∧
  (∀ (h : gmap ptr (Node K V)) R S (p q : ptr) (n c : Node K V),
     h !! p = Some n → left n = Some q → h !! q = Some c →
     separate h p q (right c) (parent n) →
     let nb1 := balanceFactor n - 1 in
     let nb2 := if 0 <? balanceFactor c then nb1 - balanceFactor c else nb1 in
     let cb1 := balanceFactor c - 1 in
     let cb2 := if nb2 <? 0 then cb1 + nb2 else cb1 in
     ∃ h', rotateRight p (mkTree h R S) = Done (Some q) (mkTree h' R S)
       ∧ h' !! p = Some (mkNode (Some q) (right c) (right n) nb2 (key n) (value n))
       ∧ h' !! q = Some (mkNode (parent n) (left c) (Some p) cb2 (key c) (value c))
       ∧ (∀ x, right c = Some x → h' !! x = with_parent (Some p) <$> h !! x)
       ∧ (∀ g, parent n = Some g →
            h' !! g = (λ gn, if same (left gn) (Some p) then with_left (Some q) gn
                             else with_right (Some q) gn) <$> h !! g)
       ∧ (∀ r, r ≠ p → r ≠ q → right c ≠ Some r → parent n ≠ Some r → h' !! r = h !! r)).
Proof.
  split; intros h R S p q n c Hp Hq Hc Hsep; simpl.
  - destruct (rotateLeft_store h R S p q n c Hp Hq Hc Hsep) as (h' & Hrun & H).
    exists h'. split; [exact Hrun|]. exact H.
  - destruct (rotateRight_store h R S p q n c Hp Hq Hc Hsep) as (h' & Hrun & H).
    exists h'. split; [exact Hrun|]. exact H.
Qed.

(** A store to rotate in: [1] is the root, [2] its left child, [3] the
    right child of [2], with the children [4] and [5]; and its mirror
    image. *)
Definition rotation_store : gmap ptr (Node Z Z) :=
  list_to_map
    [(1%positive, mkNode None (Some 2%positive) None 3 60 None);
     (2%positive, mkNode (Some 1%positive) None (Some 3%positive) (-2) 20 None);
     (3%positive, mkNode (Some 2%positive) (Some 4%positive) (Some 5%positive) 0 40 None);
     (4%positive, mkNode (Some 3%positive) None None 0 30 None);
     (5%positive, mkNode (Some 3%positive) None None 0 50 None)].

Definition rotation_store_mirror : gmap ptr (Node Z Z) :=
  list_to_map
    [(1%positive, mkNode None None (Some 2%positive) (-3) 10 None);
     (2%positive, mkNode (Some 1%positive) (Some 3%positive) None 2 50 None);
     (3%positive, mkNode (Some 2%positive) (Some 4%positive) (Some 5%positive) 0 30 None);
     (4%positive, mkNode (Some 3%positive) None None 0 20 None);
     (5%positive, mkNode (Some 3%positive) None None 0 40 None)].

Lemma rotations_promote_child_witness :
  (∃ h', rotateLeft 2%positive (mkTree rotation_store (Some 1%positive) 5)
           = Done (Some 3%positive) (mkTree h' (Some 1%positive) 5)
     ∧ h' !! 2%positive = Some (mkNode (Some 3%positive) None (Some 4%positive) (-1) 20 None)
     ∧ h' !! 3%positive = Some (mkNode (Some 1%positive) (Some 2%positive) (Some 5%positive) 1 40 None)
     ∧ h' !! 4%positive = Some (mkNode (Some 2%positive) None None 0 30 None)
     ∧ h' !! 1%positive = Some (mkNode None (Some 3%positive) None 3 60 None)
     ∧ h' !! 5%positive = rotation_store !! 5%positive)
  ∧
  (∃ h', rotateRight 2%positive (mkTree rotation_store_mirror (Some 1%positive) 5)
           = Done (Some 3%positive) (mkTree h' (Some 1%positive) 5)
     ∧ h' !! 2%positive = Some (mkNode (Some 3%positive) (Some 5%positive) None 1 50 None)
     ∧ h' !! 3%positive = Some (mkNode (Some 1%positive) (Some 4%positive) (Some 2%positive) (-1) 30 None)
     ∧ h' !! 5%positive = Some (mkNode (Some 2%positive) None None 0 40 None)
     ∧ h' !! 1%positive = Some (mkNode None None (Some 3%positive) (-3) 10 None)
     ∧ h' !! 4%positive = rotation_store_mirror !! 4%positive).
Proof.
  split.
  - destruct (proj1 (rotations_promote_child (K:=Z) (V:=Z)) rotation_store (Some 1%positive) 5
      2%positive 3%positive
      (mkNode (Some 1%positive) None (Some 3%positive) (-2) 20 None)
      (mkNode (Some 2%positive) (Some 4%positive) (Some 5%positive) 0 40 None))
      as (h' & Hrun & Hp & Hq & Hinner & Hpar & Hrest).
    + reflexivity.
    + reflexivity.
    + reflexivity.
    + split; [done|]. split.
      * intros x [= <-]. split; [done|]. split; [done|]. eexists. reflexivity.
      * intros g [= <-]. split; [done|]. split; [done|]. split; [done|]. eexists. reflexivity.
    + exists h'. split; [exact Hrun|]. split; [exact Hp|]. split; [exact Hq|].
      split; [exact (Hinner 4%positive eq_refl)|].
      split; [exact (Hpar 1%positive eq_refl)|].
      apply Hrest; done.
  - destruct (proj2 (rotations_promote_child (K:=Z) (V:=Z)) rotation_store_mirror (Some 1%positive) 5
      2%positive 3%positive
      (mkNode (Some 1%positive) (Some 3%positive) None 2 50 None)
      (mkNode (Some 2%positive) (Some 4%positive) (Some 5%positive) 0 30 None))
      as (h' & Hrun & Hp & Hq & Hinner & Hpar & Hrest).
    + reflexivity.
    + reflexivity.
    + reflexivity.
    + split; [done|]. split.
      * intros x [= <-]. split; [done|]. split; [done|]. eexists. reflexivity.
      * intros g [= <-]. split; [done|]. split; [done|]. split; [done|]. eexists. reflexivity.
    + exists h'. split; [exact Hrun|]. split; [exact Hp|]. split; [exact Hq|].
      split; [exact (Hinner 5%positive eq_refl)|].
      split; [exact (Hpar 1%positive eq_refl)|].
      apply Hrest; done.
Defined.

(** C5, as the specification states it, promises the value of the most
    recent [set] whatever the mode.  A tree that allows duplicates (the
    default mode) keeps both nodes and [get] stops at the first one that the
    descent meets: after [set(1, 10)] and [set(1, 20)] it returns 10. *)
Lemma get_returns_older_value_with_duplicates :
  ∃ st : AVLTree Z Z,
    set_all DEFAULT_COMPARE false [(1, Some 10); (1, Some 20)] empty = Done tt st
    ∧ get DEFAULT_COMPARE 1 st = Done (Some 10) st
    ∧ last_set DEFAULT_COMPARE 1 [(1, Some 10); (1, Some 20)] = Some 20.
Proof.
  eexists. split; [vm_compute; reflexivity|]. split; vm_compute; reflexivity.
Qed.

(** C5 (amended): for every sequence of [set] operations on an initially
    empty tree whose comparator is a total order, and every key: [has(key)]
    returns true when the key was set and false when it never was; in the
    mode that rejects duplicates [get(key)] returns the value passed to the
    most recent [set] call for that key (undefined when there is none); in
    the mode that allows duplicates [get(key)] returns the value passed to
    one of the [set] calls for that key. *)
Theorem lookup_after_sets {K V : Type} (compare : K → K → Z) (noDuplicates : bool)
    (sets : list (K * option V)) (k : K) :
  total_order compare →
  ∃ (st : AVLTree K V) (r : option V),
    set_all compare noDuplicates sets empty = Done tt st
    ∧ has compare k st = Done (was_set compare k sets) st
    ∧ get compare k st = Done r st
    ∧ (noDuplicates = true → r = last_set compare k sets)
    ∧ (noDuplicates = false →
         if was_set compare k sets
         then ∃ e, e ∈ sets ∧ compare k e.1 = 0 ∧ r = e.2
         else r = None).
Proof.
  intros Hcmp.
  destruct (set_all_Inv compare noDuplicates Hcmp sets [] empty PE) as (st & t & Hrun & HI & Hag).
  { apply Inv_empty. }
  { split; [|split]; [|intros _ ? ? []%elem_of_nil|intros _ ? []%elem_of_nil].
    intros k0. simpl. split; [done|]. by intros ?%Exists_nil. }
  simpl in Hag. pose proof (Inv_weak _ _ _ _ HI) as Hs.
  destruct HI as [Hrep Hclean _ _ _].
  exists st, (tfind compare k t ≫= snd). split; [done|].
  split; [|split; [|split]].
  - rewrite (has_tree compare k st t Hrep Hclean). f_equal. by eapply agree_has.
  - by apply get_tree.
  - intros Hmode. by eapply agree_get.
  - intros Hmode. by eapply agree_get_dup.
Qed.

Lemma lookup_after_sets_witness :
  total_order DEFAULT_COMPARE
  ∧ ∃ (st : AVLTree Z Z) (r : option Z),
      set_all DEFAULT_COMPARE true [(2, Some 20); (1, Some 10); (2, Some 21)] empty = Done tt st
      ∧ has DEFAULT_COMPARE 2 st
        = Done (was_set DEFAULT_COMPARE 2 [(2, Some 20); (1, Some 10); (2, Some 21)]) st
      ∧ get DEFAULT_COMPARE 2 st = Done r st
      ∧ (true = true → r = last_set DEFAULT_COMPARE 2 [(2, Some 20); (1, Some 10); (2, Some 21)])
      ∧ (true = false →
           if was_set DEFAULT_COMPARE 2 [(2, Some 20); (1, Some 10); (2, Some 21)]
           then ∃ e, e ∈ [(2, Some 20); (1, Some 10); (2, Some 21)]
                  ∧ DEFAULT_COMPARE 2 e.1 = 0 ∧ r = e.2
           else r = None).
Proof.
  split; [exact DEFAULT_COMPARE_order|].
  apply (lookup_after_sets DEFAULT_COMPARE true [(2, Some 20); (1, Some 10); (2, Some 21)] 2).
  exact DEFAULT_COMPARE_order.
Defined.

(** C2 at the key 0: [delete] starts with [if (!this._root || !key) return
    false], and [!key] holds for the key 0.  The tree holds a node with the
    key 0, and [delete(0)] returns false and leaves it there. *)
Lemma delete_misses_present_key_zero :
  ∃ (st : AVLTree Z Z) (t : ptree Z Z),
    steps DEFAULT_COMPARE falsyZ false [OpSet 0 (Some 7); OpSet 5 (Some 8)] empty = Done tt st
    ∧ shape st = Some t
    ∧ inorder t = [(0, Some 7); (5, Some 8)]
    ∧ has DEFAULT_COMPARE 0 st = Done true st
    ∧ delete DEFAULT_COMPARE falsyZ 0 st = Done false st
    ∧ _size st = 2.
Proof.
  eexists _, _. split; [vm_compute; reflexivity|].
  split; [vm_compute; reflexivity|].
  split; [reflexivity|]. split; [vm_compute; reflexivity|].
  split; [vm_compute; reflexivity|reflexivity].
Qed.

(** C3 at the keys 1, 0, 2: after inserting the three keys and deleting
    each of them once, the node with the key 0 is still in the tree. *)
Lemma delete_all_leaves_key_zero :
  ∃ (st : AVLTree Z Z) (t : ptree Z Z),
    steps DEFAULT_COMPARE falsyZ false
      [OpSet 1 None; OpSet 0 None; OpSet 2 None; OpDelete 2; OpDelete 0; OpDelete 1] empty
      = Done tt st
    ∧ shape st = Some t
    ∧ inorder t = [(0, None)]
    ∧ _size st = 1
    ∧ _root st ≠ None.
Proof.
  eexists _, _. split; [vm_compute; reflexivity|].
  split; [vm_compute; reflexivity|].
  split; [reflexivity|]. split; [reflexivity|]. simpl. done.
Qed.

(** C9 at a tree whose minimum key is 0, and at one whose maximum key is 0:
    [shift] and [pop] return the entry and, because they remove it with
    [this.delete(node.key)], leave the node in the tree. *)
Lemma shift_and_pop_keep_key_zero :
  (∃ (st : AVLTree Z Z) (t : ptree Z Z),
     steps DEFAULT_COMPARE falsyZ false [OpSet 0 (Some 7); OpSet 5 (Some 8)] empty = Done tt st
     ∧ shape st = Some t
     ∧ inorder t = [(0, Some 7); (5, Some 8)]
     ∧ shift DEFAULT_COMPARE falsyZ st = Done (Some (0, Some 7)) st
     ∧ _size st = 2)
  ∧
  (∃ (st : AVLTree Z Z) (t : ptree Z Z),
     steps DEFAULT_COMPARE falsyZ false [OpSet 0 (Some 7); OpSet (-5) (Some 8)] empty = Done tt st
     ∧ shape st = Some t
     ∧ inorder t = [(-5, Some 8); (0, Some 7)]
     ∧ pop DEFAULT_COMPARE falsyZ st = Done (Some (0, Some 7)) st
     ∧ _size st = 2).
Proof.
  split.
  - eexists _, _. split; [vm_compute; reflexivity|].
    split; [vm_compute; reflexivity|].
    split; [reflexivity|]. split; [vm_compute; reflexivity|reflexivity].
  - eexists _, _. split; [vm_compute; reflexivity|].
    split; [vm_compute; reflexivity|].
    split; [reflexivity|]. split; [vm_compute; reflexivity|reflexivity].
Qed.

(** A tree with the keys 10, 20, 25, 30 and 40, built by [set]. *)
Definition example_tree : AVLTree Z Z :=
  match steps DEFAULT_COMPARE falsyZ false
          [OpSet 20 (Some 2); OpSet 10 (Some 1); OpSet 30 (Some 3); OpSet 40 (Some 4);
           OpSet 25 None] empty with
  | Done _ st => st
  | _ => empty
  end.

Definition example_shape : ptree Z Z :=
  PN 1%positive (PN 2%positive PE 10 (Some 1) 0 PE) 20 (Some 2) (-1)
    (PN 3%positive (PN 5%positive PE 25 None 0 PE) 30 (Some 3) 0
       (PN 4%positive PE 40 (Some 4) 0 PE)).

Lemma example_invariants : invariants DEFAULT_COMPARE false example_tree example_shape.
Proof.
  split; [vm_compute; reflexivity|]. split; [|split; [simpl; lia|reflexivity]].
  simpl. repeat split; repeat constructor; by vm_compute.
Qed.



(** C10: the query operations [has], [get], [min], [max], [minNode],
    [maxNode], [at], [keys], [values], [entries] and [isBalanced] never
    modify the tree.  Whatever the store and the arguments, a run that ends
    leaves the store (every object with its key, value, links and
    [balanceFactor]), [_root] and [_size] as they were; and on every store
    whose links form a tree each of them does end, with the result that the
    tree determines. *)
Theorem queries_leave_tree_unchanged {K V : Type} (compare : K → K → Z) (st : AVLTree K V) :
  ((∀ k, same_tree st (has compare k st))
   ∧ (∀ k, same_tree st (get compare k st))
   ∧ same_tree st (min st)
   ∧ same_tree st (max st)
   ∧ same_tree st (minNode st)
   ∧ same_tree st (maxNode st)
   ∧ (∀ i, same_tree st (at_ i st))
   ∧ same_tree st (keys st)
   ∧ same_tree st (values st)
   ∧ same_tree st (entries st)
   ∧ same_tree st (isBalanced st))
  ∧ (∀ t, shape st = Some t →
      (∀ k, has compare k st = Done (bool_decide (is_Some (tfind compare k t))) st)
      ∧ (∀ k, get compare k st = Done (tfind compare k t ≫= snd) st)
      ∧ min st = Done (fst <$> head (inorder t)) st
      ∧ max st = Done (fst <$> last (inorder t)) st
      ∧ minNode st = Done (head (nodes t)) st
      ∧ maxNode st = Done (last (nodes t)) st
      ∧ (∀ i, at_ i st = Done (index (nodes t) i) st)
      ∧ keys st = Done (tkeys t) st
      ∧ values st = Done ((inorder t).*2) st
      ∧ entries st = Done (inorder t) st
      ∧ isBalanced st = Done (balanced t) st).
Proof.
  split.
  - split; [intros k; apply readonly_has|].
    split; [intros k; apply readonly_get|].
    split; [apply readonly_min|]. split; [apply readonly_max|].
    split; [apply readonly_minNode|]. split; [apply readonly_maxNode|].
    split; [intros i; apply readonly_at|].
    split; [apply readonly_keys|]. split; [apply readonly_values|].
    split; [apply readonly_entries|apply readonly_isBalanced].
  - intros t [Hrep Hcl]%shape_Rep.
    split; [intros k; by apply has_tree|].
    split; [intros k; by apply get_tree|].
    split; [by apply min_tree|]. split; [by apply max_tree|].
    split; [by apply minNode_tree|]. split; [by apply maxNode_tree|].
    split; [intros i; by apply at_tree|].
    split; [by apply keys_tree|]. split; [by apply values_tree|].
    split; [by apply entries_tree|by apply isBalanced_tree].
Qed.

Lemma queries_leave_tree_unchanged_witness :
  shape example_tree = Some example_shape
  ∧ has DEFAULT_COMPARE 25 example_tree = Done true example_tree
  ∧ get DEFAULT_COMPARE 30 example_tree = Done (Some 3) example_tree
  ∧ min example_tree = Done (Some 10) example_tree
  ∧ max example_tree = Done (Some 40) example_tree
  ∧ at_ 2 example_tree = Done (Some 5%positive) example_tree
  ∧ keys example_tree = Done [10; 20; 25; 30; 40] example_tree
  ∧ isBalanced example_tree = Done true example_tree.
Proof.
  assert (Hshape : shape example_tree = Some example_shape) by (vm_compute; reflexivity).
  split; [exact Hshape|].
  destruct (proj2 (queries_leave_tree_unchanged DEFAULT_COMPARE example_tree)
              example_shape Hshape)
    as (Hhas & Hget & Hmin & Hmax & _ & _ & Hat & Hkeys & _ & _ & Hbal).
  split; [exact (Hhas 25)|]. split; [exact (Hget 30)|].
  split; [exact Hmin|]. split; [exact Hmax|]. split; [exact (Hat 2)|].
  split; [exact Hkeys|exact Hbal].
Defined.

Lemma sort_step {K V : Type} (compare : K → K → Z) fuel (a : arrays K V) left right :
  sort compare (S fuel) a left right
  = if right <=? left then Some a
    else
      pivot ← index (keysOf a) (Z.shiftr (left + right) 1);
      '(a, j) ← partition compare (S (S (length (keysOf a)))) (S (S (length (keysOf a))))
                  a pivot (left - 1) (right + 1);
      a ← sort compare fuel a left j;
      sort compare fuel a (j + 1) right.
Proof. reflexivity. Qed.

Lemma sort_empty_range {K V : Type} (compare : K → K → Z) fuel (a : arrays K V) left right :
  right ≤ left → sort compare fuel a left right = Some a.
Proof.
  intros Hle. destruct fuel; simpl; by rewrite (proj2 (Z.leb_le right left)).
Qed.

(** The array [[1, 3, 2, 4, 5]], handed to [load] as keys and as values. *)
Definition shared_example : arrays Z Z := Same [1; 3; 2; 4; 5] id.

(** C6, counterexample: [load(a, a, true)] with the one array
    [a = [1, 3, 2, 4, 5]] for keys and values, on the empty tree with the
    default comparator, does not return.  In [sort] the swap of the values
    undoes the swap of the keys, the array stays as it is, the loop ends
    with [j = 0], and [sort(a, a, 1, 4)] calls [sort(a, a, 1, 4)] again:
    with any amount of fuel the call of [sort] is the same call with less
    fuel, so that no amount of fuel lets [sort(a, a, 0, 4)] return. *)
Theorem load_same_array_never_returns :
  (∀ fuel, sort DEFAULT_COMPARE (S fuel) shared_example 1 4
           = sort DEFAULT_COMPARE fuel shared_example 1 4)
  ∧ (∀ fuel, sort DEFAULT_COMPARE fuel shared_example 0 4 = None)
  ∧ load_arrays DEFAULT_COMPARE shared_example true empty = Stuck.
Proof.
  assert (Hinner : partition DEFAULT_COMPARE 7 7 shared_example 2 0 5
                   = Some (shared_example, 0)) by (vm_compute; reflexivity).
  assert (Houter : partition DEFAULT_COMPARE 7 7 shared_example 2 (-1) 5
                   = Some (shared_example, 0)) by (vm_compute; reflexivity).
  assert (Hstep : ∀ fuel, sort DEFAULT_COMPARE (S fuel) shared_example 1 4
                          = sort DEFAULT_COMPARE fuel shared_example 1 4).
  { intros fuel. rewrite sort_step.
    change (4 <=? 1) with false. cbv iota.
    change (index (keysOf shared_example) (Z.shiftr (1 + 4) 1)) with (Some 2).
    cbn [mbind option_bind].
    change (S (S (length (keysOf shared_example)))) with 7%nat.
    change (1 - 1) with 0. change (4 + 1) with 5. rewrite Hinner.
    cbn [mbind option_bind]. rewrite sort_empty_range by lia.
    cbn [mbind option_bind]. reflexivity. }
  assert (Hnever : ∀ fuel, sort DEFAULT_COMPARE fuel shared_example 1 4 = None).
  { induction fuel as [|fuel IH]; [reflexivity|]. by rewrite Hstep. }
  split; [exact Hstep|]. split.
  - intros [|fuel]; [reflexivity|]. rewrite sort_step.
    change (4 <=? 0) with false. cbv iota.
    change (index (keysOf shared_example) (Z.shiftr (0 + 4) 1)) with (Some 2).
    cbn [mbind option_bind].
    change (S (S (length (keysOf shared_example)))) with 7%nat.
    change (0 - 1) with (-1). change (4 + 1) with 5. rewrite Houter.
    cbn [mbind option_bind]. rewrite sort_empty_range by lia.
    cbn [mbind option_bind]. apply Hnever.
  - vm_compute. reflexivity.
Qed.

(** C6: [load] on a tree whose size is not 0 throws (the error of [load]:
    'bulk-load: tree is not empty') and leaves the store, [_root] and
    [_size] exactly as they were, whatever the arrays and [presort]; on a
    tree whose size is 0, with key and value sequences of equal length, it
    returns, provided that with [presort] the keys and the values are two
    arrays (not one array handed over for both) and the comparator is a
    total order. *)
Theorem load_requires_empty_tree {K V : Type} (compare : K → K → Z)
    (a : arrays K V) (presort : bool) (st : AVLTree K V) :
  (_size st ≠ 0 →
     load_arrays compare a presort st = Thrown "bulk-load: tree is not empty"%string st)
  ∧ (_size st = 0 → length (valuesOf a) = length (keysOf a) →
     (presort = true → total_order compare ∧ ∃ ks vs, a = Apart ks vs) →
     ∃ st', load_arrays compare a presort st = Done tt st'
       ∧ _size st' = Z.of_nat (length (keysOf a))).
Proof.
  split.
  - intros Hsize. destruct st as [h R sz]. simpl in Hsize.
    unfold load_arrays. rewrite run_getSize.
    destruct (Z.eqb_spec sz 0) as [?|_]; [done|]. reflexivity.
  - intros Hsize Hlen Hpre. destruct presort.
    + destruct (Hpre eq_refl) as (Hcmp & ks & vs & ->). cbn [keysOf valuesOf] in *.
      destruct (load_presorted compare ks vs st Hcmp Hlen Hsize)
        as (st' & t & ks' & vs' & Hrun & _ & _ & _ & _ & Hsz).
      by exists st'.
    + destruct (load_arrays_unsorted compare a st Hsize)
        as (st' & t & Hrun & _ & _ & _ & Hsz).
      by exists st'.
Qed.

Lemma load_requires_empty_tree_witness :
  (_size example_tree ≠ 0
   ∧ load_arrays DEFAULT_COMPARE (Apart [1; 2] [10; 20]) false example_tree
     = Thrown "bulk-load: tree is not empty"%string example_tree)
  ∧ (_size (empty : AVLTree Z Z) = 0 ∧ length [30; 10; 20] = length [3; 1; 2]
     ∧ total_order DEFAULT_COMPARE
     ∧ ∃ st', load_arrays DEFAULT_COMPARE (Apart [3; 1; 2] [30; 10; 20]) true empty
              = Done tt st'
         ∧ _size st' = 3).
Proof.
  split.
  - assert (Hsize : _size example_tree ≠ 0) by (vm_compute; discriminate).
    split; [exact Hsize|].
    exact (proj1 (load_requires_empty_tree DEFAULT_COMPARE (Apart [1; 2] [10; 20]) false
                    example_tree) Hsize).
  - split; [reflexivity|]. split; [reflexivity|]. split; [exact DEFAULT_COMPARE_order|].
    exact (proj2 (load_requires_empty_tree DEFAULT_COMPARE (Apart [3; 1; 2] [30; 10; 20]) true
                    empty)
             eq_refl eq_refl
             (λ _, conj DEFAULT_COMPARE_order (ex_intro _ [3; 1; 2] (ex_intro _ [30; 10; 20] eq_refl)))).
Defined.

(** C7: for every key sequence that is sorted by the comparator (a total
    order) without duplicates, that is, strictly ascending, and every value
    sequence of the same length: [load] of the two sequences into an empty
    tree, and [set] of the same pairs one after the other into another empty
    tree (in either mode), both return; the in-order traversals [entries()]
    of the two trees produce the same sequence, the pairs in the order given;
    and the two trees have the same size. *)
Theorem load_agrees_with_set {K V : Type} (compare : K → K → Z) (noDuplicates : bool)
    (ks : list K) (vs : list V) :
  total_order compare → sorted compare true ks → length vs = length ks →
  ∃ st_load st_set : AVLTree K V,
    load compare ks vs false empty = Done tt st_load
    ∧ set_all compare noDuplicates (zip ks (Some <$> vs)) empty = Done tt st_set
    ∧ entries st_load = Done (zip ks (Some <$> vs)) st_load
    ∧ entries st_set = Done (zip ks (Some <$> vs)) st_set
    ∧ _size st_load = _size st_set.
Proof.
  intros Hcmp Hsorted Hlen.
  destruct (load_unsorted compare ks vs empty eq_refl)
    as (st1 & t1 & Hrun1 & Hrep1 & Hcl1 & Hin1 & Hsz1).
  rewrite load_entries_zip in Hin1 by done.
  destruct (set_all_ascending compare noDuplicates Hcmp (zip ks (Some <$> vs)) [] empty PE)
    as (st2 & t2 & Hrun2 & HI2 & Hin2).
  { simpl. rewrite fst_zip; [done|]. rewrite length_fmap. lia. }
  { apply Inv_empty. }
  { done. }
  simpl in Hin2. destruct HI2 as [Hrep2 Hcl2 _ _ Hsz2].
  exists st1, st2. split; [done|]. split; [done|].
  split; [by rewrite (entries_tree st1 t1), Hin1|].
  split; [by rewrite (entries_tree st2 t2), Hin2|].
  rewrite Hsz1, Hsz2, count_inorder, Hin2, length_zip, length_fmap. lia.
Qed.

Lemma load_agrees_with_set_witness :
  total_order DEFAULT_COMPARE ∧ sorted DEFAULT_COMPARE true [1; 2; 3]
  ∧ length [10; 20; 30] = length [1; 2; 3]
  ∧ ∃ st_load st_set : AVLTree Z Z,
      load DEFAULT_COMPARE [1; 2; 3] [10; 20; 30] false empty = Done tt st_load
      ∧ set_all DEFAULT_COMPARE false (zip [1; 2; 3] (Some <$> [10; 20; 30])) empty
        = Done tt st_set
      ∧ entries st_load = Done (zip [1; 2; 3] (Some <$> [10; 20; 30])) st_load
      ∧ entries st_set = Done (zip [1; 2; 3] (Some <$> [10; 20; 30])) st_set
      ∧ _size st_load = _size st_set.
Proof.
  assert (Hs : sorted DEFAULT_COMPARE true [1; 2; 3]).
  { repeat constructor; reflexivity. }
  split; [exact DEFAULT_COMPARE_order|]. split; [exact Hs|]. split; [reflexivity|].
  exact (load_agrees_with_set DEFAULT_COMPARE false [1; 2; 3] [10; 20; 30]
           DEFAULT_COMPARE_order Hs eq_refl).
Defined.

(** * Further properties of the code *)

(** X1: [keys()] after any sequence of set/insert and delete operations on
    an initially empty tree (comparator a total order) returns the keys in
    the order of the comparator, non-decreasing, and strictly increasing
    when the tree rejects duplicates; their number is [size]. *)
Theorem keys_in_order_after_operations {K V : Type} (compare : K → K → Z) (falsy : K → bool)
    (noDuplicates : bool) (ops : list (op (K:=K) (V:=V))) :
  total_order compare →
  ∃ (st : AVLTree K V) (l : list K),
    steps compare falsy noDuplicates ops empty = Done tt st
    ∧ keys st = Done l st
    ∧ StronglySorted (λ a b, if noDuplicates then compare a b < 0 else compare a b ≤ 0) l
    ∧ Z.of_nat (length l) = _size st.
Proof.
  intros Hcmp.
  destruct (steps_Inv compare falsy noDuplicates Hcmp ops empty PE) as (st & t & Hrun & HI).
  { apply Inv_empty. }
  destruct HI as [Hrep Hclean _ Hs Hsize].
  exists st, (tkeys t). split; [done|]. split; [by apply keys_tree|].
  split; [|by rewrite length_tkeys].
  unfold sorted in Hs. by destruct noDuplicates.
Qed.

Lemma keys_in_order_after_operations_witness :
  total_order DEFAULT_COMPARE
  ∧ ∃ (st : AVLTree Z Z) (l : list Z),
      steps DEFAULT_COMPARE falsyZ false
        [OpSet 3 None; OpSet 1 None; OpSet 2 None; OpSet 1 None; OpDelete 3] empty = Done tt st
      ∧ keys st = Done l st
      ∧ StronglySorted (λ a b, if false then DEFAULT_COMPARE a b < 0
                               else DEFAULT_COMPARE a b ≤ 0) l
      ∧ Z.of_nat (length l) = _size st.
Proof.
  split; [exact DEFAULT_COMPARE_order|].
  exact (keys_in_order_after_operations DEFAULT_COMPARE falsyZ false
           [OpSet 3 None; OpSet 1 None; OpSet 2 None; OpSet 1 None; OpDelete 3]
           DEFAULT_COMPARE_order).
Defined.

(** X2: on a tree that satisfies the invariants, [min()] returns the first
    and [max()] the last key of [keys()]: [undefined] on the empty tree,
    otherwise a key of the tree that compares less-or-equal (greater-or-equal)
    to every key of the tree; [minNode()] and [maxNode()] return the nodes
    that hold them. *)
Theorem min_max_are_the_ends {K V : Type} (compare : K → K → Z) (noDuplicates : bool)
    (st : AVLTree K V) (t : ptree K V) :
  total_order compare → invariants compare noDuplicates st t →
  ∃ l : list K,
    keys st = Done l st
    ∧ min st = Done (head l) st ∧ max st = Done (last l) st
    ∧ minNode st = Done (head (nodes t)) st ∧ maxNode st = Done (last (nodes t)) st
    ∧ (∀ lo, head l = Some lo → Forall (λ k, compare lo k ≤ 0) l)
    ∧ (∀ hi, last l = Some hi → Forall (λ k, compare k hi ≤ 0) l).
Proof.
  intros Hcmp Hinv. apply (invariants_Inv compare noDuplicates Hcmp) in Hinv as HI.
  destruct HI as [Hrep Hclean _ Hs _].
  exists (tkeys t). split; [by apply keys_tree|].
  split; [by rewrite head_tkeys; apply min_tree|].
  split; [by rewrite last_tkeys; apply max_tree|].
  split; [by apply minNode_tree|]. split; [by apply maxNode_tree|].
  split; intros k Hk.
  - by eapply sorted_head_least.
  - by eapply sorted_last_greatest.
Qed.

Lemma min_max_are_the_ends_witness :
  total_order DEFAULT_COMPARE ∧ invariants DEFAULT_COMPARE false example_tree example_shape
  ∧ ∃ l : list Z,
      keys example_tree = Done l example_tree
      ∧ min example_tree = Done (head l) example_tree
      ∧ max example_tree = Done (last l) example_tree
      ∧ minNode example_tree = Done (head (nodes example_shape)) example_tree
      ∧ maxNode example_tree = Done (last (nodes example_shape)) example_tree
      ∧ (∀ lo, head l = Some lo → Forall (λ k, DEFAULT_COMPARE lo k ≤ 0) l)
      ∧ (∀ hi, last l = Some hi → Forall (λ k, DEFAULT_COMPARE k hi ≤ 0) l).
Proof.
  split; [exact DEFAULT_COMPARE_order|]. split; [exact example_invariants|].
  exact (min_max_are_the_ends DEFAULT_COMPARE false example_tree example_shape
           DEFAULT_COMPARE_order example_invariants).
Defined.

Lemma example_invariants_strict : invariants DEFAULT_COMPARE true example_tree example_shape.
Proof.
  split; [vm_compute; reflexivity|]. split; [|split; [simpl; lia|reflexivity]].
  simpl. repeat split; repeat constructor; by vm_compute.
Qed.

(** X3: [set(key, value)] on a tree that satisfies the invariants returns
    and keeps them; afterwards [has(key)] is true and, when the tree rejects
    duplicates, [get(key)] is the value; for every key that does not compare
    equal, [has] answers as before and (when duplicates are rejected) so
    does [get]; [size] grows by one, except that it stays when the tree
    rejects duplicates and already holds the key. *)
Theorem set_then_lookup {K V : Type} (compare : K → K → Z) (noDuplicates : bool)
    (st : AVLTree K V) (t : ptree K V) (k : K) (v : option V) :
  total_order compare → invariants compare noDuplicates st t →
  ∃ (st' : AVLTree K V) (t' : ptree K V) (b : bool),
    set compare noDuplicates k v st = Done tt st'
    ∧ invariants compare noDuplicates st' t'
    ∧ has compare k st' = Done true st'
    ∧ (noDuplicates = true → get compare k st' = Done v st')
    ∧ (∀ k', compare k' k ≠ 0 →
         ∃ b', has compare k' st = Done b' st ∧ has compare k' st' = Done b' st')
    ∧ (noDuplicates = true → ∀ k', compare k' k ≠ 0 →
         ∃ r, get compare k' st = Done r st ∧ get compare k' st' = Done r st')
    ∧ has compare k st = Done b st
    ∧ _size st' = _size st + (if noDuplicates && b then 0 else 1).
Proof.
  intros Hcmp Hinv. apply (invariants_Inv compare noDuplicates Hcmp) in Hinv as HI.
  destruct (set_Inv compare noDuplicates Hcmp k v st t HI)
    as (st' & t' & ins & Hrun & HI' & Hent & Hsz).
  pose proof (Inv_weak _ _ _ _ HI) as Hw. pose proof (Inv_weak _ _ _ _ HI') as Hw'.
  pose proof (inv_sorted _ _ _ _ HI) as Hs. pose proof (inv_sorted _ _ _ _ HI') as Hs'.
  destruct HI as [Hrep Hcl _ _ _]. pose proof HI' as [Hrep' Hcl' _ _ _].
  exists st', t', (bool_decide (is_Some (tfind compare k t))).
  split; [done|]. split; [by apply invariants_Inv|].
  destruct (set_entries_key compare Hcmp _ _ _ _ _ _ Hent) as (k0 & Hin0 & Hk0).
  split; [|split; [|split; [|split; [|split]]]].
  - rewrite (has_tree compare k st' t' Hrep' Hcl'). f_equal. apply bool_decide_eq_true.
    apply tfind_present; [done..|]. apply Exists_exists. by exists (k0, v).
  - intros Hmode. rewrite Hmode in Hs'.
    rewrite (get_tree compare k st' t' Hrep' Hcl').
    by rewrite (tfind_unique compare Hcmp k t' (k0, v)).
  - intros k' Hne. exists (bool_decide (is_Some (tfind compare k' t))).
    split; [by apply has_tree|].
    rewrite (has_tree compare k' st' t' Hrep' Hcl'). f_equal. apply bool_decide_ext.
    rewrite !(tfind_is_Some_iff compare Hcmp) by done. symmetry.
    apply present_same. intros e He. by eapply set_entries_other.
  - intros Hmode k' Hne. rewrite Hmode in Hs, Hs'.
    exists (tfind compare k' t ≫= snd). split; [by apply get_tree|].
    rewrite (get_tree compare k' st' t' Hrep' Hcl'). f_equal. f_equal. symmetry.
    apply (tfind_same compare Hcmp); [done..|]. intros e He. by eapply set_entries_other.
  - by apply has_tree.
  - rewrite Hsz. rewrite (set_entries_ins compare Hcmp _ _ _ _ _ _ Hent).
    rewrite (bool_decide_ext _ _ (tfind_is_Some_iff compare Hcmp k t Hw)).
    by destruct (noDuplicates && _).
Qed.

Lemma set_then_lookup_witness :
  total_order DEFAULT_COMPARE ∧ invariants DEFAULT_COMPARE true example_tree example_shape
  ∧ ∃ (st' : AVLTree Z Z) (t' : ptree Z Z) (b : bool),
      set DEFAULT_COMPARE true 25 (Some 7) example_tree = Done tt st'
      ∧ invariants DEFAULT_COMPARE true st' t'
      ∧ has DEFAULT_COMPARE 25 st' = Done true st'
      ∧ (true = true → get DEFAULT_COMPARE 25 st' = Done (Some 7) st')
      ∧ (∀ k', DEFAULT_COMPARE k' 25 ≠ 0 →
           ∃ b', has DEFAULT_COMPARE k' example_tree = Done b' example_tree
                 ∧ has DEFAULT_COMPARE k' st' = Done b' st')
      ∧ (true = true → ∀ k', DEFAULT_COMPARE k' 25 ≠ 0 →
           ∃ r, get DEFAULT_COMPARE k' example_tree = Done r example_tree
                ∧ get DEFAULT_COMPARE k' st' = Done r st')
      ∧ has DEFAULT_COMPARE 25 example_tree = Done b example_tree
      ∧ _size st' = _size example_tree + (if true && b then 0 else 1).
Proof.
  split; [exact DEFAULT_COMPARE_order|]. split; [exact example_invariants_strict|].
  exact (set_then_lookup DEFAULT_COMPARE true example_tree example_shape 25 (Some 7)
           DEFAULT_COMPARE_order example_invariants_strict).
Defined.

(** X4: [delete(key)] on a tree that satisfies the invariants returns true
    exactly when the key is not falsy and [has(key)] is true.  Then one entry
    whose key compares equal leaves [entries()], the others stay in their
    order, [size] decreases by one and the invariants hold again; when the
    tree rejects duplicates [has(key)] is false afterwards.  For every key
    that does not compare equal, [has] answers as before and (when duplicates
    are rejected) so does [get].  When it returns false nothing has
    changed. *)
Theorem delete_removes_one_entry {K V : Type} (compare : K → K → Z) (falsy : K → bool)
    (noDuplicates : bool) (st : AVLTree K V) (t : ptree K V) (k : K) :
  total_order compare → invariants compare noDuplicates st t →
  ∃ (b : bool) (st' : AVLTree K V) (t' : ptree K V) (old new : list (K * option V)),
    has compare k st = Done b st
    ∧ delete compare falsy k st = Done (b && negb (falsy k)) st'
    ∧ invariants compare noDuplicates st' t'
    ∧ entries st = Done old st ∧ entries st' = Done new st'
    ∧ (if b && negb (falsy k)
       then _size st' = _size st - 1
            ∧ ∃ l1 e l2, old = l1 ++ e :: l2 ∧ new = l1 ++ l2 ∧ compare k e.1 = 0
       else st' = st)
    ∧ (falsy k = false → noDuplicates = true → has compare k st' = Done false st')
    ∧ (∀ k', compare k' k ≠ 0 →
         ∃ b', has compare k' st = Done b' st ∧ has compare k' st' = Done b' st')
    ∧ (noDuplicates = true → ∀ k', compare k' k ≠ 0 →
         ∃ r, get compare k' st = Done r st ∧ get compare k' st' = Done r st').
Proof.
  intros Hcmp Hinv. apply (invariants_Inv compare noDuplicates Hcmp) in Hinv as HI.
  pose proof (Inv_weak _ _ _ _ HI) as Hw. pose proof (inv_sorted _ _ _ _ HI) as Hs.
  pose proof HI as [Hrep Hcl _ _ _].
  assert (Hsame : ∀ b, delete compare falsy k st = Done b st →
            b = bool_decide (is_Some (tfind compare k t)) && negb (falsy k) →
            b = false → (falsy k = false → ¬ present compare k (inorder t)) →
            ∃ (b : bool) st' t' old new,
              has compare k st = Done b st
              ∧ delete compare falsy k st = Done (b && negb (falsy k)) st'
              ∧ invariants compare noDuplicates st' t'
              ∧ entries st = Done old st ∧ entries st' = Done new st'
              ∧ (if b && negb (falsy k)
                 then _size st' = _size st - 1
                      ∧ ∃ l1 e l2, old = l1 ++ e :: l2 ∧ new = l1 ++ l2 ∧ compare k e.1 = 0
                 else st' = st)
              ∧ (falsy k = false → noDuplicates = true → has compare k st' = Done false st')
              ∧ (∀ k', compare k' k ≠ 0 →
                   ∃ b', has compare k' st = Done b' st ∧ has compare k' st' = Done b' st')
              ∧ (noDuplicates = true → ∀ k', compare k' k ≠ 0 →
                   ∃ r, get compare k' st = Done r st ∧ get compare k' st' = Done r st')).
  { intros b Hrun Hb Hfalse Habs.
    exists (bool_decide (is_Some (tfind compare k t))), st, t, (inorder t), (inorder t).
    rewrite <- Hb, Hfalse.
    split; [by apply has_tree|]. split; [by rewrite <- Hfalse|]. split; [done|].
    split; [by apply entries_tree|]. split; [by apply entries_tree|]. split; [done|].
    split; [|split].
    - intros Hk _. rewrite (has_tree compare k st t Hrep Hcl). f_equal.
      apply bool_decide_eq_false. rewrite (tfind_is_Some_iff compare Hcmp) by done. auto.
    - intros k' _. eexists. split; by apply has_tree.
    - intros _ k' _. eexists. split; by apply get_tree. }
  destruct (falsy k) eqn:Hk.
  { apply (Hsame false); [by apply delete_falsy|by rewrite andb_false_r|done|done]. }
  destruct (tfind compare k t) as [e|] eqn:Hfind.
  2:{ assert (Hnp : ¬ present compare k (inorder t)).
      { intros Hp. apply (tfind_present compare Hcmp k t Hw) in Hp as [? Hp]. congruence. }
      apply (Hsame false); [by eapply delete_missing| |done|done].
      rewrite bool_decide_false; [done|]. by intros [? ?]. }
  clear Hsame.
  assert (Hp : present compare k (inorder t)).
  { apply tfind_Some in Hfind as [He Hke]. apply Exists_exists. eauto. }
  destruct (delete_present compare falsy noDuplicates Hcmp k st t HI Hk Hp)
    as (st' & t' & Hrun & HI' & Hent & Hsz).
  pose proof (Inv_weak _ _ _ _ HI') as Hw'. pose proof (inv_sorted _ _ _ _ HI') as Hs'.
  pose proof HI' as [Hrep' Hcl' _ _ _].
  exists true, st', t', (inorder t), (inorder t'). simpl.
  split. { rewrite (has_tree compare k st t Hrep Hcl). f_equal. apply bool_decide_eq_true.
           rewrite Hfind. eauto. }
  split; [done|]. split; [by apply invariants_Inv|].
  split; [by apply entries_tree|]. split; [by apply entries_tree|].
  split; [|split; [|split]].
  - split; [done|]. destruct Hent as (l1 & k0 & v0 & l2 & ? & ? & ?).
    by exists l1, (k0, v0), l2.
  - intros _ Hmode. rewrite Hmode in Hs.
    rewrite (has_tree compare k st' t' Hrep' Hcl'). f_equal.
    apply bool_decide_eq_false. rewrite (tfind_is_Some_iff compare Hcmp) by done.
    by eapply delete_entries_gone.
  - intros k' Hne. exists (bool_decide (is_Some (tfind compare k' t))).
    split; [by apply has_tree|].
    rewrite (has_tree compare k' st' t' Hrep' Hcl'). f_equal. apply bool_decide_ext.
    rewrite !(tfind_is_Some_iff compare Hcmp) by done. symmetry.
    apply present_same. intros e' He'. by eapply delete_entries_other.
  - intros Hmode k' Hne. rewrite Hmode in Hs, Hs'.
    exists (tfind compare k' t ≫= snd). split; [by apply get_tree|].
    rewrite (get_tree compare k' st' t' Hrep' Hcl'). f_equal. f_equal. symmetry.
    apply (tfind_same compare Hcmp); [done..|]. intros e' He'. by eapply delete_entries_other.
Qed.

Lemma delete_removes_one_entry_witness :
  total_order DEFAULT_COMPARE ∧ invariants DEFAULT_COMPARE false example_tree example_shape
  ∧ ∃ (b : bool) (st' : AVLTree Z Z) (t' : ptree Z Z) (old new : list (Z * option Z)),
      has DEFAULT_COMPARE 30 example_tree = Done b example_tree
      ∧ delete DEFAULT_COMPARE falsyZ 30 example_tree = Done (b && negb (falsyZ 30)) st'
      ∧ invariants DEFAULT_COMPARE false st' t'
      ∧ entries example_tree = Done old example_tree ∧ entries st' = Done new st'
      ∧ (if b && negb (falsyZ 30)
         then _size st' = _size example_tree - 1
              ∧ ∃ l1 e l2, old = l1 ++ e :: l2 ∧ new = l1 ++ l2 ∧ DEFAULT_COMPARE 30 e.1 = 0
         else st' = example_tree)
      ∧ (falsyZ 30 = false → false = true → has DEFAULT_COMPARE 30 st' = Done false st')
      ∧ (∀ k', DEFAULT_COMPARE k' 30 ≠ 0 →
           ∃ b', has DEFAULT_COMPARE k' example_tree = Done b' example_tree
                 ∧ has DEFAULT_COMPARE k' st' = Done b' st')
      ∧ (false = true → ∀ k', DEFAULT_COMPARE k' 30 ≠ 0 →
           ∃ r, get DEFAULT_COMPARE k' example_tree = Done r example_tree
                ∧ get DEFAULT_COMPARE k' st' = Done r st').
Proof.
  split; [exact DEFAULT_COMPARE_order|]. split; [exact example_invariants|].
  exact (delete_removes_one_entry DEFAULT_COMPARE falsyZ false example_tree example_shape 30
           DEFAULT_COMPARE_order example_invariants).
Defined.

(** X5: [shift()] and [pop()] on a tree that satisfies the invariants.  On
    the empty tree they return [undefined].  Otherwise [shift] returns the
    first entry of [entries()] and [pop] the last one; when the key of that
    entry is falsy the tree stays as it is; when it is not, one entry whose
    key compares equal leaves [entries()] (the returned entry itself when
    the tree rejects duplicates, so that what is left is the rest of the
    sequence), [size] decreases by one and the invariants hold again. *)
Theorem shift_pop_take_the_ends {K V : Type} (compare : K → K → Z) (falsy : K → bool)
    (noDuplicates : bool) (st : AVLTree K V) (t : ptree K V) :
  total_order compare → invariants compare noDuplicates st t →
  ∃ l : list (K * option V),
    entries st = Done l st
    ∧ (l = [] → shift compare falsy st = Done None st ∧ pop compare falsy st = Done None st)
    ∧ (∀ k v rest, l = (k, v) :: rest →
         if falsy k then shift compare falsy st = Done (Some (k, v)) st
         else ∃ st' t' new,
           shift compare falsy st = Done (Some (k, v)) st'
           ∧ invariants compare noDuplicates st' t'
           ∧ entries st' = Done new st'
           ∧ _size st' = _size st - 1
           ∧ (∃ l1 e l2, l = l1 ++ e :: l2 ∧ new = l1 ++ l2 ∧ compare k e.1 = 0)
           ∧ (noDuplicates = true → new = rest))
    ∧ (∀ k v init, l = init ++ [(k, v)] →
         if falsy k then pop compare falsy st = Done (Some (k, v)) st
         else ∃ st' t' new,
           pop compare falsy st = Done (Some (k, v)) st'
           ∧ invariants compare noDuplicates st' t'
           ∧ entries st' = Done new st'
           ∧ _size st' = _size st - 1
           ∧ (∃ l1 e l2, l = l1 ++ e :: l2 ∧ new = l1 ++ l2 ∧ compare k e.1 = 0)
           ∧ (noDuplicates = true → new = init)).
Proof.
  intros Hcmp Hinv. apply (invariants_Inv compare noDuplicates Hcmp) in Hinv as HI.
  pose proof (inv_sorted _ _ _ _ HI) as Hs. pose proof HI as [Hrep Hcl _ _ _].
  exists (inorder t). split; [by apply entries_tree|]. split; [|split].
  - intros Hnil. destruct t as [|p l k v b r|]; [|simpl in Hnil; by destruct (inorder l)|done].
    destruct Hrep as (_ & _ & Hroot). split; [by apply shift_empty|by apply pop_empty].
  - intros k v rest Hl.
    destruct (shift_tree compare falsy noDuplicates Hcmp st t k v HI) as [Hgo Hstay].
    { by rewrite Hl. }
    destruct (falsy k); [by apply Hstay|].
    destruct (Hgo eq_refl) as (st' & t' & Hrun & HI' & Hent & Hsz).
    pose proof HI' as [Hrep' Hcl' _ _ _].
    exists st', t', (inorder t'). split; [done|]. split; [by apply invariants_Inv|].
    split; [by apply entries_tree|]. split; [done|]. split.
    + destruct Hent as (l1 & k0 & v0 & l2 & ? & ? & ?). by exists l1, (k0, v0), l2.
    + intros Hmode. rewrite Hmode in Hs. unfold tkeys in Hs. rewrite Hl in Hs, Hent.
      by eapply delete_entries_head.
  - intros k v init Hl.
    destruct (pop_tree compare falsy noDuplicates Hcmp st t k v HI) as [Hgo Hstay].
    { by rewrite Hl, last_snoc. }
    destruct (falsy k); [by apply Hstay|].
    destruct (Hgo eq_refl) as (st' & t' & Hrun & HI' & Hent & Hsz).
    pose proof HI' as [Hrep' Hcl' _ _ _].
    exists st', t', (inorder t'). split; [done|]. split; [by apply invariants_Inv|].
    split; [by apply entries_tree|]. split; [done|]. split.
    + destruct Hent as (l1 & k0 & v0 & l2 & ? & ? & ?). by exists l1, (k0, v0), l2.
    + intros Hmode. rewrite Hmode in Hs. unfold tkeys in Hs. rewrite Hl in Hs, Hent.
      by eapply delete_entries_last.
Qed.

Lemma shift_pop_take_the_ends_witness :
  total_order DEFAULT_COMPARE ∧ invariants DEFAULT_COMPARE true example_tree example_shape
  ∧ ∃ l : list (Z * option Z),
      entries example_tree = Done l example_tree
      ∧ (l = [] → shift DEFAULT_COMPARE falsyZ example_tree = Done None example_tree
                  ∧ pop DEFAULT_COMPARE falsyZ example_tree = Done None example_tree)
      ∧ (∀ k v rest, l = (k, v) :: rest →
           if falsyZ k then shift DEFAULT_COMPARE falsyZ example_tree
                            = Done (Some (k, v)) example_tree
           else ∃ st' t' new,
             shift DEFAULT_COMPARE falsyZ example_tree = Done (Some (k, v)) st'
             ∧ invariants DEFAULT_COMPARE true st' t'
             ∧ entries st' = Done new st'
             ∧ _size st' = _size example_tree - 1
             ∧ (∃ l1 e l2, l = l1 ++ e :: l2 ∧ new = l1 ++ l2 ∧ DEFAULT_COMPARE k e.1 = 0)
             ∧ (true = true → new = rest))
      ∧ (∀ k v init, l = init ++ [(k, v)] →
           if falsyZ k then pop DEFAULT_COMPARE falsyZ example_tree
                            = Done (Some (k, v)) example_tree
           else ∃ st' t' new,
             pop DEFAULT_COMPARE falsyZ example_tree = Done (Some (k, v)) st'
             ∧ invariants DEFAULT_COMPARE true st' t'
             ∧ entries st' = Done new st'
             ∧ _size st' = _size example_tree - 1
             ∧ (∃ l1 e l2, l = l1 ++ e :: l2 ∧ new = l1 ++ l2 ∧ DEFAULT_COMPARE k e.1 = 0)
             ∧ (true = true → new = init)).
Proof.
  split; [exact DEFAULT_COMPARE_order|]. split; [exact example_invariants_strict|].
  exact (shift_pop_take_the_ends DEFAULT_COMPARE falsyZ true example_tree example_shape
           DEFAULT_COMPARE_order example_invariants_strict).
Defined.

(** * Traversal by index and by neighbour *)

Lemma example_shape_ok : shape example_tree = Some example_shape.
Proof. vm_compute. reflexivity. Qed.

(** X6: [forEach(callback)] on a tree whose links are well formed, for a
    callback that leaves the tree as it is: the callback is called on the
    nodes in the order of [keys()] (the i-th node visited holds the i-th
    key), with the indices 0, 1, 2, ..., and the traversal stops after the
    first call that returns a truthy value. *)
Theorem forEach_visits_in_order {K V A : Type} (st : AVLTree K V) (t : ptree K V) :
  shape st = Some t →
  ∃ ks : list K,
    keys st = Done ks st
    ∧ length (nodes t) = length ks
    ∧ (∀ i p, nodes t !! i = Some p →
         ∃ n, heap st !! p = Some n ∧ ks !! i = Some (key n))
    ∧ ∀ (f : ptr → Z → A → bool * A) (callback : ptr → Z → A → M K V (bool * A)) (acc : A),
        (∀ p i a, callback p i a st = Done (f p i a) st) →
        forEach callback acc st = Done (forEach_outcome (forEach_walk f (nodes t) 0 acc)) st.
Proof.
  intros [Hrep Hcl]%shape_Rep. exists (tkeys t).
  destruct (nodes_hold_keys st t Hrep) as [Hlen Hcell].
  split; [by apply keys_tree|]. split; [done|]. split; [done|].
  intros f callback acc Hcb. by apply forEach_tree.
Qed.

Lemma forEach_visits_in_order_witness :
  shape example_tree = Some example_shape
  ∧ ∃ ks : list Z,
      keys example_tree = Done ks example_tree
      ∧ length (nodes example_shape) = length ks
      ∧ (∀ i p, nodes example_shape !! i = Some p →
           ∃ n, heap example_tree !! p = Some n ∧ ks !! i = Some (key n))
      ∧ ∀ (f : ptr → Z → list Z → bool * list Z)
          (callback : ptr → Z → list Z → M Z Z (bool * list Z)) (acc : list Z),
          (∀ p i a, callback p i a example_tree = Done (f p i a) example_tree) →
          forEach callback acc example_tree
          = Done (forEach_outcome (forEach_walk f (nodes example_shape) 0 acc)) example_tree.
Proof.
  split; [exact example_shape_ok|].
  exact (forEach_visits_in_order example_tree example_shape example_shape_ok).
Defined.



(** X8: [AVLTree.next(node)] and [AVLTree.prev(node)] on a node of a tree
    whose links are well formed return the node visited immediately after,
    respectively before, it in the in-order traversal, and [undefined] for
    the last, respectively the first, node. *)
Theorem next_prev_are_the_neighbours {K V : Type} (st : AVLTree K V) (t : ptree K V)
    (l1 l2 : list ptr) (p : ptr) :
  shape st = Some t → nodes t = l1 ++ p :: l2 →
  next (Some p) st = Done (head l2) st ∧ prev (Some p) st = Done (last l1) st.
Proof.
  intros [Hrep Hcl]%shape_Rep Hsplit.
  split; [by eapply next_tree|by eapply prev_tree].
Qed.

Lemma next_prev_are_the_neighbours_witness :
  shape example_tree = Some example_shape
  ∧ nodes example_shape = [2; 1]%positive ++ 5%positive :: [3; 4]%positive
  ∧ next (Some 5%positive) example_tree = Done (head [3; 4]%positive) example_tree
  ∧ prev (Some 5%positive) example_tree = Done (last [2; 1]%positive) example_tree.
Proof.
  split; [exact example_shape_ok|]. split; [reflexivity|].
  exact (next_prev_are_the_neighbours example_tree example_shape [2; 1]%positive
           [3; 4]%positive 5%positive example_shape_ok eq_refl).
Defined.

Lemma count_nonneg {K V : Type} (t : ptree K V) : 0 ≤ count t.
Proof. rewrite count_inorder. lia. Qed.

(** X9: after any sequence of set/insert and delete operations on an
    initially empty tree (comparator a total order) [isBalanced()] returns
    true, and [isEmpty()] returns true exactly when [size] is 0. *)
Theorem balanced_after_operations {K V : Type} (compare : K → K → Z) (falsy : K → bool)
    (noDuplicates : bool) (ops : list (op (K:=K) (V:=V))) :
  total_order compare →
  ∃ st : AVLTree K V,
    steps compare falsy noDuplicates ops empty = Done tt st
    ∧ isBalanced st = Done true st
    ∧ isEmpty st = Done (bool_decide (_size st = 0)) st.
Proof.
  intros Hcmp.
  destruct (steps_Inv compare falsy noDuplicates Hcmp ops empty PE) as (st & t & Hrun & HI).
  { apply Inv_empty. }
  destruct HI as [Hrep Hclean Havl _ Hsize].
  exists st. split; [done|]. split.
  - rewrite (isBalanced_tree st t Hrep Hclean). by rewrite avl_balanced.
  - destruct st as [h R sz]. destruct Hrep as (_ & _ & HR). cbn [heap _root _size] in *.
    unfold isEmpty. rewrite run_getRoot. unfold ret. f_equal. subst R sz.
    destruct t as [|p l k v b r|]; [done| |done].
    pose proof (count_nonneg l). pose proof (count_nonneg r).
    cbn [root_ptr count]. rewrite !bool_decide_eq_false_2; [done|lia|done].
Qed.

Lemma balanced_after_operations_witness :
  total_order DEFAULT_COMPARE
  ∧ ∃ st : AVLTree Z Z,
      steps DEFAULT_COMPARE falsyZ true
        [OpSet 1 None; OpSet 2 None; OpSet 3 None; OpInsert 4 (Some 4); OpDelete 1] empty
      = Done tt st
      ∧ isBalanced st = Done true st
      ∧ isEmpty st = Done (bool_decide (_size st = 0)) st.
Proof.
  split; [exact DEFAULT_COMPARE_order|].
  exact (balanced_after_operations DEFAULT_COMPARE falsyZ true
           [OpSet 1 None; OpSet 2 None; OpSet 3 None; OpInsert 4 (Some 4); OpDelete 1]
           DEFAULT_COMPARE_order).
Defined.

(** * Bulk loading, sorting and rotations *)

(** X10: [clear()] (and its alias [destroy()]) on any tree leaves an empty
    tree: [size] is 0, [isEmpty()] is true, [keys()] yields nothing; no node
    object is touched.  A [load] that follows does not throw and yields the
    loaded entries, whatever the tree held before. *)
Theorem clear_then_load {K V : Type} (compare : K → K → Z) (st : AVLTree K V)
    (ks : list K) (vs : list V) :
  ∃ st1 st2 : AVLTree K V,
    clear st = Done tt st1 ∧ destroy st = Done tt st1
    ∧ heap st1 = heap st ∧ _size st1 = 0
    ∧ isEmpty st1 = Done true st1 ∧ keys st1 = Done [] st1
    ∧ load compare ks vs false st1 = Done tt st2
    ∧ entries st2 = Done (load_entries ks vs) st2
    ∧ _size st2 = Z.of_nat (length ks).
Proof.
  destruct st as [h R sz].
  exists (mkTree h None 0).
  destruct (load_unsorted compare ks vs (mkTree h None 0) eq_refl)
    as (st2 & t & Hload & Hrep & Hcl & Hin & Hsz).
  exists st2. split; [done|]. split; [done|]. split; [done|]. split; [done|].
  split; [done|]. split.
  { apply (keys_tree (mkTree h None 0) PE); [|done]. split; [done|]. split; [constructor|done]. }
  split; [done|]. split; [|done]. rewrite <- Hin. by apply entries_tree.
Qed.

(** X11: [markBalance(root)] on a tree whose links are well formed returns
    the height of the tree and sets the [balanceFactor] of every node to the
    height of its left subtree minus the height of its right subtree; links,
    keys and values stay.  If no two sibling subtrees differ in height by
    more than 1, the balance factors then satisfy the AVL invariant. *)
Theorem markBalance_stores_height_differences {K V : Type} (st : AVLTree K V)
    (t : ptree K V) :
  shape st = Some t →
  ∃ st' : AVLTree K V,
    markBalance (S (size (heap st))) (_root st) st = Done (theight t) st'
    ∧ shape st' = Some (marked t)
    ∧ entries st' = Done (inorder t) st'
    ∧ (balanced t = true → avl (marked t)).
Proof.
  intros [Hrep Hcl]%shape_Rep. destruct st as [h R sz].
  destruct Hrep as (Hwf & Hnd & HR). cbn [heap _root] in *. subst R.
  destruct (markBalance_tree (S (size h)) h (root_ptr t) sz None t Hwf Hcl Hnd)
    as (h' & Hrun & Hwf' & _).
  { pose proof (depth_fuel _ _ _ Hwf Hnd). lia. }
  exists (mkTree h' (root_ptr t) sz). split; [done|].
  assert (Rep (mkTree h' (root_ptr t) sz) (marked t)) as Hrep'.
  { split; [done|]. split; [by rewrite ptrs_marked|]. simpl. by rewrite root_ptr_marked. }
  split; [apply Rep_shape; [done|by apply clean_marked]|].
  split; [|apply balanced_avl].
  rewrite <- inorder_marked. apply entries_tree; [done|by apply clean_marked].
Qed.

Lemma markBalance_stores_height_differences_witness :
  shape example_tree = Some example_shape
  ∧ ∃ st' : AVLTree Z Z,
      markBalance (S (size (heap example_tree))) (_root example_tree) example_tree
      = Done (theight example_shape) st'
      ∧ shape st' = Some (marked example_shape)
      ∧ entries st' = Done (inorder example_shape) st'
      ∧ (balanced example_shape = true → avl (marked example_shape)).
Proof.
  split; [exact example_shape_ok|].
  exact (markBalance_stores_height_differences example_tree example_shape example_shape_ok).
Defined.

(** X12: [load(keys, values)] without presort, on a tree with [size] 0 and
    keys that are in the order of the comparator (strictly ascending when
    the tree rejects duplicates, non-decreasing otherwise), builds a tree
    that satisfies all the invariants (search order, balance factors equal
    to the height differences and within [-1, 1], parent links, [size]) and
    holds the entries in the order given. *)
Theorem load_builds_balanced_tree {K V : Type} (compare : K → K → Z) (noDuplicates : bool)
    (st : AVLTree K V) (ks : list K) (vs : list V) :
  total_order compare →
  StronglySorted (λ a b, if noDuplicates then compare a b < 0 else compare a b ≤ 0) ks →
  _size st = 0 →
  ∃ (st' : AVLTree K V) (t' : ptree K V),
    load compare ks vs false st = Done tt st'
    ∧ invariants compare noDuplicates st' t'
    ∧ entries st' = Done (load_entries ks vs) st'
    ∧ isBalanced st' = Done true st'
    ∧ _size st' = Z.of_nat (length ks).
Proof.
  intros Hcmp Hsorted Hsize.
  destruct (load_unsorted_avl compare ks vs st Hsize)
    as (st' & t & Hload & Hrep & Hcl & Havl & Hin & Hsz).
  exists st', t. split; [done|]. split.
  { apply invariants_Inv; [done|]. split; try done.
    - unfold tkeys. rewrite Hin, load_entries_keys.
      unfold sorted. by destruct noDuplicates.
    - by rewrite count_inorder, Hin, load_entries_length. }
  split; [rewrite <- Hin; by apply entries_tree|]. split; [|done].
  rewrite (isBalanced_tree st' t Hrep Hcl). by rewrite avl_balanced.
Qed.

Lemma ascending_example :
  StronglySorted (λ a b, if true then DEFAULT_COMPARE a b < 0 else DEFAULT_COMPARE a b ≤ 0)
    [1; 2; 3; 4].
Proof. repeat constructor; by vm_compute. Qed.

Lemma load_builds_balanced_tree_witness :
  total_order DEFAULT_COMPARE
  ∧ StronglySorted (λ a b, if true then DEFAULT_COMPARE a b < 0 else DEFAULT_COMPARE a b ≤ 0)
      [1; 2; 3; 4]
  ∧ _size (empty : AVLTree Z Z) = 0
  ∧ ∃ (st' : AVLTree Z Z) (t' : ptree Z Z),
      load DEFAULT_COMPARE [1; 2; 3; 4] [10; 20; 30; 40] false empty = Done tt st'
      ∧ invariants DEFAULT_COMPARE true st' t'
      ∧ entries st' = Done (load_entries [1; 2; 3; 4] [10; 20; 30; 40]) st'
      ∧ isBalanced st' = Done true st'
      ∧ _size st' = Z.of_nat (length [1; 2; 3; 4]).
Proof.
  split; [exact DEFAULT_COMPARE_order|]. split; [exact ascending_example|].
  split; [reflexivity|].
  exact (load_builds_balanced_tree DEFAULT_COMPARE true empty [1; 2; 3; 4] [10; 20; 30; 40]
           DEFAULT_COMPARE_order ascending_example eq_refl).
Defined.

(** X13: [sort(keys, values, 0, keys.length - 1, compare)] on two arrays
    ([keys] and [values] are not one and the same array) of the same length,
    with a comparator that is a total order, returns; afterwards the keys
    are in non-decreasing order and every value is still at the index of its
    key: the pairs are a rearrangement of the pairs given. *)
Theorem sort_orders_keys {K V : Type} (compare : K → K → Z) (keys : list K)
    (values : list V) :
  total_order compare → length values = length keys →
  ∃ (keys' : list K) (values' : list V),
    sort compare (S (length keys)) (Apart keys values) 0 (Z.of_nat (length keys) - 1)
    = Some (Apart keys' values')
    ∧ zip keys' values' ≡ₚ zip keys values
    ∧ length keys' = length keys ∧ length values' = length values
    ∧ StronglySorted (λ a b, compare a b ≤ 0) keys'.
Proof.
  intros Hcmp Hlen.
  destruct (sort_sorted compare Hcmp keys values Hlen)
    as (keys' & values' & Hsort & Hk & Hv & Hperm & Hsorted).
  by exists keys', values'.
Qed.

Lemma sort_orders_keys_witness :
  total_order DEFAULT_COMPARE
  ∧ length [30; 10; 20; 11] = length [3; 1; 2; 1]
  ∧ ∃ (keys' : list Z) (values' : list Z),
      sort DEFAULT_COMPARE (S (length [3; 1; 2; 1])) (Apart [3; 1; 2; 1] [30; 10; 20; 11]) 0
        (Z.of_nat (length [3; 1; 2; 1]) - 1) = Some (Apart keys' values')
      ∧ zip keys' values' ≡ₚ zip [3; 1; 2; 1] [30; 10; 20; 11]
      ∧ length keys' = length [3; 1; 2; 1] ∧ length values' = length [30; 10; 20; 11]
      ∧ StronglySorted (λ a b, DEFAULT_COMPARE a b ≤ 0) keys'.
Proof.
  split; [exact DEFAULT_COMPARE_order|]. split; [reflexivity|].
  exact (sort_orders_keys DEFAULT_COMPARE [3; 1; 2; 1] [30; 10; 20; 11]
           DEFAULT_COMPARE_order eq_refl).
Defined.

(** X14: [load(keys, values, true)] (presort) with two arrays ([keys] and
    [values] are not one and the same array) of the same length, on a tree
    with [size] 0 and a comparator that is a total order (and, when the tree
    rejects duplicates, keys of which no two compare equal), builds a tree
    that satisfies all the invariants and holds exactly the pairs given, in
    the order of the comparator. *)
Theorem load_presort_builds_balanced_tree {K V : Type} (compare : K → K → Z)
    (noDuplicates : bool) (st : AVLTree K V) (ks : list K) (vs : list V) :
  total_order compare → length vs = length ks → _size st = 0 →
  (noDuplicates = true → distinct_keys compare ks) →
  ∃ (st' : AVLTree K V) (t' : ptree K V) (l : list (K * option V)),
    load_arrays compare (Apart ks vs) true st = Done tt st'
    ∧ invariants compare noDuplicates st' t'
    ∧ entries st' = Done l st'
    ∧ l ≡ₚ zip ks (Some <$> vs)
    ∧ _size st' = Z.of_nat (length ks).
Proof.
  intros Hcmp Hlen Hsize Hdist.
  destruct (sort_sorted compare Hcmp ks vs Hlen)
    as (ks' & vs' & Hsort & Hk & Hv & Hperm & Hsorted).
  destruct st as [h R sz]. simpl in Hsize. subst sz.
  destruct (load_build_avl ks' vs' (length ks) h R) as (st' & t & Hrun & Hrep & Hcl & Havl & Hin & Hsz);
    [done|].
  assert (Hzip : inorder t = zip ks' (Some <$> vs')).
  { rewrite Hin. apply load_entries_zip. congruence. }
  assert (Hkeys : tkeys t = ks').
  { unfold tkeys. rewrite Hzip. apply fst_zip. rewrite length_fmap. lia. }
  assert (Hpk : ks' ≡ₚ ks).
  { rewrite <- (fst_zip ks' vs') by lia. rewrite <- (fst_zip ks vs) by lia. by rewrite Hperm. }
  exists st', t, (inorder t). split.
  { unfold load_arrays. rewrite run_getSize. change (negb (0 =? 0)) with false. cbv iota.
    cbn [keysOf]. rewrite Hsort. cbn [liftOption]. rewrite run_ret. cbn [keysOf valuesOf].
    exact Hrun. }
  split.
  { apply invariants_Inv; [done|]. split; try done.
    - rewrite Hkeys. destruct noDuplicates; [|done].
      apply sorted_distinct; [done|done|].
      eapply distinct_keys_perm; [symmetry; exact Hpk|]. by apply Hdist.
    - rewrite count_inorder, Hin, load_entries_length. lia. }
  split; [by apply entries_tree|]. split; [|done].
  rewrite Hzip, !zip_fmap_Some. by rewrite Hperm.
Qed.

Lemma load_presort_builds_balanced_tree_witness :
  total_order DEFAULT_COMPARE
  ∧ length [30; 10; 20; 11] = length [3; 1; 2; 1]
  ∧ _size (empty : AVLTree Z Z) = 0
  ∧ (false = true → distinct_keys DEFAULT_COMPARE [3; 1; 2; 1])
  ∧ ∃ (st' : AVLTree Z Z) (t' : ptree Z Z) (l : list (Z * option Z)),
      load_arrays DEFAULT_COMPARE (Apart [3; 1; 2; 1] [30; 10; 20; 11]) true empty
      = Done tt st'
      ∧ invariants DEFAULT_COMPARE false st' t'
      ∧ entries st' = Done l st'
      ∧ l ≡ₚ zip [3; 1; 2; 1] (Some <$> [30; 10; 20; 11])
      ∧ _size st' = Z.of_nat (length [3; 1; 2; 1]).
Proof.
  split; [exact DEFAULT_COMPARE_order|]. split; [reflexivity|]. split; [reflexivity|].
  split; [discriminate|].
  exact (load_presort_builds_balanced_tree DEFAULT_COMPARE false empty [3; 1; 2; 1]
           [30; 10; 20; 11] DEFAULT_COMPARE_order eq_refl eq_refl
           (λ H : false = true, False_ind _ (Bool.diff_false_true H))).
Defined.

Lemma rotL_some {K V : Type} p (l : ptree K V) k v b q ql qk qv qb qr :
  ∃ t', rotL (PN p l k v b (PN q ql qk qv qb qr)) = Some t' ∧ root_ptr t' = Some q.
Proof. simpl. eauto. Qed.

Lemma rotR_some {K V : Type} p q (ql : ptree K V) qk qv qb qr k v b r :
  ∃ t', rotR (PN p (PN q ql qk qv qb qr) k v b r) = Some t' ∧ root_ptr t' = Some q.
Proof. simpl. eauto. Qed.

(** X15: on a node of a tree whose links are well formed, [rotateLeft(node)]
    returns the right child and [rotateRight] applied to that child returns
    the node and restores the tree as it was, links and balance factors;
    the same holds for [rotateRight] followed by [rotateLeft] of the left
    child.  A rotation towards a missing child returns [undefined] and
    changes nothing. *)
Theorem rotations_undo_each_other {K V : Type} (st : AVLTree K V) (t : ptree K V)
    (p : ptr) (n : Node K V) :
  shape st = Some t → p ∈ nodes t → heap st !! p = Some n →
  (∀ q, right n = Some q →
     ∃ st1 st2, rotateLeft p st = Done (Some q) st1
       ∧ rotateRight q st1 = Done (Some p) st2 ∧ shape st2 = Some t)
  ∧ (∀ q, left n = Some q →
     ∃ st1 st2, rotateRight p st = Done (Some q) st1
       ∧ rotateLeft q st1 = Done (Some p) st2 ∧ shape st2 = Some t)
  ∧ (right n = None → rotateLeft p st = Done None st)
  ∧ (left n = None → rotateRight p st = Done None st).
Proof.
  intros [Hrep Hcl]%shape_Rep Hin Hn.
  destruct (focus_node t p Hin) as (ctx & l & k & v & b & r & ->).
  destruct st as [h R sz]. destruct Hrep as (Hwf & Hnd & HR). cbn [heap _root] in *.
  pose proof Hwf as Hwf0. apply wf_plug in Hwf0 as [_ (Hp & _ & _)].
  rewrite Hp in Hn. injection Hn as <-. cbn [left right].
  pose proof (clean_plug _ _ Hcl) as [Hcll Hclr].
  split; [|split; [|split]].
  - intros q Hq. destruct r as [|q' ql qk qv qb qr|]; [done| |done].
    simpl in Hq. injection Hq as ->.
    destruct (rotL_some p l k v b q ql qk qv qb qr) as (t' & Hrot & Hroot).
    destruct (rotateLeft_tree h R sz ctx _ t' p Hwf Hnd Hrot eq_refl)
      as (h1 & Hrun1 & Hwf1 & Hnd1).
    destruct (rotateRight_tree h1 R sz ctx t' _ q Hwf1 Hnd1 (rotL_rotR _ _ Hrot) Hroot)
      as (h2 & Hrun2 & Hwf2 & Hnd2).
    rewrite Hroot in Hrun1. exists (mkTree h1 R sz), (mkTree h2 R sz).
    split; [done|]. split; [done|]. by apply Rep_shape.
  - intros q Hq. destruct l as [|q' ql qk qv qb qr|]; [done| |done].
    simpl in Hq. injection Hq as ->.
    destruct (rotR_some p q ql qk qv qb qr k v b r) as (t' & Hrot & Hroot).
    destruct (rotateRight_tree h R sz ctx _ t' p Hwf Hnd Hrot eq_refl)
      as (h1 & Hrun1 & Hwf1 & Hnd1).
    destruct (rotateLeft_tree h1 R sz ctx t' _ q Hwf1 Hnd1 (rotR_rotL _ _ Hrot) Hroot)
      as (h2 & Hrun2 & Hwf2 & Hnd2).
    rewrite Hroot in Hrun1. exists (mkTree h1 R sz), (mkTree h2 R sz).
    split; [done|]. split; [done|]. by apply Rep_shape.
  - intros Hr. unfold rotateLeft. mrun. by rewrite Hr.
  - intros Hl. unfold rotateRight. mrun. by rewrite Hl.
Qed.

Lemma example_root_cell :
  heap example_tree !! 1%positive
  = Some (mkNode None (Some 2%positive) (Some 3%positive) (-1) 20 (Some 2)).
Proof. vm_compute. reflexivity. Qed.

Lemma rotations_undo_each_other_witness :
  shape example_tree = Some example_shape
  ∧ 1%positive ∈ nodes example_shape
  ∧ heap example_tree !! 1%positive
    = Some (mkNode None (Some 2%positive) (Some 3%positive) (-1) 20 (Some 2))
  ∧ ∃ st1 st2, rotateLeft 1%positive example_tree = Done (Some 3%positive) st1
      ∧ rotateRight 3%positive st1 = Done (Some 1%positive) st2
      ∧ shape st2 = Some example_shape.
Proof.
  assert (1%positive ∈ nodes example_shape) as Hin.
  { apply list_elem_of_lookup. by exists 1%nat. }
  split; [exact example_shape_ok|]. split; [exact Hin|]. split; [exact example_root_cell|].
  exact (proj1 (rotations_undo_each_other example_tree example_shape 1%positive _
                  example_shape_ok Hin example_root_cell) 3%positive eq_refl).
Defined.

(** X16: on a tree that satisfies the invariants (comparator a total
    order), [has(key)] is true exactly when [keys()] holds a key that
    compares equal to [key]; [get(key)] then returns the value of an entry
    of [entries()] whose key compares equal, and [undefined] when there is
    none.  [keys()] and [values()] are the two halves of [entries()]. *)
Theorem lookup_matches_entries {K V : Type} (compare : K → K → Z) (noDuplicates : bool)
    (st : AVLTree K V) (t : ptree K V) (k : K) :
  total_order compare → invariants compare noDuplicates st t →
  ∃ (l : list (K * option V)) (b : bool) (r : option V),
    entries st = Done l st ∧ keys st = Done l.*1 st ∧ values st = Done l.*2 st
    ∧ has compare k st = Done b st ∧ get compare k st = Done r st
    ∧ (b = true ↔ ∃ k', k' ∈ l.*1 ∧ compare k k' = 0)
    ∧ (b = true → ∃ e, e ∈ l ∧ compare k e.1 = 0 ∧ r = e.2)
    ∧ (b = false → r = None).
Proof.
  intros Hcmp Hinv. apply invariants_Inv in Hinv; [|done].
  pose proof (Inv_weak _ _ _ _ Hinv) as Hs. destruct Hinv as [Hrep Hcl _ _ _].
  exists (inorder t), (bool_decide (is_Some (tfind compare k t))), (tfind compare k t ≫= snd).
  split; [by apply entries_tree|]. split; [by apply keys_tree|].
  split; [by apply values_tree|]. split; [by apply has_tree|]. split; [by apply get_tree|].
  split; [|split].
  - rewrite bool_decide_eq_true. split.
    + intros [e [He Hk]%tfind_Some]. exists e.1. split; [|done].
      apply list_elem_of_fmap. by exists e.
    + intros (k' & [e [-> He]]%list_elem_of_fmap & Hk).
      apply (tfind_present compare Hcmp); [done|]. apply Exists_exists. eauto.
  - rewrite bool_decide_eq_true. intros [e Hfind]. rewrite Hfind.
    apply tfind_Some in Hfind as [He Hk]. by exists e.
  - rewrite bool_decide_eq_false. intros Hnone.
    destruct (tfind compare k t) as [e|]; [|done]. destruct Hnone. eauto.
Qed.

Lemma lookup_matches_entries_witness :
  total_order DEFAULT_COMPARE ∧ invariants DEFAULT_COMPARE false example_tree example_shape
  ∧ ∃ (l : list (Z * option Z)) (b : bool) (r : option Z),
      entries example_tree = Done l example_tree
      ∧ keys example_tree = Done l.*1 example_tree
      ∧ values example_tree = Done l.*2 example_tree
      ∧ has DEFAULT_COMPARE 25 example_tree = Done b example_tree
      ∧ get DEFAULT_COMPARE 25 example_tree = Done r example_tree
      ∧ (b = true ↔ ∃ k', k' ∈ l.*1 ∧ DEFAULT_COMPARE 25 k' = 0)
      ∧ (b = true → ∃ e, e ∈ l ∧ DEFAULT_COMPARE 25 e.1 = 0 ∧ r = e.2)
      ∧ (b = false → r = None).
Proof.
  split; [exact DEFAULT_COMPARE_order|]. split; [exact example_invariants|].
  exact (lookup_matches_entries DEFAULT_COMPARE false example_tree example_shape 25
           DEFAULT_COMPARE_order example_invariants).
Defined.

(** X17: on a tree that satisfies the invariants, [height(root)] (the
    number of nodes on the longest path down from the root) returns a number
    [h] with [2 ^ (h / 2) <= size + 1]: the height is at most
    [2 * log2 (size + 1) + 1], so a descent by [get], [has], [set] or
    [delete] takes a number of steps logarithmic in [size]. *)
Theorem height_is_logarithmic {K V : Type} (compare : K → K → Z) (noDuplicates : bool)
    (st : AVLTree K V) (t : ptree K V) :
  invariants compare noDuplicates st t →
  ∃ h : Z,
    height (S (size (heap st))) (_root st) st = Done h st
    ∧ 0 ≤ h ∧ 2 ^ (h / 2) ≤ _size st + 1.
Proof.
  intros (Hshape & _ & Havl & Hsize). apply shape_Rep in Hshape as [Hrep Hcl].
  destruct st as [hp R sz]. destruct Hrep as (Hwf & Hnd & HR). cbn [heap _root _size] in *.
  subst R sz. exists (theight t). split.
  - apply (height_tree _ _ _ _ None); [done|done|].
    pose proof (depth_fuel _ _ _ Hwf Hnd). lia.
  - split; [apply theight_nonneg|by apply avl_height_bound].
Qed.

Lemma height_is_logarithmic_witness :
  invariants DEFAULT_COMPARE false example_tree example_shape
  ∧ ∃ h : Z,
      height (S (size (heap example_tree))) (_root example_tree) example_tree
      = Done h example_tree
      ∧ 0 ≤ h ∧ 2 ^ (h / 2) ≤ _size example_tree + 1.
Proof.
  split; [exact example_invariants|].
  exact (height_is_logarithmic DEFAULT_COMPARE false example_tree example_shape
           example_invariants).
Defined.

(** X18: [set(key, value)] on a tree that satisfies the invariants changes
    [entries()] in one place.  Either a new entry is put between the entries
    with smaller keys and the others (when duplicates are allowed: before the
    entries whose keys compare equal); or, when the tree rejects duplicates
    and holds a key that compares equal, that entry keeps its key and gets
    the new value. *)
Theorem set_places_entry {K V : Type} (compare : K → K → Z) (noDuplicates : bool)
    (st : AVLTree K V) (t : ptree K V) (k : K) (v : option V) :
  total_order compare → invariants compare noDuplicates st t →
  ∃ (st' : AVLTree K V) (old new : list (K * option V)),
    set compare noDuplicates k v st = Done tt st'
    ∧ entries st = Done old st ∧ entries st' = Done new st'
    ∧ ((∃ l1 l2, old = l1 ++ l2 ∧ new = l1 ++ (k, v) :: l2
          ∧ Forall (λ e, compare e.1 k < 0) l1
          ∧ Forall (λ e, if noDuplicates then compare k e.1 < 0 else compare k e.1 ≤ 0) l2)
       ∨ (noDuplicates = true
          ∧ ∃ l1 k' v' l2, old = l1 ++ (k', v') :: l2 ∧ new = l1 ++ (k', v) :: l2
              ∧ compare k k' = 0)).
Proof.
  intros Hcmp Hinv. apply (invariants_Inv compare noDuplicates Hcmp) in Hinv as HI.
  destruct (set_Inv compare noDuplicates Hcmp k v st t HI)
    as (st' & t' & ins & Hrun & HI' & Hent & Hsz).
  destruct HI as [Hrep Hcl _ _ _]. destruct HI' as [Hrep' Hcl' _ _ _].
  exists st', (inorder t), (inorder t').
  split; [done|]. split; [by apply entries_tree|]. split; [by apply entries_tree|].
  unfold set_entries in Hent. destruct ins; [left|right]; exact Hent.
Qed.

Lemma set_places_entry_witness :
  total_order DEFAULT_COMPARE ∧ invariants DEFAULT_COMPARE false example_tree example_shape
  ∧ ∃ (st' : AVLTree Z Z) (old new : list (Z * option Z)),
      set DEFAULT_COMPARE false 25 (Some 7) example_tree = Done tt st'
      ∧ entries example_tree = Done old example_tree ∧ entries st' = Done new st'
      ∧ ((∃ l1 l2, old = l1 ++ l2 ∧ new = l1 ++ (25, Some 7) :: l2
            ∧ Forall (λ e, DEFAULT_COMPARE e.1 25 < 0) l1
            ∧ Forall (λ e, if false then DEFAULT_COMPARE 25 e.1 < 0
                           else DEFAULT_COMPARE 25 e.1 ≤ 0) l2)
         ∨ (false = true
            ∧ ∃ l1 k' v' l2, old = l1 ++ (k', v') :: l2 ∧ new = l1 ++ (k', Some 7) :: l2
                ∧ DEFAULT_COMPARE 25 k' = 0)).
Proof.
  split; [exact DEFAULT_COMPARE_order|]. split; [exact example_invariants|].
  exact (set_places_entry DEFAULT_COMPARE false example_tree example_shape 25 (Some 7)
           DEFAULT_COMPARE_order example_invariants).
Defined.

(** X19: on a tree that satisfies the invariants and holds no key that
    compares equal to [key] ([has(key)] is false), [set(key, value)]
    followed by [delete(key)], for a key that is not falsy, returns true and
    leaves [entries()] and [size] as they were before the two calls; the
    invariants hold again. *)
Theorem set_then_delete_restores {K V : Type} (compare : K → K → Z) (falsy : K → bool)
    (noDuplicates : bool) (st : AVLTree K V) (t : ptree K V) (k : K) (v : option V) :
  total_order compare → invariants compare noDuplicates st t →
  falsy k = false → has compare k st = Done false st →
  ∃ (st1 st2 : AVLTree K V) (t2 : ptree K V) (l : list (K * option V)),
    set compare noDuplicates k v st = Done tt st1
    ∧ delete compare falsy k st1 = Done true st2
    ∧ invariants compare noDuplicates st2 t2
    ∧ entries st = Done l st ∧ entries st2 = Done l st2
    ∧ _size st2 = _size st.
Proof.
  intros Hcmp Hinv Hfalsy Hhas.
  apply (invariants_Inv compare noDuplicates Hcmp) in Hinv as HI.
  pose proof (Inv_weak _ _ _ _ HI) as Hw.
  destruct (set_Inv compare noDuplicates Hcmp k v st t HI)
    as (st1 & t1 & ins & Hrun & HI1 & Hent & Hsz).
  assert (Habsent : ¬ present compare k (inorder t)).
  { destruct HI as [Hrep Hcl _ _ _]. rewrite (has_tree compare k st t Hrep Hcl) in Hhas.
    injection Hhas as Hb. apply bool_decide_eq_false in Hb.
    by rewrite <- (tfind_is_Some_iff compare Hcmp k t Hw). }
  assert (Hins : ins = true).
  { rewrite (set_entries_ins compare Hcmp _ _ _ _ _ _ Hent).
    rewrite (bool_decide_eq_false_2 _ Habsent). by destruct noDuplicates. }
  subst ins. destruct Hent as (l1 & l2 & Hold & Hnew & _ & _).
  destruct (delete_present compare falsy noDuplicates Hcmp k st1 t1 HI1 Hfalsy)
    as (st2 & t2 & Hdel & HI2 & (m1 & k0 & v0 & m2 & Hm & Hres & Hk0) & Hsz2).
  { rewrite Hnew. apply Exists_app. right. apply Exists_cons_hd.
    apply (compare_refl compare Hcmp). }
  exists st1, st2, t2, (inorder t).
  split; [done|]. split; [done|]. split; [by apply invariants_Inv|].
  destruct HI as [Hrep Hcl _ _ _]. destruct HI2 as [Hrep2 Hcl2 _ _ _].
  split; [by apply entries_tree|]. split; [|lia].
  rewrite (entries_tree st2 t2 Hrep2 Hcl2). f_equal.
  rewrite Hnew in Hm. unfold present in Habsent. rewrite Hold in Habsent.
  rewrite <- Forall_Exists_neg, Forall_app in Habsent. destruct Habsent as [Ha1 Ha2].
  destruct (split_at_unique (λ e, compare k e.1 = 0) l1 l2 m1 m2 (k, v) (k0, v0) Hm Ha1 Ha2 Hk0)
    as (<- & _ & <-).
  by rewrite Hres, Hold.
Qed.

Lemma example_has_15 : has DEFAULT_COMPARE 15 example_tree = Done false example_tree.
Proof. vm_compute. reflexivity. Qed.

Lemma set_then_delete_restores_witness :
  total_order DEFAULT_COMPARE ∧ invariants DEFAULT_COMPARE false example_tree example_shape
  ∧ falsyZ 15 = false ∧ has DEFAULT_COMPARE 15 example_tree = Done false example_tree
  ∧ ∃ (st1 st2 : AVLTree Z Z) (t2 : ptree Z Z) (l : list (Z * option Z)),
      set DEFAULT_COMPARE false 15 None example_tree = Done tt st1
      ∧ delete DEFAULT_COMPARE falsyZ 15 st1 = Done true st2
      ∧ invariants DEFAULT_COMPARE false st2 t2
      ∧ entries example_tree = Done l example_tree ∧ entries st2 = Done l st2
      ∧ _size st2 = _size example_tree.
Proof.
  split; [exact DEFAULT_COMPARE_order|]. split; [exact example_invariants|].
  split; [reflexivity|]. split; [exact example_has_15|].
  exact (set_then_delete_restores DEFAULT_COMPARE falsyZ false example_tree example_shape
           15 None DEFAULT_COMPARE_order example_invariants eq_refl example_has_15).
Defined.


